(** * DeZero [functions.py]: a shallow embedding and its verified properties

    The development follows the layering of the Python package:

    - the array backend ([numpy], reached through [cuda.get_array_module]):
      n-dimensional arrays in row-major order, with the operations that
      [dezero/functions.py] calls on them;
    - the helpers of [dezero/utils.py] and the graph machinery of
      [dezero/core.py] ([Variable], [Function], [Config]);
    - the differentiable functions of [dezero/functions.py] themselves,
      each with its [forward] over raw arrays and its [backward] over
      graph nodes.

    Scalars are taken from an abstract backend (a type with the arithmetic
    the code uses), instantiated with the real numbers for the analytic
    statements and with binary64 floats where IEEE behaviour matters. *)

From Stdlib Require Import String Floats.
From Stdlib Require Import ZArith Reals Lia Lra Bool PeanoNat List.
From Stdlib Require Import Permutation Sorted FinFun.
Import ListNotations.

(* ================================================================== *)
(** * Shapes, multi-indices and row-major layout                       *)
(* ================================================================== *)

Definition Shape := list nat.

(** [np.prod(shape)]: the number of elements of an array of that shape. *)
Definition size (s : Shape) : nat := fold_right Nat.mul 1 s.

(** Flat (C-order) offset of a multi-index, as [np.ravel_multi_index]. *)
Fixpoint ravel (s : Shape) (idx : list nat) : nat :=
  match s, idx with
  | _ :: s', i :: idx' => i * size s' + ravel s' idx'
  | _, _ => 0
  end.

(** All multi-indices of a shape in C order, as [np.ndindex] enumerates them. *)
Fixpoint indices (s : Shape) : list (list nat) :=
  match s with
  | [] => [[]]
  | d :: s' => flat_map (fun i => map (cons i) (indices s')) (seq 0 d)
  end.

(** A multi-index is in bounds when it has the rank of the shape and every
    coordinate is below the extent of its axis. *)
Definition in_bounds (s : Shape) (idx : list nat) : Prop := Forall2 lt idx s.

Fixpoint in_boundsb (s : Shape) (idx : list nat) : bool :=
  match s, idx with
  | [], [] => true
  | d :: s', i :: idx' => (i <? d) && in_boundsb s' idx'
  | _, _ => false
  end.

(** Default element, returned by reads that the bounds checks of the
    operations below rule out. *)
Class Dflt (T : Type) := dflt : T.
#[export] Instance Dflt_nat : Dflt nat := 0.
#[export] Instance Dflt_Z : Dflt Z := 0%Z.
#[export] Instance Dflt_bool : Dflt bool := false.

Record ndarray (T : Type) : Type := mk_ndarray {
  shape : Shape;
  data : list T
}.
Arguments mk_ndarray {T} _ _.
Arguments shape {T} _.
Arguments data {T} _.

Section Arrays.
Context {T : Type} `{Dflt T}.

Definition ndim (a : ndarray T) : nat := length (shape a).

(** Every array produced by the backend holds [size shape] elements. *)
Definition wf (a : ndarray T) : Prop := length (data a) = size (shape a).

(** [a[idx]] for a full multi-index. *)
Definition get (a : ndarray T) (idx : list nat) : T :=
  nth (ravel (shape a) idx) (data a) dflt.

(** The array of shape [s] whose element at [idx] is [f idx]. *)
Definition tabulate (s : Shape) (f : list nat -> T) : ndarray T :=
  mk_ndarray s (map f (indices s)).

(** [np.full(s, v)] *)
Definition full (s : Shape) (v : T) : ndarray T := tabulate s (fun _ => v).

(** A 0-d array holding one scalar, as [np.array(v)]. *)
Definition scalar (v : T) : ndarray T := mk_ndarray [] [v].
End Arrays.

(* ================================================================== *)
(** * The array backend                                                *)
(* ================================================================== *)

(** The scalar arithmetic of the array module [xp] that
    [cuda.get_array_module] returns.  The functions of the package only
    ever combine array elements with these operations. *)
Class Backend (A : Type) : Type := {
  bk_of_Z : Z -> A;              (* an integer as a float *)
  bk_add : A -> A -> A;
  bk_sub : A -> A -> A;
  bk_mul : A -> A -> A;
  bk_div : A -> A -> A;
  bk_neg : A -> A;
  bk_exp : A -> A;
  bk_log : A -> A;
  bk_max : A -> A -> A;          (* [xp.maximum] on two scalars *)
  bk_gt : A -> A -> bool         (* [x > y] *)
}.

Definition bk_zero {A} `{Backend A} : A := bk_of_Z 0.
Definition bk_one {A} `{Backend A} : A := bk_of_Z 1.
Definition bk_of_bool {A} `{Backend A} (b : bool) : A :=
  if b then bk_one else bk_zero.

#[export] Instance Dflt_backend {A} `{Backend A} : Dflt A := @bk_zero A _.

(** Exact real arithmetic: the idealised backend of the analytic claims. *)
#[export] Instance R_backend : Backend R := {
  bk_of_Z := IZR;
  bk_add := Rplus;
  bk_sub := Rminus;
  bk_mul := Rmult;
  bk_div := Rdiv;
  bk_neg := Ropp;
  bk_exp := exp;
  bk_log := ln;
  bk_max := Rmax;
  bk_gt := fun x y => if Rlt_dec y x then true else false
}.

(** IEEE 754 binary64, the dtype of numpy's float arrays.  The kernel's
    floats have no exponential or logarithm, so these two come from
    outside. *)
Definition float_of_Z (z : Z) : float :=
  match z with
  | Z0 => PrimFloat.of_uint63 (Uint63.of_Z 0)
  | Zpos _ => PrimFloat.of_uint63 (Uint63.of_Z z)
  | Zneg _ => PrimFloat.opp (PrimFloat.of_uint63 (Uint63.of_Z (- z)))
  end.

Definition float_max (x y : float) : float :=
  if PrimFloat.is_nan x then x
  else if PrimFloat.is_nan y then y
  else if PrimFloat.ltb x y then y else x.

Definition float_backend (fexp flog : float -> float) : Backend float := {|
  bk_of_Z := float_of_Z;
  bk_add := PrimFloat.add;
  bk_sub := PrimFloat.sub;
  bk_mul := PrimFloat.mul;
  bk_div := PrimFloat.div;
  bk_neg := PrimFloat.opp;
  bk_exp := fexp;
  bk_log := flog;
  bk_max := float_max;
  bk_gt := fun x y => PrimFloat.ltb y x
|}.

(* ------------------------------------------------------------------ *)
(** ** Small list and option helpers                                   *)
(* ------------------------------------------------------------------ *)

Definition obind {X Y} (o : option X) (k : X -> option Y) : option Y :=
  match o with Some x => k x | None => None end.

Fixpoint omapM {X Y} (f : X -> option Y) (l : list X) : option (list Y) :=
  match l with
  | [] => Some []
  | x :: l' =>
      obind (f x) (fun y => obind (omapM f l') (fun ys => Some (y :: ys)))
  end.

Fixpoint list_set {X} (k : nat) (v : X) (l : list X) : list X :=
  match l, k with
  | [], _ => []
  | _ :: l', 0 => v :: l'
  | x :: l', S k' => x :: list_set k' v l'
  end.

Fixpoint nodupb (l : list nat) : bool :=
  match l with
  | [] => true
  | x :: l' => negb (existsb (Nat.eqb x) l') && nodupb l'
  end.

(** Position of the first occurrence of [m] in [l] ([length l] if absent). *)
Fixpoint index_of (m : nat) (l : list nat) : nat :=
  match l with
  | [] => 0
  | x :: l' => if x =? m then 0 else S (index_of m l')
  end.

(* ------------------------------------------------------------------ *)
(** ** Axes, permutations and broadcasting of shapes                   *)
(* ------------------------------------------------------------------ *)

(** numpy's normalisation of an axis number: negative axes count from the
    end, anything outside [-n, n) is an [AxisError]. *)
Definition norm_axis (n : nat) (ax : Z) : option nat :=
  if ((- Z.of_nat n <=? ax) && (ax <? Z.of_nat n))%Z
  then Some (Z.to_nat (ax mod Z.of_nat n)) else None.

(** The same rule for an element index along an axis of extent [d]
    ([IndexError] outside [-d, d)). *)
Definition norm_index (d : nat) (i : Z) : option nat := norm_axis d i.

(** The [axis] argument of a reduction: [None], one int, or a tuple. *)
Inductive Axis : Type :=
| AxisNone
| AxisInt (a : Z)
| AxisTuple (l : list Z).

Definition axes_of (n : nat) (ax : Axis) : option (list nat) :=
  match ax with
  | AxisNone => Some (seq 0 n)
  | AxisInt a => obind (norm_axis n a) (fun k => Some [k])
  | AxisTuple l =>
      obind (omapM (norm_axis n) l)
            (fun ks => if nodupb ks then Some ks else None)
  end.

(** [permute p l] lists the entries of [l] in the order given by [p]:
    entry [k] of the result is [l[p[k]]]. *)
Definition permute (p : list nat) (l : list nat) : list nat :=
  map (fun k => nth k l 0) p.

Definition inverse (p : list nat) : list nat :=
  map (fun m => index_of m p) (seq 0 (length p)).

(** [p] lists every axis of a rank-[n] array exactly once. *)
Definition is_perm (n : nat) (p : list nat) : Prop :=
  length p = n /\ NoDup p /\ Forall (fun k => k < n) p.

(** The permutation that [ndarray.transpose] applies for its [axes]
    argument: all axes reversed for [None], else the normalised axes, which
    must name every axis exactly once. *)
Definition transpose_perm (n : nat) (axes : option (list Z))
  : option (list nat) :=
  match axes with
  | None => Some (rev (seq 0 n))
  | Some l =>
      if length l =? n then
        obind (omapM (norm_axis n) l)
              (fun p => if nodupb p then Some p else None)
      else None
  end.

(** Broadcasting of two shapes, aligned at the trailing axis. *)
Fixpoint broadcast_rev (r1 r2 : list nat) : option (list nat) :=
  match r1, r2 with
  | [], r => Some r
  | r, [] => Some r
  | d1 :: t1, d2 :: t2 =>
      obind (if d1 =? d2 then Some d1
             else if d1 =? 1 then Some d2
             else if d2 =? 1 then Some d1 else None)
            (fun d => obind (broadcast_rev t1 t2) (fun t => Some (d :: t)))
  end.

Definition broadcast_shapes (s1 s2 : Shape) : option Shape :=
  option_map (@rev nat) (broadcast_rev (rev s1) (rev s2)).

(** Whether an array of shape [sa] can be broadcast to exactly [s]. *)
Fixpoint broadcastable_rev (ra r : list nat) : bool :=
  match ra, r with
  | [], _ => true
  | _ :: _, [] => false
  | da :: ta, d :: t => ((da =? d) || (da =? 1)) && broadcastable_rev ta t
  end.

Definition broadcastable (sa s : Shape) : bool :=
  broadcastable_rev (rev sa) (rev s).

(** The index of the source element that a broadcast result reads at [j]:
    leading axes are dropped and axes of extent one are read at 0. *)
Definition bproj (sa : Shape) (j : list nat) : list nat :=
  map (fun '(da, i) => if da =? 1 then 0 else i)
      (combine sa (skipn (length j - length sa) j)).

(** Masks and shapes of a reduction over the axes [axes] of a shape. *)
Definition reduce_mask (n : nat) (axes : list nat) : list bool :=
  map (fun k => existsb (Nat.eqb k) axes) (seq 0 n).

Definition kept_shape (mask : list bool) (s : Shape) : Shape :=
  map (fun '(m, d) => if (m : bool) then 1 else d) (combine mask s).

Definition squeezed_shape (mask : list bool) (s : Shape) : Shape :=
  map snd (filter (fun p => negb (fst p)) (combine mask s)).

Definition lane_shape (mask : list bool) (s : Shape) : Shape :=
  map (fun '(m, d) => if (m : bool) then d else 1) (combine mask s).

(** Reinsert a zero coordinate at every reduced axis. *)
Fixpoint expand (mask : list bool) (j : list nat) : list nat :=
  match mask with
  | [] => []
  | true :: m => 0 :: expand m j
  | false :: m =>
      match j with
      | i :: j' => i :: expand m j'
      | [] => 0 :: expand m []
      end
  end.

Definition add_idx (i r : list nat) : list nat :=
  map (fun '(a, b) => a + b) (combine i r).

(* ------------------------------------------------------------------ *)
(** ** Data movement: reshape, transpose, broadcast, indexing          *)
(* ------------------------------------------------------------------ *)

(** The shape that [reshape] resolves a request to: non-negative extents
    must multiply to the number of elements [n]; a single [-1] is
    inferred; anything else is a [ValueError]. *)
Definition resolve_shape (n : nat) (req : list Z) : option Shape :=
  let known := filter (fun z => (0 <=? z)%Z) req in
  let unknown := filter (fun z => (z <? 0)%Z) req in
  let p := size (map Z.to_nat known) in
  match unknown with
  | [] => if p =? n then Some (map Z.to_nat req) else None
  | [(-1)%Z] =>
      if (negb (p =? 0)) && (n mod p =? 0)
      then Some (map (fun z => if (z <? 0)%Z then n / p else Z.to_nat z) req)
      else None
  | _ => None
  end.

Definition shape_req (s : Shape) : list Z := map Z.of_nat s.

(** Python's [x.shape == shape] for a requested shape. *)
Definition shape_eqb (s : Shape) (req : list Z) : bool :=
  if list_eq_dec Z.eq_dec (shape_req s) req then true else false.

(** Selections of [x[slices]] that the development covers: an integer, an
    integer array, and a pair of one-dimensional integer arrays. *)
Inductive Index : Type :=
| IdxInt (i : Z)
| IdxArray (ks : ndarray Z)
| IdxPair (rs cs : list Z).

(** Entry [k] of a one-dimensional index array that takes part in a
    broadcast: an array of one element is read at 0 throughout. *)
Definition bnth (l : list nat) (k : nat) : nat :=
  nth (if length l =? 1 then 0 else k) l 0.

(** For a selection on an array of shape [s]: the shape of the result and,
    for every index of the result, the index of the element of the array
    it stands for.  [None] is numpy's [IndexError]. *)
Definition index_plan (s : Shape) (ix : Index)
  : option (Shape * (list nat -> list nat)) :=
  match ix, s with
  | IdxInt i, d :: s' =>
      obind (norm_index d i) (fun i' => Some (s', fun p => i' :: p))
  | IdxArray ks, d :: s' =>
      obind (omapM (norm_index d) (data ks)) (fun ks' =>
        let r := length (shape ks) in
        Some (shape ks ++ s',
              fun p => nth (ravel (shape ks) (firstn r p)) ks' 0 :: skipn r p))
  | IdxPair rs cs, d0 :: d1 :: s' =>
      obind (omapM (norm_index d0) rs) (fun rs' =>
      obind (omapM (norm_index d1) cs) (fun cs' =>
      obind (broadcast_shapes [length rs] [length cs]) (fun n =>
        Some (n ++ s',
              fun p => match p with
                       | k :: p' => bnth rs' k :: bnth cs' k :: p'
                       | [] => []
                       end))))
  | _, _ => None
  end.

Section DataMovement.
Context {T : Type} `{Dflt T}.

(** [x.reshape(shape)] *)
Definition np_reshape (x : ndarray T) (req : list Z) : option (ndarray T) :=
  obind (resolve_shape (size (shape x)) req)
        (fun s => Some (mk_ndarray s (data x))).

(** The array whose axis [k] is the axis [p[k]] of [x]: its element at [j]
    is the element of [x] at the index [i] with [i[p[k]] = j[k]]. *)
Definition transpose_by (p : list nat) (x : ndarray T) : ndarray T :=
  tabulate (permute p (shape x)) (fun j => get x (permute (inverse p) j)).

(** [x.transpose(axes)] *)
Definition np_transpose (x : ndarray T) (axes : option (list Z))
  : option (ndarray T) :=
  obind (transpose_perm (ndim x) axes) (fun p => Some (transpose_by p x)).

(** [xp.broadcast_to(x, shape)] *)
Definition np_broadcast_to (x : ndarray T) (s : Shape) : option (ndarray T) :=
  if broadcastable (shape x) s
  then Some (tabulate s (fun j => get x (bproj (shape x) j)))
  else None.

(** [x.squeeze(axes)] for leading axes: every squeezed axis must have
    extent one. *)
Definition np_squeeze_lead (x : ndarray T) (lead : nat) : option (ndarray T) :=
  if forallb (Nat.eqb 1) (firstn lead (shape x))
  then Some (mk_ndarray (skipn lead (shape x)) (data x))
  else None.

(** [x.ravel()] *)
Definition np_ravel (x : ndarray T) : list T := data x.

(** [x[slices]] *)
Definition np_getitem (x : ndarray T) (ix : Index) : option (ndarray T) :=
  obind (index_plan (shape x) ix) (fun '(rs, src) =>
    Some (tabulate rs (fun p => get x (src p)))).

(** In-place store [x[idx] = v] of one element. *)
Definition set (x : ndarray T) (idx : list nat) (v : T) : ndarray T :=
  mk_ndarray (shape x) (list_set (ravel (shape x) idx) v (data x)).

(** Elementwise binary operation with broadcasting of the operands. *)
Definition np_binop {U V : Type} `{Dflt U} (f : T -> U -> V)
           (a : ndarray T) (b : ndarray U) : option (ndarray V) :=
  obind (broadcast_shapes (shape a) (shape b)) (fun s =>
    Some (tabulate s (fun j => f (get a (bproj (shape a) j))
                                (get b (bproj (shape b) j))))).

(** Elementwise unary operation. *)
Definition np_map {V : Type} (f : T -> V) (a : ndarray T) : ndarray V :=
  mk_ndarray (shape a) (map f (data a)).
End DataMovement.

(** [xp.eye(n, dtype=int)] and [xp.arange(n)] *)
Definition np_eye (n : nat) : ndarray Z :=
  tabulate [n; n] (fun j => match j with
                            | [r; c] => if r =? c then 1%Z else 0%Z
                            | _ => 0%Z
                            end).

Definition np_arange (n : nat) : list Z := map Z.of_nat (seq 0 n).

(* ------------------------------------------------------------------ *)
(** ** Arithmetic on arrays                                            *)
(* ------------------------------------------------------------------ *)

Section Numeric.
Context {A : Type} `{Backend A}.

(** [xp.zeros(shape)] and [xp.ones_like] *)
Definition np_zeros (s : Shape) : ndarray A := full s bk_zero.
Definition np_ones (s : Shape) : ndarray A := full s bk_one.

(** The elements of [x] that a reduction folds into the cell [j] of its
    result, in C order. *)
Definition lane (x : ndarray A) (mask : list bool) (keepdims : bool)
           (j : list nat) : list A :=
  let jf := if keepdims then j else expand mask j in
  map (fun r => get x (add_idx jf r)) (indices (lane_shape mask (shape x))).

Definition reduced_shape (mask : list bool) (keepdims : bool) (s : Shape)
  : Shape :=
  if keepdims then kept_shape mask s else squeezed_shape mask s.

(** [x.sum(axis=axis, keepdims=keepdims)].  The elements of a lane are
    added from left to right, starting from zero. *)
Definition np_sum (x : ndarray A) (axis : Axis) (keepdims : bool)
  : option (ndarray A) :=
  obind (axes_of (ndim x) axis) (fun axes =>
    let mask := reduce_mask (ndim x) axes in
    Some (tabulate (reduced_shape mask keepdims (shape x))
                   (fun j => fold_left bk_add (lane x mask keepdims j) bk_zero))).

(** [x.max(axis=axis, keepdims=keepdims)]: a reduction without identity,
    which raises [ValueError] when a reduced axis has extent zero. *)
Definition np_max (x : ndarray A) (axis : Axis) (keepdims : bool)
  : option (ndarray A) :=
  obind (axes_of (ndim x) axis) (fun axes =>
    let mask := reduce_mask (ndim x) axes in
    if existsb (fun '(m, d) => (m : bool) && (d =? 0)) (combine mask (shape x))
    then None
    else Some (tabulate (reduced_shape mask keepdims (shape x))
                 (fun j => match lane x mask keepdims j with
                           | v :: vs => fold_left bk_max vs v
                           | [] => bk_zero
                           end))).

(** [x.dot(W)] for two matrices. *)
Definition np_dot (x W : ndarray A) : option (ndarray A) :=
  match shape x, shape W with
  | [n; m], [m'; k] =>
      if m =? m' then
        Some (tabulate [n; k] (fun j =>
                match j with
                | [i; l] =>
                    fold_left bk_add
                      (map (fun c => bk_mul (get x [i; c]) (get W [c; l]))
                           (seq 0 m))
                      bk_zero
                | _ => bk_zero
                end))
      else None
  | _, _ => None
  end.

(** [y += b]: the sum must have the shape of [y]. *)
Definition np_iadd (y b : ndarray A) : option (ndarray A) :=
  obind (np_binop bk_add y b) (fun r =>
    if list_eq_dec Nat.eq_dec (shape r) (shape y) then Some r else None).

(** [y /= b] *)
Definition np_idiv (y b : ndarray A) : option (ndarray A) :=
  obind (np_binop bk_div y b) (fun r =>
    if list_eq_dec Nat.eq_dec (shape r) (shape y) then Some r else None).

(** [xp.add.at(a, slices, b)]: for every element of the selection, in
    order, the matching element of [b] is added in place; an element of
    [a] that the selection names several times is added to several
    times. *)
Definition np_add_at (a : ndarray A) (ix : Index) (b : ndarray A)
  : option (ndarray A) :=
  obind (index_plan (shape a) ix) (fun '(rs, src) =>
  obind (np_broadcast_to b rs) (fun b' =>
    Some (fold_left
            (fun acc p => set acc (src p) (bk_add (get acc (src p)) (get b' p)))
            (indices rs) a))).
End Numeric.

(* ================================================================== *)
(** * [dezero/utils.py]                                                *)
(* ================================================================== *)

Section Utils.
Context {A : Type} `{Backend A}.

(** Modelled from the spec: [utils.sum_to] of [dezero/utils.py], which is
    not among the sources.  The spec's utility layer calls it the
    broadcast-sum-reduction, the inverse of broadcasting that gives "the
    sum-reduce of the output gradient to the bias shape": the axes that
    broadcasting would prepend, and those where the target has extent
    one, are summed, and the prepended axes are dropped. *)
Definition utils_sum_to (x : ndarray A) (s : Shape) : option (ndarray A) :=
  if length s <=? ndim x then
    let lead := ndim x - length s in
    let lead_axis := seq 0 lead in
    let axis :=
      map (fun '(i, _) => i + lead)
          (filter (fun '(_, sx) => sx =? 1) (combine (seq 0 (length s)) s)) in
    obind (np_sum x (AxisTuple (map Z.of_nat (lead_axis ++ axis))) true)
          (fun y => np_squeeze_lead y lead)
  else None.

(** Modelled from the spec: [utils.logsumexp] of [dezero/utils.py], which
    is not among the sources.  The spec asks for the stable log-sum-exp:
    the maximum along the axis is taken out before exponentiating and
    added back to the logarithm of the sum. *)
Definition utils_logsumexp (x : ndarray A) (axis : Z) : option (ndarray A) :=
  obind (np_max x (AxisInt axis) true) (fun m =>
  obind (np_binop bk_sub x m) (fun y =>
  let y := np_map bk_exp y in
  obind (np_sum y (AxisInt axis) true) (fun s =>
  let s := np_map bk_log s in
  np_iadd m s))).

(** Modelled from the spec: the shape computed by
    [utils.reshape_sum_backward] of [dezero/utils.py], which is not among
    the sources.  By the spec the output gradient of a sum "is reshaped
    to reinsert reduced axes (accounting for keepdims)": the target is
    the shape of the input with every reduced axis at extent one. *)
Definition reshape_sum_backward_shape (x_shape : Shape) (axis : Axis)
  : option Shape :=
  obind (axes_of (length x_shape) axis) (fun axes =>
    Some (kept_shape (reduce_mask (length x_shape) axes) x_shape)).
End Utils.

(* ================================================================== *)
(** * [dezero/core.py]: variables, functions and the graph             *)
(* ================================================================== *)

(** What a Python name of the package can hold as array data: [None], or
    an array of floats, of integers (labels, indices) or of booleans
    (masks). *)
Inductive pyobj (A : Type) : Type :=
| PyNone
| PyFloat (a : ndarray A)
| PyInt (a : ndarray Z)
| PyBool (a : ndarray bool).
Arguments PyNone {A}.
Arguments PyFloat {A} _.
Arguments PyInt {A} _.
Arguments PyBool {A} _.

(** The function objects of the package, with the attributes set by
    [__init__] and those that [forward] saves on [self]. *)
Inductive Op : Type :=
| Exp
| Log
| Reshape (shape : list Z) (x_shape : option Shape)
| Transpose (axes : option (list Z))
| GetItem (slices : Index)
| GetItemGrad (slices : Index) (in_shape : Shape)
| Sum (axis : Axis) (keepdims : bool) (x_shape : option Shape)
| SumTo (shape : Shape) (x_shape : option Shape)
| BroadcastTo (shape : Shape) (x_shape : option Shape)
| MatMul
| Linear
| ReLU
| Softmax (axis : Z)
| SoftmaxCrossEntropy
| Add
| Sub
| Mul
| Div
| Neg.

(** Modelled from the spec: a node of the graph, the class [Variable] of
    [dezero/core.py] (a reserved word here, hence [Var]), with its value,
    gradient, producer and generation.  Nodes and functions live in a
    store and are named by their position in it; [v_creator] and [v_grad]
    are references into the store. *)
Record Var (A : Type) : Type := mk_Var {
  v_data : pyobj A;
  v_grad : option nat;
  v_creator : option nat;
  v_generation : nat
}.
Arguments mk_Var {A} _ _ _ _.
Arguments v_data {A} _.
Arguments v_grad {A} _.
Arguments v_creator {A} _.
Arguments v_generation {A} _.

(** Modelled from the spec: the state that the class [Function] of
    [dezero/core.py] keeps for a function object: the object itself, its
    input and output nodes and its generation. *)
Record Function : Type := mk_Function {
  f_op : Op;
  f_inputs : list nat;
  f_outputs : list nat;
  f_generation : nat
}.

(** Modelled from the spec: the process-wide flags of [dezero.Config],
    graph recording and the training/inference mode. *)
Record Config : Type := mk_Config {
  enable_backprop : bool;
  train : bool
}.

(** The store: all nodes, all function objects, and the flags. *)
Record Heap (A : Type) : Type := mk_Heap {
  h_vars : list (Var A);
  h_funcs : list Function;
  h_config : Config
}.
Arguments mk_Heap {A} _ _ _.
Arguments h_vars {A} _.
Arguments h_funcs {A} _.
Arguments h_config {A} _.

(** An argument of a call: a node, or raw data still to be wrapped. *)
Inductive Arg (A : Type) : Type :=
| AVar (id : nat)
| AObj (o : pyobj A).
Arguments AVar {A} _.
Arguments AObj {A} _.

(** Computations on the store that may raise. *)
Definition M (A X : Type) : Type := Heap A -> option (X * Heap A).

Definition ret {A X} (x : X) : M A X := fun h => Some (x, h).
Definition bind {A X Y} (m : M A X) (k : X -> M A Y) : M A Y :=
  fun h => match m h with
           | Some (x, h') => k x h'
           | None => None
           end.
Definition raise {A X} : M A X := fun _ => None.
Definition lift {A X} (o : option X) : M A X :=
  fun h => match o with Some x => Some (x, h) | None => None end.

Declare Scope heap_scope.
Delimit Scope heap_scope with heap.
Notation "x <- m ;; k" := (bind m (fun x => k))
  (at level 61, m at next level, right associativity) : heap_scope.
Notation "m ;;; k" := (bind m (fun _ => k))
  (at level 61, right associativity) : heap_scope.
Local Open Scope heap_scope.

Fixpoint mapM {A X Y} (f : X -> M A Y) (l : list X) : M A (list Y) :=
  match l with
  | [] => ret []
  | x :: l' => y <- f x ;; ys <- mapM f l' ;; ret (y :: ys)
  end.

Section Core.
Context {A : Type} `{Backend A}.

Definition get_heap : M A (Heap A) := fun h => Some (h, h).

Definition read_var (id : nat) : M A (Var A) :=
  fun h => match nth_error (h_vars h) id with
           | Some v => Some (v, h)
           | None => None
           end.

Definition write_var (id : nat) (v : Var A) : M A unit :=
  fun h => if id <? length (h_vars h)
           then Some (tt, mk_Heap (list_set id v (h_vars h))
                                  (h_funcs h) (h_config h))
           else None.

Definition new_var (v : Var A) : M A nat :=
  fun h => Some (length (h_vars h),
                 mk_Heap (h_vars h ++ [v]) (h_funcs h) (h_config h)).

Definition new_func (f : Function) : M A nat :=
  fun h => Some (length (h_funcs h),
                 mk_Heap (h_vars h) (h_funcs h ++ [f]) (h_config h)).

Definition read_func (id : nat) : M A Function :=
  fun h => match nth_error (h_funcs h) id with
           | Some f => Some (f, h)
           | None => None
           end.

Definition set_config (c : Config) : M A unit :=
  fun h => Some (tt, mk_Heap (h_vars h) (h_funcs h) c).

(** Modelled from the spec: [Variable(data)], a fresh leaf without
    gradient or producer, of generation 0. *)
Definition Variable_init (o : pyobj A) : Var A :=
  mk_Var o None None 0.

(** Modelled from the spec: [as_variable] of [dezero/core.py], which is
    not among the sources.  By the invocation protocol a call "coerces
    non-Node arguments into Nodes": a node is passed through as it is,
    anything else is wrapped in a fresh leaf. *)
Definition as_variable (a : Arg A) : M A nat :=
  match a with
  | AVar id => ret id
  | AObj o => new_var (Variable_init o)
  end.

Definition read_data (id : nat) : M A (pyobj A) :=
  v <- read_var id ;; ret (v_data v).

(** [.shape] of an array object; [None] has no such attribute. *)
Definition obj_shape (o : pyobj A) : option Shape :=
  match o with
  | PyNone => None
  | PyFloat a => Some (shape a)
  | PyInt a => Some (shape a)
  | PyBool a => Some (shape a)
  end.

(** [x.shape] for a node or a raw array. *)
Definition arg_shape (a : Arg A) : M A Shape :=
  match a with
  | AVar id => o <- read_data id ;; lift (obj_shape o)
  | AObj o => lift (obj_shape o)
  end.

(** The float view of an operand of an arithmetic operator: integers and
    booleans are promoted, as numpy does when the other operand is a
    float array. *)
Definition as_float (o : pyobj A) : option (ndarray A) :=
  match o with
  | PyNone => None
  | PyFloat a => Some a
  | PyInt a => Some (np_map bk_of_Z a)
  | PyBool a => Some (np_map bk_of_bool a)
  end.

(** A data movement applied to an array of any dtype. *)
Definition move (f : forall T, Dflt T -> ndarray T -> option (ndarray T))
           (o : pyobj A) : option (pyobj A) :=
  match o with
  | PyNone => None
  | PyFloat a => option_map PyFloat (f A _ a)
  | PyInt a => option_map PyInt (f Z _ a)
  | PyBool a => option_map PyBool (f bool _ a)
  end.
End Core.

(** [np.argsort]: the positions of the keys in ascending order of key.
    Among equal keys numpy's default sort promises no order; here their
    positions stay in order.  The keys of a permutation are distinct. *)
Fixpoint insert_key (keys : list Z) (i : nat) (sorted : list nat) : list nat :=
  match sorted with
  | [] => [i]
  | j :: rest =>
      if (nth i keys 0 <=? nth j keys 0)%Z then i :: sorted
      else j :: insert_key keys i rest
  end.

Definition argsort_nat (keys : list Z) : list nat :=
  fold_right (insert_key keys) [] (seq 0 (length keys)).

Definition np_argsort (keys : list Z) : list Z :=
  map Z.of_nat (argsort_nat keys).

(* ================================================================== *)
(** * [dezero/functions.py]: the forward methods                       *)
(* ================================================================== *)

Section Forward.
Context {A : Type} `{Backend A}.

Definition Exp_forward (x : ndarray A) : ndarray A := np_map bk_exp x.

Definition Log_forward (x : ndarray A) : ndarray A := np_map bk_log x.

(** [forward] of the classes that save [x.shape] returns it next to [y]. *)
Definition Reshape_forward (shape : list Z) (x : pyobj A)
  : option (Shape * pyobj A) :=
  obind (obj_shape x) (fun x_shape =>
  obind (move (fun T _ a => np_reshape a shape) x) (fun y =>
  Some (x_shape, y))).

Definition Transpose_forward (axes : option (list Z)) (x : pyobj A)
  : option (pyobj A) :=
  move (fun T _ a => np_transpose a axes) x.

Definition GetItem_forward (slices : Index) (x : pyobj A) : option (pyobj A) :=
  move (fun T _ a => np_getitem a slices) x.

Definition GetItemGrad_forward (slices : Index) (in_shape : Shape)
           (gy : ndarray A) : option (ndarray A) :=
  let gx := np_zeros in_shape in
  np_add_at gx slices gy.

Definition Sum_forward (axis : Axis) (keepdims : bool) (x : ndarray A)
  : option (Shape * ndarray A) :=
  obind (np_sum x axis keepdims) (fun y => Some (shape x, y)).

Definition SumTo_forward (s : Shape) (x : ndarray A)
  : option (Shape * ndarray A) :=
  obind (utils_sum_to x s) (fun y => Some (shape x, y)).

Definition BroadcastTo_forward (s : Shape) (x : pyobj A)
  : option (Shape * pyobj A) :=
  obind (obj_shape x) (fun x_shape =>
  obind (move (fun T _ a => np_broadcast_to a s) x) (fun y =>
  Some (x_shape, y))).

Definition MatMul_forward (x W : ndarray A) : option (ndarray A) :=
  np_dot x W.

Definition Linear_forward (x W : ndarray A) (b : pyobj A)
  : option (ndarray A) :=
  obind (np_dot x W) (fun y =>
  match b with
  | PyNone => Some y
  | _ => obind (as_float b) (fun b' => np_iadd y b')
  end).

Definition ReLU_forward (x : ndarray A) : ndarray A :=
  np_map (fun v => bk_max v bk_zero) x.

Definition Softmax_forward (axis : Z) (x : ndarray A) : option (ndarray A) :=
  obind (np_max x (AxisInt axis) true) (fun m =>
  obind (np_binop bk_sub x m) (fun y =>
  let y := np_map bk_exp y in
  obind (np_sum y (AxisInt axis) true) (fun s =>
  np_idiv y s))).

Definition SoftmaxCrossEntropy_forward (x : ndarray A) (t : ndarray Z)
  : option (ndarray A) :=
  match shape x with
  | N :: _ =>
      obind (utils_logsumexp x 1) (fun log_z =>
      obind (np_binop bk_sub x log_z) (fun log_p =>
      obind (np_getitem log_p (IdxPair (np_arange N) (np_ravel t))) (fun log_p =>
      obind (np_sum log_p AxisNone false) (fun s =>
      np_binop bk_div (np_map bk_neg s) (scalar (bk_of_Z (Z.of_nat N)))))))
  | [] => None
  end.

(** Modelled from the spec: the arithmetic operators of [dezero/core.py],
    which is not among the sources; by the spec each infix symbol
    constructs and invokes the corresponding elementwise operation, with
    numpy's broadcasting.  Results are float arrays. *)
Definition arith_forward (f : A -> A -> A) (x0 x1 : pyobj A)
  : option (pyobj A) :=
  obind (as_float x0) (fun a =>
  obind (as_float x1) (fun b =>
  option_map PyFloat (np_binop f a b))).

(** [self.forward] of a function object on the raw data of
    its inputs: the result and [self] after the call.  A wrong number of
    inputs, or data of the wrong kind, raises.  The numeric operations
    compute on float data: an integer or boolean operand is promoted
    first, and the result is a float array.  The data movements keep the
    dtype. *)
Definition forward (op : Op) (xs : list (pyobj A)) : option (Op * pyobj A) :=
  match op, xs with
  | Exp, [x] =>
      obind (as_float x) (fun a => Some (op, PyFloat (Exp_forward a)))
  | Log, [x] =>
      obind (as_float x) (fun a => Some (op, PyFloat (Log_forward a)))
  | Reshape s _, [x] =>
      obind (Reshape_forward s x) (fun '(xs, y) => Some (Reshape s (Some xs), y))
  | Transpose axes, [x] =>
      obind (Transpose_forward axes x) (fun y => Some (op, y))
  | GetItem slices, [x] =>
      obind (GetItem_forward slices x) (fun y => Some (op, y))
  | GetItemGrad slices in_shape, [gy] =>
      obind (as_float gy) (fun g =>
      obind (GetItemGrad_forward slices in_shape g) (fun y =>
      Some (op, PyFloat y)))
  | Sum axis keepdims _, [x] =>
      obind (as_float x) (fun a =>
      obind (Sum_forward axis keepdims a) (fun '(xs, y) =>
      Some (Sum axis keepdims (Some xs), PyFloat y)))
  | SumTo s _, [x] =>
      obind (as_float x) (fun a =>
      obind (SumTo_forward s a) (fun '(xs, y) =>
      Some (SumTo s (Some xs), PyFloat y)))
  | BroadcastTo s _, [x] =>
      obind (BroadcastTo_forward s x) (fun '(xs, y) =>
      Some (BroadcastTo s (Some xs), y))
  | MatMul, [x; W] =>
      obind (as_float x) (fun a =>
      obind (as_float W) (fun w =>
      obind (MatMul_forward a w) (fun y => Some (op, PyFloat y))))
  | Linear, [x; W; b] =>
      obind (as_float x) (fun a =>
      obind (as_float W) (fun w =>
      obind (Linear_forward a w b) (fun y => Some (op, PyFloat y))))
  | ReLU, [x] =>
      obind (as_float x) (fun a => Some (op, PyFloat (ReLU_forward a)))
  | Softmax axis, [x] =>
      obind (as_float x) (fun a =>
      obind (Softmax_forward axis a) (fun y => Some (op, PyFloat y)))
  | SoftmaxCrossEntropy, [x; PyInt t] =>
      obind (as_float x) (fun a =>
      obind (SoftmaxCrossEntropy_forward a t) (fun y => Some (op, PyFloat y)))
  | Add, [x0; x1] =>
      obind (arith_forward bk_add x0 x1) (fun y => Some (op, y))
  | Sub, [x0; x1] =>
      obind (arith_forward bk_sub x0 x1) (fun y => Some (op, y))
  | Mul, [x0; x1] =>
      obind (arith_forward bk_mul x0 x1) (fun y => Some (op, y))
  | Div, [x0; x1] =>
      obind (arith_forward bk_div x0 x1) (fun y => Some (op, y))
  | Neg, [x] =>
      obind (as_float x) (fun a => Some (op, PyFloat (np_map bk_neg a)))
  | _, _ => None
  end.

(** Modelled from the spec: [Function.__call__] of [dezero/core.py], which
    is not among the sources.  By the invocation protocol of the spec a
    call (1) coerces the arguments into nodes, (2) calls [forward] on their
    raw values, (3) wraps the result into a new node and, when graph
    recording is enabled, (4) records the function with its inputs as the
    producer of the output, one generation above its inputs, and
    (5) returns the output node. *)
Definition Function_call (op : Op) (args : list (Arg A)) : M A nat :=
  inputs <- mapM as_variable args ;;
  xs <- mapM read_data inputs ;;
  r <- lift (forward op xs) ;;
  let '(self, y) := r in
  h <- get_heap ;;
  if enable_backprop (h_config h) then
    vs <- mapM read_var inputs ;;
    let generation := list_max (map v_generation vs) in
    let fid := length (h_funcs h) in
    out <- new_var (mk_Var y None (Some fid) (generation + 1)) ;;
    new_func (mk_Function self inputs [out] generation) ;;;
    ret out
  else
    new_var (Variable_init y).

(** Modelled from the spec: the operators [*], [-], [/] on nodes. *)
Definition mul (x0 x1 : Arg A) : M A nat := Function_call Mul [x0; x1].
Definition sub (x0 x1 : Arg A) : M A nat := Function_call Sub [x0; x1].
Definition div (x0 x1 : Arg A) : M A nat := Function_call Div [x0; x1].
End Forward.

(* ================================================================== *)
(** * [dezero/functions.py]: the functions and their backward methods  *)
(* ================================================================== *)

Section Functions.
Context {A : Type} `{Backend A}.

(** [backward] returns one gradient per input, or [None] for an input. *)
Definition Grads : Type := list (option nat).

(** [self.outputs[0]()] *)
Definition output0 (f : Function) : M A nat :=
  match f_outputs f with
  | y :: _ => ret y
  | [] => raise
  end.

(* ---- Basic functions ---- *)

Definition exp (x : Arg A) : M A nat := Function_call Exp [x].

Definition Exp_backward (f : Function) (gy : nat) : M A Grads :=
  y <- output0 f ;;
  gx <- mul (AVar y) (AVar gy) ;;
  ret [Some gx].

Definition log (x : Arg A) : M A nat := Function_call Log [x].

Definition Log_backward (f : Function) (gy : nat) : M A Grads :=
  match f_inputs f with
  | [x] =>
      gx <- div (AVar gy) (AVar x) ;;
      ret [Some gx]
  | _ => raise
  end.

(* ---- Tensor operations ---- *)

Definition reshape (x : Arg A) (shape : list Z) : M A nat :=
  x_shape <- arg_shape x ;;
  if shape_eqb x_shape shape then as_variable x
  else Function_call (Reshape shape None) [x].

Definition Reshape_backward (f : Function) (gy : nat) : M A Grads :=
  match f_op f with
  | Reshape _ (Some x_shape) =>
      gx <- reshape (AVar gy) (shape_req x_shape) ;;
      ret [Some gx]
  | _ => raise
  end.

Definition transpose (x : Arg A) (axes : option (list Z)) : M A nat :=
  Function_call (Transpose axes) [x].

Definition Transpose_backward (f : Function) (gy : nat) : M A Grads :=
  match f_op f with
  | Transpose None =>
      gx <- transpose (AVar gy) None ;;
      ret [Some gx]
  | Transpose (Some axes) =>
      let axes_len := Z.of_nat (length axes) in
      let inv_axes := np_argsort (map (fun ax => (ax mod axes_len)%Z) axes) in
      gx <- transpose (AVar gy) (Some inv_axes) ;;
      ret [Some gx]
  | _ => raise
  end.

Definition get_item (x : Arg A) (slices : Index) : M A nat :=
  Function_call (GetItem slices) [x].

Definition GetItem_backward (f : Function) (gy : nat) : M A Grads :=
  match f_op f, f_inputs f with
  | GetItem slices, [x] =>
      x_shape <- arg_shape (AVar x) ;;
      gx <- Function_call (GetItemGrad slices x_shape) [AVar gy] ;;
      ret [Some gx]
  | _, _ => raise
  end.

Definition GetItemGrad_backward (f : Function) (ggx : nat) : M A Grads :=
  match f_op f with
  | GetItemGrad slices _ =>
      r <- get_item (AVar ggx) slices ;;
      ret [Some r]
  | _ => raise
  end.

Definition sum (x : Arg A) (axis : Axis) (keepdims : bool) : M A nat :=
  Function_call (Sum axis keepdims None) [x].

Definition sum_to (x : Arg A) (s : Shape) : M A nat :=
  x_shape <- arg_shape x ;;
  if list_eq_dec Nat.eq_dec x_shape s then as_variable x
  else Function_call (SumTo s None) [x].

Definition broadcast_to (x : Arg A) (s : Shape) : M A nat :=
  x_shape <- arg_shape x ;;
  if list_eq_dec Nat.eq_dec x_shape s then as_variable x
  else Function_call (BroadcastTo s None) [x].

(** Modelled from the spec: [utils.reshape_sum_backward] of
    [dezero/utils.py], which is not among the sources.  The gradient node
    is reshaped so that the reduced axes are back, each at extent one;
    with [keepdims] they never left and the shape stays as it is. *)
Definition utils_reshape_sum_backward (gy : nat) (x_shape : Shape)
           (axis : Axis) (keepdims : bool) : M A nat :=
  s <- (if keepdims then arg_shape (AVar gy)
        else lift (reshape_sum_backward_shape x_shape axis)) ;;
  reshape (AVar gy) (shape_req s).

Definition Sum_backward (f : Function) (gy : nat) : M A Grads :=
  match f_op f with
  | Sum axis keepdims (Some x_shape) =>
      gy <- utils_reshape_sum_backward gy x_shape axis keepdims ;;
      gx <- broadcast_to (AVar gy) x_shape ;;
      ret [Some gx]
  | _ => raise
  end.

Definition SumTo_backward (f : Function) (gy : nat) : M A Grads :=
  match f_op f with
  | SumTo _ (Some x_shape) =>
      gx <- broadcast_to (AVar gy) x_shape ;;
      ret [Some gx]
  | _ => raise
  end.

Definition BroadcastTo_backward (f : Function) (gy : nat) : M A Grads :=
  match f_op f with
  | BroadcastTo _ (Some x_shape) =>
      gx <- sum_to (AVar gy) x_shape ;;
      ret [Some gx]
  | _ => raise
  end.

Definition matmul (x W : Arg A) : M A nat := Function_call MatMul [x; W].

(** Modelled from the spec: the property [Variable.T] of [dezero/core.py],
    the transpose of a node. *)
Definition Variable_T (x : nat) : M A nat := transpose (AVar x) None.

Definition MatMul_backward (f : Function) (gy : nat) : M A Grads :=
  match f_inputs f with
  | [x; W] =>
      WT <- Variable_T W ;;
      gx <- matmul (AVar gy) (AVar WT) ;;
      xT <- Variable_T x ;;
      gW <- matmul (AVar xT) (AVar gy) ;;
      ret [Some gx; Some gW]
  | _ => raise
  end.

Definition linear (x W : Arg A) (b : Arg A) : M A nat :=
  Function_call Linear [x; W; b].

Definition Linear_backward (f : Function) (gy : nat) : M A Grads :=
  match f_inputs f with
  | [x; W; b] =>
      b_data <- read_data b ;;
      gb <- match b_data with
            | PyNone => ret None
            | _ =>
                b_shape <- arg_shape (AVar b) ;;
                r <- sum_to (AVar gy) b_shape ;;
                ret (Some r)
            end ;;
      WT <- Variable_T W ;;
      gx <- matmul (AVar gy) (AVar WT) ;;
      xT <- Variable_T x ;;
      gW <- matmul (AVar xT) (AVar gy) ;;
      ret [Some gx; Some gW; gb]
  | _ => raise
  end.

(* ---- Activation functions ---- *)

Definition relu (x : Arg A) : M A nat := Function_call ReLU [x].

Definition ReLU_backward (f : Function) (gy : nat) : M A Grads :=
  match f_inputs f with
  | [x] =>
      x_data <- read_data x ;;
      xa <- lift (as_float x_data) ;;
      let mask := np_map (fun v => bk_gt v bk_zero) xa in
      gx <- mul (AVar gy) (AObj (PyBool mask)) ;;
      ret [Some gx]
  | _ => raise
  end.

Definition softmax (x : Arg A) (axis : Z) : M A nat :=
  Function_call (Softmax axis) [x].

Definition Softmax_backward (f : Function) (gy : nat) : M A Grads :=
  match f_op f with
  | Softmax axis =>
      y <- output0 f ;;
      gx <- mul (AVar y) (AVar gy) ;;
      sumdx <- sum (AVar gx) (AxisInt axis) true ;;
      t <- mul (AVar y) (AVar sumdx) ;;
      gx <- sub (AVar gx) (AVar t) ;;
      ret [Some gx]
  | _ => raise
  end.

Definition softmax_simple (x : Arg A) (axis : Z) : M A nat :=
  x <- as_variable x ;;
  y <- exp (AVar x) ;;
  sum_y <- sum (AVar y) (AxisInt axis) true ;;
  div (AVar y) (AVar sum_y).

(* ---- Loss functions ---- *)

Definition softmax_cross_entropy (x t : Arg A) : M A nat :=
  Function_call SoftmaxCrossEntropy [x; t].

Definition SoftmaxCrossEntropy_backward (f : Function) (gy : nat)
  : M A Grads :=
  match f_inputs f with
  | [x; t] =>
      x_shape <- arg_shape (AVar x) ;;
      match x_shape with
      | [N; CLS_NUM] =>
          if N =? 0 then raise (* 1 / N *)
          else
            let inv_N := bk_div bk_one (bk_of_Z (Z.of_nat N)) in
            gy <- mul (AVar gy) (AObj (PyFloat (scalar inv_N))) ;;
            y <- softmax (AVar x) 1 ;;
            t_data <- read_data t ;;
            match t_data with
            | PyInt ta =>
                t_onehot <- lift (np_getitem (np_eye CLS_NUM) (IdxArray ta)) ;;
                d <- sub (AVar y) (AObj (PyInt t_onehot)) ;;
                y <- mul (AVar d) (AVar gy) ;;
                ret [Some y]
            | _ => raise
            end
      | _ => raise
      end
  | _ => raise
  end.

(* ---- Utility operations ---- *)

(** [dropout(x, dropout_ratio)].  [rand] is the array that
    [xp.random.rand] draws for the shape of [x]. *)
Definition dropout (rand : Shape -> ndarray A) (x : Arg A) (dropout_ratio : A)
  : M A nat :=
  x <- as_variable x ;;
  h <- get_heap ;;
  if train (h_config h) then
    x_shape <- arg_shape (AVar x) ;;
    let mask := np_map (fun u => bk_gt u dropout_ratio) (rand x_shape) in
    let scale := scalar (bk_sub bk_one dropout_ratio) in
    t <- mul (AVar x) (AObj (PyBool mask)) ;;
    y <- div (AVar t) (AObj (PyFloat scale)) ;;
    ret y
  else
    ret x.

(** [f.backward(gy)] for the function objects of this file.  The backward
    methods of the arithmetic operators belong to [dezero/core.py] and are
    left out. *)
Definition backward (f : Function) (gy : nat) : M A Grads :=
  match f_op f with
  | Exp => Exp_backward f gy
  | Log => Log_backward f gy
  | Reshape _ _ => Reshape_backward f gy
  | Transpose _ => Transpose_backward f gy
  | GetItem _ => GetItem_backward f gy
  | GetItemGrad _ _ => GetItemGrad_backward f gy
  | Sum _ _ _ => Sum_backward f gy
  | SumTo _ _ => SumTo_backward f gy
  | BroadcastTo _ _ => BroadcastTo_backward f gy
  | MatMul => MatMul_backward f gy
  | Linear => Linear_backward f gy
  | ReLU => ReLU_backward f gy
  | Softmax _ => Softmax_backward f gy
  | SoftmaxCrossEntropy => SoftmaxCrossEntropy_backward f gy
  | Add | Sub | Mul | Div | Neg => raise
  end.
End Functions.

(* ================================================================== *)
(** * Calls with keyword arguments                                     *)
(* ================================================================== *)

(** Python's binding of the arguments of a call to the parameters of a
    [def]: positional arguments fill the parameters from the left, keyword
    arguments go by name, defaults fill what is left.  A parameter bound
    twice, a missing one, a surplus positional argument and an unknown
    keyword are each a [TypeError]. *)
Fixpoint kw_lookup {V} (name : string) (kw : list (string * V)) : option V :=
  match kw with
  | [] => None
  | (n, v) :: kw' => if String.eqb n name then Some v else kw_lookup name kw'
  end.

Definition kw_remove {V} (name : string) (kw : list (string * V))
  : list (string * V) :=
  filter (fun p => negb (String.eqb (fst p) name)) kw.

Fixpoint bind_args {V} (params : list (string * option V))
         (pos : list V) (kw : list (string * V)) : option (list V) :=
  match params with
  | [] =>
      match pos, kw with
      | [], [] => Some []
      | _, _ => None
      end
  | (name, default) :: params' =>
      match pos with
      | v :: pos' =>
          match kw_lookup name kw with
          | Some _ => None
          | None => obind (bind_args params' pos' kw) (fun vs => Some (v :: vs))
          end
      | [] =>
          match kw_lookup name kw, default with
          | Some v, _ =>
              obind (bind_args params' [] (kw_remove name kw))
                    (fun vs => Some (v :: vs))
          | None, Some v =>
              obind (bind_args params' [] kw) (fun vs => Some (v :: vs))
          | None, None => None
          end
      end
  end.

Section Calls.
Context {A : Type} `{Backend A}.

(** A Python float passed as an argument. *)
Definition py_float (r : A) : Arg A := AObj (PyFloat (scalar r)).

Definition arg_float (a : Arg A) : option A :=
  match a with
  | AObj (PyFloat (mk_ndarray [] [r])) => Some r
  | _ => None
  end.

(** The literal [0.5]. *)
Definition one_half : A := bk_div bk_one (bk_of_Z 2).

(** [def dropout(x, dropout_ratio=0.5)] *)
Definition dropout_params : list (string * option (Arg A)) :=
  [("x"%string, None); ("dropout_ratio"%string, Some (py_float one_half))].

(** A call of [dropout] with positional arguments [pos] and keyword
    arguments [kw]. *)
Definition dropout_call (rand : Shape -> ndarray A)
           (pos : list (Arg A)) (kw : list (string * Arg A)) : M A nat :=
  args <- lift (bind_args dropout_params pos kw) ;;
  match args with
  | [x; r] =>
      dropout_ratio <- lift (arg_float r) ;;
      dropout rand x dropout_ratio
  | _ => raise
  end.
End Calls.

(* ================================================================== *)
(** * Backpropagation                                                  *)
(* ================================================================== *)

Section Engine.
Context {A : Type} `{Backend A}.

(** Modelled from the spec: the seed of [backpropagate] in
    [dezero/core.py], which is not among the sources.  By the spec the
    gradient of the terminal node is the one set explicitly, "or defaulted
    to an array of ones if the node is scalar-shaped and ungradiented";
    otherwise an explicit seed is required. *)
Definition seed_gradient (y : nat) : M A unit :=
  v <- read_var y ;;
  match v_grad v with
  | Some _ => ret tt
  | None =>
      match v_data v with
      | PyFloat a =>
          match shape a with
          | [] =>
              g <- new_var (Variable_init (PyFloat (np_ones (shape a)))) ;;
              write_var y (mk_Var (v_data v) (Some g) (v_creator v)
                                  (v_generation v))
          | _ => raise
          end
      | _ => raise
      end
  end.

(** Modelled from the spec: [accumulate_gradient]: "if no gradient
    present, set it; else add elementwise". *)
Definition accumulate_gradient (x : nat) (gx : nat) : M A unit :=
  v <- read_var x ;;
  match v_grad v with
  | None =>
      write_var x (mk_Var (v_data v) (Some gx) (v_creator v) (v_generation v))
  | Some g =>
      s <- Function_call Add [AVar g; AVar gx] ;;
      v <- read_var x ;;
      write_var x (mk_Var (v_data v) (Some s) (v_creator v) (v_generation v))
  end.

(** Modelled from the spec: the frontier of the backward traversal, a
    list of functions in ascending order of generation; the function of
    the highest generation is at its end. *)
Fixpoint insert_by_generation (gen : nat -> nat) (fid : nat)
         (funcs : list nat) : list nat :=
  match funcs with
  | [] => [fid]
  | g :: rest =>
      if gen fid <? gen g then fid :: funcs
      else g :: insert_by_generation gen fid rest
  end.

(** Modelled from the spec: a function joins the frontier once; the
    second component lists the functions seen so far. *)
Definition add_func (fid : nat) (frontier : list nat * list nat)
  : M A (list nat * list nat) :=
  let '(funcs, seen) := frontier in
  if existsb (Nat.eqb fid) seen then ret frontier
  else
    h <- get_heap ;;
    let gen := fun id => match nth_error (h_funcs h) id with
                         | Some f => f_generation f
                         | None => 0
                         end in
    ret (insert_by_generation gen fid funcs, fid :: seen).

(** Modelled from the spec: the gradients that [backward] returned are
    accumulated into the inputs, one by one; an input with a producer puts
    it on the frontier. *)
Fixpoint accumulate_all (inputs : list nat) (gxs : list (option nat))
         (frontier : list nat * list nat) : M A (list nat * list nat) :=
  match inputs, gxs with
  | x :: inputs', gx :: gxs' =>
      frontier <-
        match gx with
        | Some g =>
            accumulate_gradient x g ;;;
            v <- read_var x ;;
            match v_creator v with
            | Some c => add_func c frontier
            | None => ret frontier
            end
        | None => ret frontier
        end ;;
      accumulate_all inputs' gxs' frontier
  | _, _ => ret frontier
  end.

(** Modelled from the spec: the expansion steps of the backward
    traversal.  The function of the highest generation is taken from the
    frontier, [backward] is called on the gradient of its output, and every
    returned gradient is accumulated into the matching input, whose
    producer joins the frontier unless it was seen.  An output without
    gradient contributes nothing.  Every function is expanded at most once,
    so the number of functions of the graph bounds the number of steps. *)
Fixpoint expand_frontier (steps : nat) (frontier : list nat * list nat)
  : M A unit :=
  match rev (fst frontier) with
  | [] => ret tt
  | fid :: rest =>
      match steps with
      | 0 => raise
      | S steps' =>
          let frontier := (rev rest, snd frontier) in
          f <- read_func fid ;;
          gys <- mapM (fun o => v <- read_var o ;; ret (v_grad v)) (f_outputs f) ;;
          match gys with
          | [Some gy] =>
              gxs <- backward f gy ;;
              frontier <- accumulate_all (f_inputs f) gxs frontier ;;
              expand_frontier steps' frontier
          | _ => expand_frontier steps' frontier
          end
      end
  end.

(** Modelled from the spec: [backpropagate] on a node.  The computations
    of the backward pass are recorded only if [create_graph] asks for it;
    the flag is restored at the end. *)
Definition Variable_backward (y : nat) (create_graph : bool) : M A unit :=
  seed_gradient y ;;;
  v <- read_var y ;;
  h <- get_heap ;;
  let saved := h_config h in
  set_config (mk_Config create_graph (train saved)) ;;;
  frontier <- match v_creator v with
              | Some c => add_func c ([], [])
              | None => ret ([], [])
              end ;;
  expand_frontier (length (h_funcs h)) frontier ;;;
  set_config saved.

(** The data of the gradient of a node, if it has one. *)
Definition grad_data (h : Heap A) (x : nat) : option (pyobj A) :=
  match nth_error (h_vars h) x with
  | Some v =>
      match v_grad v with
      | Some g => option_map v_data (nth_error (h_vars h) g)
      | None => None
      end
  | None => None
  end.

(** The data of a node. *)
Definition var_data (h : Heap A) (x : nat) : option (pyobj A) :=
  option_map v_data (nth_error (h_vars h) x).
End Engine.

(* ================================================================== *)
(** * Vocabulary of the statements                                    *)
(* ================================================================== *)

(** The order in which [argsort] compares two positions of [keys]. *)
Definition key_le (keys : list Z) (i j : nat) : Prop :=
  (nth i keys 0 <= nth j keys 0)%Z.

(** The axes that [Transpose.backward] passes to [transpose]. *)
Definition backward_axes (axes : option (list Z)) : option (list Z) :=
  match axes with
  | None => None
  | Some l =>
      Some (np_argsort (map (fun ax => (ax mod Z.of_nat (length l))%Z) l))
  end.

(** Arrays held by an object are well formed. *)
Definition obj_wf {A} (o : pyobj A) : Prop :=
  match o with
  | PyNone => True
  | PyFloat a => wf a
  | PyInt a => wf a
  | PyBool a => wf a
  end.

(** The cell of a reduction's result that the element at [i] is folded
    into: with [keepdims] the reduced coordinates become 0, without they
    are dropped. *)
Definition collapse (mask : list bool) (keepdims : bool) (i : list nat)
  : list nat :=
  if keepdims
  then map (fun '(m, c) => if (m : bool) then 0 else c) (combine mask i)
  else map snd (filter (fun p => negb (fst p)) (combine mask i)).

(** The coordinates of [i] along the reduced axes, 0 elsewhere: the
    position of the element at [i] within its lane. *)
Definition lane_index (mask : list bool) (i : list nat) : list nat :=
  map (fun '(m, c) => if (m : bool) then c else 0) (combine mask i).

(** Equality of two multi-indices, as a boolean. *)
Definition idx_eqb (i j : list nat) : bool :=
  if list_eq_dec Nat.eq_dec i j then true else false.

(** Index arrays are well formed. *)
Definition index_wf (ix : Index) : Prop :=
  match ix with
  | IdxArray ks => wf ks
  | _ => True
  end.

Section Vocabulary.
Context {A : Type} `{Backend A}.

(** [h'] is [h] after some allocations: nodes and functions were only
    added at the end, and the flags are as before. *)
Definition extends (h h' : Heap A) : Prop :=
  (exists vs, h_vars h' = h_vars h ++ vs) /\
  (exists fs, h_funcs h' = h_funcs h ++ fs) /\
  h_config h' = h_config h.

(** The data that an argument of a call stands for. *)
Definition arg_data (h : Heap A) (a : Arg A) (d : pyobj A) : Prop :=
  match a with
  | AVar id => var_data h id = Some d
  | AObj o => o = d
  end.

(** The gradient that [Sum.backward] returns for an output gradient [g]:
    the element at [i] is the element of [g] at the cell that [x[i]] was
    summed into. *)
Definition sum_gradient (x_shape : Shape) (mask : list bool) (keepdims : bool)
           (g : ndarray A) : ndarray A :=
  tabulate x_shape (fun i => get g (collapse mask keepdims i)).

(** The sum [0 + t 0 + ... + t (n-1)], added from left to right. *)
Definition sum_upto (n : nat) (t : nat -> A) : A :=
  fold_left bk_add (map t (seq 0 n)) bk_zero.

(** [gy . W^T]: the element at [i, j] is the sum over [l] of
    [gy[i, l] * W[j, l]]. *)
Definition dot_transposed_r (gy W : ndarray A) (n m k : nat) : ndarray A :=
  tabulate [n; m] (fun idx =>
    match idx with
    | [i; j] => sum_upto k (fun l => bk_mul (get gy [i; l]) (get W [j; l]))
    | _ => bk_zero
    end).

(** [x^T . gy]: the element at [j, l] is the sum over [i] of
    [x[i, j] * gy[i, l]]. *)
Definition dot_transposed_l (x gy : ndarray A) (n m k : nat) : ndarray A :=
  tabulate [m; k] (fun idx =>
    match idx with
    | [j; l] => sum_upto n (fun i => bk_mul (get x [i; j]) (get gy [i; l]))
    | _ => bk_zero
    end).

(** What [sum_to(gy, shape)] holds: [gy] itself when it already has the
    shape, else the result of [utils.sum_to]. *)
Definition sum_to_value (g : ndarray A) (s : Shape) : option (ndarray A) :=
  if list_eq_dec Nat.eq_dec (shape g) s then Some g else utils_sum_to g s.

(** The bias of an affine map onto [n] rows of [k] columns: absent, or a
    float array that broadcasts to that shape. *)
Definition bias_ok (bo : pyobj A) (n k : nat) : Prop :=
  match bo with
  | PyNone => True
  | PyFloat ba => broadcastable (shape ba) [n; k] = true
  | _ => False
  end.

(** Elementwise combination of two arrays of one shape. *)
Definition zip_with (f : A -> A -> A) (a b : ndarray A) : ndarray A :=
  tabulate (shape a) (fun i => f (get a i) (get b i)).

(** What [add.at] leaves at [q]: the contributions of the positions [p] of
    the selection that name [q], added one after the other to what was
    there. *)
Definition scattered (src : list nat -> list nat) (b : ndarray A)
           (ps : list (list nat)) (q : list nat) (init : A) : A :=
  fold_left bk_add
            (map (get b) (filter (fun p => idx_eqb (src p) q) ps)) init.
End Vocabulary.

(** The keep-mask of dropout as numbers: one where the sample exceeds the
    ratio, zero elsewhere. *)
Definition keep (u : ndarray R) (ratio : R) (i : list nat) : R :=
  bk_of_bool (bk_gt (get u i) ratio).

(** The sum of a list of reals, added from left to right from zero, as
    the reductions of the backend add them. *)
Definition Rsum (l : list R) : R := fold_left Rplus l 0%R.

(** The normaliser of the cell [c]: the sum of the exponentials of the
    elements of its lane. *)
Definition partition_sum (x : ndarray R) (mask : list bool) (c : list nat)
  : R :=
  Rsum (map (fun r => Rtrigo_def.exp (get x (add_idx c r)))
            (indices (lane_shape mask (shape x)))).

(** Softmax without stabilisation: [exp(x) / sum(exp(x), axis)]. *)
Definition softmax_value (x : ndarray R) (mask : list bool) : ndarray R :=
  tabulate (shape x)
           (fun i => (Rtrigo_def.exp (get x i)
                      / partition_sum x mask (collapse mask true i))%R).

(** The entry of the one-hot row of a label. *)
Definition one_hot (label c : nat) : R := if label =? c then 1%R else 0%R.

(* ================================================================== *)
(** * Programs and stores of the examples                              *)
(* ================================================================== *)

Section Programs.
Context {A : Type} `{Backend A}.

(** The program [y = sum(x); y.backward()] on a store that holds only the
    leaf [x]. *)
Definition sum_then_backward (x : ndarray A) (train_flag : bool)
  : option (unit * Heap A) :=
  (y <- sum (AVar 0) AxisNone false ;; Variable_backward y false)
    (mk_Heap [Variable_init (PyFloat x)] [] (mk_Config true train_flag)).
End Programs.

(** A store with one leaf, the vector [[1, 2, 3]], and the default flags. *)
Definition vector_store : Heap R :=
  mk_Heap [Variable_init (PyFloat (mk_ndarray [3] [1; 2; 3]%R))] []
          (mk_Config true true).

(** The matrix [[1, 2, 3], [4, 5, 6]]. *)
Definition matrix_2x3 : ndarray R := mk_ndarray [2; 3] [1; 2; 3; 4; 5; 6]%R.

(** A store with two leaves: a 2x3 matrix and, standing for the output
    gradient, its transpose by [axes = (-1, 0)]. *)
Definition transpose_store : Heap R :=
  mk_Heap [Variable_init (PyFloat matrix_2x3);
           Variable_init (PyFloat (mk_ndarray [3; 2] [1; 4; 2; 5; 3; 6]%R))]
          [] (mk_Config true true).

(** A store after [y = sum(x, axis=1)] on the 2x3 matrix, with a third
    node standing for the output gradient [[10, 20]]. *)
Definition sum_store : Heap R :=
  mk_Heap [Variable_init (PyFloat matrix_2x3);
           mk_Var (PyFloat (mk_ndarray [2] [0 + 1 + 2 + 3; 0 + 4 + 5 + 6]%R))
                  None (Some 0) 1;
           Variable_init (PyFloat (mk_ndarray [2] [10; 20]%R))]
          [mk_Function (Sum (AxisInt 1) false (Some [2; 3])) [0] [1] 0]
          (mk_Config true true).

(** Weights, an output gradient and a bias for the 2x3 matrix. *)
Definition matrix_3x2 : ndarray R := mk_ndarray [3; 2] [1; 0; 0; 1; 1; 1]%R.

Definition matrix_2x2 : ndarray R := mk_ndarray [2; 2] [1; 2; 3; 4]%R.

Definition bias_2 : ndarray R := mk_ndarray [2] [5; 6]%R.

(** A store with the inputs [x], [W], [b] of an affine map and a node that
    stands for the gradient of its output. *)
Definition linear_store : Heap R :=
  mk_Heap [Variable_init (PyFloat matrix_2x3);
           Variable_init (PyFloat matrix_3x2);
           Variable_init (PyFloat bias_2);
           Variable_init (PyFloat matrix_2x2)]
          [] (mk_Config true true).

(** An input of [relu] with an element equal to zero, and an output
    gradient for it. *)
Definition relu_x : ndarray R := mk_ndarray [3] [-1; 0; 2]%R.

Definition relu_gy : ndarray R := mk_ndarray [3] [5; 6; 7]%R.

(** A store after [y = relu(x)] with a third node for the output
    gradient. *)
Definition relu_store : Heap R :=
  mk_Heap [Variable_init (PyFloat relu_x);
           mk_Var (PyFloat (mk_ndarray [3] [0; 0; 2]%R)) None (Some 0) 1;
           Variable_init (PyFloat relu_gy)]
          [mk_Function ReLU [0] [1] 0] (mk_Config true true).

(** A store of binary64 data: the input [x = 0.0] of a logarithm and, for
    the output gradient, [1.0]. *)
Definition log_store : Heap float :=
  mk_Heap [Variable_init (PyFloat (scalar 0%float));
           Variable_init (PyFloat (scalar 1%float))]
          [] (mk_Config true true).

(** A stand-in for the logarithm of a float backend at the one input of
    the example, zero: minus infinity. *)
Definition log_at_zero (_ : float) : float := neg_infinity.

(** [a[idx]] for an array of binary64 numbers. *)
Definition float_at (a : ndarray float) (idx : list nat) : float :=
  @get float 0%float a idx.

(** Binary64 data for [relu]: an input with an element equal to zero and
    a finite output gradient for it. *)
Definition relu_float_x : ndarray float := mk_ndarray [2] [0; 2]%float.

Definition relu_float_gy : ndarray float := mk_ndarray [2] [-6; 3]%float.

(** A store of binary64 data after [y = relu(x)] with a third node for
    the output gradient. *)
Definition relu_float_store : Heap float :=
  mk_Heap [Variable_init (PyFloat relu_float_x);
           mk_Var (PyFloat relu_float_x) None (Some 0) 1;
           Variable_init (PyFloat relu_float_gy)]
          [mk_Function ReLU [0] [1] 0] (mk_Config true true).

(** The same store with an infinite output gradient at the element that
    is zero. *)
Definition relu_float_gy_inf : ndarray float :=
  mk_ndarray [2] [infinity; 3%float].

Definition relu_inf_store : Heap float :=
  mk_Heap [Variable_init (PyFloat relu_float_x);
           mk_Var (PyFloat relu_float_x) None (Some 0) 1;
           Variable_init (PyFloat relu_float_gy_inf)]
          [mk_Function ReLU [0] [1] 0] (mk_Config true true).

(** The program [y = relu(x); z = log(y); z.backward()] on a store of
    binary64 data that holds only the leaf [x = 0.0], with a logarithm
    that gives minus infinity at zero. *)
Definition log_relu_then_backward : option (unit * Heap float) :=
  (y <- @relu float (float_backend (fun v => v) log_at_zero) (AVar 0) ;;
   z <- @log float (float_backend (fun v => v) log_at_zero) (AVar y) ;;
   @Variable_backward float (float_backend (fun v => v) log_at_zero) z false)
    (mk_Heap [Variable_init (PyFloat (scalar 0%float))] []
             (mk_Config true true)).

(** A vector and an output gradient for a selection of three of its
    elements. *)
Definition item_x : ndarray R := mk_ndarray [3] [10; 20; 30]%R.

Definition item_gy : ndarray R := mk_ndarray [3] [1; 2; 4]%R.

(** The selection [x[[0, 0, 2]]], which names the first element twice. *)
Definition item_ix : Index := IdxArray (mk_ndarray [3] [0; 0; 2]%Z).

(** A store after [y = get_item(x, [0, 0, 2])] with a third node for the
    output gradient. *)
Definition item_store : Heap R :=
  mk_Heap [Variable_init (PyFloat item_x);
           mk_Var (PyFloat (mk_ndarray [3] [10; 10; 30]%R)) None (Some 0) 1;
           Variable_init (PyFloat item_gy)]
          [mk_Function (GetItem item_ix) [0] [1] 0] (mk_Config true true).

(** A sampler that draws 0.7 everywhere: every element is kept at the
    default ratio. *)
Definition dropout_sampler (s : Shape) : ndarray R := full s (7 / 10)%R.

(** The logits [[0, 0, 0]] and the label [0]. *)
Definition zeros_1x3 : ndarray R := mk_ndarray [1; 3] [0; 0; 0]%R.

Definition label_0 : ndarray Z := mk_ndarray [1] [0]%Z.

(** The program [loss = softmax_cross_entropy(x, t); loss.backward()] on
    a store that holds the leaves [x = [[0, 0, 0]]] and [t = [0]]. *)
Definition cross_entropy_then_backward : option (unit * Heap R) :=
  (loss <- softmax_cross_entropy (AVar 0) (AVar 1) ;;
   Variable_backward loss false)
    (mk_Heap [Variable_init (PyFloat zeros_1x3); Variable_init (PyInt label_0)]
             [] (mk_Config true true)).

(** The labels [[2, 0]] of the two rows of the 2x3 matrix, as an array
    and as class numbers. *)
Definition labels_2_0 : ndarray Z := mk_ndarray [2] [2; 0]%Z.

Definition classes_2_0 : list nat := [2; 0].

(** A store with the inputs of [loss = softmax_cross_entropy(x, t)] on
    the 2x3 matrix and the labels [[2, 0]], the function that links them
    to the node of the loss, and a fourth node for the gradient 1 of the
    loss.  [SoftmaxCrossEntropy.backward] reads the inputs and the
    gradient only, so the data of the loss node is left at 0 here. *)
Definition cross_entropy_store : Heap R :=
  mk_Heap [Variable_init (PyFloat matrix_2x3);
           Variable_init (PyInt labels_2_0);
           mk_Var (PyFloat (scalar 0%R)) None (Some 0) 1;
           Variable_init (PyFloat (scalar 1%R))]
          [mk_Function SoftmaxCrossEntropy [0; 1] [2] 0] (mk_Config true true).

(* ================================================================== *)
(** * [dezero/functions.py]: further functions                         *)
(* ================================================================== *)

(** Scalar operations of the array module that the functions of this part
    use beyond those of [Backend]: the comparisons [>=] and [<=],
    [xp.minimum] and [xp.sqrt]. *)
Class BackendOrd (A : Type) : Type := {
  bk_ge : A -> A -> bool;        (* [x >= y] *)
  bk_le : A -> A -> bool;        (* [x <= y] *)
  bk_min : A -> A -> A;          (* [xp.minimum] on two scalars *)
  bk_sqrt : A -> A
}.

#[export] Instance R_backend_ord : BackendOrd R := {
  bk_ge := fun x y => if Rle_dec y x then true else false;
  bk_le := fun x y => if Rle_dec x y then true else false;
  bk_min := Rmin;
  bk_sqrt := sqrt
}.

Section MoreFunctions.
Context {A : Type} `{Backend A} `{BackendOrd A}.

(** Modelled from the spec: the operators [+], unary [-] and the reflected
    [-] of [dezero/core.py] on nodes; [c - y] with a raw left operand is
    [Sub] applied to [c] and [y]. *)
Definition add (x0 x1 : Arg A) : M A nat := Function_call Add [x0; x1].
Definition neg (x : Arg A) : M A nat := Function_call Neg [x].
Definition rsub (x0 x1 : Arg A) : M A nat := Function_call Sub [x1; x0].

(** [len(a)]: the extent of the first axis; a 0-d array has no length
    ([TypeError]). *)
Definition np_len {T} (a : ndarray T) : option nat :=
  match shape a with
  | d :: _ => Some d
  | [] => None
  end.

(** [a ** 2], which numpy computes as the square [a * a]. *)
Definition np_square (a : ndarray A) : ndarray A :=
  np_map (fun v => bk_mul v v) a.

(* ---- linear_simple ---- *)

(** [t.data = None] *)
Definition clear_data (t : nat) : M A unit :=
  v <- read_var t ;;
  write_var t (mk_Var PyNone (v_grad v) (v_creator v) (v_generation v)).

(** [linear_simple(x, W, b)]; the default [b=None] is the raw object
    [None]. *)
Definition linear_simple (x W b : Arg A) : M A nat :=
  x <- as_variable x ;;
  W <- as_variable W ;;
  t <- matmul (AVar x) (AVar W) ;;
  match b with
  | AObj PyNone => ret t
  | _ =>
      y <- add (AVar t) b ;;
      clear_data t ;;;
      ret y
  end.

(* ---- Sigmoid ---- *)

(** The classes [Sigmoid], [MeanSquaredError] and [Clip] are given by
    their [forward] and [backward] methods.  [self] is passed to a method
    as the attributes that the method reads: [self.inputs] or
    [self.outputs], and what [__init__] has set. *)
Definition Sigmoid_forward (x : ndarray A) : ndarray A :=
  np_map (fun v => bk_div bk_one (bk_add bk_one (bk_exp (bk_neg v)))) x.

Definition Sigmoid_backward (outputs : list nat) (gy : nat) : M A Grads :=
  match outputs with
  | y :: _ =>
      t <- mul (AVar gy) (AVar y) ;;
      u <- rsub (AVar y) (AObj (PyInt (scalar 1%Z))) ;;
      gx <- mul (AVar t) (AVar u) ;;
      ret [Some gx]
  | [] => raise
  end.

(* ---- MeanSquaredError ---- *)

Definition MeanSquaredError_forward (x0 x1 : ndarray A)
  : option (ndarray A) :=
  obind (np_binop bk_sub x0 x1) (fun diff =>
  obind (np_sum (np_square diff) AxisNone false) (fun s =>
  obind (np_len diff) (fun n =>
  np_binop bk_div s (scalar (bk_of_Z (Z.of_nat n)))))).

(** [2.0 / len(diff)] is a division of Python numbers, which raises
    [ZeroDivisionError] for an empty [diff]. *)
Definition MeanSquaredError_backward (inputs : list nat) (gy : nat)
  : M A Grads :=
  match inputs with
  | [x0; x1] =>
      diff <- sub (AVar x0) (AVar x1) ;;
      diff_shape <- arg_shape (AVar diff) ;;
      gy <- broadcast_to (AVar gy) diff_shape ;;
      t <- mul (AVar gy) (AVar diff) ;;
      match diff_shape with
      | n :: _ =>
          if n =? 0 then raise
          else
            let c := bk_div (bk_of_Z 2) (bk_of_Z (Z.of_nat n)) in
            gx0 <- mul (AVar t) (AObj (PyFloat (scalar c))) ;;
            gx1 <- neg (AVar gx0) ;;
            ret [Some gx0; Some gx1]
      | [] => raise
      end
  | _ => raise
  end.

(* ---- accuracy ---- *)

(** The position of the first greatest element of a list, scanning from
    the left with [best] at position [bi] so far. *)
Fixpoint argmax_from (best : A) (bi i : nat) (l : list A) : nat :=
  match l with
  | [] => bi
  | v :: l' =>
      if bk_gt v best then argmax_from v i (S i) l'
      else argmax_from best bi (S i) l'
  end.

Definition argmax_list (l : list A) : nat :=
  match l with
  | [] => 0
  | v :: l' => argmax_from v 0 1 l'
  end.

(** [x.argmax(axis=axis)]: along the axis, the position of the first
    greatest element; an axis of extent zero is a [ValueError]. *)
Definition np_argmax (x : ndarray A) (axis : Z) : option (ndarray Z) :=
  obind (norm_axis (ndim x) axis) (fun k =>
    let mask := reduce_mask (ndim x) [k] in
    if nth k (shape x) 0 =? 0 then None
    else Some (tabulate (squeezed_shape mask (shape x))
                 (fun j => Z.of_nat (argmax_list (lane x mask false j))))).

(** [result.mean()] of a boolean array: the fraction of [True]. *)
Definition np_mean_bool (b : ndarray bool) : A :=
  bk_div (fold_left bk_add (map bk_of_bool (data b)) bk_zero)
         (bk_of_Z (Z.of_nat (size (shape b)))).

(** [accuracy(y, t)] for scores [y] and integer labels [t]. *)
Definition accuracy (y t : Arg A) : M A nat :=
  y <- as_variable y ;;
  t <- as_variable t ;;
  y_data <- read_data y ;;
  t_data <- read_data t ;;
  match y_data, t_data with
  | PyFloat ya, PyInt ta =>
      am <- lift (np_argmax ya 1) ;;
      pred <- lift (np_reshape am (shape_req (shape ta))) ;;
      result <- lift (np_binop Z.eqb pred ta) ;;
      let acc := np_mean_bool result in
      new_var (Variable_init (PyFloat (scalar acc)))
  | _, _ => raise
  end.

(* ---- Clip ---- *)

Definition Clip_forward (x_min x_max : A) (x : ndarray A) : ndarray A :=
  np_map (fun v => bk_min (bk_max v x_min) x_max) x.

Definition Clip_backward (x_min x_max : A) (inputs : list nat) (gy : nat)
  : M A Grads :=
  match inputs with
  | [x] =>
      x_data <- read_data x ;;
      xa <- lift (as_float x_data) ;;
      let mask := np_map (fun v => bk_ge v x_min && bk_le v x_max) xa in
      gx <- mul (AVar gy) (AObj (PyBool mask)) ;;
      ret [Some gx]
  | _ => raise
  end.
End MoreFunctions.

(* ================================================================== *)
(** * [common/util.py]                                                 *)
(* ================================================================== *)

(* ------------------------------------------------------------------ *)
(** ** Python strings, dicts, ranges and slices                        *)
(* ------------------------------------------------------------------ *)

(** The characters [" "] and ["."]. *)
Definition space_char : Ascii.ascii := Ascii.ascii_of_nat 32.
Definition dot_char : Ascii.ascii := Ascii.ascii_of_nat 46.

(** [str.lower] on ASCII text: the letters [A] to [Z] become [a] to [z],
    every other character stays. *)
Definition lower_char (c : Ascii.ascii) : Ascii.ascii :=
  let n := Ascii.nat_of_ascii c in
  if (65 <=? n) && (n <=? 90) then Ascii.ascii_of_nat (n + 32) else c.

Fixpoint str_lower (s : string) : string :=
  match s with
  | EmptyString => EmptyString
  | String c s' => String (lower_char c) (str_lower s')
  end.

(** [text.replace(".", " .")] *)
Fixpoint replace_dot (s : string) : string :=
  match s with
  | EmptyString => EmptyString
  | String c s' =>
      if Ascii.eqb c dot_char
      then String space_char (String dot_char (replace_dot s'))
      else String c (replace_dot s')
  end.

(** [text.split(" ")]: the pieces between single spaces; two spaces in a
    row, or a space at either end, give an empty piece. *)
Fixpoint split_space (s : string) : list string :=
  match s with
  | EmptyString => [EmptyString]
  | String c s' =>
      if Ascii.eqb c space_char then EmptyString :: split_space s'
      else match split_space s' with
           | w :: ws => String c w :: ws
           | [] => [String c EmptyString]
           end
  end.

(** A Python dict: the items in insertion order, every key once. *)
Definition Dict (K V : Type) : Type := list (K * V).

(** [d[k]] ([None] is [KeyError]) and [k in d]. *)
Fixpoint dict_get {K V} (eqb : K -> K -> bool) (d : Dict K V) (k : K)
  : option V :=
  match d with
  | [] => None
  | (k', v) :: d' => if eqb k' k then Some v else dict_get eqb d' k
  end.

Definition dict_in {K V} (eqb : K -> K -> bool) (d : Dict K V) (k : K) : bool :=
  match dict_get eqb d k with
  | Some _ => true
  | None => false
  end.

(** [d[k] = v]: the value of an existing key is replaced where it stands,
    a new key is added at the end. *)
Fixpoint dict_set {K V} (eqb : K -> K -> bool) (d : Dict K V) (k : K) (v : V)
  : Dict K V :=
  match d with
  | [] => [(k, v)]
  | (k', v') :: d' =>
      if eqb k' k then (k', v) :: d' else (k', v') :: dict_set eqb d' k v
  end.

(** [range(a, b)] *)
Definition py_range (a b : Z) : list Z :=
  map (fun k => (a + Z.of_nat k)%Z) (seq 0 (Z.to_nat (b - a))).

(** [l[i]] for a list or a one-dimensional array: a negative index counts
    from the end, an index outside [-len, len) is an [IndexError]. *)
Definition py_index {X} (l : list X) (i : Z) : option X :=
  obind (norm_index (length l) i) (fun k => nth_error l k).

(** The bound of a slice: a negative bound counts from the end, and the
    result is clipped to [0, len]. *)
Definition slice_bound (len : nat) (i : Z) : nat :=
  if (i <? 0)%Z then Z.to_nat (Z.max (i + Z.of_nat len) 0)
  else Nat.min (Z.to_nat i) len.

(** [l[start:stop]] *)
Definition py_slice {X} (l : list X) (start stop : Z) : list X :=
  let a := slice_bound (length l) start in
  let b := slice_bound (length l) stop in
  firstn (b - a) (skipn a l).

(* ------------------------------------------------------------------ *)
(** ** Corpus utilities                                                *)
(* ------------------------------------------------------------------ *)

(** One round of the loop of [preprocess] over the words. *)
Definition preprocess_step (st : Dict string nat * Dict nat string)
           (word : string) : Dict string nat * Dict nat string :=
  let '(word_to_id, id_to_word) := st in
  if negb (dict_in String.eqb word_to_id word) then
    let new_id := length word_to_id in
    (dict_set String.eqb word_to_id word new_id,
     dict_set Nat.eqb id_to_word new_id word)
  else st.

(** The words that [preprocess] splits a text into. *)
Definition preprocess_words (text : string) : list string :=
  let text := str_lower text in
  let text := replace_dot text in
  split_space text.

(** [preprocess(text)]: the corpus (the list that [np.array] wraps) and
    the two dictionaries. *)
Definition preprocess (text : string)
  : option (list nat * Dict string nat * Dict nat string) :=
  let words := preprocess_words text in
  let '(word_to_id, id_to_word) := fold_left preprocess_step words ([], []) in
  obind (omapM (dict_get String.eqb word_to_id) words) (fun corpus =>
  Some (corpus, word_to_id, id_to_word)).

(** [create_contexts_target(corpus, window_size)] for a one-dimensional
    corpus and a window size that is not negative: the two lists that
    [np.array] wraps. *)
Definition create_contexts_target (corpus : list Z) (window_size : nat)
  : option (list (list Z) * list Z) :=
  let w := Z.of_nat window_size in
  let target := py_slice corpus w (- w) in
  obind (omapM (fun idx =>
                  omapM (fun t => py_index corpus (idx + t))
                        (filter (fun t => negb (t =? 0)%Z)
                                (py_range (- w) (w + 1))))
               (py_range w (Z.of_nat (length corpus) - w)))
        (fun contexts => Some (contexts, target)).

(* ------------------------------------------------------------------ *)
(** ** Word vectors                                                    *)
(* ------------------------------------------------------------------ *)

Section WordVectors.
Context {A : Type} `{Backend A} `{BackendOrd A}.

(** A one-dimensional array is given by the list of its elements.
    [np.sum(v)] adds them from left to right, starting from zero. *)
Definition vec_sum (v : list A) : A := fold_left bk_add v bk_zero.

(** [v ** 2] *)
Definition vec_square (v : list A) : list A := map (fun a => bk_mul a a) v.

(** [np.dot(x, y)] for two one-dimensional arrays: the inner product;
    arrays of different lengths are a [ValueError]. *)
Definition vec_dot (x y : list A) : option A :=
  if length x =? length y
  then Some (vec_sum (map (fun p => bk_mul (fst p) (snd p)) (combine x y)))
  else None.

(** [cos_similarity(x, y, eps)] for two word vectors. *)
Definition cos_similarity (x y : list A) (eps : A) : option A :=
  let nx :=
    map (fun a => bk_div a (bk_sqrt (bk_add (vec_sum (vec_square x)) eps))) x in
  let ny :=
    map (fun a => bk_div a (bk_sqrt (bk_add (vec_sum (vec_square y)) eps))) y in
  vec_dot nx ny.
End WordVectors.

(* ------------------------------------------------------------------ *)
(** ** clip_grads                                                      *)
(* ------------------------------------------------------------------ *)

Section ClipGrads.
Context {A : Type} `{Backend A} `{BackendOrd A}.

(** [clip_grads] changes the arrays of [grads] in place.  The arrays live
    in a store and [grads] lists references into it, so that one array can
    be listed more than once. *)
Definition ArrayStore : Type := list (ndarray A).

(** The first loop: [total_norm += np.sum(grad ** 2)], from 0. *)
Definition clip_grads_total (st : ArrayStore) (grads : list nat) : option A :=
  fold_left
    (fun acc g =>
       obind acc (fun total_norm =>
       obind (nth_error st g) (fun grad =>
       obind (np_sum (np_square grad) AxisNone false) (fun s =>
       Some (bk_add total_norm (get s []))))))
    grads (Some bk_zero).

(** One round of the second loop: [grad *= rate]. *)
Definition scale_in_place (rate : A) (st : option ArrayStore) (g : nat)
  : option ArrayStore :=
  obind st (fun st =>
  obind (nth_error st g) (fun grad =>
  Some (list_set g (np_map (fun v => bk_mul v rate) grad) st))).

(** [clip_grads(grads, max_norm)] *)
Definition clip_grads (grads : list nat) (max_norm : A) (st : ArrayStore)
  : option ArrayStore :=
  obind (clip_grads_total st grads) (fun total_norm =>
    let total_norm := bk_sqrt total_norm in
    let rate :=
      bk_div max_norm
             (bk_add total_norm (bk_div bk_one (bk_of_Z 1000000))) in
    if bk_gt bk_one rate
    then fold_left (scale_in_place rate) grads (Some st)
    else Some st).
End ClipGrads.

(* ------------------------------------------------------------------ *)
(** ** normalize                                                       *)
(* ------------------------------------------------------------------ *)

Section Normalize.
Context {A : Type} `{Backend A} `{BackendOrd A}.

(** [normalize(x)].  The division [x /= ...] changes the array of the
    caller in place and the function returns that same array; the model
    gives the elements that it then holds. *)
Definition normalize (x : ndarray A) : option (ndarray A) :=
  match ndim x with
  | 2 =>
      obind (np_binop bk_mul x x) (fun xx =>
      obind (np_sum xx (AxisInt 1) false) (fun t =>
      let s := np_map bk_sqrt t in
      obind (np_reshape s [Z.of_nat (nth 0 (shape s) 0); 1%Z]) (fun s' =>
      np_idiv x s')))
  | 1 =>
      obind (np_binop bk_mul x x) (fun xx =>
      obind (np_sum xx AxisNone false) (fun t =>
      let s := np_map bk_sqrt t in
      np_idiv x s))
  | _ => Some x
  end.
End Normalize.

(* ------------------------------------------------------------------ *)
(** ** One-hot vectors                                                 *)
(* ------------------------------------------------------------------ *)

(** [one_hot[idx, word_id] = 1] and [one_hot[idx_0, idx_1, word_id] = 1]:
    the word id is an index along the last axis, of extent [vocab_size];
    a negative id counts from the end, an id outside
    [-vocab_size, vocab_size) is an [IndexError]. *)
Definition set_one (vocab_size : nat) (one_hot : option (ndarray Z))
           (idx : list nat) (word_id : Z) : option (ndarray Z) :=
  obind one_hot (fun one_hot =>
  obind (norm_index vocab_size word_id) (fun w =>
  Some (set one_hot (idx ++ [w]) 1%Z))).

(** [convert_one_hot(corpus, vocab_size)] for an integer array [corpus].
    [corpus.shape[0]] fails for a 0-d array, and an array of more than two
    dimensions leaves [one_hot] unbound at the [return]. *)
Definition convert_one_hot (corpus : ndarray Z) (vocab_size : nat)
  : option (ndarray Z) :=
  match shape corpus with
  | [N] =>
      fold_left
        (fun one_hot idx =>
           set_one vocab_size one_hot [idx] (get corpus [idx]))
        (seq 0 N) (Some (full [N; vocab_size] 0%Z))
  | [N; C] =>
      fold_left
        (fun one_hot idx_0 =>
           fold_left
             (fun one_hot idx_1 =>
                set_one vocab_size one_hot [idx_0; idx_1]
                        (get corpus [idx_0; idx_1]))
             (seq 0 C) one_hot)
        (seq 0 N) (Some (full [N; C; vocab_size] 0%Z))
  | _ => None
  end.

(* ------------------------------------------------------------------ *)
(** ** Co-occurrence counts                                            *)
(* ------------------------------------------------------------------ *)

(** The value that an [int32] array keeps of an integer. *)
Definition wrap_int32 (z : Z) : Z := ((z + 2 ^ 31) mod 2 ^ 32 - 2 ^ 31)%Z.

(** [enumerate(l)] *)
Definition enumerate {X} (l : list X) : list (Z * X) :=
  combine (map Z.of_nat (seq 0 (length l))) l.

(** [co_matrix[word_id, other_id] += 1] on an [int32] matrix. *)
Definition co_increment (vocab_size : nat) (co_matrix : option (ndarray Z))
           (word_id other_id : Z) : option (ndarray Z) :=
  obind co_matrix (fun co_matrix =>
  obind (norm_index vocab_size word_id) (fun a =>
  obind (norm_index vocab_size other_id) (fun b =>
  Some (set co_matrix [a; b] (wrap_int32 (get co_matrix [a; b] + 1)))))).

(** [create_co_matrix(corpus, vocab_size, window_size)] for a
    one-dimensional corpus and a window size that is not negative. *)
Definition create_co_matrix (corpus : list Z) (vocab_size window_size : nat)
  : option (ndarray Z) :=
  let corpus_size := Z.of_nat (length corpus) in
  fold_left
    (fun co_matrix '(idx, word_id) =>
       fold_left
         (fun co_matrix i =>
            let left_idx := (idx - i)%Z in
            let right_idx := (idx + i)%Z in
            let co_matrix :=
              if (left_idx >=? 0)%Z
              then obind (py_index corpus left_idx) (fun left_word_id =>
                     co_increment vocab_size co_matrix word_id left_word_id)
              else co_matrix in
            if (right_idx <? corpus_size)%Z
            then obind (py_index corpus right_idx) (fun right_word_id =>
                   co_increment vocab_size co_matrix word_id right_word_id)
            else co_matrix)
         (py_range 1 (Z.of_nat window_size + 1)) co_matrix)
    (enumerate corpus) (Some (full [vocab_size; vocab_size] 0%Z)).

(* ================================================================== *)
(** * Programs and vocabulary of the further properties                *)
(* ================================================================== *)

Section MorePrograms.
Context {A : Type} `{Backend A}.

(** The program [y = exp(x); y.backward()] on a store that holds only the
    scalar leaf [x]. *)
Definition exp_then_backward (a : A) : option (unit * Heap A) :=
  (y <- exp (AVar 0) ;; Variable_backward y false)
    (mk_Heap [Variable_init (PyFloat (scalar a))] [] (mk_Config true true)).

(** The program [z = log(exp(x)); z.backward()] on a store that holds only
    the scalar leaf [x]. *)
Definition log_exp_then_backward (a : A) : option (unit * Heap A) :=
  (y <- exp (AVar 0) ;; z <- log (AVar y) ;; Variable_backward z false)
    (mk_Heap [Variable_init (PyFloat (scalar a))] [] (mk_Config true true)).
End MorePrograms.

(** The vector [[0, 1]] and an output gradient for its exponential. *)
Definition exp_x : ndarray R := mk_ndarray [2] [0; 1]%R.

Definition exp_gy : ndarray R := mk_ndarray [2] [3; 4]%R.

(** A store after [y = exp(x)], with a third node for the output
    gradient. *)
Definition exp_store : Heap R :=
  mk_Heap [Variable_init (PyFloat exp_x);
           mk_Var (PyFloat (Exp_forward exp_x)) None (Some 0) 1;
           Variable_init (PyFloat exp_gy)]
          [mk_Function Exp [0] [1] 0] (mk_Config true true).

(** A store with one leaf, the 2x3 matrix. *)
Definition matrix_store : Heap R :=
  mk_Heap [Variable_init (PyFloat matrix_2x3)] [] (mk_Config true true).

(** The request [(3, -1)]: three rows, the number of columns inferred. *)
Definition three_rows : list Z := [3; -1]%Z.

(** The positions of a broadcast result of shape [s] that read the element
    at [i] of a source of shape [sa], in C order. *)
Definition preimages (sa s : Shape) (i : list nat) : list (list nat) :=
  filter (fun j => idx_eqb (bproj sa j) i) (indices s).

(** A row vector and an output gradient for its broadcast to two rows. *)
Definition row_123 : ndarray R := mk_ndarray [1; 3] [1; 2; 3]%R.

(** A store with the row vector and the 2x3 matrix, which stands for a
    gradient of the broadcast shape. *)
Definition broadcast_store : Heap R :=
  mk_Heap [Variable_init (PyFloat row_123); Variable_init (PyFloat matrix_2x3)]
          [] (mk_Config true true).

(** The sum, along the lane of the cell [c], of the products of the
    elements of [y] and [g]. *)
Definition lane_dot (y g : ndarray R) (mask : list bool) (c : list nat) : R :=
  Rsum (map (fun r => (get y (add_idx c r) * get g (add_idx c r))%R)
            (indices (lane_shape mask (shape y)))).

(** Two rows that each add up to one, standing for an output of softmax,
    and a store that holds them with the 2x3 matrix as output gradient. *)
Definition rows_sum_one : ndarray R :=
  mk_ndarray [2; 3] [1 / 2; 1 / 4; 1 / 4; 1 / 3; 1 / 3; 1 / 3]%R.

Definition softmax_store : Heap R :=
  mk_Heap [Variable_init (PyFloat matrix_2x3);
           mk_Var (PyFloat rows_sum_one) None (Some 0) 1;
           Variable_init (PyFloat matrix_2x3)]
          [mk_Function (Softmax 1) [0] [1] 0] (mk_Config true true).

(** The sum of the squared differences of the elements of two arrays of
    one shape, in the order of the arrays. *)
Definition squared_error_sum (x0 x1 : ndarray R) : R :=
  Rsum (map (fun i => ((get x0 i - get x1 i) * (get x0 i - get x1 i))%R)
            (indices (shape x0))).

(** A store with the 2x3 matrix, the row vector, and a scalar node that
    stands for the gradient of a loss. *)
Definition loss_store : Heap R :=
  mk_Heap [Variable_init (PyFloat matrix_2x3);
           Variable_init (PyFloat row_123);
           Variable_init (PyFloat (scalar 5%R))]
          [] (mk_Config true true).

(** A store after [y = sigmoid(x)] on the vector [[-1, 0, 2]], with a
    third node for the output gradient. *)
Definition sigmoid_store : Heap R :=
  mk_Heap [Variable_init (PyFloat relu_x);
           mk_Var (PyFloat (Sigmoid_forward relu_x)) None (Some 0) 1;
           Variable_init (PyFloat relu_gy)]
          [] (mk_Config true true).

(** Row [i] of a matrix of [C] columns, and the number of the rows of a
    matrix of scores whose first greatest score stands at the column that
    the label of the row names. *)
Definition matrix_row (ya : ndarray R) (C i : nat) : list R :=
  map (fun c => get ya [i; c]) (seq 0 C).

Definition hits (ya : ndarray R) (ta : ndarray Z) (N C : nat) : nat :=
  length (filter (fun i => (Z.of_nat (argmax_list (matrix_row ya C i))
                            =? get ta [i])%Z)
                 (seq 0 N)).

(** Scores of two rows: the first greatest score of the first row is at
    column 1, that of the second row at column 0; and labels that are
    right for the first row only. *)
Definition scores_2x3 : ndarray R := mk_ndarray [2; 3] [1; 5; 5; 7; 2; 7]%R.

Definition labels_1_2 : ndarray Z := mk_ndarray [2] [1; 2]%Z.

Definition accuracy_store : Heap R :=
  mk_Heap [Variable_init (PyFloat scores_2x3); Variable_init (PyInt labels_1_2)]
          [] (mk_Config true true).

(** The state of the loop of [preprocess] after the words [seen]: the
    words seen are the keys, numbered from zero in the order in which
    they were added, and the second dict is the first one turned
    around. *)
Definition preprocess_inv (st : Dict string nat * Dict nat string)
           (seen : list string) : Prop :=
  let '(word_to_id, id_to_word) := st in
  id_to_word = map (fun p => (snd p, fst p)) word_to_id /\
  map snd word_to_id = seq 0 (length word_to_id) /\
  NoDup (map fst word_to_id) /\
  forall w, In w seen <-> In w (map fst word_to_id).

(** The factor by which [clip_grads] scales, for the sum [total] of the
    squares of all gradient elements. *)
Definition clip_rate (max_norm total : R) : R :=
  (max_norm / (sqrt total + 1 / 1000000))%R.

(** Two gradient arrays, by reference 0 and 1. *)
Definition grads_store : list (ndarray R) :=
  [mk_ndarray [2] [3; 4]%R; mk_ndarray [1] [12]%R].

(** A list of gradients that names the first array twice. *)
Definition grads_refs : list nat := [0; 1; 0].

(** The sum of the squares of row [i] of a matrix with [m] columns, and
    of a vector with [m] elements. *)
Definition row_sum_squares (x : ndarray R) (m i : nat) : R :=
  Rsum (map (fun c => get x [i; c] * get x [i; c])%R (seq 0 m)).

Definition vector_sum_squares (x : ndarray R) (m : nat) : R :=
  Rsum (map (fun c => get x [c] * get x [c])%R (seq 0 m)).

(** A corpus of three word ids and two contexts of two word ids; the
    id -1 names the last word of the vocabulary. *)
Definition corpus_ids : ndarray Z := mk_ndarray [3] [0; 2; -1]%Z.

Definition contexts_ids : ndarray Z := mk_ndarray [2; 2] [0; 2; 1; -1]%Z.

(** The word at position [p] of a corpus, as an index into a vocabulary of
    [vocab_size] words. *)
Definition word_at (corpus : list Z) (vocab_size p : nat) : nat :=
  Z.to_nat (nth p corpus 0%Z mod Z.of_nat vocab_size).

(** Two different positions that are at most [window_size] apart. *)
Definition near (window_size p q : nat) : bool :=
  negb (p =? q) && ((p - q <=? window_size) && (q - p <=? window_size)).

(** The number of ordered pairs of positions near each other that hold the
    words [a] and [b]. *)
Definition cooccurrences (corpus : list Z) (vocab_size window_size a b : nat)
  : nat :=
  length
    (filter (fun pq => near window_size (fst pq) (snd pq)
                       && (word_at corpus vocab_size (fst pq) =? a)
                       && (word_at corpus vocab_size (snd pq) =? b))
            (list_prod (seq 0 (length corpus)) (seq 0 (length corpus)))).

(** The pairs of positions that the loops of [create_co_matrix] visit, in
    the order of the visits, for a corpus of [n] words. *)
Definition window_pairs (n window_size : nat) : list (nat * nat) :=
  flat_map
    (fun p =>
       flat_map
         (fun i => (if i <=? p then [(p, p - i)] else [])
                   ++ (if p + i <? n then [(p, p + i)] else []))
         (seq 1 window_size))
    (seq 0 n).

(* ================================================================== *)
(** * Properties of the array backend                                  *)
(* ================================================================== *)

Set Implicit Arguments.

(* ------------------------------------------------------------------ *)
(** ** Layout lemmas                                                   *)
(* ------------------------------------------------------------------ *)

Lemma in_boundsb_iff (s : Shape) (idx : list nat) :
  in_boundsb s idx = true <-> in_bounds s idx.
Proof.
  unfold in_bounds. revert idx.
  induction s as [|d s IH]; intros [|i idx]; simpl; split; intros Hb;
    try discriminate; try constructor; try now inversion Hb.
  - apply andb_prop in Hb as [? ?]. now apply Nat.ltb_lt.
  - apply andb_prop in Hb as [? ?]. now apply IH.
  - inversion Hb; subst. apply andb_true_intro; split.
    + now apply Nat.ltb_lt.
    + now apply IH.
Qed.

Lemma in_bounds_length (s : Shape) (idx : list nat) :
  in_bounds s idx -> length idx = length s.
Proof. intros Hb. induction Hb; simpl; congruence. Qed.

Lemma length_flat_map_const {X Y} (f : X -> list Y) (k : nat) (l : list X) :
  (forall x, In x l -> length (f x) = k) ->
  length (flat_map f l) = length l * k.
Proof.
  induction l as [|x l IH]; simpl; intros Hk; [reflexivity|].
  rewrite length_app, Hk, IH by auto. reflexivity.
Qed.

Lemma nth_flat_map_const {X Y} (f : X -> list Y) (k : nat) (l : list X)
      (dx : X) (dy : Y) (i r : nat) :
  (forall x, In x l -> length (f x) = k) ->
  i < length l -> r < k ->
  nth (i * k + r) (flat_map f l) dy = nth r (f (nth i l dx)) dy.
Proof.
  revert i. induction l as [|x l IH]; simpl; intros i Hk Hi Hr; [lia|].
  destruct i as [|i]; simpl.
  - rewrite app_nth1 by (rewrite Hk; auto). reflexivity.
  - rewrite app_nth2 by (rewrite Hk; auto; lia).
    rewrite Hk by auto.
    replace (k + i * k + r - k) with (i * k + r) by lia.
    apply IH; auto. lia.
Qed.

Lemma length_indices (s : Shape) : length (indices s) = size s.
Proof.
  induction s as [|d s IH]; simpl; [reflexivity|].
  rewrite (length_flat_map_const _ (k := size s) _).
  - now rewrite length_seq.
  - intros i _. now rewrite length_map.
Qed.

Lemma in_indices (s : Shape) (idx : list nat) :
  In idx (indices s) <-> in_bounds s idx.
Proof.
  unfold in_bounds. revert idx.
  induction s as [|d s IH]; simpl; intros idx.
  - split.
    + intros [<-|[]]. constructor.
    + intros Hb. inversion Hb. now left.
  - rewrite in_flat_map. split.
    + intros (i & Hi & Hin). apply in_map_iff in Hin as (idx' & <- & Hin).
      apply in_seq in Hi. constructor; [lia|]. now apply IH.
    + intros Hb. inversion Hb as [|i d' idx' s' Hi Hrest]; subst.
      exists i. split; [apply in_seq; lia|].
      apply in_map. now apply IH.
Qed.

Lemma ravel_lt (s : Shape) (idx : list nat) :
  in_bounds s idx -> ravel s idx < size s.
Proof.
  intros Hb. induction Hb as [|i d idx s Hi _ IH]; simpl; [lia|].
  fold (size s). nia.
Qed.

Lemma nth_ravel_indices (s : Shape) (idx d0 : list nat) :
  in_bounds s idx -> nth (ravel s idx) (indices s) d0 = idx.
Proof.
  intros Hb. revert d0.
  induction Hb as [|i d idx s Hi Hb IH]; intros d0; simpl; [reflexivity|].
  rewrite (nth_flat_map_const _ (k := size s) _ 0 _).
  - rewrite seq_nth by assumption. simpl.
    rewrite (nth_indep _ d0 (i :: d0)).
    + rewrite map_nth. now rewrite IH.
    + rewrite length_map, length_indices. now apply ravel_lt.
  - intros x _. now rewrite length_map, length_indices.
  - now rewrite length_seq.
  - now apply ravel_lt.
Qed.

Lemma in_bounds_nth_indices (s : Shape) (k : nat) (d0 : list nat) :
  k < size s -> in_bounds s (nth k (indices s) d0).
Proof.
  intros Hk. apply in_indices, nth_In. now rewrite length_indices.
Qed.

Lemma ravel_nth_indices (s : Shape) (k : nat) (d0 : list nat) :
  k < size s -> ravel s (nth k (indices s) d0) = k.
Proof.
  revert k d0. induction s as [|d s IH]; intros k d0 Hk; simpl in *.
  - destruct k; [reflexivity|lia].
  - fold (size s) in *.
    assert (Hs : size s <> 0) by (intros E; rewrite E in Hk; lia).
    pose proof (Nat.div_mod_eq k (size s)) as Hdm.
    pose proof (Nat.mod_upper_bound k (size s) Hs) as Hr.
    assert (Hq : k / size s < d).
    { apply Nat.Div0.div_lt_upper_bound. lia. }
    replace k with (k / size s * size s + k mod size s) at 1 by lia.
    rewrite (nth_flat_map_const _ (k := size s) _ 0 _).
    + rewrite seq_nth by assumption. simpl.
      rewrite (nth_indep _ d0 (k / size s :: d0))
        by (now rewrite length_map, length_indices).
      rewrite map_nth. rewrite IH by assumption. lia.
    + intros x _. now rewrite length_map, length_indices.
    + now rewrite length_seq.
    + assumption.
Qed.

Section ArrayLemmas.
Context {T : Type} `{Dflt T}.

Lemma wf_tabulate (s : Shape) (f : list nat -> T) : wf (tabulate s f).
Proof. unfold wf, tabulate; simpl. now rewrite length_map, length_indices. Qed.

Lemma shape_tabulate (s : Shape) (f : list nat -> T) :
  shape (tabulate s f) = s.
Proof. reflexivity. Qed.

Lemma get_tabulate (s : Shape) (f : list nat -> T) (idx : list nat) :
  in_bounds s idx -> get (tabulate s f) idx = f idx.
Proof.
  intros Hb. unfold get, tabulate; simpl.
  rewrite (nth_indep _ dflt (f [])).
  - rewrite map_nth. now rewrite nth_ravel_indices.
  - rewrite length_map, length_indices. now apply ravel_lt.
Qed.

(** Two well-formed arrays of one shape that agree at every index are
    the same array. *)
Lemma ndarray_ext (a b : ndarray T) :
  wf a -> wf b -> shape a = shape b ->
  (forall idx, in_bounds (shape a) idx -> get a idx = get b idx) ->
  a = b.
Proof.
  destruct a as [sa da], b as [sb db]; unfold wf, get; simpl.
  intros Ha Hb <- Hget. f_equal.
  apply (nth_ext _ _ dflt dflt); [congruence|].
  intros k Hk. rewrite Ha in Hk.
  specialize (Hget (nth k (indices sa) []) (in_bounds_nth_indices _ [] Hk)).
  now rewrite ravel_nth_indices in Hget.
Qed.

Lemma tabulate_ext (s : Shape) (f g : list nat -> T) :
  (forall idx, in_bounds s idx -> f idx = g idx) ->
  tabulate s f = tabulate s g.
Proof.
  intros Hfg. unfold tabulate. f_equal.
  apply map_ext_in. intros idx Hin. now apply Hfg, in_indices.
Qed.

Lemma tabulate_get (a : ndarray T) : wf a -> tabulate (shape a) (get a) = a.
Proof.
  intros Ha. apply ndarray_ext; auto using wf_tabulate.
  intros idx Hb. now apply get_tabulate.
Qed.
End ArrayLemmas.

(* ------------------------------------------------------------------ *)
(** ** Permutations of axes                                            *)
(* ------------------------------------------------------------------ *)

Lemma nodupb_NoDup (l : list nat) : nodupb l = true -> NoDup l.
Proof.
  induction l as [|x l IH]; simpl; intros Hb; [constructor|].
  apply andb_prop in Hb as [Hx Hl]. constructor; auto.
  intros Hin. apply negb_true_iff in Hx.
  assert (existsb (Nat.eqb x) l = true) as E; [|congruence].
  apply existsb_exists. exists x. split; [assumption|apply Nat.eqb_refl].
Qed.

Lemma NoDup_nodupb (l : list nat) : NoDup l -> nodupb l = true.
Proof.
  induction 1 as [|x l Hx _ IH]; simpl; [reflexivity|].
  rewrite IH, andb_true_r. apply negb_true_iff.
  destruct (existsb (Nat.eqb x) l) eqn:E; [|reflexivity].
  apply existsb_exists in E as (y & Hy & Hxy).
  apply Nat.eqb_eq in Hxy. subst y. contradiction.
Qed.

Lemma is_perm_In (n : nat) (p : list nat) (m : nat) :
  is_perm n p -> m < n -> In m p.
Proof.
  intros (Hlen & Hnd & Hlt) Hm.
  apply (NoDup_length_incl Hnd (l' := seq 0 n)).
  - rewrite length_seq. lia.
  - intros k Hk. apply in_seq. rewrite Forall_forall in Hlt.
    specialize (Hlt k Hk). lia.
  - apply in_seq. lia.
Qed.

Lemma index_of_lt (m : nat) (l : list nat) :
  In m l -> index_of m l < length l.
Proof.
  induction l as [|x l IH]; simpl; [tauto|].
  intros Hin. destruct (x =? m) eqn:E; [lia|].
  apply Nat.eqb_neq in E. destruct Hin as [?|Hin]; [congruence|].
  specialize (IH Hin). lia.
Qed.

Lemma nth_index_of (m : nat) (l : list nat) (d : nat) :
  In m l -> nth (index_of m l) l d = m.
Proof.
  induction l as [|x l IH]; simpl; [tauto|].
  intros Hin. destruct (x =? m) eqn:E.
  - now apply Nat.eqb_eq in E.
  - apply Nat.eqb_neq in E. destruct Hin as [?|Hin]; [congruence|]. auto.
Qed.

Lemma index_of_nth (l : list nat) (i d : nat) :
  NoDup l -> i < length l -> index_of (nth i l d) l = i.
Proof.
  intros Hnd. revert i. induction Hnd as [|x l Hx _ IH]; simpl; intros i Hi;
    [lia|].
  destruct i as [|i].
  - now rewrite Nat.eqb_refl.
  - destruct (x =? nth i l d) eqn:E.
    + apply Nat.eqb_eq in E. exfalso. apply Hx. rewrite E.
      apply nth_In. lia.
    + f_equal. apply IH. lia.
Qed.

Lemma length_inverse (p : list nat) : length (inverse p) = length p.
Proof. unfold inverse. now rewrite length_map, length_seq. Qed.

Lemma nth_inverse (p : list nat) (m : nat) :
  m < length p -> nth m (inverse p) 0 = index_of m p.
Proof.
  intros Hm. unfold inverse.
  rewrite (nth_indep _ 0 (index_of 0 p)) by (now rewrite length_map, length_seq).
  rewrite (map_nth (fun m => index_of m p)). now rewrite seq_nth.
Qed.

Lemma is_perm_inverse (n : nat) (p : list nat) :
  is_perm n p -> is_perm n (inverse p).
Proof.
  intros Hp. pose proof Hp as (Hlen & Hnd & Hlt).
  split; [|split].
  - now rewrite length_inverse.
  - unfold inverse. apply Finite.Injective_map_NoDup_in; [|apply seq_NoDup].
    intros a b Ha Hb E. apply in_seq in Ha, Hb.
    rewrite <- (nth_index_of a p 0), <- (nth_index_of b p 0);
      try (apply (is_perm_In Hp); lia).
    now rewrite E.
  - unfold inverse. apply Forall_forall. intros k Hk.
    apply in_map_iff in Hk as (m & <- & Hm). apply in_seq in Hm.
    rewrite <- Hlen. apply index_of_lt, (is_perm_In Hp). lia.
Qed.

Lemma permute_seq (n : nat) (l : list nat) :
  length l = n -> permute (seq 0 n) l = l.
Proof.
  intros <-. unfold permute. apply (nth_ext _ _ 0 0).
  - now rewrite length_map, length_seq.
  - intros k Hk. rewrite length_map, length_seq in Hk.
    rewrite (nth_indep _ 0 (nth 0 l 0)) by (now rewrite length_map, length_seq).
    rewrite (map_nth (fun k => nth k l 0)). now rewrite seq_nth.
Qed.

Lemma permute_inverse_l (n : nat) (p : list nat) :
  is_perm n p -> permute (inverse p) p = seq 0 n.
Proof.
  intros Hp. pose proof Hp as (Hlen & _ & _).
  unfold permute, inverse. rewrite map_map, Hlen.
  rewrite <- (map_id (seq 0 n)) at 2. apply map_ext_in.
  intros m Hm. apply in_seq in Hm.
  apply nth_index_of, (is_perm_In Hp). lia.
Qed.

Lemma inverse_involutive (n : nat) (p : list nat) :
  is_perm n p -> inverse (inverse p) = p.
Proof.
  intros Hp. pose proof Hp as (Hlen & Hnd & Hlt).
  pose proof (is_perm_inverse Hp) as (Hlen' & Hnd' & _).
  apply (nth_ext _ _ 0 0); [now rewrite !length_inverse|].
  intros k Hk. rewrite !length_inverse in Hk.
  rewrite nth_inverse by (now rewrite length_inverse).
  assert (Hpk : nth k p 0 < length p).
  { rewrite Forall_forall in Hlt. rewrite Hlen. apply Hlt, nth_In. lia. }
  rewrite <- (index_of_nth 0 Hnd Hk) at 1.
  rewrite <- (nth_inverse p Hpk).
  apply index_of_nth; [assumption|]. now rewrite length_inverse.
Qed.

Lemma permute_permute (a b l : list nat) :
  Forall (fun k => k < length b) a ->
  permute a (permute b l) = permute (permute a b) l.
Proof.
  intros Ha. unfold permute. rewrite map_map. apply map_ext_in.
  intros k Hk. rewrite Forall_forall in Ha. specialize (Ha k Hk).
  rewrite (nth_indep _ 0 (nth 0 l 0)) by (now rewrite length_map).
  now rewrite (map_nth (fun k => nth k l 0)).
Qed.

Lemma length_permute (p l : list nat) : length (permute p l) = length p.
Proof. unfold permute. now rewrite length_map. Qed.

Lemma in_bounds_nth (s j : list nat) (k : nat) :
  in_bounds s j -> k < length s -> nth k j 0 < nth k s 0.
Proof.
  intros Hb. revert k. induction Hb as [|i d j s Hi _ IH]; simpl; intros k Hk;
    [lia|].
  destruct k; [assumption|]. apply IH. lia.
Qed.

Lemma in_bounds_permute (s j p : list nat) :
  in_bounds s j -> Forall (fun k => k < length s) p ->
  in_bounds (permute p s) (permute p j).
Proof.
  intros Hb Hp. unfold in_bounds, permute.
  induction Hp as [|k p Hk _ IH]; simpl; constructor; auto.
  now apply in_bounds_nth.
Qed.

Section TransposeLemmas.
Context {T : Type} `{Dflt T}.

Lemma wf_transpose_by (p : list nat) (x : ndarray T) : wf (transpose_by p x).
Proof. apply wf_tabulate. Qed.

(** Transposing by a permutation and then by its inverse gives the array
    back. *)
Lemma transpose_by_inverse (n : nat) (p : list nat) (x : ndarray T) :
  wf x -> ndim x = n -> is_perm n p ->
  transpose_by (inverse p) (transpose_by p x) = x.
Proof.
  intros Hwf Hn Hp. unfold ndim in Hn.
  pose proof Hp as (Hlen & Hnd & Hlt).
  pose proof (is_perm_inverse Hp) as Hq. pose proof Hq as (Hlen' & _ & Hlt').
  assert (Hshape : permute (inverse p) (permute p (shape x)) = shape x).
  { rewrite permute_permute by (now rewrite Hlen).
    rewrite (permute_inverse_l Hp). now apply permute_seq. }
  apply ndarray_ext; auto using wf_transpose_by.
  intros j Hj. unfold transpose_by at 1. simpl in Hj. rewrite Hshape in Hj.
  change (shape (transpose_by p x)) with (permute p (shape x)).
  rewrite Hshape. rewrite get_tabulate by assumption.
  rewrite (inverse_involutive Hp).
  unfold transpose_by. rewrite get_tabulate.
  - rewrite permute_permute by (now rewrite Hlen).
    rewrite (permute_inverse_l Hp). f_equal. apply permute_seq.
    rewrite (in_bounds_length Hj). assumption.
  - apply in_bounds_permute; [assumption|]. now rewrite Hn.
Qed.
End TransposeLemmas.

(* ------------------------------------------------------------------ *)
(** ** [argsort] of a permutation is its inverse                       *)
(* ------------------------------------------------------------------ *)

Lemma insert_key_perm (keys : list Z) (i : nat) (l : list nat) :
  Permutation (insert_key keys i l) (i :: l).
Proof.
  induction l as [|j l IH]; simpl; [reflexivity|].
  destruct (nth i keys 0 <=? nth j keys 0)%Z; [reflexivity|].
  rewrite IH. apply perm_swap.
Qed.

Lemma argsort_nat_perm (keys : list Z) :
  Permutation (argsort_nat keys) (seq 0 (length keys)).
Proof.
  unfold argsort_nat. induction (seq 0 (length keys)) as [|i l IH]; simpl;
    [reflexivity|].
  rewrite insert_key_perm. now constructor.
Qed.

Lemma insert_key_sorted (keys : list Z) (i : nat) (l : list nat) :
  StronglySorted (key_le keys) l ->
  StronglySorted (key_le keys) (insert_key keys i l).
Proof.
  induction 1 as [|j l Hs IH Hj]; simpl.
  - repeat constructor.
  - destruct (nth i keys 0 <=? nth j keys 0)%Z eqn:E.
    + apply Z.leb_le in E. constructor; [now constructor|].
      constructor; [exact E|].
      eapply Forall_impl; [|exact Hj]. unfold key_le in *. intros; lia.
    + apply Z.leb_gt in E. constructor; [assumption|].
      eapply Permutation_Forall; [symmetry; apply insert_key_perm|].
      constructor; [unfold key_le; lia|assumption].
Qed.

Lemma argsort_nat_sorted (keys : list Z) :
  StronglySorted (key_le keys) (argsort_nat keys).
Proof.
  unfold argsort_nat. induction (seq 0 (length keys)) as [|i l IH]; simpl.
  - constructor.
  - now apply insert_key_sorted.
Qed.

Lemma sorted_perm_unique (l1 l2 : list nat) :
  StronglySorted le l1 -> StronglySorted le l2 -> Permutation l1 l2 ->
  l1 = l2.
Proof.
  intros H1. revert l2. induction H1 as [|x l1 Hs1 IH Hx]; intros l2 H2 Hp.
  - apply Permutation_nil in Hp. now subst.
  - destruct H2 as [|y l2 Hs2 Hy].
    + symmetry in Hp. now apply Permutation_nil in Hp.
    + assert (x = y) as ->.
      { assert (In y (x :: l1)) as Hin1
          by (eapply Permutation_in; [symmetry; exact Hp|now left]).
        assert (In x (y :: l2)) as Hin2
          by (eapply Permutation_in; [exact Hp|now left]).
        rewrite Forall_forall in Hx, Hy.
        destruct Hin1 as [?|Hin1]; [congruence|].
        destruct Hin2 as [?|Hin2]; [congruence|].
        specialize (Hx _ Hin1). specialize (Hy _ Hin2). lia. }
      f_equal. apply IH; [assumption|]. eapply Permutation_cons_inv, Hp.
Qed.

Lemma StronglySorted_seq (a n : nat) : StronglySorted le (seq a n).
Proof.
  revert a. induction n as [|n IH]; intros a; simpl; constructor; auto.
  apply Forall_forall. intros k Hk. apply in_seq in Hk. lia.
Qed.

Lemma StronglySorted_map {X Y} (R : Y -> Y -> Prop) (f : X -> Y) (l : list X) :
  StronglySorted (fun a b => R (f a) (f b)) l -> StronglySorted R (map f l).
Proof.
  induction 1 as [|x l _ IH Hx]; simpl; constructor; auto.
  apply Forall_forall. intros y Hy. apply in_map_iff in Hy as (z & <- & Hz).
  rewrite Forall_forall in Hx. auto.
Qed.

Lemma map_nth_seq (l : list nat) :
  map (fun i => nth i l 0) (seq 0 (length l)) = l.
Proof. exact (permute_seq l (eq_refl (length l))). Qed.

Lemma is_perm_Permutation (n : nat) (p : list nat) :
  is_perm n p -> Permutation p (seq 0 n).
Proof.
  intros (Hlen & Hnd & Hlt). apply NoDup_Permutation_bis; auto.
  - rewrite length_seq. lia.
  - intros k Hk. rewrite Forall_forall in Hlt. apply in_seq.
    specialize (Hlt _ Hk). lia.
Qed.

Lemma argsort_nat_is_inverse (n : nat) (p : list nat) :
  is_perm n p -> argsort_nat (map Z.of_nat p) = inverse p.
Proof.
  intros Hp. pose proof Hp as (Hlen & Hnd & Hlt).
  set (keys := map Z.of_nat p). set (r := argsort_nat keys).
  assert (Hperm : Permutation r (seq 0 n)).
  { unfold r. rewrite argsort_nat_perm. unfold keys.
    now rewrite length_map, Hlen. }
  assert (Hkeys : map (fun i => nth i p 0) r = seq 0 n).
  { apply sorted_perm_unique.
    - apply StronglySorted_map. eapply StronglySorted_ind with
        (P := StronglySorted (fun a b => nth a p 0 <= nth b p 0));
        [constructor| |apply (argsort_nat_sorted keys)].
      intros a l _ IH Ha. constructor; [assumption|].
      eapply Forall_impl; [|exact Ha]. unfold key_le, keys. intros b Hb.
      change 0%Z with (Z.of_nat 0) in Hb. rewrite !map_nth in Hb. lia.
    - apply StronglySorted_seq.
    - rewrite (Permutation_map _ Hperm). rewrite <- Hlen, map_nth_seq.
      rewrite Hlen. now apply is_perm_Permutation. }
  assert (Hr : length r = n).
  { rewrite (Permutation_length Hperm). apply length_seq. }
  apply (nth_ext _ _ 0 0); [now rewrite length_inverse, Hr, Hlen|].
  intros m Hm. rewrite Hr in Hm.
  rewrite nth_inverse by lia.
  assert (Hrm : nth m r 0 < length p).
  { rewrite Hlen. assert (In (nth m r 0) (seq 0 n)) as Hin.
    { eapply Permutation_in; [exact Hperm|]. apply nth_In. lia. }
    apply in_seq in Hin. lia. }
  assert (Hm' : nth (nth m r 0) p 0 = m).
  { pose proof (f_equal (fun l => nth m l 0) Hkeys) as E. simpl in E.
    rewrite seq_nth in E by assumption.
    rewrite (nth_indep _ 0 (nth 0 p 0)) in E by (now rewrite length_map, Hr).
    now rewrite (map_nth (fun i => nth i p 0)) in E. }
  symmetry. rewrite <- Hm' at 1. now apply index_of_nth.
Qed.

(* ------------------------------------------------------------------ *)
(** ** The axes of [transpose]                                         *)
(* ------------------------------------------------------------------ *)

Lemma norm_axis_some (n : nat) (ax : Z) (k : nat) :
  norm_axis n ax = Some k ->
  k < n /\ Z.of_nat k = (ax mod Z.of_nat n)%Z.
Proof.
  unfold norm_axis. destruct (_ && _) eqn:E; [|discriminate].
  intros [= <-]. apply andb_prop in E as [E1 E2].
  apply Z.leb_le in E1. apply Z.ltb_lt in E2.
  assert (0 <= ax mod Z.of_nat n < Z.of_nat n)%Z
    by (apply Z.mod_pos_bound; lia). lia.
Qed.

Lemma norm_axis_of_nat (n k : nat) :
  k < n -> norm_axis n (Z.of_nat k) = Some k.
Proof.
  intros Hk. unfold norm_axis.
  replace (_ && _) with true.
  - rewrite Z.mod_small by lia. now rewrite Nat2Z.id.
  - symmetry. apply andb_true_intro. split; [apply Z.leb_le|apply Z.ltb_lt]; lia.
Qed.

Lemma omapM_norm_axis (n : nat) (l : list Z) (p : list nat) :
  omapM (norm_axis n) l = Some p ->
  length p = length l /\ Forall (fun k => k < n) p /\
  map Z.of_nat p = map (fun ax => (ax mod Z.of_nat n)%Z) l.
Proof.
  revert p. induction l as [|ax l IH]; simpl; intros p.
  - intros [= <-]. repeat split; constructor.
  - destruct (norm_axis n ax) as [k|] eqn:Ek; simpl; [|discriminate].
    destruct (omapM (norm_axis n) l) as [ks|]; simpl; [|discriminate].
    intros [= <-]. destruct (IH ks eq_refl) as (Hl & Hf & Hm).
    apply norm_axis_some in Ek as [Hk Hkz].
    repeat split; simpl; [congruence|now constructor|congruence].
Qed.

Lemma omapM_norm_axis_of_nat (n : nat) (p : list nat) :
  Forall (fun k => k < n) p ->
  omapM (norm_axis n) (map Z.of_nat p) = Some p.
Proof.
  induction 1 as [|k p Hk _ IH]; simpl; [reflexivity|].
  now rewrite norm_axis_of_nat, IH.
Qed.

Lemma is_perm_rev_seq (n : nat) : is_perm n (rev (seq 0 n)).
Proof.
  split; [|split].
  - now rewrite length_rev, length_seq.
  - apply NoDup_rev, seq_NoDup.
  - apply Forall_forall. intros k Hk. apply in_rev, in_seq in Hk. lia.
Qed.

Lemma transpose_perm_is_perm (n : nat) (axes : option (list Z)) (p : list nat) :
  transpose_perm n axes = Some p -> is_perm n p.
Proof.
  destruct axes as [l|]; simpl.
  - destruct (length l =? n) eqn:El; [|discriminate].
    apply Nat.eqb_eq in El.
    destruct (omapM (norm_axis n) l) as [q|] eqn:Eq; simpl; [|discriminate].
    destruct (nodupb q) eqn:Enq; [|discriminate]. intros [= <-].
    apply omapM_norm_axis in Eq as (Hl & Hf & _).
    split; [congruence|]. split; [now apply nodupb_NoDup|assumption].
  - intros [= <-]. apply is_perm_rev_seq.
Qed.

Lemma transpose_perm_of_nat (n : nat) (p : list nat) :
  is_perm n p -> transpose_perm n (Some (map Z.of_nat p)) = Some p.
Proof.
  intros (Hlen & Hnd & Hlt). simpl.
  rewrite length_map, Hlen, Nat.eqb_refl.
  rewrite omapM_norm_axis_of_nat by assumption. simpl.
  now rewrite NoDup_nodupb.
Qed.

Lemma inverse_rev_seq (n : nat) : inverse (rev (seq 0 n)) = rev (seq 0 n).
Proof.
  pose proof (is_perm_rev_seq n) as Hp. pose proof Hp as (Hlen & Hnd & _).
  set (p := rev (seq 0 n)) in *.
  assert (Hnth : forall k, k < n -> nth k p 0 = n - S k).
  { intros k Hk. unfold p. rewrite rev_nth by (now rewrite length_seq).
    rewrite length_seq, seq_nth by lia. lia. }
  apply (nth_ext _ _ 0 0); [now rewrite length_inverse|].
  intros m Hm. rewrite length_inverse, Hlen in Hm.
  rewrite nth_inverse by lia.
  replace m with (nth (nth m p 0) p 0) at 1.
  - apply index_of_nth; [assumption|]. rewrite Hnth by assumption. lia.
  - rewrite (Hnth m Hm), Hnth by lia. lia.
Qed.

Lemma backward_axes_perm (n : nat) (axes : option (list Z)) (p : list nat) :
  transpose_perm n axes = Some p ->
  transpose_perm n (backward_axes axes) = Some (inverse p).
Proof.
  intros Hp. pose proof (transpose_perm_is_perm _ _ Hp) as Hperm.
  destruct axes as [l|]; simpl in *.
  - destruct (length l =? n) eqn:El; [|discriminate].
    apply Nat.eqb_eq in El.
    destruct (omapM (norm_axis n) l) as [q|] eqn:Eq; simpl in Hp; [|discriminate].
    destruct (nodupb q); [|discriminate]. injection Hp as ->.
    apply omapM_norm_axis in Eq as (_ & _ & Hm).
    rewrite El, <- Hm. unfold np_argsort.
    rewrite (argsort_nat_is_inverse Hperm).
    change (transpose_perm n (Some (map Z.of_nat (inverse p))) = Some (inverse p)).
    apply transpose_perm_of_nat. now apply is_perm_inverse.
  - injection Hp as <-. now rewrite inverse_rev_seq.
Qed.

Section TransposeRoundTrip.
Context {T : Type} `{Dflt T}.

Lemma np_transpose_backward (x y : ndarray T) (axes : option (list Z)) :
  wf x -> np_transpose x axes = Some y ->
  np_transpose y (backward_axes axes) = Some x.
Proof.
  intros Hwf. unfold np_transpose.
  destruct (transpose_perm (ndim x) axes) as [p|] eqn:Ep; simpl; [|discriminate].
  intros [= <-]. pose proof (transpose_perm_is_perm _ _ Ep) as Hp.
  assert (Hn : ndim (transpose_by p x) = ndim x).
  { unfold ndim, transpose_by. simpl. rewrite length_permute. apply Hp. }
  rewrite Hn, (backward_axes_perm _ _ Ep). simpl. f_equal.
  now apply transpose_by_inverse with (n := ndim x).
Qed.
End TransposeRoundTrip.

(* ================================================================== *)
(** * Properties of the graph store                                    *)
(* ================================================================== *)

Local Open Scope heap_scope.
Unset Implicit Arguments.

Lemma bind_run {A X Y} (m : M A X) (k : X -> M A Y) (h h1 : Heap A) (x : X) :
  m h = Some (x, h1) -> bind m k h = k x h1.
Proof. intros E. unfold bind. now rewrite E. Qed.

(** One step of a computation whose first action is known to run as [E]. *)
Ltac run E := erewrite bind_run by (exact E); cbv beta.

Section HeapLemmas.
Context {A : Type} `{Backend A}.

Lemma extends_refl (h : Heap A) : extends h h.
Proof.
  repeat split; [exists []|exists []]; now rewrite app_nil_r.
Qed.

Lemma extends_trans (h1 h2 h3 : Heap A) :
  extends h1 h2 -> extends h2 h3 -> extends h1 h3.
Proof.
  intros ((v1 & E1) & (f1 & F1) & C1) ((v2 & E2) & (f2 & F2) & C2).
  repeat split.
  - exists (v1 ++ v2). now rewrite E2, E1, app_assoc.
  - exists (f1 ++ f2). now rewrite F2, F1, app_assoc.
  - congruence.
Qed.

Lemma var_data_extends (h h' : Heap A) (x : nat) (d : pyobj A) :
  extends h h' -> var_data h x = Some d -> var_data h' x = Some d.
Proof.
  intros ((vs & E) & _) Hd. unfold var_data in *. rewrite E.
  destruct (nth_error (h_vars h) x) as [v|] eqn:Ev; [|discriminate].
  rewrite nth_error_app1; [now rewrite Ev|].
  apply nth_error_Some. congruence.
Qed.

Lemma arg_data_extends (h h' : Heap A) (a : Arg A) (d : pyobj A) :
  extends h h' -> arg_data h a d -> arg_data h' a d.
Proof. destruct a; simpl; eauto using var_data_extends. Qed.

Lemma var_data_new (h : Heap A) (v : Var A) :
  var_data (mk_Heap (h_vars h ++ [v]) (h_funcs h) (h_config h))
           (length (h_vars h)) = Some (v_data v).
Proof.
  unfold var_data. simpl.
  rewrite nth_error_app2, Nat.sub_diag by lia. reflexivity.
Qed.

Lemma extends_new_var (h : Heap A) (v : Var A) :
  extends h (mk_Heap (h_vars h ++ [v]) (h_funcs h) (h_config h)).
Proof.
  repeat split; simpl; [now exists [v]|exists []; now rewrite app_nil_r].
Qed.

Lemma as_variable_spec (h : Heap A) (a : Arg A) (d : pyobj A) :
  arg_data h a d ->
  exists id h', as_variable a h = Some (id, h') /\ extends h h' /\
                var_data h' id = Some d /\ h_funcs h' = h_funcs h.
Proof.
  destruct a as [id|o]; simpl; intros Hd.
  - exists id, h. auto using extends_refl.
  - subst o. eexists _, _. split; [reflexivity|].
    split; [apply extends_new_var|]. split; [apply var_data_new|reflexivity].
Qed.

Lemma mapM_as_variable_spec (h : Heap A) (args : list (Arg A))
      (ds : list (pyobj A)) :
  Forall2 (arg_data h) args ds ->
  exists ids h', mapM as_variable args h = Some (ids, h') /\ extends h h' /\
                 h_funcs h' = h_funcs h /\
                 Forall2 (fun id d => var_data h' id = Some d) ids ds.
Proof.
  revert h ds.
  induction args as [|a args IH]; intros h ds Hargs;
    inversion Hargs as [|a' d args' ds' Ha Hrest]; subst.
  - exists [], h. simpl. auto using extends_refl.
  - destruct (as_variable_spec _ _ _ Ha) as (id & h1 & Hrun & Hext & Hd & Hf).
    assert (Hargs1 : Forall2 (arg_data h1) args ds').
    { eapply Forall2_impl; [|eassumption]. eauto using arg_data_extends. }
    destruct (IH _ _ Hargs1) as (ids & h2 & Hrun2 & Hext2 & Hf2 & Hds).
    exists (id :: ids), h2. simpl.
    run Hrun. run Hrun2. split; [reflexivity|].
    split; [eauto using extends_trans|]. split; [congruence|].
    constructor; eauto using var_data_extends.
Qed.

Lemma read_data_run (h : Heap A) (id : nat) (d : pyobj A) :
  var_data h id = Some d -> read_data id h = Some (d, h).
Proof.
  unfold var_data, read_data, read_var, bind, ret.
  destruct (nth_error (h_vars h) id); simpl; congruence.
Qed.

Lemma mapM_read_data_run (h : Heap A) (ids : list nat) (ds : list (pyobj A)) :
  Forall2 (fun id d => var_data h id = Some d) ids ds ->
  mapM read_data ids h = Some (ds, h).
Proof.
  induction 1 as [|id d ids ds Hd _ IH]; simpl; [reflexivity|].
  run (read_data_run _ _ _ Hd). now run IH.
Qed.

Lemma mapM_read_var_run (h : Heap A) (ids : list nat) (ds : list (pyobj A)) :
  Forall2 (fun id d => var_data h id = Some d) ids ds ->
  exists vs, mapM read_var ids h = Some (vs, h).
Proof.
  induction 1 as [|id d ids ds Hd _ (vs & IH)]; simpl; [now exists []|].
  unfold var_data in Hd.
  destruct (nth_error (h_vars h) id) as [v|] eqn:Ev; [|discriminate].
  exists (v :: vs). unfold bind at 1, read_var at 1. rewrite Ev.
  now run IH.
Qed.

Lemma arg_shape_run (h : Heap A) (a : Arg A) (d : pyobj A) (s : Shape) :
  arg_data h a d -> obj_shape d = Some s -> arg_shape a h = Some (s, h).
Proof.
  destruct a as [id|o]; simpl; intros Hd Hs.
  - run (read_data_run _ _ _ Hd). unfold lift. now rewrite Hs.
  - subst o. unfold lift. now rewrite Hs.
Qed.

(** A call whose [forward] succeeds returns a node that holds the result;
    the store is only extended.  With graph recording on, the function is
    recorded as the last function of the store, with the coerced arguments
    as inputs and the new node as output; the new node names it as its
    creator. *)
Lemma Function_call_spec (h : Heap A) (op self : Op) (args : list (Arg A))
      (ds : list (pyobj A)) (y : pyobj A) :
  Forall2 (arg_data h) args ds ->
  forward op ds = Some (self, y) ->
  exists r h',
    Function_call op args h = Some (r, h') /\ extends h h' /\
    var_data h' r = Some y /\ length (h_vars h) <= r /\
    (if enable_backprop (h_config h)
     then exists inputs gen,
         h_funcs h' = h_funcs h ++ [mk_Function self inputs [r] gen] /\
         option_map v_creator (nth_error (h_vars h') r)
         = Some (Some (length (h_funcs h)))
     else h_funcs h' = h_funcs h).
Proof.
  intros Hargs Hfwd.
  destruct (mapM_as_variable_spec _ _ _ Hargs)
    as (ids & h1 & Hrun1 & Hext1 & Hf1 & Hds).
  destruct (mapM_read_var_run _ _ _ Hds) as (vs & Hvs).
  pose proof Hext1 as ((vs1 & Ev1) & _ & Hc1).
  unfold Function_call.
  run Hrun1. run (mapM_read_data_run _ _ _ Hds).
  unfold lift, bind at 1. rewrite Hfwd.
  unfold get_heap, bind at 1. rewrite Hc1.
  destruct (enable_backprop (h_config h)).
  - run Hvs. unfold new_var, new_func, bind, ret. simpl.
    eexists _, _. split; [reflexivity|]. split; [|split; [|split]].
    + eapply extends_trans; [exact Hext1|].
      repeat split; simpl; [now eexists|now eexists].
    + apply (var_data_new h1).
    + rewrite Ev1, length_app. lia.
    + rewrite Hf1. eexists _, _. split; [reflexivity|]. simpl.
      rewrite nth_error_app2, Nat.sub_diag by lia. reflexivity.
  - unfold new_var. eexists _, _. split; [reflexivity|].
    split; [|split; [|split]].
    + eapply extends_trans; [exact Hext1|]. apply extends_new_var.
    + apply (var_data_new h1).
    + rewrite Ev1, length_app. lia.
    + simpl. assumption.
Qed.
End HeapLemmas.

(* ================================================================== *)
(** * Reshape and transpose: the no-op shortcut                        *)
(* ================================================================== *)

Section Shortcut.
Context {A : Type} `{Backend A}.

Lemma shape_eqb_refl (s : Shape) : shape_eqb s (shape_req s) = true.
Proof. unfold shape_eqb. now destruct (list_eq_dec _ _ _). Qed.

Lemma forward_Transpose (axes : option (list Z)) (d y : pyobj A) :
  Transpose_forward axes d = Some y ->
  forward (Transpose axes) [d] = Some (Transpose axes, y).
Proof. intros E. simpl. now rewrite E. Qed.

(** C4 (as amended).  [reshape] returns its input when the requested shape
    is the shape the input already has: a node comes back as the very same
    node and the store is left as it was, raw data is only wrapped into a
    leaf, and in neither case is a function constructed or recorded.
    [transpose] has no such shortcut: whenever its forward succeeds it
    returns a node that did not exist before and, with graph recording on,
    records a new [Transpose] function as the creator of that node -- also
    when the axes leave the shape unchanged. *)
Theorem reshape_shortcut_transpose_records :
  (forall (h : Heap A) (x : nat) (d : pyobj A) (s : Shape),
      var_data h x = Some d -> obj_shape d = Some s ->
      reshape (AVar x) (shape_req s) h = Some (x, h)) /\
  (forall (h : Heap A) (o : pyobj A) (s : Shape),
      obj_shape o = Some s ->
      reshape (AObj o) (shape_req s) h
      = Some (length (h_vars h),
              mk_Heap (h_vars h ++ [Variable_init o]) (h_funcs h) (h_config h))) /\
  (forall (h : Heap A) (x : Arg A) (d y : pyobj A) (axes : option (list Z)),
      arg_data h x d -> Transpose_forward axes d = Some y ->
      enable_backprop (h_config h) = true ->
      exists r h' inputs gen,
        transpose x axes h = Some (r, h') /\
        length (h_vars h) <= r /\
        var_data h' r = Some y /\
        h_funcs h' = h_funcs h ++ [mk_Function (Transpose axes) inputs [r] gen] /\
        option_map v_creator (nth_error (h_vars h') r)
        = Some (Some (length (h_funcs h)))).
Proof.
  split; [|split].
  - intros h x d s Hd Hs. unfold reshape.
    run (arg_shape_run h (AVar x) d s Hd Hs).
    now rewrite shape_eqb_refl.
  - intros h o s Hs. unfold reshape.
    run (arg_shape_run h (AObj o) o s eq_refl Hs).
    now rewrite shape_eqb_refl.
  - intros h x d y axes Hd Hfwd Hbp. unfold transpose.
    destruct (Function_call_spec h (Transpose axes) (Transpose axes) [x] [d] y)
      as (r & h' & Hrun & _ & Hdata & Hfresh & Hrec).
    + repeat constructor. exact Hd.
    + now apply forward_Transpose.
    + rewrite Hbp in Hrec. destruct Hrec as (inputs & gen & Hfuncs & Hcr).
      exists r, h', inputs, gen. auto.
Qed.
End Shortcut.

Lemma reshape_shortcut_transpose_records_witness :
  reshape (AVar 0) (shape_req [3]) vector_store = Some (0, vector_store) /\
  exists r h' inputs gen,
    transpose (AVar 0) None vector_store = Some (r, h') /\
    length (h_vars vector_store) <= r /\
    var_data h' r = Some (PyFloat (mk_ndarray [3] [1; 2; 3]%R)) /\
    h_funcs h' = h_funcs vector_store ++ [mk_Function (Transpose None) inputs [r] gen] /\
    option_map v_creator (nth_error (h_vars h') r)
    = Some (Some (length (h_funcs vector_store))).
Proof.
  destruct (@reshape_shortcut_transpose_records R _) as (Hr & _ & Ht).
  split.
  - apply (Hr vector_store 0 (PyFloat (mk_ndarray [3] [1; 2; 3]%R)) [3]);
      reflexivity.
  - apply (Ht vector_store (AVar 0) (PyFloat (mk_ndarray [3] [1; 2; 3]%R)));
      reflexivity.
Defined.

(** C4, as stated, fails for [transpose]: transposing a vector leaves its
    shape (and its data) unchanged, yet the call does not return the input
    node; it returns a new node and records a [Transpose] function. *)
Lemma transpose_has_no_shortcut :
  exists r h',
    transpose (AVar 0) None vector_store = Some (r, h') /\
    var_data h' r = var_data vector_store 0 /\
    r <> 0 /\
    h_funcs h' = [mk_Function (Transpose None) [0] [r] 0] /\
    transpose (AVar 0) None vector_store <> Some (0, vector_store).
Proof.
  exists 1.
  exists (mk_Heap
            [Variable_init (PyFloat (mk_ndarray [3] [1; 2; 3]%R));
             mk_Var (PyFloat (mk_ndarray [3] [1; 2; 3]%R)) None (Some 0) 1]
            [mk_Function (Transpose None) [0] [1] 0]
            (mk_Config true true)).
  assert (E : transpose (AVar 0) None vector_store = Some (1,
            mk_Heap
              [Variable_init (PyFloat (mk_ndarray [3] [1; 2; 3]%R));
               mk_Var (PyFloat (mk_ndarray [3] [1; 2; 3]%R)) None (Some 0) 1]
              [mk_Function (Transpose None) [0] [1] 0]
              (mk_Config true true))) by reflexivity.
  split; [exact E|].
  split; [reflexivity|]. split; [discriminate|].
  split; [reflexivity|]. rewrite E. discriminate.
Qed.

(* ================================================================== *)
(** * Transpose                                                        *)
(* ================================================================== *)

Section TransposeBackward.
Context {A : Type} `{Backend A}.

(** The value part of a call. *)
Lemma Function_call_run (h : Heap A) (op self : Op) (args : list (Arg A))
      (ds : list (pyobj A)) (y : pyobj A) :
  Forall2 (arg_data h) args ds ->
  forward op ds = Some (self, y) ->
  exists r h',
    Function_call op args h = Some (r, h') /\ extends h h' /\
    var_data h' r = Some y.
Proof.
  intros Hargs Hfwd.
  destruct (Function_call_spec h op self args ds y Hargs Hfwd)
    as (r & h' & Hrun & Hext & Hd & _).
  now exists r, h'.
Qed.

Lemma transpose_run (h : Heap A) (x : Arg A) (d y : pyobj A)
      (axes : option (list Z)) :
  arg_data h x d -> Transpose_forward axes d = Some y ->
  exists r h',
    transpose x axes h = Some (r, h') /\ extends h h' /\
    var_data h' r = Some y.
Proof.
  intros Hd Hfwd. unfold transpose.
  apply Function_call_run with (ds := [d]) (self := Transpose axes).
  - repeat constructor. exact Hd.
  - now apply forward_Transpose.
Qed.

Lemma Transpose_forward_backward (axes : option (list Z)) (x y : pyobj A) :
  obj_wf x -> Transpose_forward axes x = Some y ->
  Transpose_forward (backward_axes axes) y = Some x.
Proof.
  unfold Transpose_forward.
  destruct x as [|a|a|a]; simpl; intros Hwf; try discriminate;
    destruct (np_transpose a axes) as [b|] eqn:E; simpl; try discriminate;
    intros [= <-]; simpl;
    now rewrite (@np_transpose_backward _ _ _ _ _ Hwf E).
Qed.

(** C5.  For every array [x] and every [axes] that [transpose] accepts
    ([None], or each axis named once, negative numbers counting from the
    end), the backward of the transpose undoes the forward.  With [p] the
    permutation of the forward, the axes that the backward transposes by
    -- the argsort of the forward axes taken modulo their number -- stand
    for the inverse of [p]; permuting any list of axes (or extents) by [p]
    and then by that inverse gives the list back; and applied to the
    forward result [y] the backward returns a node holding [x] itself, with
    its original axis order and shape. *)
Theorem Transpose_backward_inverts_forward
        (h : Heap A) (f : Function) (gy : nat) (axes : option (list Z))
        (x y : pyobj A) :
  f_op f = Transpose axes ->
  obj_wf x ->
  Transpose_forward axes x = Some y ->
  var_data h gy = Some y ->
  exists s p,
    obj_shape x = Some s /\
    transpose_perm (length s) axes = Some p /\
    obj_shape y = Some (permute p s) /\
    transpose_perm (length s) (backward_axes axes) = Some (inverse p) /\
    (forall l, length l = length s -> permute (inverse p) (permute p l) = l) /\
    exists gx h',
      Transpose_backward f gy h = Some ([Some gx], h') /\
      var_data h' gx = Some x.
Proof.
  intros Hop Hwf Hfwd Hgy.
  assert (Hsp : exists s p, obj_shape x = Some s /\
                            transpose_perm (length s) axes = Some p /\
                            obj_shape y = Some (permute p s)).
  { revert Hfwd. unfold Transpose_forward, move, np_transpose, ndim.
    destruct x as [|a|a|a]; try discriminate;
      (destruct (transpose_perm (length (shape a)) axes) as [p|] eqn:Ep;
       simpl; [|discriminate]); intros [= <-]; now exists (shape a), p. }
  destruct Hsp as (s & p & Hs & Hp & Hys). exists s, p.
  pose proof (transpose_perm_is_perm _ _ Hp) as Hperm.
  repeat (split; [first [assumption | now apply backward_axes_perm]|]).
  split.
  - intros l Hl. destruct Hperm as (Hlen & Hnd & Hlt).
    rewrite permute_permute.
    + rewrite (@permute_inverse_l (length s)) by (repeat split; assumption).
      now apply permute_seq.
    + rewrite Hlen. apply (@is_perm_inverse (length s)).
      repeat split; assumption.
  - destruct (transpose_run h (AVar gy) y x (backward_axes axes) Hgy
                (Transpose_forward_backward axes x y Hwf Hfwd))
      as (gx & h' & Hrun & _ & Hd).
    exists gx, h'. split; [|exact Hd].
    unfold Transpose_backward. rewrite Hop.
    destruct axes as [l|]; simpl in Hrun |- *; now run Hrun.
Qed.
End TransposeBackward.

Lemma Transpose_backward_inverts_forward_witness :
  exists s p,
    obj_shape (PyFloat matrix_2x3) = Some s /\
    transpose_perm (length s) (Some [-1; 0]%Z) = Some p /\
    obj_shape (PyFloat (mk_ndarray [3; 2] [1; 4; 2; 5; 3; 6]%R))
    = Some (permute p s) /\
    transpose_perm (length s) (backward_axes (Some [-1; 0]%Z))
    = Some (inverse p) /\
    (forall l, length l = length s -> permute (inverse p) (permute p l) = l) /\
    exists gx h',
      Transpose_backward (mk_Function (Transpose (Some [-1; 0]%Z)) [0] [1] 0)
                         1 transpose_store
      = Some ([Some gx], h') /\
      var_data h' gx = Some (PyFloat matrix_2x3).
Proof.
  apply (Transpose_backward_inverts_forward
           transpose_store
           (mk_Function (Transpose (Some [-1; 0]%Z)) [0] [1] 0) 1
           (Some [-1; 0]%Z) (PyFloat matrix_2x3)
           (PyFloat (mk_ndarray [3; 2] [1; 4; 2; 5; 3; 6]%R)));
    reflexivity.
Defined.

(* ================================================================== *)
(** * Sum, reshape and broadcast                                       *)
(* ================================================================== *)

Lemma size_kept_squeezed (mask : list bool) (s : Shape) :
  size (kept_shape mask s) = size (squeezed_shape mask s).
Proof.
  unfold kept_shape, squeezed_shape. revert s.
  induction mask as [|m mask IH]; intros [|d s]; simpl; try reflexivity.
  specialize (IH s). destruct m; simpl; [lia|].
  now rewrite IH.
Qed.

Lemma length_kept_shape (mask : list bool) (s : Shape) :
  length mask = length s -> length (kept_shape mask s) = length s.
Proof.
  intros E. unfold kept_shape. rewrite length_map, length_combine. lia.
Qed.

Lemma length_reduce_mask (n : nat) (axes : list nat) :
  length (reduce_mask n axes) = n.
Proof. unfold reduce_mask. now rewrite length_map, length_seq. Qed.

Lemma bproj_kept (mask : list bool) (s : Shape) (i : list nat) :
  length mask = length s -> in_bounds s i ->
  bproj (kept_shape mask s) i = collapse mask true i.
Proof.
  intros Hm Hb. unfold bproj.
  rewrite length_kept_shape, (in_bounds_length Hb), Nat.sub_diag by assumption.
  simpl. unfold kept_shape. revert mask Hm.
  induction Hb as [|c d i s Hc _ IH]; intros [|m mask] Hm; simpl in *;
    try reflexivity; try discriminate.
  injection Hm as Hm. rewrite (IH _ Hm).
  destruct m; simpl; [reflexivity|].
  destruct (d =? 1) eqn:E; [|reflexivity].
  apply Nat.eqb_eq in E. f_equal. lia.
Qed.

Lemma ravel_collapse (mask : list bool) (s : Shape) (i : list nat) :
  length mask = length s -> in_bounds s i ->
  ravel (kept_shape mask s) (collapse mask true i)
  = ravel (squeezed_shape mask s) (collapse mask false i).
Proof.
  intros Hm Hb. revert mask Hm.
  induction Hb as [|c d i s Hc _ IH]; intros [|m mask] Hm; simpl in *;
    try reflexivity; try discriminate.
  injection Hm as Hm. specialize (IH _ Hm).
  unfold kept_shape, squeezed_shape, collapse in *.
  destruct m; simpl; [exact IH|].
  fold (size (map (fun '(m, d) => if (m : bool) then 1 else d) (combine mask s))).
  fold (size (map snd (filter (fun p => negb (fst p)) (combine mask s)))).
  fold (kept_shape mask s). fold (squeezed_shape mask s).
  rewrite size_kept_squeezed. unfold kept_shape, squeezed_shape. now rewrite IH.
Qed.

Lemma Forall2_rev' {X Y} (R : X -> Y -> Prop) (l1 : list X) (l2 : list Y) :
  Forall2 R l1 l2 -> Forall2 R (rev l1) (rev l2).
Proof.
  induction 1; simpl; [constructor|].
  apply Forall2_app; [assumption|]. now repeat constructor.
Qed.

Lemma broadcastable_refl_or_one (sa s : Shape) :
  Forall2 (fun da d => da = d \/ da = 1) sa s -> broadcastable sa s = true.
Proof.
  intros Hf. unfold broadcastable. apply Forall2_rev' in Hf.
  induction Hf as [|da d ra r Hd _ IH]; simpl; [reflexivity|].
  rewrite IH, andb_true_r. apply orb_true_iff.
  destruct Hd; [left|right]; now apply Nat.eqb_eq.
Qed.

Lemma broadcastable_kept (mask : list bool) (s : Shape) :
  length mask = length s -> broadcastable (kept_shape mask s) s = true.
Proof.
  intros Hm. apply broadcastable_refl_or_one. unfold kept_shape.
  revert mask Hm. induction s as [|d s IH]; intros [|m mask] Hm; simpl in *;
    try discriminate; constructor.
  - destruct m; auto.
  - apply IH. lia.
Qed.

Lemma bproj_self (s : Shape) (j : list nat) :
  in_bounds s j -> bproj s j = j.
Proof.
  intros Hb. unfold bproj.
  rewrite (in_bounds_length Hb), Nat.sub_diag. simpl.
  induction Hb as [|c d j s Hc _ IH]; simpl; [reflexivity|].
  rewrite IH. destruct (d =? 1) eqn:E; [|reflexivity].
  apply Nat.eqb_eq in E. f_equal. lia.
Qed.

Lemma resolve_shape_req (n : nat) (s : Shape) :
  size s = n -> resolve_shape n (shape_req s) = Some s.
Proof.
  intros Hn. unfold resolve_shape, shape_req.
  assert (Hk : filter (fun z => (0 <=? z)%Z) (map Z.of_nat s) = map Z.of_nat s).
  { clear. induction s as [|d s IH]; simpl; [reflexivity|].
    replace (0 <=? Z.of_nat d)%Z with true by (symmetry; apply Z.leb_le; lia).
    now rewrite IH. }
  assert (Hu : filter (fun z => (z <? 0)%Z) (map Z.of_nat s) = []).
  { clear. induction s as [|d s IH]; simpl; [reflexivity|].
    replace (Z.of_nat d <? 0)%Z with false by (symmetry; apply Z.ltb_ge; lia).
    exact IH. }
  assert (Hid : map Z.to_nat (map Z.of_nat s) = s).
  { clear. rewrite map_map. rewrite <- (map_id s) at 2.
    apply map_ext. intros; apply Nat2Z.id. }
  rewrite Hu, Hk, Hid, Hn, Nat.eqb_refl. reflexivity.
Qed.

Lemma shape_req_inj (s s' : Shape) : shape_req s = shape_req s' -> s = s'.
Proof.
  unfold shape_req. revert s'.
  induction s as [|d s IH]; intros [|d' s']; simpl; try discriminate;
    [reflexivity|].
  intros [= Hd Hs]. apply Nat2Z.inj in Hd. f_equal; auto.
Qed.

Section SumBackward.
Context {A : Type} `{Backend A}.

Lemma as_variable_run (h : Heap A) (a : Arg A) (d : pyobj A) :
  arg_data h a d ->
  exists id h', as_variable a h = Some (id, h') /\ extends h h' /\
                var_data h' id = Some d.
Proof.
  intros Hd. destruct (as_variable_spec h a d Hd) as (id & h' & ? & ? & ? & _).
  now exists id, h'.
Qed.

(** [reshape] to a shape of the same size keeps the elements in order. *)
Lemma reshape_run (h : Heap A) (x : Arg A) (g : ndarray A) (s' : Shape) :
  arg_data h x (PyFloat g) -> size s' = size (shape g) ->
  exists r h',
    reshape x (shape_req s') h = Some (r, h') /\ extends h h' /\
    var_data h' r = Some (PyFloat (mk_ndarray s' (data g))).
Proof.
  intros Hd Hsize. unfold reshape.
  run (arg_shape_run h x (PyFloat g) (shape g) Hd eq_refl).
  unfold shape_eqb.
  destruct (list_eq_dec Z.eq_dec (shape_req (shape g)) (shape_req s')) as [E|_].
  - apply shape_req_inj in E. subst s'. destruct g as [sg dg]. simpl.
    now apply as_variable_run.
  - apply Function_call_run with (ds := [PyFloat g])
                                 (self := Reshape (shape_req s') (Some (shape g))).
    + repeat constructor. exact Hd.
    + simpl. unfold Reshape_forward, np_reshape. simpl.
      now rewrite (resolve_shape_req (size (shape g)) s' Hsize).
Qed.

(** [broadcast_to] reads every element of the result from the source at
    the projected index. *)
Lemma broadcast_to_run (h : Heap A) (x : Arg A) (g : ndarray A) (s : Shape) :
  arg_data h x (PyFloat g) -> wf g -> broadcastable (shape g) s = true ->
  exists r h',
    broadcast_to x s h = Some (r, h') /\ extends h h' /\
    var_data h' r
    = Some (PyFloat (tabulate s (fun j => get g (bproj (shape g) j)))) /\
    np_broadcast_to g s
    = Some (tabulate s (fun j => get g (bproj (shape g) j))).
Proof.
  intros Hd Hwf Hb. unfold broadcast_to.
  run (arg_shape_run h x (PyFloat g) (shape g) Hd eq_refl).
  assert (Hnp : np_broadcast_to g s
                = Some (tabulate s (fun j => get g (bproj (shape g) j))))
    by (unfold np_broadcast_to; now rewrite Hb).
  destruct (list_eq_dec Nat.eq_dec (shape g) s) as [E|_].
  - assert (Hg : tabulate s (fun j => get g (bproj (shape g) j)) = g).
    { subst s. transitivity (tabulate (shape g) (get g));
        [|now apply tabulate_get].
      apply tabulate_ext. intros j Hj. now rewrite bproj_self. }
    rewrite Hg in *.
    destruct (as_variable_run h x (PyFloat g) Hd) as (r & h' & ? & ? & ?).
    now exists r, h'.
  - destruct (Function_call_run h (BroadcastTo s None)
                (BroadcastTo s (Some (shape g))) [x] [PyFloat g]
                (PyFloat (tabulate s (fun j => get g (bproj (shape g) j)))))
      as (r & h' & ? & ? & ?).
    + repeat constructor. exact Hd.
    + simpl. unfold BroadcastTo_forward. simpl. now rewrite Hnp.
    + now exists r, h'.
Qed.

Lemma Sum_forward_shape (axis : Axis) (keepdims : bool) (x y : ndarray A)
      (xs : Shape) :
  Sum_forward axis keepdims x = Some (xs, y) ->
  exists axes,
    axes_of (ndim x) axis = Some axes /\ xs = shape x /\
    shape y = reduced_shape (reduce_mask (ndim x) axes) keepdims (shape x).
Proof.
  unfold Sum_forward, np_sum.
  destruct (axes_of (ndim x) axis) as [axes|]; simpl; [|discriminate].
  intros [= <- <-]. now exists axes.
Qed.

Lemma Sum_backward_run (h : Heap A) (f : Function) (gy : nat) (axis : Axis)
      (keepdims : bool) (x_shape : Shape) (axes : list nat) (g : ndarray A) :
  f_op f = Sum axis keepdims (Some x_shape) ->
  axes_of (length x_shape) axis = Some axes ->
  wf g ->
  shape g = reduced_shape (reduce_mask (length x_shape) axes) keepdims x_shape ->
  var_data h gy = Some (PyFloat g) ->
  let mask := reduce_mask (length x_shape) axes in
  let kept := kept_shape mask x_shape in
  exists gx h',
    Sum_backward f gy h = Some ([Some gx], h') /\ extends h h' /\
    var_data h' gx = Some (PyFloat (sum_gradient x_shape mask keepdims g)) /\
    np_broadcast_to (mk_ndarray kept (data g)) x_shape
    = Some (sum_gradient x_shape mask keepdims g).
Proof.
  intros Hop Haxes Hwf Hshape Hgy mask kept.
  assert (Hmask : length mask = length x_shape) by apply length_reduce_mask.
  assert (Hsize : size kept = size (shape g)).
  { rewrite Hshape. unfold reduced_shape, kept.
    destruct keepdims; [reflexivity|apply size_kept_squeezed]. }
  destruct (reshape_run h (AVar gy) g kept Hgy Hsize)
    as (g1 & h1 & Hrun1 & Hext1 & Hd1).
  assert (Hwf1 : wf (mk_ndarray kept (data g))).
  { unfold wf in *. simpl. congruence. }
  destruct (broadcast_to_run h1 (AVar g1) (mk_ndarray kept (data g)) x_shape
              Hd1 Hwf1 (broadcastable_kept mask x_shape Hmask))
    as (gx & h2 & Hrun2 & Hext2 & Hd2 & Hnp).
  assert (Hval : tabulate x_shape
                   (fun j => get (mk_ndarray kept (data g))
                                 (bproj (shape (mk_ndarray kept (data g))) j))
                 = sum_gradient x_shape mask keepdims g).
  { apply tabulate_ext. intros i Hi. unfold get. simpl. f_equal.
    unfold kept. rewrite (bproj_kept mask x_shape i Hmask Hi), Hshape.
    unfold reduced_shape. destruct keepdims; [reflexivity|].
    now apply ravel_collapse. }
  rewrite Hval in *.
  exists gx, h2. split; [|eauto using extends_trans].
  unfold Sum_backward. rewrite Hop. unfold utils_reshape_sum_backward.
  assert (Hs : (if keepdims then arg_shape (AVar gy)
                else lift (reshape_sum_backward_shape x_shape axis)) h
               = Some (kept, h)).
  { destruct keepdims.
    - rewrite (arg_shape_run h (AVar gy) (PyFloat g) (shape g) Hgy eq_refl).
      now rewrite Hshape.
    - unfold lift, reshape_sum_backward_shape. now rewrite Haxes. }
  unfold bind at 1. unfold bind at 1. rewrite Hs, Hrun1.
  now run Hrun2.
Qed.
End SumBackward.

Lemma expand_collapse (mask : list bool) (i : list nat) :
  length mask = length i ->
  expand mask (collapse mask false i) = collapse mask true i.
Proof.
  unfold collapse. revert i.
  induction mask as [|m mask IH]; intros [|c i] Hl; simpl in *;
    try reflexivity; try discriminate.
  injection Hl as Hl. destruct m; simpl; now rewrite IH.
Qed.

Lemma in_bounds_lane_index (mask : list bool) (s : Shape) (i : list nat) :
  length mask = length s -> in_bounds s i ->
  in_bounds (lane_shape mask s) (lane_index mask i).
Proof.
  intros Hm Hb. unfold in_bounds, lane_shape, lane_index. revert mask Hm.
  induction Hb as [|c d i s Hc _ IH]; intros [|m mask] Hm; simpl in *;
    try discriminate; constructor.
  - destruct m; lia.
  - apply IH. lia.
Qed.

Lemma add_idx_lane_index (mask : list bool) (i : list nat) :
  length mask = length i ->
  add_idx (collapse mask true i) (lane_index mask i) = i.
Proof.
  unfold add_idx, collapse, lane_index. revert i.
  induction mask as [|m mask IH]; intros [|c i] Hl; simpl in *;
    try reflexivity; try discriminate.
  injection Hl as Hl. rewrite IH by assumption.
  destruct m; f_equal; lia.
Qed.

Section SumClaim.
Context {A : Type} `{Backend A}.

(** Every element of [x] is among the elements that the sum folds into
    the cell it collapses to. *)
Lemma lane_contains (x : ndarray A) (mask : list bool) (keepdims : bool)
      (i : list nat) :
  length mask = ndim x -> in_bounds (shape x) i ->
  In (get x i) (lane x mask keepdims (collapse mask keepdims i)).
Proof.
  intros Hm Hb. unfold lane.
  assert (Hl : length mask = length i)
    by (rewrite (in_bounds_length Hb); exact Hm).
  replace (if keepdims then collapse mask keepdims i
           else expand mask (collapse mask keepdims i))
    with (collapse mask true i)
    by (destruct keepdims; [reflexivity|now rewrite expand_collapse]).
  apply in_map_iff. exists (lane_index mask i). split.
  - now rewrite add_idx_lane_index.
  - apply in_indices. now apply in_bounds_lane_index.
Qed.

(** C1.  For every array [x], every [axis] and [keepdims] that [sum]
    accepts and every output gradient [g] of the shape of [sum(x)], the
    backward of the sum returns the gradient [g] reshaped so that the
    reduced axes are back at extent one, then broadcast to the shape of
    [x]: a node holding an array of the shape of [x] whose element at [i]
    is the element of [g] at the cell that [x[i]] was summed into.  In
    particular, for [x] of shape (3,4), [sum(x).backward()] leaves in
    [x.grad] the all-ones array of shape (3,4). *)
Theorem Sum_backward_broadcasts_gradient :
  (forall (h : Heap A) (f : Function) (gy : nat) (axis : Axis)
          (keepdims : bool) (x y g : ndarray A),
      f_op f = Sum axis keepdims (Some (shape x)) ->
      Sum_forward axis keepdims x = Some (shape x, y) ->
      wf g -> shape g = shape y ->
      var_data h gy = Some (PyFloat g) ->
      exists axes gx h',
        axes_of (ndim x) axis = Some axes /\
        let mask := reduce_mask (ndim x) axes in
        let gradient := sum_gradient (shape x) mask keepdims g in
        Sum_backward f gy h = Some ([Some gx], h') /\
        var_data h' gx = Some (PyFloat gradient) /\
        np_broadcast_to (mk_ndarray (kept_shape mask (shape x)) (data g))
                        (shape x) = Some gradient /\
        shape gradient = shape x /\
        forall i, in_bounds (shape x) i ->
                  get gradient i = get g (collapse mask keepdims i) /\
                  In (get x i) (lane x mask keepdims (collapse mask keepdims i))) /\
  (forall (x : ndarray A) (train_flag : bool),
      shape x = [3; 4] -> wf x ->
      exists h',
        sum_then_backward x train_flag = Some (tt, h') /\
        grad_data h' 0 = Some (PyFloat (np_ones [3; 4]))).
Proof.
  split.
  - intros h f gy axis keepdims x y g Hop Hfwd Hwf Hshape Hgy.
    destruct (Sum_forward_shape axis keepdims x y (shape x) Hfwd)
      as (axes & Haxes & _ & Hy).
    rewrite Hy in Hshape.
    destruct (Sum_backward_run h f gy axis keepdims (shape x) axes g
                Hop Haxes Hwf Hshape Hgy) as (gx & h' & Hrun & _ & Hd & Hnp).
    exists axes, gx, h'. split; [exact Haxes|]. cbv zeta.
    repeat (split; [assumption || reflexivity|]).
    intros i Hi. split.
    + unfold sum_gradient. now rewrite get_tabulate.
    + apply lane_contains; [apply length_reduce_mask|assumption].
  - intros [s d] train_flag Hs Hwf. simpl in Hs. subst s.
    unfold wf in Hwf. simpl in Hwf.
    do 12 (destruct d as [|? d]; [discriminate|]).
    destruct d; [|discriminate].
    vm_compute. eexists. split; reflexivity.
Qed.
End SumClaim.

Lemma Sum_backward_broadcasts_gradient_witness :
  (exists axes gx h',
      axes_of 2 (AxisInt 1) = Some axes /\
      let mask := reduce_mask 2 axes in
      let gradient :=
        sum_gradient [2; 3] mask false (mk_ndarray [2] [10; 20]%R) in
      Sum_backward (mk_Function (Sum (AxisInt 1) false (Some [2; 3])) [0] [1] 0)
                   2 sum_store = Some ([Some gx], h') /\
      var_data h' gx = Some (PyFloat gradient) /\
      np_broadcast_to (mk_ndarray (kept_shape mask [2; 3]) [10; 20]%R) [2; 3]
      = Some gradient /\
      shape gradient = [2; 3] /\
      forall i, in_bounds [2; 3] i ->
                get gradient i
                = get (mk_ndarray [2] [10; 20]%R) (collapse mask false i) /\
                In (get matrix_2x3 i)
                   (lane matrix_2x3 mask false (collapse mask false i))) /\
  (exists h',
      sum_then_backward
        (mk_ndarray [3; 4] [1; 2; 3; 4; 5; 6; 7; 8; 9; 10; 11; 12]%R) true
      = Some (tt, h') /\
      grad_data h' 0 = Some (PyFloat (np_ones [3; 4]))).
Proof.
  split.
  - apply (proj1 (@Sum_backward_broadcasts_gradient R _)
             sum_store
             (mk_Function (Sum (AxisInt 1) false (Some [2; 3])) [0] [1] 0)
             2 (AxisInt 1) false matrix_2x3
             (mk_ndarray [2] [0 + 1 + 2 + 3; 0 + 4 + 5 + 6]%R)
             (mk_ndarray [2] [10; 20]%R)); reflexivity.
  - apply (proj2 (@Sum_backward_broadcasts_gradient R _)); reflexivity.
Defined.

(* ================================================================== *)
(** * MatMul and Linear                                                *)
(* ================================================================== *)

Section MatMul.
Context {A : Type} `{Backend A}.

Lemma np_transpose_matrix (a : ndarray A) (n m : nat) :
  shape a = [n; m] ->
  np_transpose a None = Some (transpose_by [1; 0] a) /\
  shape (transpose_by [1; 0] a) = [m; n] /\
  forall i j, i < n -> j < m ->
              get (transpose_by [1; 0] a) [j; i] = get a [i; j].
Proof.
  intros Hs. unfold np_transpose, ndim. rewrite Hs. simpl.
  split; [reflexivity|]. unfold transpose_by. rewrite Hs. simpl.
  split; [reflexivity|]. intros i j Hi Hj.
  rewrite get_tabulate; [reflexivity|].
  repeat constructor; assumption.
Qed.

Lemma in_bounds_2 (n m : nat) (idx : list nat) :
  in_bounds [n; m] idx -> exists i j, idx = [i; j] /\ i < n /\ j < m.
Proof.
  intros Hb. inversion Hb as [|i d idx1 s1 Hi Hb1]; subst.
  inversion Hb1 as [|j d idx2 s2 Hj Hb2]; subst. inversion Hb2; subst.
  now exists i, j.
Qed.

Lemma np_dot_transposed_r (gy W : ndarray A) (n m k : nat) :
  shape gy = [n; k] -> shape W = [m; k] ->
  np_dot gy (transpose_by [1; 0] W) = Some (dot_transposed_r gy W n m k).
Proof.
  intros Hg Hw. destruct (np_transpose_matrix W m k Hw) as (_ & Hs & Hget).
  unfold np_dot. rewrite Hg, Hs, Nat.eqb_refl. f_equal.
  apply tabulate_ext. intros idx Hb.
  apply in_bounds_2 in Hb as (i & j & -> & Hi & Hj).
  unfold sum_upto. f_equal. apply map_ext_in. intros l Hl.
  apply in_seq in Hl. rewrite Hget by lia. reflexivity.
Qed.

Lemma np_dot_transposed_l (x gy : ndarray A) (n m k : nat) :
  shape x = [n; m] -> shape gy = [n; k] ->
  np_dot (transpose_by [1; 0] x) gy = Some (dot_transposed_l x gy n m k).
Proof.
  intros Hx Hg. destruct (np_transpose_matrix x n m Hx) as (_ & Hs & Hget).
  unfold np_dot. rewrite Hg, Hs, Nat.eqb_refl. f_equal.
  apply tabulate_ext. intros idx Hb.
  apply in_bounds_2 in Hb as (j & l & -> & Hj & Hl).
  unfold sum_upto. f_equal. apply map_ext_in. intros i Hi.
  apply in_seq in Hi. rewrite Hget by lia. reflexivity.
Qed.

Lemma matmul_run (h : Heap A) (x W : Arg A) (a w y : ndarray A) :
  arg_data h x (PyFloat a) -> arg_data h W (PyFloat w) ->
  np_dot a w = Some y ->
  exists r h',
    matmul x W h = Some (r, h') /\ extends h h' /\
    var_data h' r = Some (PyFloat y).
Proof.
  intros Hx HW Hdot. unfold matmul.
  apply Function_call_run with (ds := [PyFloat a; PyFloat w]) (self := MatMul).
  - repeat constructor; assumption.
  - simpl. unfold MatMul_forward. now rewrite Hdot.
Qed.

Lemma Variable_T_run (h : Heap A) (x : nat) (a : ndarray A) (n m : nat) :
  var_data h x = Some (PyFloat a) -> shape a = [n; m] ->
  exists r h',
    Variable_T x h = Some (r, h') /\ extends h h' /\
    var_data h' r = Some (PyFloat (transpose_by [1; 0] a)).
Proof.
  intros Hx Hs. unfold Variable_T.
  apply transpose_run with (d := PyFloat a); [exact Hx|].
  unfold Transpose_forward, move.
  now rewrite (proj1 (np_transpose_matrix a n m Hs)).
Qed.

(** The two products that [MatMul.backward] and [Linear.backward] share. *)
Lemma matmul_gradients_run (h : Heap A) (x W gy : nat) (a w g : ndarray A)
      (n m k : nat) {X} (rest : nat -> nat -> M A X) :
  var_data h x = Some (PyFloat a) -> var_data h W = Some (PyFloat w) ->
  var_data h gy = Some (PyFloat g) ->
  shape a = [n; m] -> shape w = [m; k] -> shape g = [n; k] ->
  exists gx gW h',
    extends h h' /\
    var_data h' gx = Some (PyFloat (dot_transposed_r g w n m k)) /\
    var_data h' gW = Some (PyFloat (dot_transposed_l a g n m k)) /\
    (WT <- Variable_T W ;;
     gx <- matmul (AVar gy) (AVar WT) ;;
     xT <- Variable_T x ;;
     gW <- matmul (AVar xT) (AVar gy) ;;
     rest gx gW) h = rest gx gW h'.
Proof.
  intros Hx HW Hgy Ha Hw Hg.
  destruct (Variable_T_run h W w m k HW Hw) as (WT & h1 & R1 & E1 & D1).
  destruct (matmul_run h1 (AVar gy) (AVar WT) g (transpose_by [1; 0] w)
              (dot_transposed_r g w n m k)) as (gx & h2 & R2 & E2 & D2);
    [eapply var_data_extends; eassumption|exact D1|
     now apply np_dot_transposed_r|].
  assert (E12 : extends h h2) by eauto using extends_trans.
  destruct (Variable_T_run h2 x a n m (var_data_extends _ _ _ _ E12 Hx) Ha)
    as (xT & h3 & R3 & E3 & D3).
  assert (E13 : extends h h3) by eauto using extends_trans.
  destruct (matmul_run h3 (AVar xT) (AVar gy) (transpose_by [1; 0] a) g
              (dot_transposed_l a g n m k)) as (gW & h4 & R4 & E4 & D4);
    [exact D3|eapply var_data_extends; eassumption|
     now apply np_dot_transposed_l|].
  exists gx, gW, h4. split; [eauto using extends_trans|].
  split; [eauto using var_data_extends, extends_trans|].
  split; [exact D4|].
  run R1. run R2. run R3. now run R4.
Qed.
End MatMul.

Lemma broadcastable_rev_length (ra r : list nat) :
  broadcastable_rev ra r = true -> length ra <= length r.
Proof.
  revert r. induction ra as [|da ra IH]; intros [|d r]; simpl; try lia;
    try discriminate.
  intros Hb. apply andb_prop in Hb as [_ Hb]. specialize (IH _ Hb). lia.
Qed.

Lemma map_flat_map_singleton {X Y Z'} (f : Y -> Z') (g : X -> Y) (l : list X) :
  map f (flat_map (fun i => [g i]) l) = map (fun i => f (g i)) l.
Proof. induction l; simpl; congruence. Qed.

Section SumTo.
Context {A : Type} `{Backend A}.

Lemma sum_to_run (h : Heap A) (x : Arg A) (g v : ndarray A) (s : Shape) :
  arg_data h x (PyFloat g) -> sum_to_value g s = Some v ->
  exists r h',
    sum_to x s h = Some (r, h') /\ extends h h' /\
    var_data h' r = Some (PyFloat v).
Proof.
  intros Hd Hv. unfold sum_to, sum_to_value in *.
  run (arg_shape_run h x (PyFloat g) (shape g) Hd eq_refl).
  destruct (list_eq_dec Nat.eq_dec (shape g) s) as [E|_].
  - injection Hv as <-. now apply as_variable_run.
  - apply Function_call_run with (ds := [PyFloat g])
                                 (self := SumTo s (Some (shape g))).
    + repeat constructor. exact Hd.
    + simpl. unfold SumTo_forward. now rewrite Hv.
Qed.

(** Reducing a matrix to any shape that broadcasts to its shape succeeds
    and gives an array of that shape. *)
Lemma sum_to_value_matrix (g : ndarray A) (n k : nat) (s : Shape) :
  shape g = [n; k] -> broadcastable s [n; k] = true ->
  exists v, sum_to_value g s = Some v /\ shape v = s.
Proof.
  intros Hg Hb. unfold sum_to_value.
  destruct (list_eq_dec Nat.eq_dec (shape g) s) as [E|_]; [now exists g|].
  unfold broadcastable in Hb.
  pose proof (broadcastable_rev_length _ _ Hb) as Hlen.
  rewrite !length_rev in Hlen. simpl in Hlen.
  unfold utils_sum_to, np_sum, ndim. rewrite Hg.
  destruct s as [|d1 [|d2 [|d3 s]]]; simpl in Hlen; try lia; simpl in Hb.
  - eexists. split; reflexivity.
  - rewrite andb_true_r in Hb. apply orb_prop in Hb.
    destruct Hb as [Hb|Hb]; apply Nat.eqb_eq in Hb; subst d1; simpl;
      try (destruct (k =? 1) eqn:Ek; [apply Nat.eqb_eq in Ek; subst k|]);
      eexists; split; reflexivity.
  - rewrite andb_true_r in Hb. apply andb_prop in Hb as [Hb2 Hb1].
    apply orb_prop in Hb1, Hb2.
    destruct Hb1 as [Hb1|Hb1], Hb2 as [Hb2|Hb2];
      apply Nat.eqb_eq in Hb1, Hb2; subst d1 d2; simpl;
      try (destruct (n =? 1) eqn:En; [apply Nat.eqb_eq in En; subst n|]);
      try (destruct (k =? 1) eqn:Ek; [apply Nat.eqb_eq in Ek; subst k|]);
      eexists; split; reflexivity.
Qed.
End SumTo.

Section BiasVector.
Context {A : Type} `{Backend A}.

(** Reducing a matrix to the shape of a bias vector gives the column
    sums. *)
Lemma sum_to_value_vector (g : ndarray A) (n k : nat) :
  shape g = [n; k] ->
  exists v, sum_to_value g [k] = Some v /\ shape v = [k] /\
            forall l, l < k -> get v [l] = sum_upto n (fun i => get g [i; l]).
Proof.
  intros Hg. unfold sum_to_value.
  destruct (list_eq_dec Nat.eq_dec (shape g) [k]) as [E|_]; [congruence|].
  unfold utils_sum_to, np_sum, ndim. rewrite Hg. simpl.
  assert (Hlane : forall l, l < k ->
            fold_left bk_add (lane g (reduce_mask 2 (0 :: if k =? 1 then [1] else []))
                                   true [0; l]) bk_zero
            = sum_upto n (fun i => get g [i; l])).
  { intros l Hl. unfold lane, sum_upto. rewrite Hg. f_equal.
    assert (Hls : lane_shape (reduce_mask 2 (0 :: if k =? 1 then [1] else []))
                             [n; k] = [n; 1]).
    { destruct (k =? 1) eqn:Ek; [|reflexivity].
      apply Nat.eqb_eq in Ek. now subst k. }
    rewrite Hls. simpl.
    rewrite (map_flat_map_singleton
               (fun r => get g (add_idx [0; l] r)) (fun i => [i; 0])).
    apply map_ext. intros i. unfold add_idx. simpl. now rewrite Nat.add_0_r. }
  destruct (k =? 1) eqn:Ek.
  - apply Nat.eqb_eq in Ek. subst k. simpl. eexists. split; [reflexivity|].
    split; [reflexivity|]. intros l Hl. assert (l = 0) as -> by lia.
    rewrite <- (Hlane 0 Hl). reflexivity.
  - simpl. eexists. split; [reflexivity|]. split; [reflexivity|].
    intros l Hl. rewrite <- (Hlane l Hl).
    unfold get. simpl.
    rewrite Nat.add_0_r.
    set (cell := fun j : list nat => fold_left bk_add
                   (lane g (reduce_mask 2 [0]) true j) bk_zero).
    rewrite app_nil_r, map_map, Nat.mul_1_r.
    rewrite (map_flat_map_singleton (fun x => cell (0 :: x)) (fun i => [i])).
    rewrite (nth_indep _ dflt (cell [0; 0])) by
      (now rewrite length_map, length_seq).
    rewrite (map_nth (fun i => cell [0; i])). now rewrite seq_nth.
Qed.
End BiasVector.

Section MatMulClaim.
Context {A : Type} `{Backend A}.

(** C3.  For matrices [x] (n by m) and [W] (m by k) and an output gradient
    [gy] (n by k), the backward of [matmul] returns two nodes: [gx], the
    product of [gy] with the transpose of [W], of the shape of [x], and
    [gW], the product of the transpose of [x] with [gy], of the shape of
    [W].  The backward of [linear] returns the same two and a third
    gradient: [None] when the bias is [None], else a node holding
    [sum_to(gy, b.shape)], an array of the shape of the bias (for a bias
    vector of [k] elements: the column sums of [gy]). *)
Theorem MatMul_Linear_backward :
  (forall (h : Heap A) (f : Function) (gy x W : nat) (a w g : ndarray A)
          (n m k : nat),
      f_inputs f = [x; W] ->
      var_data h x = Some (PyFloat a) -> var_data h W = Some (PyFloat w) ->
      var_data h gy = Some (PyFloat g) ->
      shape a = [n; m] -> shape w = [m; k] -> shape g = [n; k] ->
      exists gx gW h',
        MatMul_backward f gy h = Some ([Some gx; Some gW], h') /\
        var_data h' gx = Some (PyFloat (dot_transposed_r g w n m k)) /\
        var_data h' gW = Some (PyFloat (dot_transposed_l a g n m k)) /\
        np_dot g (transpose_by [1; 0] w) = Some (dot_transposed_r g w n m k) /\
        np_dot (transpose_by [1; 0] a) g = Some (dot_transposed_l a g n m k) /\
        shape (dot_transposed_r g w n m k) = shape a /\
        shape (dot_transposed_l a g n m k) = shape w) /\
  (forall (h : Heap A) (f : Function) (gy x W b : nat) (a w g : ndarray A)
          (bo : pyobj A) (n m k : nat),
      f_inputs f = [x; W; b] ->
      var_data h x = Some (PyFloat a) -> var_data h W = Some (PyFloat w) ->
      var_data h b = Some bo -> bias_ok bo n k ->
      var_data h gy = Some (PyFloat g) ->
      shape a = [n; m] -> shape w = [m; k] -> shape g = [n; k] ->
      exists gx gW gb h',
        Linear_backward f gy h = Some ([Some gx; Some gW; gb], h') /\
        var_data h' gx = Some (PyFloat (dot_transposed_r g w n m k)) /\
        var_data h' gW = Some (PyFloat (dot_transposed_l a g n m k)) /\
        match bo with
        | PyFloat ba =>
            exists id v,
              gb = Some id /\ var_data h' id = Some (PyFloat v) /\
              sum_to_value g (shape ba) = Some v /\ shape v = shape ba /\
              (shape ba = [k] ->
               forall l, l < k -> get v [l] = sum_upto n (fun i => get g [i; l]))
        | _ => gb = None
        end).
Proof.
  split.
  - intros h f gy x W a w g n m k Hin Hx HW Hgy Ha Hw Hg.
    destruct (matmul_gradients_run h x W gy a w g n m k
                (fun gx gW => ret [Some gx; Some gW]) Hx HW Hgy Ha Hw Hg)
      as (gx & gW & h' & _ & Dx & DW & Hrun).
    exists gx, gW, h'. unfold MatMul_backward. rewrite Hin.
    split; [exact Hrun|].
    repeat (split; [first [assumption | now apply np_dot_transposed_r
                          | now apply np_dot_transposed_l]|]).
    unfold dot_transposed_r, dot_transposed_l. simpl. split; congruence.
  - intros h f gy x W b a w g bo n m k Hin Hx HW Hb Hbias Hgy Ha Hw Hg.
    unfold Linear_backward. rewrite Hin.
    run (read_data_run h b bo Hb).
    destruct bo as [|ba|?|?]; try contradiction.
    + destruct (matmul_gradients_run h x W gy a w g n m k
                  (fun gx gW => ret [Some gx; Some gW; None])
                  Hx HW Hgy Ha Hw Hg)
        as (gx & gW & h' & _ & Dx & DW & Hrun).
      exists gx, gW, None, h'.
      run (eq_refl : ret (A := A) (@None nat) h = Some (None, h)).
      auto.
    + simpl in Hbias.
      destruct (sum_to_value_matrix g n k (shape ba) Hg Hbias) as (v & Hv & Hsv).
      destruct (sum_to_run h (AVar gy) g v (shape ba) Hgy Hv)
        as (id & h1 & R1 & E1 & D1).
      assert (Rgb : (b_shape <- arg_shape (AVar b) ;;
                     r <- sum_to (AVar gy) b_shape ;; ret (Some r)) h
                    = Some (Some id, h1)).
      { run (arg_shape_run h (AVar b) (PyFloat ba) (shape ba) Hb eq_refl).
        now run R1. }
      destruct (matmul_gradients_run h1 x W gy a w g n m k
                  (fun gx gW => ret [Some gx; Some gW; Some id])
                  (var_data_extends _ _ _ _ E1 Hx)
                  (var_data_extends _ _ _ _ E1 HW)
                  (var_data_extends _ _ _ _ E1 Hgy) Ha Hw Hg)
        as (gx & gW & h' & E2 & Dx & DW & Hrun).
      exists gx, gW, (Some id), h'. run Rgb.
      repeat (split; [assumption|]).
      exists id, v. repeat (split; [eauto using var_data_extends|]).
      intros Hk l Hl.
      destruct (sum_to_value_vector g n k Hg) as (v' & Hv' & _ & Hcol).
      rewrite Hk in Hv. assert (v' = v) as -> by congruence. now apply Hcol.
Qed.
End MatMulClaim.

Lemma MatMul_Linear_backward_witness :
  (exists gx gW h',
      MatMul_backward (mk_Function MatMul [0; 1] [4] 0) 3 linear_store
      = Some ([Some gx; Some gW], h') /\
      var_data h' gx
      = Some (PyFloat (dot_transposed_r matrix_2x2 matrix_3x2 2 3 2)) /\
      var_data h' gW
      = Some (PyFloat (dot_transposed_l matrix_2x3 matrix_2x2 2 3 2)) /\
      np_dot matrix_2x2 (transpose_by [1; 0] matrix_3x2)
      = Some (dot_transposed_r matrix_2x2 matrix_3x2 2 3 2) /\
      np_dot (transpose_by [1; 0] matrix_2x3) matrix_2x2
      = Some (dot_transposed_l matrix_2x3 matrix_2x2 2 3 2) /\
      shape (dot_transposed_r matrix_2x2 matrix_3x2 2 3 2) = shape matrix_2x3 /\
      shape (dot_transposed_l matrix_2x3 matrix_2x2 2 3 2) = shape matrix_3x2) /\
  (exists gx gW gb h',
      Linear_backward (mk_Function Linear [0; 1; 2] [4] 0) 3 linear_store
      = Some ([Some gx; Some gW; gb], h') /\
      var_data h' gx
      = Some (PyFloat (dot_transposed_r matrix_2x2 matrix_3x2 2 3 2)) /\
      var_data h' gW
      = Some (PyFloat (dot_transposed_l matrix_2x3 matrix_2x2 2 3 2)) /\
      exists id v,
        gb = Some id /\ var_data h' id = Some (PyFloat v) /\
        sum_to_value matrix_2x2 (shape bias_2) = Some v /\
        shape v = shape bias_2 /\
        (shape bias_2 = [2] ->
         forall l, l < 2 ->
                   get v [l] = sum_upto 2 (fun i => get matrix_2x2 [i; l]))).
Proof.
  split.
  - apply (proj1 (@MatMul_Linear_backward R _) linear_store
             (mk_Function MatMul [0; 1] [4] 0) 3 0 1
             matrix_2x3 matrix_3x2 matrix_2x2 2 3 2); reflexivity.
  - apply (proj2 (@MatMul_Linear_backward R _) linear_store
             (mk_Function Linear [0; 1; 2] [4] 0) 3 0 1 2
             matrix_2x3 matrix_3x2 matrix_2x2 (PyFloat bias_2) 2 3 2);
      reflexivity.
Defined.

(* ================================================================== *)
(** * Elementwise operations                                           *)
(* ================================================================== *)

Lemma broadcast_rev_same (r : list nat) : broadcast_rev r r = Some r.
Proof.
  induction r as [|d r IH]; simpl; [reflexivity|].
  now rewrite Nat.eqb_refl, IH.
Qed.

Lemma broadcast_shapes_same (s : Shape) : broadcast_shapes s s = Some s.
Proof.
  unfold broadcast_shapes. rewrite broadcast_rev_same. simpl.
  now rewrite rev_involutive.
Qed.

Section Elementwise.
Context {T U V : Type} `{Dflt T} `{Dflt U}.

Lemma np_binop_same_shape (f : T -> U -> V) (a : ndarray T) (b : ndarray U) :
  shape b = shape a ->
  np_binop f a b = Some (tabulate (shape a) (fun j => f (get a j) (get b j))).
Proof.
  intros Hs. unfold np_binop. rewrite Hs, broadcast_shapes_same. simpl.
  f_equal. apply tabulate_ext. intros j Hj. now rewrite bproj_self.
Qed.

Lemma get_np_map (f : T -> U) (a : ndarray T) (i : list nat) :
  wf a -> in_bounds (shape a) i -> get (np_map f a) i = f (get a i).
Proof.
  intros Hwf Hi. unfold get, np_map. simpl.
  rewrite (nth_indep _ dflt (f dflt)).
  - apply map_nth.
  - rewrite length_map, Hwf. now apply ravel_lt.
Qed.
End Elementwise.

Section Arith.
Context {A : Type} `{Backend A}.

Lemma arith_run (h : Heap A) (op : Op) (f : A -> A -> A) (x0 x1 : Arg A)
      (d0 d1 y : pyobj A) :
  (forall ds, forward op ds
              = match ds with
                | [a; b] => obind (arith_forward f a b) (fun y => Some (op, y))
                | _ => None
                end) ->
  arg_data h x0 d0 -> arg_data h x1 d1 ->
  arith_forward f d0 d1 = Some y ->
  exists r h',
    Function_call op [x0; x1] h = Some (r, h') /\ extends h h' /\
    var_data h' r = Some y.
Proof.
  intros Hop H0 H1 Hf.
  apply Function_call_run with (ds := [d0; d1]) (self := op).
  - repeat constructor; assumption.
  - rewrite Hop. now rewrite Hf.
Qed.

Lemma mul_run (h : Heap A) (x0 x1 : Arg A) (d0 d1 y : pyobj A) :
  arg_data h x0 d0 -> arg_data h x1 d1 -> arith_forward bk_mul d0 d1 = Some y ->
  exists r h',
    mul x0 x1 h = Some (r, h') /\ extends h h' /\ var_data h' r = Some y.
Proof.
  apply arith_run. intros [|a [|b [|c ds]]]; reflexivity.
Qed.

Lemma sub_run (h : Heap A) (x0 x1 : Arg A) (d0 d1 y : pyobj A) :
  arg_data h x0 d0 -> arg_data h x1 d1 -> arith_forward bk_sub d0 d1 = Some y ->
  exists r h',
    sub x0 x1 h = Some (r, h') /\ extends h h' /\ var_data h' r = Some y.
Proof.
  apply arith_run. intros [|a [|b [|c ds]]]; reflexivity.
Qed.

Lemma div_run (h : Heap A) (x0 x1 : Arg A) (d0 d1 y : pyobj A) :
  arg_data h x0 d0 -> arg_data h x1 d1 -> arith_forward bk_div d0 d1 = Some y ->
  exists r h',
    div x0 x1 h = Some (r, h') /\ extends h h' /\ var_data h' r = Some y.
Proof.
  apply arith_run. intros [|a [|b [|c ds]]]; reflexivity.
Qed.

End Arith.

(* ================================================================== *)
(** * ReLU                                                             *)
(* ================================================================== *)

Section ReLULemmas.
Context {A : Type} `{Backend A}.

(** [ReLU.backward] for every backend: the mask is the strict comparison
    [x.data > 0] on the raw input, and the gradient at [i] is the product
    [gy[i] * mask[i]] in the backend's multiplication. *)
Lemma ReLU_backward_run
      (h : Heap A) (f : Function) (gy x : nat) (a g : ndarray A) :
  f_inputs f = [x] ->
  var_data h x = Some (PyFloat a) -> var_data h gy = Some (PyFloat g) ->
  wf a -> shape g = shape a ->
  exists gx h' G,
    ReLU_backward f gy h = Some ([Some gx], h') /\
    var_data h' gx = Some (PyFloat G) /\
    shape G = shape a /\
    forall i, in_bounds (shape a) i ->
              get G i
              = bk_mul (get g i) (bk_of_bool (bk_gt (get a i) bk_zero)).
Proof.
  intros Hin Hx Hgy Hwf Hs.
  set (mask := np_map (fun v : A => bk_gt v bk_zero) a).
  set (G := tabulate (shape g)
              (fun j => bk_mul (get g j) (get (np_map bk_of_bool mask) j))).
  destruct (mul_run h (AVar gy) (AObj (PyBool mask)) (PyFloat g) (PyBool mask)
              (PyFloat G) Hgy eq_refl) as (gx & h' & Hrun & _ & Hd).
  { unfold arith_forward, as_float, obind.
    rewrite (np_binop_same_shape bk_mul g (np_map bk_of_bool mask))
      by (simpl; congruence).
    reflexivity. }
  exists gx, h', G. split; [|split; [exact Hd|split; [exact Hs|]]].
  - unfold ReLU_backward. rewrite Hin.
    run (read_data_run h x (PyFloat a) Hx).
    run (eq_refl : lift (as_float (PyFloat a)) h = Some (a, h)).
    fold mask. now run Hrun.
  - intros i Hi.
    unfold G. rewrite get_tabulate by (now rewrite Hs).
    unfold mask. rewrite !get_np_map; try assumption; try reflexivity.
    unfold wf, np_map. simpl. now rewrite length_map.
Qed.
End ReLULemmas.

(** Binary64 facts behind the mask of [ReLU.backward]: the product of a
    finite number with zero is a zero, the product of an infinity or a NaN
    with zero is a NaN, and a number equal to zero is not greater than
    zero. *)
Lemma float_self_compare (s : bool) (m : positive) (e : Z) :
  SFcompare (S754_finite s m e) (S754_finite s m e) = Some Eq.
Proof.
  unfold SFcompare.
  destruct s; rewrite Z.compare_refl, Pos.compare_cont_refl; reflexivity.
Qed.

Lemma float_mul_zero (v : float) :
  (PrimFloat.is_finite v = true ->
   PrimFloat.is_zero (PrimFloat.mul v 0%float) = true) /\
  (PrimFloat.is_finite v = false ->
   PrimFloat.is_nan (PrimFloat.mul v 0%float) = true).
Proof.
  unfold PrimFloat.is_finite, PrimFloat.is_zero, PrimFloat.is_nan,
    PrimFloat.is_infinity.
  rewrite !FloatAxioms.eqb_spec, abs_spec, mul_spec.
  change (Prim2SF PrimFloat.zero) with (S754_zero false).
  change (Prim2SF 0%float) with (S754_zero false).
  change (Prim2SF infinity) with (S754_infinity false).
  destruct (Prim2SF v) as [s|s| |s m e]; unfold SFeqb; cbn [SFabs].
  - split; [reflexivity|]. simpl. discriminate.
  - destruct s; simpl; split; intros E; try discriminate; reflexivity.
  - simpl. split; intros E; try discriminate; reflexivity.
  - rewrite !float_self_compare. simpl.
    split; intros E; try discriminate; reflexivity.
Qed.

Lemma float_zero_not_positive (m : float) :
  PrimFloat.eqb m 0%float = true -> PrimFloat.ltb 0%float m = false.
Proof.
  rewrite FloatAxioms.eqb_spec, ltb_spec.
  change (Prim2SF 0%float) with (S754_zero false).
  destruct (Prim2SF m) as [s|s| |s m' e]; unfold SFeqb, SFltb; simpl;
    try discriminate; try reflexivity; destruct s; discriminate.
Qed.

(** C10 (as amended).  The backward of ReLU multiplies the output gradient
    by the mask [x.data > 0] of the raw input, for every backend.  In
    binary64 an input element that is equal to zero, or is not greater
    than zero, gets a zero gradient when the output gradient there is
    finite, and a NaN when it is infinite or a NaN.  In exact real
    arithmetic the gradient at [i] is [gy[i]] where [x[i]] is strictly
    positive and zero elsewhere. *)
Theorem ReLU_backward_zero_for_finite_gradient :
  (forall (A : Type) (B : Backend A) (h : Heap A) (f : Function)
          (gy x : nat) (a g : ndarray A),
      f_inputs f = [x] ->
      var_data h x = Some (PyFloat a) -> var_data h gy = Some (PyFloat g) ->
      wf a -> shape g = shape a ->
      exists gx h' G,
        ReLU_backward f gy h = Some ([Some gx], h') /\
        var_data h' gx = Some (PyFloat G) /\
        shape G = shape a /\
        forall i, in_bounds (shape a) i ->
                  get G i
                  = bk_mul (get g i)
                           (bk_of_bool (bk_gt (get a i) bk_zero))) /\
  (forall (fexp flog : float -> float) (h : Heap float) (f : Function)
          (gy x : nat) (a g : ndarray float),
      f_inputs f = [x] ->
      var_data h x = Some (PyFloat a) -> var_data h gy = Some (PyFloat g) ->
      wf a -> shape g = shape a ->
      exists gx h' G,
        @ReLU_backward float (float_backend fexp flog) f gy h
        = Some ([Some gx], h') /\
        var_data h' gx = Some (PyFloat G) /\
        shape G = shape a /\
        forall i, in_bounds (shape a) i ->
          float_at G i
          = PrimFloat.mul (float_at g i)
              (if PrimFloat.ltb 0%float (float_at a i)
               then 1%float else 0%float) /\
          (PrimFloat.eqb (float_at a i) 0%float = true ->
           PrimFloat.is_finite (float_at g i) = true ->
           PrimFloat.is_zero (float_at G i) = true) /\
          (PrimFloat.ltb 0%float (float_at a i) = false ->
           PrimFloat.is_finite (float_at g i) = true ->
           PrimFloat.is_zero (float_at G i) = true) /\
          (PrimFloat.ltb 0%float (float_at a i) = false ->
           PrimFloat.is_finite (float_at g i) = false ->
           PrimFloat.is_nan (float_at G i) = true)) /\
  (forall (h : Heap R) (f : Function) (gy x : nat) (a g : ndarray R),
      f_inputs f = [x] ->
      var_data h x = Some (PyFloat a) -> var_data h gy = Some (PyFloat g) ->
      wf a -> shape g = shape a ->
      exists gx h' G,
        ReLU_backward f gy h = Some ([Some gx], h') /\
        var_data h' gx = Some (PyFloat G) /\
        shape G = shape a /\
        forall i, in_bounds (shape a) i ->
          (get a i = 0%R -> get G i = 0%R) /\
          ((get a i <= 0)%R -> get G i = 0%R) /\
          ((0 < get a i)%R -> get G i = get g i)).
Proof.
  split; [|split].
  - intros A B h f gy x a g. apply ReLU_backward_run.
  - intros fexp flog h f gy x a g Hin Hx Hgy Hwf Hs.
    destruct (@ReLU_backward_run float (float_backend fexp flog)
                h f gy x a g Hin Hx Hgy Hwf Hs)
      as (gx & h' & G & Hrun & Hd & HsG & Hget).
    exists gx, h', G. repeat (split; [assumption|]).
    intros i Hi.
    assert (HG : float_at G i
                 = PrimFloat.mul (float_at g i)
                     (if PrimFloat.ltb 0%float (float_at a i)
                      then 1%float else 0%float)).
    { change (float_at G i)
        with (@get float (@Dflt_backend float (float_backend fexp flog)) G i).
      rewrite (Hget i Hi). cbn [bk_mul bk_gt float_backend].
      change (@get float (@Dflt_backend float (float_backend fexp flog)))
        with float_at.
      f_equal. }
    split; [exact HG|].
    assert (Hoff : PrimFloat.ltb 0%float (float_at a i) = false ->
                   float_at G i = PrimFloat.mul (float_at g i) 0%float)
      by (intros E; now rewrite HG, E).
    destruct (float_mul_zero (float_at g i)) as [Hfin Hinf].
    split; [|split].
    + intros Hz Hf. rewrite (Hoff (float_zero_not_positive _ Hz)).
      now apply Hfin.
    + intros Hz Hf. rewrite (Hoff Hz). now apply Hfin.
    + intros Hz Hf. rewrite (Hoff Hz). now apply Hinf.
  - intros h f gy x a g Hin Hx Hgy Hwf Hs.
    destruct (ReLU_backward_run h f gy x a g Hin Hx Hgy Hwf Hs)
      as (gx & h' & G & Hrun & Hd & HsG & Hget).
    exists gx, h', G. repeat (split; [assumption|]).
    intros i Hi. rewrite (Hget i Hi). simpl.
    unfold bk_zero, bk_of_bool, bk_one, bk_zero. simpl.
    repeat split; intros Ha; destruct (Rlt_dec 0 (get a i)); lra.
Qed.

Lemma ReLU_backward_zero_for_finite_gradient_witness :
  (exists gx h' G,
      @ReLU_backward float (float_backend (fun v => v) log_at_zero)
                     (mk_Function ReLU [0] [1] 0) 2 relu_float_store
      = Some ([Some gx], h') /\
      var_data h' gx = Some (PyFloat G) /\
      shape G = shape relu_float_x /\
      forall i, in_bounds (shape relu_float_x) i ->
        float_at G i
        = PrimFloat.mul (float_at relu_float_gy i)
            (if PrimFloat.ltb 0%float (float_at relu_float_x i)
             then 1%float else 0%float) /\
        (PrimFloat.eqb (float_at relu_float_x i) 0%float = true ->
         PrimFloat.is_finite (float_at relu_float_gy i) = true ->
         PrimFloat.is_zero (float_at G i) = true) /\
        (PrimFloat.ltb 0%float (float_at relu_float_x i) = false ->
         PrimFloat.is_finite (float_at relu_float_gy i) = true ->
         PrimFloat.is_zero (float_at G i) = true) /\
        (PrimFloat.ltb 0%float (float_at relu_float_x i) = false ->
         PrimFloat.is_finite (float_at relu_float_gy i) = false ->
         PrimFloat.is_nan (float_at G i) = true)) /\
  (exists gx h' G,
      ReLU_backward (mk_Function ReLU [0] [1] 0) 2 relu_store
      = Some ([Some gx], h') /\
      var_data h' gx = Some (PyFloat G) /\
      shape G = shape relu_x /\
      forall i, in_bounds (shape relu_x) i ->
        (get relu_x i = 0%R -> get G i = 0%R) /\
        ((get relu_x i <= 0)%R -> get G i = 0%R) /\
        ((0 < get relu_x i)%R -> get G i = get relu_gy i)).
Proof.
  destruct ReLU_backward_zero_for_finite_gradient as (_ & Hfloat & Hreal).
  split.
  - apply (Hfloat (fun v => v) log_at_zero relu_float_store
                  (mk_Function ReLU [0] [1] 0) 2 0
                  relu_float_x relu_float_gy); reflexivity.
  - apply (Hreal relu_store (mk_Function ReLU [0] [1] 0) 2 0
                 relu_x relu_gy); reflexivity.
Defined.

(** C10, as stated, fails in binary64: with the input element [0.0] and
    the output gradient plus infinity there, [ReLU.backward] returns a NaN
    at that position, not zero ([inf * False] is [inf * 0.0]).  Finite
    input reaches this: [z = log(relu(x)); z.backward()] at [x = 0.0] has
    [Log.backward] hand the gradient [1.0 / 0.0] to [ReLU.backward], and
    [x.grad] ends up as NaN. *)
Lemma ReLU_backward_nan_at_zero :
  (exists gx h' G,
      @ReLU_backward float (float_backend (fun v => v) log_at_zero)
                     (mk_Function ReLU [0] [1] 0) 2 relu_inf_store
      = Some ([Some gx], h') /\
      var_data h' gx = Some (PyFloat G) /\
      PrimFloat.eqb (float_at relu_float_x [0]) 0%float = true /\
      PrimFloat.is_nan (float_at G [0]) = true /\
      PrimFloat.is_zero (float_at G [0]) = false) /\
  (exists h' G,
      log_relu_then_backward = Some (tt, h') /\
      grad_data h' 0 = Some (PyFloat G) /\
      PrimFloat.is_nan (float_at G []) = true /\
      PrimFloat.is_zero (float_at G []) = false).
Proof.
  split.
  - eexists. eexists. eexists.
    split; [vm_compute; reflexivity|].
    split; [vm_compute; reflexivity|].
    split; [reflexivity|]. split; reflexivity.
  - eexists. eexists.
    split; [vm_compute; reflexivity|].
    split; [vm_compute; reflexivity|].
    split; reflexivity.
Qed.

(* ================================================================== *)
(** * Log                                                              *)
(* ================================================================== *)

Section LogLemmas.
Context {A : Type} `{Backend A}.

Lemma log_run (h : Heap A) (x : nat) (a : ndarray A) :
  var_data h x = Some (PyFloat a) ->
  exists y h',
    log (AVar x) h = Some (y, h') /\
    var_data h' y = Some (PyFloat (Log_forward a)).
Proof.
  intros Hx.
  destruct (Function_call_run h Log Log [AVar x] [PyFloat a]
              (PyFloat (Log_forward a))) as (y & h' & Hrun & _ & Hd).
  - repeat constructor. exact Hx.
  - reflexivity.
  - now exists y, h'.
Qed.

Lemma Log_backward_run (h : Heap A) (f : Function) (gy x : nat)
      (a g : ndarray A) :
  f_inputs f = [x] ->
  var_data h x = Some (PyFloat a) -> var_data h gy = Some (PyFloat g) ->
  shape a = shape g ->
  exists gx h',
    Log_backward f gy h = Some ([Some gx], h') /\
    var_data h' gx = Some (PyFloat (zip_with bk_div g a)).
Proof.
  intros Hin Hx Hgy Hs.
  destruct (div_run h (AVar gy) (AVar x) (PyFloat g) (PyFloat a)
              (PyFloat (zip_with bk_div g a)) Hgy Hx) as (gx & h' & Hrun & _ & Hd).
  { unfold arith_forward, as_float, obind.
    now rewrite (np_binop_same_shape bk_div g a Hs). }
  exists gx, h'. split; [|exact Hd].
  unfold Log_backward. rewrite Hin. now run Hrun.
Qed.
End LogLemmas.

(** C9.  The logarithm is applied and differentiated without any guard.
    For every backend and every input array, [log] returns a node (it does
    not raise) that holds the backend logarithm of every element, so that
    an element equal to zero yields whatever the backend logarithm yields
    at zero; the backward returns [gy / x] elementwise in the backend's
    division, so that a zero element divides by zero in the backend.  With
    binary64 arithmetic and a logarithm that gives minus infinity at zero,
    the forward value at input [0.0] is minus infinity and the gradient
    for [gy = 1.0] is plus infinity: both are returned to the caller. *)
Theorem Log_is_unguarded :
  (forall (A : Type) (B : Backend A) (h : Heap A) (x : nat) (a : ndarray A),
      var_data h x = Some (PyFloat a) -> wf a ->
      exists y h',
        log (AVar x) h = Some (y, h') /\
        var_data h' y = Some (PyFloat (Log_forward a)) /\
        shape (Log_forward a) = shape a /\
        forall i, in_bounds (shape a) i ->
                  get (Log_forward a) i = bk_log (get a i) /\
                  (get a i = bk_zero ->
                   get (Log_forward a) i = bk_log bk_zero)) /\
  (forall (A : Type) (B : Backend A) (h : Heap A) (f : Function)
          (gy x : nat) (a g : ndarray A),
      f_inputs f = [x] ->
      var_data h x = Some (PyFloat a) -> var_data h gy = Some (PyFloat g) ->
      shape a = shape g ->
      exists gx h' G,
        Log_backward f gy h = Some ([Some gx], h') /\
        var_data h' gx = Some (PyFloat G) /\
        shape G = shape g /\
        forall i, in_bounds (shape g) i ->
                  get G i = bk_div (get g i) (get a i) /\
                  (get a i = bk_zero ->
                   get G i = bk_div (get g i) bk_zero)) /\
  (forall fexp flog : float -> float,
      flog 0%float = neg_infinity ->
      exists y gx h1 h2,
        @log float (float_backend fexp flog) (AVar 0) log_store
        = Some (y, h1) /\
        var_data h1 y = Some (PyFloat (scalar neg_infinity)) /\
        @Log_backward float (float_backend fexp flog)
                      (mk_Function Log [0] [y] 0) 1 h1
        = Some ([Some gx], h2) /\
        var_data h2 gx = Some (PyFloat (scalar infinity))).
Proof.
  split; [|split].
  - intros A B h x a Hx Hwf.
    destruct (log_run h x a Hx) as (y & h' & Hrun & Hd).
    exists y, h'. repeat (split; [assumption || reflexivity|]).
    intros i Hi.
    assert (E : get (Log_forward a) i = bk_log (get a i))
      by (now apply get_np_map).
    split; [exact E|]. intros <-. exact E.
  - intros A B h f gy x a g Hin Hx Hgy Hs.
    destruct (Log_backward_run h f gy x a g Hin Hx Hgy Hs)
      as (gx & h' & Hrun & Hd).
    exists gx, h', (zip_with bk_div g a).
    repeat (split; [assumption || reflexivity|]).
    intros i Hi.
    assert (E : get (zip_with bk_div g a) i = bk_div (get g i) (get a i))
      by (unfold zip_with; now rewrite get_tabulate).
    split; [exact E|]. intros <-. exact E.
  - intros fexp flog Hlog. unfold log_store. cbv.
    exists 2, 3. eexists. eexists.
    split; [reflexivity|]. rewrite Hlog. repeat split; reflexivity.
Qed.

Lemma Log_is_unguarded_witness :
  let B := float_backend (fun v => v) log_at_zero in
  let h := log_store in
  (exists y h',
      @log float B (AVar 0) h = Some (y, h') /\
      var_data h' y = Some (PyFloat (@Log_forward float B (scalar 0%float))) /\
      shape (@Log_forward float B (scalar 0%float)) = shape (scalar 0%float) /\
      forall i, in_bounds (shape (scalar 0%float)) i ->
                get (@Log_forward float B (scalar 0%float)) i
                = @bk_log float B (get (scalar 0%float) i) /\
                (get (scalar 0%float) i = @bk_zero float B ->
                 get (@Log_forward float B (scalar 0%float)) i
                 = @bk_log float B (@bk_zero float B))) /\
  (exists gx h' G,
      @Log_backward float B (mk_Function Log [0] [2] 0) 1 h
      = Some ([Some gx], h') /\
      var_data h' gx = Some (PyFloat G) /\
      shape G = shape (scalar 1%float) /\
      forall i, in_bounds (shape (scalar 1%float)) i ->
                get G i = @bk_div float B (get (scalar 1%float) i)
                                          (get (scalar 0%float) i) /\
                (get (scalar 0%float) i = @bk_zero float B ->
                 get G i = @bk_div float B (get (scalar 1%float) i)
                                            (@bk_zero float B))) /\
  (exists y gx h1 h2,
      @log float B (AVar 0) h = Some (y, h1) /\
      var_data h1 y = Some (PyFloat (scalar neg_infinity)) /\
      @Log_backward float B (mk_Function Log [0] [y] 0) 1 h1
      = Some ([Some gx], h2) /\
      var_data h2 gx = Some (PyFloat (scalar infinity))).
Proof.
  intros B h. destruct Log_is_unguarded as (Hfwd & Hbwd & Hieee).
  split; [|split].
  - apply (Hfwd float B h 0 (scalar 0%float)); reflexivity.
  - apply (Hbwd float B h (mk_Function Log [0] [2] 0) 1 0
             (scalar 0%float) (scalar 1%float)); reflexivity.
  - apply (Hieee (fun v => v) log_at_zero). reflexivity.
Defined.

(* ================================================================== *)
(** * GetItem: indexing and scatter-add                                *)
(* ================================================================== *)

Lemma nth_list_set {X} (l : list X) (k k' : nat) (v d : X) :
  nth k (list_set k' v l) d
  = if (k =? k') && (k' <? length l) then v else nth k l d.
Proof.
  revert k k'. induction l as [|x l IH]; intros k k'.
  - rewrite andb_false_r. now destruct k', k.
  - destruct k' as [|k'], k as [|k]; simpl; try reflexivity.
    rewrite IH. reflexivity.
Qed.

Lemma length_list_set {X} (l : list X) (k : nat) (v : X) :
  length (list_set k v l) = length l.
Proof.
  revert k. induction l as [|x l IH]; intros [|k]; simpl; auto.
Qed.

Lemma ravel_inj (s : Shape) (i j : list nat) :
  in_bounds s i -> in_bounds s j -> ravel s i = ravel s j -> i = j.
Proof.
  intros Hi Hj E.
  rewrite <- (nth_ravel_indices [] Hi), <- (nth_ravel_indices [] Hj).
  now rewrite E.
Qed.

Section SetLemmas.
Context {T : Type} `{Dflt T}.

Lemma wf_set (x : ndarray T) (idx : list nat) (v : T) :
  wf x -> wf (set x idx v).
Proof. unfold wf, set. simpl. now rewrite length_list_set. Qed.

Lemma get_set (x : ndarray T) (idx q : list nat) (v : T) :
  wf x -> in_bounds (shape x) idx -> in_bounds (shape x) q ->
  get (set x idx v) q = if idx_eqb idx q then v else get x q.
Proof.
  intros Hwf Hidx Hq. unfold get, set, idx_eqb. simpl.
  rewrite nth_list_set.
  replace (ravel (shape x) idx <? length (data x)) with true
    by (symmetry; apply Nat.ltb_lt; rewrite Hwf; now apply ravel_lt).
  rewrite andb_true_r.
  destruct (list_eq_dec Nat.eq_dec idx q) as [->|Hne].
  - now rewrite Nat.eqb_refl.
  - destruct (ravel (shape x) q =? ravel (shape x) idx) eqn:E; [|reflexivity].
    apply Nat.eqb_eq in E. exfalso. apply Hne. symmetry.
    now apply (ravel_inj _ _ _ Hq Hidx).
Qed.
End SetLemmas.

Section ScatterAdd.
Context {A : Type} `{Backend A}.

Lemma add_at_fold (src : list nat -> list nat) (b : ndarray A)
      (ps : list (list nat)) (acc : ndarray A) :
  wf acc ->
  (forall p, In p ps -> in_bounds (shape acc) (src p)) ->
  let r := fold_left
             (fun acc p => set acc (src p) (bk_add (get acc (src p)) (get b p)))
             ps acc in
  shape r = shape acc /\ wf r /\
  forall q, in_bounds (shape acc) q ->
            get r q = scattered src b ps q (get acc q).
Proof.
  revert acc. induction ps as [|p ps IH]; intros acc Hwf Hsrc; simpl.
  - auto.
  - set (acc1 := set acc (src p) (bk_add (get acc (src p)) (get b p))).
    assert (Hp : in_bounds (shape acc) (src p)) by (apply Hsrc; now left).
    destruct (IH acc1) as (Hs & Hwf1 & Hget).
    + now apply wf_set.
    + intros p' Hp'. apply Hsrc. now right.
    + split; [exact Hs|]. split; [exact Hwf1|].
      intros q Hq. rewrite (Hget q Hq). unfold scattered. simpl.
      unfold acc1. rewrite (get_set _ _ _ _ Hwf Hp Hq).
      destruct (idx_eqb (src p) q) eqn:E; [|reflexivity].
      simpl. unfold idx_eqb in E.
      destruct (list_eq_dec Nat.eq_dec (src p) q) as [->|]; [reflexivity|discriminate].
Qed.
End ScatterAdd.

Lemma Forall_nth_lt (d : nat) (l : list nat) (k : nat) :
  Forall (fun x => x < d) l -> k < length l -> nth k l 0 < d.
Proof.
  intros Hf Hk. rewrite Forall_forall in Hf. apply Hf, nth_In, Hk.
Qed.

Lemma in_bounds_app (s1 s2 : Shape) (p : list nat) :
  in_bounds (s1 ++ s2) p ->
  in_bounds s1 (firstn (length s1) p) /\ in_bounds s2 (skipn (length s1) p).
Proof.
  unfold in_bounds. intros Hb.
  apply Forall2_app_inv_r in Hb as (p1 & p2 & H1 & H2 & ->).
  pose proof (Forall2_length H1) as Hl. rewrite <- Hl.
  rewrite firstn_app, skipn_app, Nat.sub_diag, firstn_all, skipn_all. simpl.
  now rewrite app_nil_r.
Qed.

Lemma bnth_lt (d c : nat) (l : list nat) (k : nat) :
  Forall (fun x => x < d) l -> k < c ->
  length l = c \/ length l = 1 ->
  bnth l k < d.
Proof.
  intros Hf Hk Hl. unfold bnth.
  destruct (length l =? 1) eqn:E.
  - apply Nat.eqb_eq in E. apply Forall_nth_lt; [assumption|lia].
  - apply Nat.eqb_neq in E. apply Forall_nth_lt; [assumption|lia].
Qed.

Lemma broadcast_shapes_1d (a b : nat) (n : Shape) :
  broadcast_shapes [a] [b] = Some n ->
  exists c, n = [c] /\ (a = c \/ a = 1) /\ (b = c \/ b = 1).
Proof.
  unfold broadcast_shapes. simpl.
  destruct (a =? b) eqn:E1; simpl.
  - apply Nat.eqb_eq in E1. subst b. intros [= <-]. exists a. auto.
  - destruct (a =? 1) eqn:E2; simpl.
    + apply Nat.eqb_eq in E2. intros [= <-]. exists b. auto.
    + destruct (b =? 1) eqn:E3; simpl; [|discriminate].
      apply Nat.eqb_eq in E3. intros [= <-]. exists a. auto.
Qed.

Lemma index_plan_in_bounds (s : Shape) (ix : Index) (rs : Shape)
      (src : list nat -> list nat) :
  index_wf ix -> index_plan s ix = Some (rs, src) ->
  forall p, in_bounds rs p -> in_bounds s (src p).
Proof.
  intros Hwf Hplan p Hp. unfold index_plan, norm_index in Hplan.
  destruct ix as [i|ks|rows cols].
  - destruct s as [|d s']; [discriminate|].
    destruct (norm_axis d i) as [i'|] eqn:Ei; simpl in Hplan; [|discriminate].
    injection Hplan as <- <-. apply norm_axis_some in Ei as [Hi _].
    now constructor.
  - destruct s as [|d s']; [discriminate|].
    destruct (omapM (norm_axis d) (data ks)) as [ks'|] eqn:Ek;
      simpl in Hplan; [|discriminate].
    injection Hplan as <- <-.
    apply omapM_norm_axis in Ek as (Hlen & Hf & _).
    apply in_bounds_app in Hp as [Hp1 Hp2].
    constructor; [|exact Hp2].
    apply Forall_nth_lt; [assumption|].
    rewrite Hlen. simpl in Hwf. unfold wf in Hwf. rewrite Hwf.
    now apply ravel_lt.
  - destruct s as [|d0 [|d1 s']]; try discriminate.
    destruct (omapM (norm_axis d0) rows) as [rs'|] eqn:Er;
      simpl in Hplan; [|discriminate].
    destruct (omapM (norm_axis d1) cols) as [cs'|] eqn:Ec;
      simpl in Hplan; [|discriminate].
    destruct (broadcast_shapes [length rows] [length cols]) as [n|] eqn:En;
      simpl in Hplan; [|discriminate].
    injection Hplan as <- <-.
    apply omapM_norm_axis in Er as (Hlr & Hfr & _).
    apply omapM_norm_axis in Ec as (Hlc & Hfc & _).
    apply broadcast_shapes_1d in En as (c & -> & Ha & Hb).
    inversion Hp as [|k c' p' s'' Hk Hp']; subst.
    constructor; [|constructor; [|exact Hp']].
    + apply (bnth_lt d0 c); [assumption|assumption|lia].
    + apply (bnth_lt d1 c); [assumption|assumption|lia].
Qed.

Section GetItemClaim.
Context {A : Type} `{Backend A}.

Lemma get_np_zeros (s : Shape) (q : list nat) :
  in_bounds s q -> get (np_zeros s) q = bk_zero.
Proof. intros Hq. unfold np_zeros, full. now rewrite get_tabulate. Qed.

(** C7.  For every input [x] and every selection that indexing accepts on
    the shape of [x], the forward reads, for each position [p] of the
    result, the element of [x] at [src p]; the backward of [get_item]
    returns a node that holds [add.at] of the output gradient into a zero
    array of the shape of [x] at the same selection: an array of that
    shape whose element at [q] is the sum, starting from zero, of the
    elements [gy[p]] over all positions [p] of the selection with
    [src p = q].  Elements that the selection names several times thus
    accumulate all their contributions, and elements it does not name stay
    zero. *)
Theorem GetItem_backward_scatter_adds
        (h : Heap A) (f : Function) (gy x : nat) (ix : Index)
        (a g : ndarray A) (rs : Shape) (src : list nat -> list nat) :
  f_op f = GetItem ix -> f_inputs f = [x] ->
  var_data h x = Some (PyFloat a) ->
  index_wf ix -> index_plan (shape a) ix = Some (rs, src) ->
  var_data h gy = Some (PyFloat g) -> wf g -> shape g = rs ->
  np_getitem a ix = Some (tabulate rs (fun p => get a (src p))) /\
  exists gx h' G,
    GetItem_backward f gy h = Some ([Some gx], h') /\
    var_data h' gx = Some (PyFloat G) /\
    np_add_at (np_zeros (shape a)) ix g = Some G /\
    shape G = shape a /\
    forall q, in_bounds (shape a) q ->
              get G q = scattered src g (indices rs) q bk_zero.
Proof.
  intros Hop Hin Hx Hixwf Hplan Hgy Hwf Hs.
  split; [unfold np_getitem; now rewrite Hplan|].
  assert (Hb : np_broadcast_to g rs = Some g).
  { unfold np_broadcast_to. rewrite Hs.
    rewrite broadcastable_refl_or_one
      by (clear; induction rs; constructor; auto).
    f_equal. rewrite <- Hs. transitivity (tabulate (shape g) (get g));
      [|now apply tabulate_get].
    apply tabulate_ext. intros j Hj. now rewrite bproj_self. }
  destruct (add_at_fold src g (indices rs) (np_zeros (shape a)))
    as (HGs & HGwf & HGget).
  { apply wf_tabulate. }
  { intros p Hp. apply in_indices in Hp.
    exact (index_plan_in_bounds _ _ _ _ Hixwf Hplan p Hp). }
  set (G := fold_left
              (fun acc p => set acc (src p) (bk_add (get acc (src p)) (get g p)))
              (indices rs) (np_zeros (shape a))) in *.
  assert (Hadd : np_add_at (np_zeros (shape a)) ix g = Some G).
  { unfold np_add_at. change (shape (np_zeros (shape a))) with (shape a).
    rewrite Hplan. simpl. now rewrite Hb. }
  destruct (Function_call_run h (GetItemGrad ix (shape a))
              (GetItemGrad ix (shape a)) [AVar gy] [PyFloat g] (PyFloat G))
    as (gx & h' & Hrun & _ & Hd).
  { repeat constructor. exact Hgy. }
  { simpl. unfold GetItemGrad_forward. now rewrite Hadd. }
  exists gx, h', G. split; [|split; [exact Hd|split; [exact Hadd|]]].
  - unfold GetItem_backward. rewrite Hop, Hin.
    run (arg_shape_run h (AVar x) (PyFloat a) (shape a) Hx eq_refl).
    now run Hrun.
  - split; [exact HGs|]. intros q Hq. rewrite (HGget q Hq).
    now rewrite get_np_zeros.
Qed.
End GetItemClaim.

(** The two gradients of the duplicated index are added up. *)
Example add_at_duplicates :
  np_add_at (np_zeros [3]) item_ix item_gy
  = Some (mk_ndarray [3] [0 + 1 + 2; 0; 0 + 4]%R).
Proof. reflexivity. Qed.

Lemma GetItem_backward_scatter_adds_witness :
  exists rs src,
    index_plan (shape item_x) item_ix = Some (rs, src) /\
    np_getitem item_x item_ix
    = Some (tabulate rs (fun p => get item_x (src p))) /\
    exists gx h' G,
      GetItem_backward (mk_Function (GetItem item_ix) [0] [1] 0) 2 item_store
      = Some ([Some gx], h') /\
      var_data h' gx = Some (PyFloat G) /\
      np_add_at (np_zeros (shape item_x)) item_ix item_gy = Some G /\
      shape G = shape item_x /\
      forall q, in_bounds (shape item_x) q ->
                get G q = scattered src item_gy (indices rs) q bk_zero.
Proof.
  eexists. eexists. split; [reflexivity|].
  apply (GetItem_backward_scatter_adds
           item_store (mk_Function (GetItem item_ix) [0] [1] 0) 2 0 item_ix
           item_x item_gy); reflexivity.
Defined.

(* ================================================================== *)
(** * Dropout                                                          *)
(* ================================================================== *)

Lemma broadcast_shapes_scalar (s : Shape) : broadcast_shapes s [] = Some s.
Proof.
  unfold broadcast_shapes. simpl.
  destruct (rev s) eqn:E; simpl.
  - apply (f_equal (@rev nat)) in E. rewrite rev_involutive in E. now subst.
  - change (rev l ++ [n]) with (rev (n :: l)). rewrite <- E.
    now rewrite rev_involutive.
Qed.

Section ScalarOperand.
Context {A : Type} `{Backend A}.

(** An array combined with a 0-d array: every element meets the scalar. *)
Lemma np_binop_scalar (f : A -> A -> A) (a : ndarray A) (c : A) :
  np_binop f a (scalar c)
  = Some (tabulate (shape a) (fun j => f (get a j) c)).
Proof.
  unfold np_binop. simpl. rewrite broadcast_shapes_scalar. simpl.
  f_equal. apply tabulate_ext. intros j Hj. now rewrite bproj_self.
Qed.
End ScalarOperand.

(** C8 (as amended).  [dropout] takes the input and, as second positional
    argument or under the keyword [dropout_ratio], the ratio, which
    defaults to 0.5.  It reads the [train] flag of the process-wide
    configuration: when the flag is off it returns the input node
    unchanged; when it is on it returns a node whose element at [i] is
    [x[i] * mask[i] / (1 - ratio)], the input times the random keep-mask
    scaled by [1 / (1 - ratio)], where the mask is one where the sample
    drawn for [i] exceeds the ratio and zero elsewhere.  (Exact real
    arithmetic; [rand] is the sampler.) *)
Theorem dropout_reads_train_flag
        (rand : Shape -> ndarray R) (h : Heap R) (x : nat) (a : ndarray R)
        (r : R) :
  var_data h x = Some (PyFloat a) -> wf a ->
  (forall s, shape (rand s) = s /\ wf (rand s)) ->
  dropout_call rand [AVar x] [] h = dropout rand (AVar x) one_half h /\
  dropout_call rand [AVar x; py_float r] [] h = dropout rand (AVar x) r h /\
  dropout_call rand [AVar x] [("dropout_ratio"%string, py_float r)] h
  = dropout rand (AVar x) r h /\
  (train (h_config h) = false -> dropout rand (AVar x) r h = Some (x, h)) /\
  (train (h_config h) = true ->
   exists y h' Y,
     dropout rand (AVar x) r h = Some (y, h') /\
     var_data h' y = Some (PyFloat Y) /\
     shape Y = shape a /\
     forall i, in_bounds (shape a) i ->
               get Y i = (get a i * keep (rand (shape a)) r i / (1 - r))%R /\
               get Y i = (get a i * (keep (rand (shape a)) r i * (1 / (1 - r))))%R).
Proof.
  intros Hx Hwf Hrand.
  repeat (split; [reflexivity|]).
  split.
  - intros Htrain. unfold dropout. simpl.
    unfold bind, ret, get_heap. now rewrite Htrain.
  - intros Htrain. destruct (Hrand (shape a)) as (Hus & Huwf).
    set (u := rand (shape a)) in *.
    set (mask := np_map (fun v : R => bk_gt v r) u).
    set (T := tabulate (shape a)
                (fun j => bk_mul (get a j) (get (np_map bk_of_bool mask) j))).
    set (Y := tabulate (shape T) (fun j => bk_div (get T j) (bk_sub bk_one r))).
    destruct (mul_run h (AVar x) (AObj (PyBool mask)) (PyFloat a) (PyBool mask)
                (PyFloat T) Hx eq_refl) as (t & h1 & R1 & E1 & D1).
    { unfold arith_forward, as_float, obind.
      now rewrite (np_binop_same_shape bk_mul a (np_map bk_of_bool mask)). }
    destruct (div_run h1 (AVar t) (AObj (PyFloat (scalar (bk_sub bk_one r))))
                (PyFloat T) (PyFloat (scalar (bk_sub bk_one r))) (PyFloat Y)
                D1 eq_refl) as (y & h2 & R2 & _ & D2).
    { unfold arith_forward, as_float, obind.
      now rewrite np_binop_scalar. }
    exists y, h2, Y. split; [|split; [exact D2|split; [reflexivity|]]].
    + unfold dropout. simpl as_variable.
      run (eq_refl : ret (A := R) x h = Some (x, h)).
      run (eq_refl : get_heap h = Some (h, h)).
      rewrite Htrain.
      run (arg_shape_run h (AVar x) (PyFloat a) (shape a) Hx eq_refl).
      fold u. fold mask. run R1. now run R2.
    + intros i Hi.
      assert (HY : get Y i
                   = (get a i * keep (rand (shape a)) r i / (1 - r))%R).
      { unfold Y. rewrite get_tabulate by assumption.
        unfold T. rewrite get_tabulate by assumption.
        unfold mask.
        rewrite (get_np_map bk_of_bool (np_map (fun v : R => bk_gt v r) u) i).
        - rewrite (get_np_map (fun v : R => bk_gt v r) u i);
            [reflexivity|assumption|now rewrite Hus].
        - unfold wf, np_map. simpl. now rewrite length_map.
        - simpl. now rewrite Hus. }
      split; [exact HY|]. rewrite HY. unfold u, Rdiv. ring.
Qed.

Lemma dropout_reads_train_flag_witness :
  let h := vector_store in
  let a := mk_ndarray [3] [1; 2; 3]%R in
  let r := (1 / 4)%R in
  dropout_call dropout_sampler [AVar 0] [] h
  = dropout dropout_sampler (AVar 0) one_half h /\
  dropout_call dropout_sampler [AVar 0; py_float r] [] h
  = dropout dropout_sampler (AVar 0) r h /\
  dropout_call dropout_sampler [AVar 0]
               [("dropout_ratio"%string, py_float r)] h
  = dropout dropout_sampler (AVar 0) r h /\
  (train (h_config h) = false ->
   dropout dropout_sampler (AVar 0) r h = Some (0, h)) /\
  (train (h_config h) = true ->
   exists y h' Y,
     dropout dropout_sampler (AVar 0) r h = Some (y, h') /\
     var_data h' y = Some (PyFloat Y) /\
     shape Y = shape a /\
     forall i, in_bounds (shape a) i ->
               get Y i
               = (get a i * keep (dropout_sampler (shape a)) r i / (1 - r))%R /\
               get Y i
               = (get a i * (keep (dropout_sampler (shape a)) r i
                             * (1 / (1 - r))))%R).
Proof.
  intros h a r.
  apply (dropout_reads_train_flag dropout_sampler h 0 a r).
  - reflexivity.
  - reflexivity.
  - intros s. split; [reflexivity|apply wf_tabulate].
Defined.

(** C8, as stated, fails on the keyword: the second parameter of [dropout]
    is called [dropout_ratio], so the call [dropout(x, ratio=0.5)] raises a
    [TypeError] instead of returning a node. *)
Lemma dropout_rejects_keyword_ratio :
  dropout_call dropout_sampler [AVar 0]
               [("ratio"%string, py_float (1 / 2)%R)] vector_store = None.
Proof. reflexivity. Qed.

(* ================================================================== *)
(** * Softmax                                                          *)
(* ================================================================== *)

Lemma in_bounds_collapse (mask : list bool) (s : Shape) (i : list nat) :
  length mask = length s -> in_bounds s i ->
  in_bounds (kept_shape mask s) (collapse mask true i).
Proof.
  intros Hm Hb. unfold in_bounds, kept_shape, collapse. revert mask Hm.
  induction Hb as [|c d i s Hc _ IH]; intros [|m mask] Hm; simpl in *;
    try discriminate; constructor.
  - destruct m; lia.
  - apply IH. lia.
Qed.

(** An index of a cell plus an index within the lane is an index of the
    array, and it collapses to the cell. *)
Lemma cell_lane_index (mask : list bool) (s : Shape) (c r : list nat) :
  length mask = length s ->
  in_bounds (kept_shape mask s) c -> in_bounds (lane_shape mask s) r ->
  in_bounds s (add_idx c r) /\ collapse mask true (add_idx c r) = c.
Proof.
  unfold in_bounds, kept_shape, lane_shape, add_idx, collapse.
  revert s c r.
  induction mask as [|m mask IH]; intros [|d s] c r Hm Hc Hr; simpl in *;
    try discriminate.
  - inversion Hc; subst. simpl. split; constructor.
  - inversion Hc as [|c0 d0 c' s0 Hc0 Hc']; subst.
    inversion Hr as [|r0 d1 r' s1 Hr0 Hr']; subst. simpl.
    injection Hm as Hm. destruct (IH s c' r' Hm Hc' Hr') as (Hb & He).
    split.
    + constructor; [destruct m; lia|exact Hb].
    + rewrite He. f_equal. destruct m; lia.
Qed.

Lemma broadcast_rev_kept (ra rb : list nat) :
  Forall2 (fun a b => b = a \/ b = 1) ra rb -> broadcast_rev ra rb = Some ra.
Proof.
  induction 1 as [|a b ra rb Hab _ IH]; simpl; [reflexivity|].
  rewrite IH. destruct (a =? b) eqn:E1; simpl; [reflexivity|].
  apply Nat.eqb_neq in E1. destruct Hab as [-> | ->]; [congruence|].
  destruct (a =? 1) eqn:E2; simpl.
  - apply Nat.eqb_eq in E2. now subst.
  - reflexivity.
Qed.

Lemma broadcast_shapes_kept (mask : list bool) (s : Shape) :
  length mask = length s -> broadcast_shapes s (kept_shape mask s) = Some s.
Proof.
  intros Hm. unfold broadcast_shapes.
  rewrite broadcast_rev_kept; [simpl; now rewrite rev_involutive|].
  apply Forall2_rev'. unfold kept_shape. revert mask Hm.
  induction s as [|d s IH]; intros [|m mask] Hm; simpl in *;
    try discriminate; constructor.
  - destruct m; auto.
  - apply IH. lia.
Qed.

(** The extents of the reduced axes, for a reduction over the one axis
    [k], are positive when the extent of that axis is. *)
Lemma reduced_extents_positive (s : Shape) (start k : nat) :
  (forall j, j < length s -> start + j = k -> 0 < nth j s 0) ->
  Forall (fun md => fst md = true -> 0 < snd md)
         (combine (map (fun j => existsb (Nat.eqb j) [k]) (seq start (length s))) s).
Proof.
  revert start. induction s as [|d s IH]; intros start Hk; simpl;
    constructor.
  - simpl. rewrite orb_false_r. intros E. apply Nat.eqb_eq in E.
    apply (Hk 0); simpl; lia.
  - apply IH. intros j Hj E. apply (Hk (S j)); simpl; lia.
Qed.

Lemma max_guard_false (mask : list bool) (s : Shape) :
  Forall (fun md => fst md = true -> 0 < snd md) (combine mask s) ->
  existsb (fun '(m, d) => (m : bool) && (d =? 0)) (combine mask s) = false.
Proof.
  induction 1 as [|[m d] l Hmd _ IH]; simpl; [reflexivity|].
  rewrite IH, orb_false_r. destruct m; simpl; [|reflexivity].
  apply Nat.eqb_neq. simpl in Hmd. specialize (Hmd eq_refl). lia.
Qed.

Lemma lane_shape_size_positive (mask : list bool) (s : Shape) :
  Forall (fun md => fst md = true -> 0 < snd md) (combine mask s) ->
  0 < size (lane_shape mask s).
Proof.
  unfold lane_shape. induction 1 as [|[m d] l Hmd _ IH]; simpl; [lia|].
  fold (size (map (fun '(m, d) => if (m : bool) then d else 1) l)).
  destruct m; simpl in *; [specialize (Hmd eq_refl); nia|lia].
Qed.

Lemma fold_left_Rplus (l : list R) (a : R) :
  fold_left Rplus l a = (a + Rsum l)%R.
Proof.
  unfold Rsum. revert a. induction l as [|x l IH]; intros a; simpl.
  - ring.
  - rewrite (IH (a + x)%R), (IH (0 + x)%R). ring.
Qed.

Lemma Rsum_cons (x : R) (l : list R) : Rsum (x :: l) = (x + Rsum l)%R.
Proof. unfold Rsum at 1. simpl. rewrite fold_left_Rplus. ring. Qed.

Lemma Rsum_map_scale {X} (f : X -> R) (c : R) (l : list X) :
  Rsum (map (fun r => f r * c)%R l) = (Rsum (map f l) * c)%R.
Proof.
  induction l as [|x l IH]; simpl.
  - unfold Rsum. simpl. ring.
  - rewrite !Rsum_cons, IH. ring.
Qed.

Lemma Rsum_map_pos {X} (f : X -> R) (l : list X) :
  l <> [] -> (forall r, 0 < f r)%R -> (0 < Rsum (map f l))%R.
Proof.
  intros Hl Hf. destruct l as [|x l]; [congruence|]. clear Hl.
  revert x. induction l as [|y l IH]; intros x; simpl.
  - rewrite Rsum_cons. unfold Rsum. simpl. specialize (Hf x). lra.
  - rewrite Rsum_cons. specialize (IH y). simpl in IH. specialize (Hf x). lra.
Qed.

Section BroadcastKept.
Context {A : Type} `{Backend A}.

(** An array combined with one value per cell of a reduction of it. *)
Lemma np_binop_kept (f : A -> A -> A) (a b : ndarray A) (mask : list bool) :
  length mask = length (shape a) ->
  shape b = kept_shape mask (shape a) ->
  np_binop f a b
  = Some (tabulate (shape a)
            (fun j => f (get a j) (get b (collapse mask true j)))).
Proof.
  intros Hm Hb. unfold np_binop.
  rewrite Hb, (broadcast_shapes_kept mask (shape a) Hm). simpl. f_equal.
  apply tabulate_ext. intros j Hj.
  now rewrite bproj_self, (bproj_kept mask (shape a) j Hm Hj).
Qed.

Lemma axes_of_int (n : nat) (axis : Z) (k : nat) :
  norm_axis n axis = Some k -> axes_of n (AxisInt axis) = Some [k].
Proof. intros E. simpl. now rewrite E. Qed.
End BroadcastKept.

Section SoftmaxValue.

Variables (x : ndarray R) (axis : Z) (k : nat).
Hypothesis Hwf : wf x.
Hypothesis Haxis : norm_axis (ndim x) axis = Some k.
Hypothesis Hextent : 0 < nth k (shape x) 0.

Let mask := reduce_mask (ndim x) [k].

Lemma softmax_mask_length : length mask = length (shape x).
Proof. apply length_reduce_mask. Qed.

Lemma softmax_extents :
  Forall (fun md => fst md = true -> 0 < snd md) (combine mask (shape x)).
Proof.
  unfold mask, reduce_mask, ndim. apply reduced_extents_positive.
  intros j Hj E. simpl in E. now subst j.
Qed.

Lemma softmax_lanes_nonempty : indices (lane_shape mask (shape x)) <> [].
Proof.
  intros E. pose proof (lane_shape_size_positive _ _ softmax_extents) as Hp.
  rewrite <- length_indices, E in Hp. simpl in Hp. lia.
Qed.

Lemma partition_sum_pos (c : list nat) : (0 < partition_sum x mask c)%R.
Proof.
  unfold partition_sum.
  apply (Rsum_map_pos (fun r => Rtrigo_def.exp (get x (add_idx c r)))).
  - apply softmax_lanes_nonempty.
  - intros r. apply exp_pos.
Qed.

Lemma np_max_axis_some :
  exists m, np_max x (AxisInt axis) true = Some m /\
            shape m = kept_shape mask (shape x).
Proof.
  unfold np_max. rewrite (axes_of_int _ _ _ Haxis). simpl.
  fold mask. rewrite (max_guard_false _ _ softmax_extents).
  eexists. split; reflexivity.
Qed.

(** The stabilised forward computes the unstabilised value. *)
Lemma Softmax_forward_value :
  Softmax_forward axis x = Some (softmax_value x mask).
Proof.
  destruct np_max_axis_some as (m & Hmax & Hms).
  unfold Softmax_forward. rewrite Hmax. cbn [obind].
  rewrite (np_binop_kept bk_sub x m mask softmax_mask_length Hms). cbn [obind].
  set (y1 := tabulate (shape x)
               (fun j => bk_sub (get x j) (get m (collapse mask true j)))).
  set (y2 := np_map bk_exp y1).
  assert (Hy2 : forall i, in_bounds (shape x) i ->
                          get y2 i
                          = Rtrigo_def.exp (get x i - get m (collapse mask true i))).
  { intros i Hi. unfold y2. rewrite get_np_map by (apply wf_tabulate || exact Hi).
    unfold y1. now rewrite get_tabulate. }
  unfold np_sum. change (ndim y2) with (ndim x).
  rewrite (axes_of_int _ _ _ Haxis). cbn [obind]. fold mask.
  set (S := tabulate (reduced_shape mask true (shape y2))
              (fun j => fold_left bk_add (lane y2 mask true j) bk_zero)).
  unfold np_idiv.
  rewrite (np_binop_kept bk_div y2 S mask softmax_mask_length eq_refl).
  cbn [obind]. cbn [shape tabulate np_map].
  destruct (list_eq_dec Nat.eq_dec (shape y2) (shape y2)) as [_|Hne];
    [|congruence].
  change (shape y2) with (shape x) in *.
  f_equal. unfold softmax_value. apply tabulate_ext. intros i Hi.
  pose proof (in_bounds_collapse mask (shape x) i softmax_mask_length Hi) as Hc.
  set (c := collapse mask true i) in *.
  assert (HS : get S c
               = (partition_sum x mask c * Rtrigo_def.exp (- get m c))%R).
  { unfold S. rewrite get_tabulate by exact Hc.
    change (fold_left bk_add (lane y2 mask true c) bk_zero)
      with (Rsum (lane y2 mask true c)).
    unfold lane, partition_sum. cbn [shape tabulate np_map].
    rewrite <- Rsum_map_scale. f_equal. apply map_ext_in. intros r Hr.
    apply in_indices in Hr.
    destruct (cell_lane_index mask (shape x) c r softmax_mask_length Hc Hr)
      as (Hb & He).
    rewrite (Hy2 _ Hb), He. unfold Rminus. apply exp_plus. }
  change (bk_div (get y2 i) (get S c)
          = (Rtrigo_def.exp (get x i) / partition_sum x mask c)%R).
  rewrite (Hy2 i Hi), HS. fold c. unfold Rminus. rewrite exp_plus.
  simpl. field.
  split; apply Rgt_not_eq; first [apply exp_pos | apply partition_sum_pos].
Qed.

(** Along the axis the values add up to one. *)
Lemma softmax_value_sums_to_one (c : list nat) :
  in_bounds (kept_shape mask (shape x)) c ->
  Rsum (lane (softmax_value x mask) mask true c) = 1%R.
Proof.
  intros Hc. unfold lane. simpl shape.
  transitivity (Rsum (map (fun r => Rtrigo_def.exp (get x (add_idx c r))
                                  * / partition_sum x mask c)%R
                          (indices (lane_shape mask (shape x))))).
  - f_equal. apply map_ext_in. intros r Hr. apply in_indices in Hr.
    destruct (cell_lane_index mask (shape x) c r softmax_mask_length Hc Hr)
      as (Hb & He).
    unfold softmax_value. rewrite get_tabulate by exact Hb. now rewrite He.
  - rewrite (Rsum_map_scale
               (fun r => Rtrigo_def.exp (get x (add_idx c r)))).
    fold (partition_sum x mask c). apply Rinv_r, Rgt_not_eq, partition_sum_pos.
Qed.
End SoftmaxValue.

Lemma softmax_run (h : Heap R) (x : Arg R) (a y : ndarray R) (axis : Z) :
  arg_data h x (PyFloat a) -> Softmax_forward axis a = Some y ->
  exists r h',
    softmax x axis h = Some (r, h') /\ extends h h' /\
    var_data h' r = Some (PyFloat y).
Proof.
  intros Hx Hfwd. unfold softmax.
  apply Function_call_run with (ds := [PyFloat a]) (self := Softmax axis).
  - repeat constructor. exact Hx.
  - simpl. now rewrite Hfwd.
Qed.

(** [softmax_simple] computes the unstabilised value as well. *)
Lemma softmax_simple_run (h : Heap R) (x : nat) (a : ndarray R) (axis : Z)
      (k : nat) :
  var_data h x = Some (PyFloat a) -> wf a ->
  norm_axis (ndim a) axis = Some k ->
  exists r h',
    softmax_simple (AVar x) axis h = Some (r, h') /\
    var_data h' r
    = Some (PyFloat (softmax_value a (reduce_mask (ndim a) [k]))).
Proof.
  intros Hx Hwf Haxis. set (mask := reduce_mask (ndim a) [k]).
  assert (Hm : length mask = length (shape a)) by apply length_reduce_mask.
  set (e := np_map Rtrigo_def.exp a).
  set (z := tabulate (kept_shape mask (shape a))
              (fun c => fold_left Rplus (lane e mask true c) 0%R)).
  destruct (Function_call_run h Exp Exp [AVar x] [PyFloat a] (PyFloat e))
    as (y & h1 & R1 & E1 & D1); [repeat constructor; exact Hx|reflexivity|].
  destruct (Function_call_run h1 (Sum (AxisInt axis) true None)
              (Sum (AxisInt axis) true (Some (shape e))) [AVar y] [PyFloat e]
              (PyFloat z)) as (sy & h2 & R2 & E2 & D2).
  { repeat constructor. exact D1. }
  { simpl. unfold Sum_forward, np_sum. change (ndim e) with (ndim a).
    now rewrite (axes_of_int _ _ _ Haxis). }
  destruct (div_run h2 (AVar y) (AVar sy) (PyFloat e) (PyFloat z)
              (PyFloat (softmax_value a mask))
              (var_data_extends _ _ _ _ E2 D1) D2) as (r & h3 & R3 & _ & D3).
  { unfold arith_forward, as_float, obind.
    rewrite (np_binop_kept bk_div e z mask Hm eq_refl).
    cbn [option_map]. change (shape e) with (shape a). do 2 f_equal.
    unfold softmax_value. apply tabulate_ext. intros i Hi.
    pose proof (in_bounds_collapse mask (shape a) i Hm Hi) as Hc.
    unfold e at 1. rewrite get_np_map by assumption.
    unfold z. rewrite get_tabulate by exact Hc.
    change (fold_left Rplus (lane e mask true (collapse mask true i)) 0%R)
      with (Rsum (lane e mask true (collapse mask true i))).
    unfold lane, partition_sum. cbn [shape e np_map].
    change (bk_div ?u ?v) with (u / v)%R. do 2 f_equal.
    apply map_ext_in. intros r Hr. apply in_indices in Hr.
    destruct (cell_lane_index mask (shape a) _ r Hm Hc Hr) as (Hb & _).
    unfold e. now rewrite get_np_map. }
  exists r, h3. split; [|exact D3].
  unfold softmax_simple. simpl as_variable.
  run (eq_refl : ret (A := R) x h = Some (x, h)).
  unfold exp, sum. run R1. run R2. exact R3.
Qed.

(** C6.  For every input array and every axis of positive extent (in
    particular for every matrix with at least one column, along the
    default axis 1), the forward of softmax succeeds, keeps the shape, and
    its values add up to one along the axis.  The result is the
    unstabilised [exp(x) / sum(exp(x), axis)]: subtracting the maximum
    along the axis before exponentiating does not change it, and
    [softmax_simple], which does not subtract it, returns the same array.
    (Exact real arithmetic.) *)
Theorem Softmax_forward_sums_to_one
        (h : Heap R) (x : nat) (a : ndarray R) (axis : Z) (k : nat) :
  var_data h x = Some (PyFloat a) -> wf a ->
  norm_axis (ndim a) axis = Some k -> 0 < nth k (shape a) 0 ->
  let mask := reduce_mask (ndim a) [k] in
  exists y,
    Softmax_forward axis a = Some y /\ shape y = shape a /\
    (exists t, np_sum y (AxisInt axis) true = Some t /\
               shape t = kept_shape mask (shape a) /\
               forall c, in_bounds (shape t) c -> get t c = 1%R) /\
    (forall i, in_bounds (shape a) i ->
               get y i = (Rtrigo_def.exp (get a i)
                          / partition_sum a mask (collapse mask true i))%R) /\
    (exists r h', softmax (AVar x) axis h = Some (r, h') /\
                  var_data h' r = Some (PyFloat y)) /\
    (exists r h', softmax_simple (AVar x) axis h = Some (r, h') /\
                  var_data h' r = Some (PyFloat y)).
Proof.
  intros Hx Hwf Haxis Hextent mask.
  pose proof (Softmax_forward_value a axis k Haxis Hextent) as Hfwd.
  fold mask in Hfwd.
  exists (softmax_value a mask). split; [exact Hfwd|]. split; [reflexivity|].
  split; [|split; [|split]].
  - eexists. split; [|split].
    + unfold np_sum. change (ndim (softmax_value a mask)) with (ndim a).
      rewrite (axes_of_int _ _ _ Haxis). reflexivity.
    + reflexivity.
    + intros c Hc. cbn [shape tabulate] in Hc.
      rewrite get_tabulate by exact Hc.
      change (Rsum (lane (softmax_value a mask) mask true c) = 1%R).
      now apply (softmax_value_sums_to_one a k Hextent).
  - intros i Hi. unfold softmax_value. now rewrite get_tabulate.
  - destruct (softmax_run h (AVar x) a _ axis Hx Hfwd) as (r & h' & ? & _ & ?).
    now exists r, h'.
  - exact (softmax_simple_run h x a axis k Hx Hwf Haxis).
Qed.

Lemma Softmax_forward_sums_to_one_witness :
  let mask := reduce_mask (ndim matrix_2x3) [1] in
  exists y,
    Softmax_forward 1 matrix_2x3 = Some y /\ shape y = shape matrix_2x3 /\
    (exists t, np_sum y (AxisInt 1) true = Some t /\
               shape t = kept_shape mask (shape matrix_2x3) /\
               forall c, in_bounds (shape t) c -> get t c = 1%R) /\
    (forall i, in_bounds (shape matrix_2x3) i ->
               get y i = (Rtrigo_def.exp (get matrix_2x3 i)
                          / partition_sum matrix_2x3 mask
                                          (collapse mask true i))%R) /\
    (exists r h', softmax (AVar 0) 1 linear_store = Some (r, h') /\
                  var_data h' r = Some (PyFloat y)) /\
    (exists r h', softmax_simple (AVar 0) 1 linear_store = Some (r, h') /\
                  var_data h' r = Some (PyFloat y)).
Proof.
  apply (Softmax_forward_sums_to_one linear_store 0 matrix_2x3 1 1);
    try reflexivity.
  simpl. lia.
Defined.

(* ================================================================== *)
(** * Softmax cross entropy                                            *)
(* ================================================================== *)

Lemma get_np_eye (n l c : nat) :
  l < n -> c < n -> get (np_eye n) [l; c] = if l =? c then 1%Z else 0%Z.
Proof.
  intros Hl Hc. unfold np_eye. rewrite get_tabulate; [reflexivity|].
  repeat constructor; assumption.
Qed.

(** [xp.eye(C)[t]] for a vector of labels. *)
Lemma one_hot_rows (C N : nat) (ta : ndarray Z) (labels : list nat) :
  shape ta = [N] -> wf ta ->
  omapM (norm_index C) (data ta) = Some labels ->
  exists oh,
    np_getitem (np_eye C) (IdxArray ta) = Some oh /\ shape oh = [N; C] /\
    wf oh /\
    forall i c, i < N -> c < C ->
                IZR (get oh [i; c]) = one_hot (nth i labels 0) c.
Proof.
  intros Hs Hwf Hl. unfold np_getitem, index_plan. cbn [shape np_eye tabulate].
  rewrite Hl, Hs. cbn [obind length app].
  eexists. split; [reflexivity|]. split; [reflexivity|].
  split; [apply wf_tabulate|]. intros i c Hi Hc.
  rewrite get_tabulate by (repeat constructor; assumption).
  cbn [firstn skipn ravel]. rewrite Nat.mul_1_r, Nat.add_0_r.
  apply omapM_norm_axis in Hl as (Hlen & Hf & _).
  assert (Hlab : nth i labels 0 < C).
  { apply Forall_nth_lt; [assumption|].
    rewrite Hlen. unfold wf in Hwf. rewrite Hwf, Hs. simpl. lia. }
  change (tabulate [C; C]
            (fun j => match j with
                      | [r; c0] => if r =? c0 then 1%Z else 0%Z
                      | _ => 0%Z
                      end)) with (np_eye C).
  rewrite (get_np_eye C _ c Hlab Hc). unfold one_hot.
  now destruct (nth i labels 0 =? c).
Qed.

Lemma SoftmaxCrossEntropy_backward_run
      (h : Heap R) (f : Function) (gy x t : nat) (a : ndarray R)
      (ta : ndarray Z) (gv : R) (N C : nat) (labels : list nat) :
  f_inputs f = [x; t] ->
  var_data h x = Some (PyFloat a) -> wf a -> shape a = [N; C] ->
  0 < N -> 0 < C ->
  var_data h t = Some (PyInt ta) -> shape ta = [N] -> wf ta ->
  omapM (norm_index C) (data ta) = Some labels ->
  var_data h gy = Some (PyFloat (scalar gv)) ->
  exists sm gx h' G,
    Softmax_forward 1 a = Some sm /\
    SoftmaxCrossEntropy_backward f gy h = Some ([Some gx], h') /\
    var_data h' gx = Some (PyFloat G) /\ shape G = [N; C] /\
    forall i c, i < N -> c < C ->
                get G [i; c]
                = ((get sm [i; c] - one_hot (nth i labels 0%nat) c)
                   * (gv / IZR (Z.of_nat N)))%R.
Proof.
  intros Hin Hx Hwf Hs HN HC Ht Hts Htwf Hl Hgy.
  assert (Hnd : ndim a = 2) by (unfold ndim; now rewrite Hs).
  assert (Haxis : norm_axis (ndim a) 1 = Some 1) by (now rewrite Hnd).
  assert (Hext : 0 < nth 1 (shape a) 0) by (now rewrite Hs).
  pose proof (Softmax_forward_value a 1 1 Haxis Hext) as Hfwd.
  set (sm := softmax_value a (reduce_mask (ndim a) [1])) in *.
  assert (Hsms : shape sm = [N; C]) by exact Hs.
  destruct (one_hot_rows C N ta labels Hts Htwf Hl)
    as (oh & Hoh & Hohs & Hohwf & Hohget).
  set (inv_N := bk_div bk_one (bk_of_Z (Z.of_nat N)) : R).
  set (D := tabulate (shape sm)
              (fun j => bk_sub (get sm j) (get (np_map bk_of_Z oh) j))).
  set (G := tabulate (shape D) (fun j => bk_mul (get D j) (bk_mul gv inv_N))).
  destruct (mul_run h (AVar gy) (AObj (PyFloat (scalar inv_N)))
              (PyFloat (scalar gv)) (PyFloat (scalar inv_N))
              (PyFloat (scalar (bk_mul gv inv_N))) Hgy eq_refl)
    as (g1 & h1 & R1 & E1 & D1); [reflexivity|].
  destruct (softmax_run h1 (AVar x) a sm 1 (var_data_extends _ _ _ _ E1 Hx) Hfwd)
    as (y & h2 & R2 & E2 & D2).
  assert (E12 : extends h h2) by eauto using extends_trans.
  destruct (sub_run h2 (AVar y) (AObj (PyInt oh)) (PyFloat sm) (PyInt oh)
              (PyFloat D) D2 eq_refl) as (d & h3 & R3 & E3 & D3).
  { unfold arith_forward, as_float, obind.
    rewrite (np_binop_same_shape bk_sub sm (np_map bk_of_Z oh))
      by (simpl; congruence).
    reflexivity. }
  destruct (mul_run h3 (AVar d) (AVar g1) (PyFloat D)
              (PyFloat (scalar (bk_mul gv inv_N))) (PyFloat G) D3)
    as (gx & h4 & R4 & _ & D4).
  { eapply var_data_extends; [|exact D1]. eauto using extends_trans. }
  { unfold arith_forward, as_float, obind. now rewrite np_binop_scalar. }
  exists sm, gx, h4, G. split; [exact Hfwd|]. split; [|split; [exact D4|split]].
  - unfold SoftmaxCrossEntropy_backward. rewrite Hin.
    run (arg_shape_run h (AVar x) (PyFloat a) [N; C] Hx (f_equal Some Hs)).
    cbv iota.
    replace (N =? 0) with false by (symmetry; apply Nat.eqb_neq; lia).
    fold inv_N. run R1. run R2.
    run (read_data_run h2 t (PyInt ta) (var_data_extends _ _ _ _ E12 Ht)).
    cbv iota. unfold lift at 1. unfold bind at 1. rewrite Hoh.
    run R3. now run R4.
  - exact Hsms.
  - intros i c Hi Hc.
    assert (Hb : in_bounds (shape sm) [i; c])
      by (rewrite Hsms; repeat constructor; assumption).
    unfold G. rewrite get_tabulate by exact Hb.
    unfold D. rewrite get_tabulate by exact Hb.
    rewrite get_np_map by (assumption || (rewrite Hohs, <- Hsms; exact Hb)).
    change (bk_of_Z (get oh [i; c])) with (IZR (get oh [i; c])).
    rewrite (Hohget i c Hi Hc). unfold inv_N. simpl. unfold Rdiv. ring.
Qed.

Lemma Rmax_zeros : Rmax (Rmax 0 0) 0 = 0%R.
Proof. unfold Rmax. repeat destruct (Rle_dec _ _); lra. Qed.

(** C2.  For logits [x] of shape (N, C) with N, C > 0, a vector [t] of N
    labels that index the C classes, and the gradient [gy] of the scalar
    loss, the backward of the fused softmax cross entropy returns one node,
    the gradient for [x]: an array of shape (N, C) whose element at [i, c]
    is [(softmax(x)[i, c] - one_hot(t[i])[c]) * gy / N], with softmax taken
    along axis 1.  In particular, with [x = [[0, 0, 0]]] and [t = [0]] the
    forward loss is [log 3], and [loss.backward()] leaves in [x.grad] the
    array [[1/3 - 1, 1/3, 1/3]]: softmax minus one-hot, times [1 / N] with
    [N = 1].  (Exact real arithmetic.) *)
Theorem SoftmaxCrossEntropy_backward_gradient :
  (forall (h : Heap R) (f : Function) (gy x t : nat) (a : ndarray R)
          (ta : ndarray Z) (gv : R) (N C : nat) (labels : list nat),
      f_inputs f = [x; t] ->
      var_data h x = Some (PyFloat a) -> wf a -> shape a = [N; C] ->
      0 < N -> 0 < C ->
      var_data h t = Some (PyInt ta) -> shape ta = [N] -> wf ta ->
      omapM (norm_index C) (data ta) = Some labels ->
      var_data h gy = Some (PyFloat (scalar gv)) ->
      exists sm gx h' G,
        Softmax_forward 1 a = Some sm /\
        SoftmaxCrossEntropy_backward f gy h = Some ([Some gx], h') /\
        var_data h' gx = Some (PyFloat G) /\ shape G = [N; C] /\
        forall i c, i < N -> c < C ->
                    get G [i; c]
                    = ((get sm [i; c] - one_hot (nth i labels 0%nat) c)
                       * (gv / IZR (Z.of_nat N)))%R) /\
  (exists loss, SoftmaxCrossEntropy_forward zeros_1x3 label_0
                = Some (scalar loss) /\ loss = ln 3) /\
  (exists h' loss g0 g1 g2,
      cross_entropy_then_backward = Some (tt, h') /\
      var_data h' 2 = Some (PyFloat (scalar loss)) /\ loss = ln 3 /\
      grad_data h' 0 = Some (PyFloat (mk_ndarray [1; 3] [g0; g1; g2])) /\
      g0 = ((1 / 3 - 1) * (1 / 1))%R /\
      g1 = ((1 / 3 - 0) * (1 / 1))%R /\
      g2 = ((1 / 3 - 0) * (1 / 1))%R).
Proof.
  split; [exact SoftmaxCrossEntropy_backward_run|]. split.
  - cbv -[Rmax Rplus Rminus Rmult Rdiv Ropp Rtrigo_def.exp ln IZR].
    eexists. split; [reflexivity|].
    rewrite Rmax_zeros. replace (0 - 0)%R with 0%R by lra. rewrite exp_0.
    replace (0 + 1 + 1 + 1)%R with 3%R by lra. lra.
  - cbv -[Rmax Rplus Rminus Rmult Rdiv Ropp Rtrigo_def.exp ln IZR].
    do 5 eexists. split; [reflexivity|]. split; [reflexivity|].
    rewrite !Rmax_zeros. replace (0 - 0)%R with 0%R by lra. rewrite !exp_0.
    replace (0 + 1 + 1 + 1)%R with 3%R by lra.
    split; [lra|]. split; [reflexivity|]. repeat split; lra.
Qed.

Lemma SoftmaxCrossEntropy_backward_gradient_witness :
  exists sm gx h' G,
    Softmax_forward 1 matrix_2x3 = Some sm /\
    SoftmaxCrossEntropy_backward
      (mk_Function SoftmaxCrossEntropy [0; 1] [2] 0) 3 cross_entropy_store
    = Some ([Some gx], h') /\
    var_data h' gx = Some (PyFloat G) /\ shape G = [2; 3] /\
    forall i c, i < 2 -> c < 3 ->
                get G [i; c]
                = ((get sm [i; c] - one_hot (nth i classes_2_0 0%nat) c)
                   * (1 / IZR (Z.of_nat 2)))%R.
Proof.
  apply (proj1 SoftmaxCrossEntropy_backward_gradient
           cross_entropy_store
           (mk_Function SoftmaxCrossEntropy [0; 1] [2] 0) 3 0 1
           matrix_2x3 labels_2_0 1%R 2 3 classes_2_0);
    try reflexivity; lia.
Defined.

(* ================================================================== *)
(** * Further properties of [dezero/functions.py]                      *)
(* ================================================================== *)

(* ------------------------------------------------------------------ *)
(** ** Exp                                                             *)
(* ------------------------------------------------------------------ *)

Section ExpLemmas.
Context {A : Type} `{Backend A}.

Lemma exp_run (h : Heap A) (x : Arg A) (a : ndarray A) :
  arg_data h x (PyFloat a) ->
  exists y h',
    exp x h = Some (y, h') /\ extends h h' /\
    var_data h' y = Some (PyFloat (Exp_forward a)).
Proof.
  intros Hx.
  apply (Function_call_run h Exp Exp [x] [PyFloat a]
                           (PyFloat (Exp_forward a))).
  - repeat constructor. exact Hx.
  - reflexivity.
Qed.

(** X1.  [Exp.backward] does not go back to the input: it reads the output [y]
    that the forward pass left in the graph and returns the node [y * gy].
    For the output of [exp(x)] the gradient at [i] is [exp(x[i]) * gy[i]],
    and [y = exp(x); y.backward()] on a scalar leaf leaves [exp(x) * 1] in
    [x.grad]. *)
Theorem Exp_backward_reuses_output
        (h : Heap A) (f : Function) (gy y : nat) (a g : ndarray A) (c : A) :
  f_outputs f = [y] ->
  var_data h y = Some (PyFloat (Exp_forward a)) ->
  var_data h gy = Some (PyFloat g) ->
  wf a -> shape g = shape a ->
  (exists gx h' G,
      Exp_backward f gy h = Some ([Some gx], h') /\
      var_data h' gx = Some (PyFloat G) /\
      shape G = shape a /\
      forall i, in_bounds (shape a) i ->
                get G i = bk_mul (get (Exp_forward a) i) (get g i) /\
                get G i = bk_mul (bk_exp (get a i)) (get g i)) /\
  (exists h',
      exp_then_backward c = Some (tt, h') /\
      var_data h' 1 = Some (PyFloat (scalar (bk_exp c))) /\
      grad_data h' 0 = Some (PyFloat (scalar (bk_mul (bk_exp c) bk_one)))).
Proof.
  intros Hout Hy Hgy Hwf Hs. split.
  - destruct (mul_run h (AVar y) (AVar gy) (PyFloat (Exp_forward a)) (PyFloat g)
                (PyFloat (zip_with bk_mul (Exp_forward a) g)) Hy Hgy)
      as (gx & h' & Hrun & _ & Hd).
    { unfold arith_forward, as_float, obind.
      now rewrite (np_binop_same_shape bk_mul (Exp_forward a) g Hs). }
    exists gx, h', (zip_with bk_mul (Exp_forward a) g).
    split; [|split; [exact Hd|split; [reflexivity|]]].
    + unfold Exp_backward, output0. rewrite Hout. cbv beta iota.
      unfold ret at 1. rewrite (bind_run _ _ h h y eq_refl). now run Hrun.
    + intros i Hi. unfold zip_with.
      rewrite get_tabulate by exact Hi. split; [reflexivity|].
      unfold Exp_forward. now rewrite get_np_map.
  - eexists. vm_compute. repeat split.
Qed.
End ExpLemmas.

Lemma Exp_backward_reuses_output_witness :
  (exists gx h' G,
      Exp_backward (mk_Function Exp [0] [1] 0) 2 exp_store
      = Some ([Some gx], h') /\
      var_data h' gx = Some (PyFloat G) /\
      shape G = shape exp_x /\
      forall i, in_bounds (shape exp_x) i ->
                get G i = (get (Exp_forward exp_x) i * get exp_gy i)%R /\
                get G i = (Rtrigo_def.exp (get exp_x i) * get exp_gy i)%R) /\
  (exists h',
      exp_then_backward 2%R = Some (tt, h') /\
      var_data h' 1 = Some (PyFloat (scalar (Rtrigo_def.exp 2))) /\
      grad_data h' 0 = Some (PyFloat (scalar (Rtrigo_def.exp 2 * 1)%R))).
Proof.
  exact (@Exp_backward_reuses_output R _ exp_store
           (mk_Function Exp [0] [1] 0) 2 1 exp_x exp_gy 2%R
           eq_refl eq_refl eq_refl eq_refl eq_refl).
Defined.

(** X2.  The composition [z = log(exp(x))] on a scalar leaf: the value of [z]
    is [x], and [z.backward()] runs [Log.backward] and then [Exp.backward]
    (the function of the higher generation first), which leaves
    [exp(x) * (1 / exp(x))], that is 1, in [x.grad].  (Exact real
    arithmetic.) *)
Theorem log_exp_backward_is_one (a : R) :
  exists h' z g,
    log_exp_then_backward a = Some (tt, h') /\
    var_data h' 2 = Some (PyFloat (scalar z)) /\ z = a /\
    grad_data h' 0 = Some (PyFloat (scalar g)) /\
    g = (Rtrigo_def.exp a * (1 / Rtrigo_def.exp a))%R /\ g = 1%R /\
    grad_data h' 1 = Some (PyFloat (scalar (1 / Rtrigo_def.exp a)%R)) /\
    map f_op (h_funcs h') = [Exp; Log].
Proof.
  do 3 eexists.
  cbv -[Rmax Rplus Rminus Rmult Rdiv Ropp Rtrigo_def.exp ln IZR].
  repeat split.
  - apply ln_exp.
  - field. apply Rgt_not_eq, exp_pos.
Qed.

(* ------------------------------------------------------------------ *)
(** ** Reshape                                                         *)
(* ------------------------------------------------------------------ *)

Section ReshapeLemmas.
Context {A : Type} `{Backend A}.

Lemma resolve_shape_size (n : nat) (req : list Z) (s : Shape) :
  resolve_shape n req = Some s -> size s = n /\ length s = length req.
Proof.
  unfold resolve_shape.
  set (known := filter (fun z => (0 <=? z)%Z) req).
  set (unknown := filter (fun z => (z <? 0)%Z) req).
  set (p := size (map Z.to_nat known)).
  assert (Hnone : unknown = [] -> size (map Z.to_nat req) = p).
  { unfold unknown, p, known. clear. induction req as [|z req IH]; simpl;
      [reflexivity|].
    destruct (z <? 0)%Z eqn:Ez; [discriminate|]. intros Hr.
    replace (0 <=? z)%Z with true by (symmetry; apply Z.leb_le, Z.ltb_ge, Ez).
    simpl. now rewrite IH. }
  assert (Hone : forall q, unknown = [(-1)%Z] ->
                           size (map (fun z => if (z <? 0)%Z then q
                                               else Z.to_nat z) req)
                           = q * p).
  { intros q. unfold unknown, p, known. clear.
    induction req as [|z req IH]; simpl; [discriminate|].
    destruct (z <? 0)%Z eqn:Ez.
    - intros [= Hz Hr].
      replace (0 <=? z)%Z with false by (symmetry; apply Z.leb_gt, Z.ltb_lt, Ez).
      f_equal.
      assert (Hsame : map (fun z0 => if (z0 <? 0)%Z then q else Z.to_nat z0) req
                      = map Z.to_nat req).
      { apply map_ext_in. intros z' Hin. destruct (z' <? 0)%Z eqn:Ez'; auto.
        exfalso.
        assert (Hf : In z' (filter (fun z0 => (z0 <? 0)%Z) req))
          by (apply filter_In; auto).
        rewrite Hr in Hf. exact Hf. }
      rewrite Hsame.
      clear - Hr. induction req as [|z' req IH]; simpl in *; [reflexivity|].
      destruct (z' <? 0)%Z eqn:Ez'; [discriminate|].
      replace (0 <=? z')%Z with true
        by (symmetry; apply Z.leb_le, Z.ltb_ge, Ez').
      simpl. now rewrite IH.
    - intros Hr.
      replace (0 <=? z)%Z with true by (symmetry; apply Z.leb_le, Z.ltb_ge, Ez).
      simpl. rewrite (IH Hr). lia. }
  destruct unknown as [|u [|u' us]] eqn:Eu.
  - destruct (p =? n) eqn:Ep; [|discriminate]. intros [= <-].
    apply Nat.eqb_eq in Ep. rewrite length_map. split; [|reflexivity].
    rewrite Hnone; auto.
  - destruct u as [|u|u]; try discriminate.
    destruct u as [u|u|]; try discriminate.
    destruct (negb (p =? 0) && (n mod p =? 0)) eqn:Eg; [|discriminate].
    intros [= <-]. rewrite length_map. split; [|reflexivity].
    apply andb_prop in Eg as [Ep Em].
    apply negb_true_iff, Nat.eqb_neq in Ep. apply Nat.eqb_eq in Em.
    rewrite (Hone (n / p) eq_refl).
    rewrite (Nat.div_mod n p Ep) at 2. rewrite Em. lia.
  - destruct u as [|u|u]; try discriminate;
      destruct u as [u|u|]; discriminate.
Qed.

(** [reshape] with any request that numpy resolves keeps the elements in
    order. *)
Lemma reshape_req_run (h : Heap A) (x : Arg A) (g : ndarray A)
      (req : list Z) (s : Shape) :
  arg_data h x (PyFloat g) ->
  resolve_shape (size (shape g)) req = Some s ->
  exists r h',
    reshape x req h = Some (r, h') /\ extends h h' /\
    var_data h' r = Some (PyFloat (mk_ndarray s (data g))).
Proof.
  intros Hd Hres. unfold reshape.
  run (arg_shape_run h x (PyFloat g) (shape g) Hd eq_refl).
  unfold shape_eqb.
  destruct (list_eq_dec Z.eq_dec (shape_req (shape g)) req) as [E|_].
  - rewrite <- E, (resolve_shape_req (size (shape g)) (shape g) eq_refl) in Hres.
    injection Hres as <-. destruct g as [sg dg]. simpl.
    now apply as_variable_run.
  - apply Function_call_run with (ds := [PyFloat g])
                                 (self := Reshape req (Some (shape g))).
    + repeat constructor. exact Hd.
    + simpl. unfold Reshape_forward, np_reshape. simpl. now rewrite Hres.
Qed.
End ReshapeLemmas.

Section Raises.
Context {A : Type} `{Backend A}.

(** A call whose [forward] raises, raises. *)
Lemma Function_call_raises (h : Heap A) (op : Op) (args : list (Arg A))
      (ds : list (pyobj A)) :
  Forall2 (arg_data h) args ds -> forward op ds = None ->
  Function_call op args h = None.
Proof.
  intros Hargs Hfwd.
  destruct (mapM_as_variable_spec _ _ _ Hargs)
    as (ids & h1 & Hrun1 & Hext1 & Hf1 & Hds).
  unfold Function_call.
  run Hrun1. run (mapM_read_data_run _ _ _ Hds).
  unfold lift, bind at 1. now rewrite Hfwd.
Qed.

Lemma resolve_shape_wrong_size (n : nat) (s : Shape) :
  size s <> n -> resolve_shape n (shape_req s) = None.
Proof.
  intros Hn. unfold resolve_shape, shape_req.
  assert (Hk : filter (fun z => (0 <=? z)%Z) (map Z.of_nat s) = map Z.of_nat s).
  { clear. induction s as [|d s IH]; simpl; [reflexivity|].
    replace (0 <=? Z.of_nat d)%Z with true by (symmetry; apply Z.leb_le; lia).
    now rewrite IH. }
  assert (Hu : filter (fun z => (z <? 0)%Z) (map Z.of_nat s) = []).
  { clear. induction s as [|d s IH]; simpl; [reflexivity|].
    replace (Z.of_nat d <? 0)%Z with false by (symmetry; apply Z.ltb_ge; lia).
    exact IH. }
  assert (Hid : map Z.to_nat (map Z.of_nat s) = s).
  { clear. rewrite map_map. rewrite <- (map_id s) at 2.
    apply map_ext. intros; apply Nat2Z.id. }
  rewrite Hu, Hk, Hid.
  now apply Nat.eqb_neq in Hn as ->.
Qed.

(** X3.  Reshape round trip.  For every array [x] and every request that numpy
    resolves to a shape [s] (one extent may be given as -1), [reshape]
    returns a node with the elements of [x] in the same order under the
    shape [s]; reshaping that node to the shape of [x] gives back a node
    holding [x], and so does [Reshape.backward] on the forward result
    taken as gradient; for any gradient [g] of shape [s] the backward
    returns the elements of [g] under the shape of [x]. *)
Theorem Reshape_round_trip
        (h : Heap A) (x gy : nat) (a g : ndarray A) (req : list Z) (s : Shape)
        (f : Function) :
  var_data h x = Some (PyFloat a) ->
  resolve_shape (size (shape a)) req = Some s ->
  f_op f = Reshape req (Some (shape a)) ->
  var_data h gy = Some (PyFloat g) -> shape g = s ->
  exists y h1,
    reshape (AVar x) req h = Some (y, h1) /\
    var_data h1 y = Some (PyFloat (mk_ndarray s (data a))) /\
    size s = size (shape a) /\
    (exists r h2,
        reshape (AVar y) (shape_req (shape a)) h1 = Some (r, h2) /\
        var_data h2 r = Some (PyFloat a)) /\
    (exists gx h2,
        Reshape_backward f y h1 = Some ([Some gx], h2) /\
        var_data h2 gx = Some (PyFloat a)) /\
    (exists gx h2,
        Reshape_backward f gy h1 = Some ([Some gx], h2) /\
        var_data h2 gx = Some (PyFloat (mk_ndarray (shape a) (data g)))).
Proof.
  intros Hx Hres Hop Hgy Hs.
  destruct (reshape_req_run h (AVar x) a req s Hx Hres)
    as (y & h1 & Hrun & Hext & Hy).
  destruct (resolve_shape_size _ _ _ Hres) as [Hsize _].
  assert (Heta : mk_ndarray (shape a) (data a) = a) by (now destruct a).
  assert (Hback : forall q v, var_data h1 q = Some (PyFloat v) -> shape v = s ->
            exists gx h2,
              Reshape_backward f q h1 = Some ([Some gx], h2) /\
              var_data h2 gx = Some (PyFloat (mk_ndarray (shape a) (data v)))).
  { intros q v Hq Hv.
    destruct (reshape_run h1 (AVar q) v (shape a) Hq)
      as (gx & h2 & Hrun2 & _ & Hgx); [congruence|].
    exists gx, h2. split; [|exact Hgx].
    unfold Reshape_backward. rewrite Hop. now run Hrun2. }
  exists y, h1. split; [exact Hrun|]. split; [exact Hy|].
  split; [exact Hsize|]. split; [|split].
  - destruct (reshape_run h1 (AVar y) (mk_ndarray s (data a)) (shape a) Hy)
      as (r & h2 & Hrun2 & _ & Hr); [simpl; congruence|].
    exists r, h2. split; [exact Hrun2|]. simpl in Hr. now rewrite Heta in Hr.
  - destruct (Hback y _ Hy eq_refl) as (gx & h2 & Hb1 & Hb2).
    exists gx, h2. split; [exact Hb1|]. simpl in Hb2. now rewrite Heta in Hb2.
  - exact (Hback gy g (var_data_extends _ _ _ _ Hext Hgy) Hs).
Qed.

(** X4.  [reshape] to non-negative extents whose product is not the number of
    elements of the input raises: nothing is returned and no node is
    made. *)
Theorem reshape_rejects_wrong_size
        (h : Heap A) (x : Arg A) (d : pyobj A) (sx s' : Shape) :
  arg_data h x d -> obj_shape d = Some sx -> size s' <> size sx ->
  reshape x (shape_req s') h = None.
Proof.
  intros Hd Hsx Hsize. unfold reshape.
  run (arg_shape_run h x d sx Hd Hsx).
  unfold shape_eqb.
  destruct (list_eq_dec Z.eq_dec (shape_req sx) (shape_req s')) as [E|_].
  - apply shape_req_inj in E. congruence.
  - apply Function_call_raises with (ds := [d]).
    + repeat constructor. exact Hd.
    + simpl. unfold Reshape_forward. rewrite Hsx. simpl.
      destruct d as [|a|a|a]; simpl in *; try discriminate;
        injection Hsx as <-; unfold np_reshape;
        now rewrite (resolve_shape_wrong_size _ _ Hsize).
Qed.
End Raises.

Lemma Reshape_round_trip_witness :
  exists y h1,
    reshape (AVar 0) three_rows transpose_store = Some (y, h1) /\
    var_data h1 y = Some (PyFloat (mk_ndarray [3; 2] (data matrix_2x3))) /\
    size [3; 2] = size (shape matrix_2x3) /\
    (exists r h2,
        reshape (AVar y) (shape_req (shape matrix_2x3)) h1 = Some (r, h2) /\
        var_data h2 r = Some (PyFloat matrix_2x3)) /\
    (exists gx h2,
        Reshape_backward
          (mk_Function (Reshape three_rows (Some (shape matrix_2x3))) [0] [2] 0)
          y h1
        = Some ([Some gx], h2) /\
        var_data h2 gx = Some (PyFloat matrix_2x3)) /\
    (exists gx h2,
        Reshape_backward
          (mk_Function (Reshape three_rows (Some (shape matrix_2x3))) [0] [2] 0)
          1 h1
        = Some ([Some gx], h2) /\
        var_data h2 gx
        = Some (PyFloat (mk_ndarray (shape matrix_2x3)
                                    [1; 4; 2; 5; 3; 6]%R))).
Proof.
  exact (@Reshape_round_trip R _ transpose_store 0 1 matrix_2x3
           (mk_ndarray [3; 2] [1; 4; 2; 5; 3; 6]%R) three_rows [3; 2]
           (mk_Function (Reshape three_rows (Some (shape matrix_2x3))) [0] [2] 0)
           eq_refl eq_refl eq_refl eq_refl eq_refl).
Defined.

Lemma reshape_rejects_wrong_size_witness :
  reshape (AVar 0) (shape_req [4; 2]) matrix_store = None.
Proof.
  apply (@reshape_rejects_wrong_size R _ matrix_store (AVar 0)
           (PyFloat matrix_2x3) [2; 3] [4; 2]); [reflexivity|reflexivity|].
  simpl. lia.
Defined.

(* ------------------------------------------------------------------ *)
(** ** SumTo and BroadcastTo                                           *)
(* ------------------------------------------------------------------ *)

Lemma idx_eqb_true (i j : list nat) : idx_eqb i j = true <-> i = j.
Proof.
  unfold idx_eqb. destruct (list_eq_dec Nat.eq_dec i j); split; auto;
    discriminate.
Qed.

Lemma idx_eqb_cons (a b : nat) (i j : list nat) :
  idx_eqb (a :: i) (b :: j) = (a =? b) && idx_eqb i j.
Proof.
  apply eq_true_iff_eq. rewrite andb_true_iff, Nat.eqb_eq, !idx_eqb_true.
  split; [intros [= -> ->]; auto|intros [-> ->]; reflexivity].
Qed.

Lemma idx_eqb_app (p i j : list nat) : idx_eqb (p ++ i) (p ++ j) = idx_eqb i j.
Proof.
  apply eq_true_iff_eq. rewrite !idx_eqb_true.
  split; [apply app_inv_head|now intros ->].
Qed.

Lemma filter_flat_map' {X Y} (P : Y -> bool) (f : X -> list Y) (l : list X) :
  filter P (flat_map f l) = flat_map (fun x => filter P (f x)) l.
Proof.
  induction l as [|x l IH]; simpl; [reflexivity|].
  now rewrite filter_app, IH.
Qed.

Lemma filter_map' {X Y} (P : Y -> bool) (f : X -> Y) (l : list X) :
  filter P (map f l) = map f (filter (fun x => P (f x)) l).
Proof.
  induction l as [|x l IH]; simpl; [reflexivity|].
  destruct (P (f x)); simpl; now rewrite IH.
Qed.

Lemma flat_map_single {Y} (f : nat -> list Y) (c a d : nat) :
  a <= c < a + d ->
  flat_map (fun i => if i =? c then f i else []) (seq a d) = f c.
Proof.
  revert a. induction d as [|d IH]; intros a Hc; [lia|]. simpl.
  destruct (a =? c) eqn:E.
  - apply Nat.eqb_eq in E. subst a.
    assert (Hnil : forall b n, c < b ->
              flat_map (fun i => if i =? c then f i else []) (seq b n) = []).
    { clear. intros b n. revert b. induction n as [|n IH]; intros b Hb;
        [reflexivity|]. simpl.
      replace (b =? c) with false by (symmetry; apply Nat.eqb_neq; lia).
      apply IH. lia. }
    rewrite Hnil by lia. apply app_nil_r.
  - apply Nat.eqb_neq in E. simpl. apply IH. lia.
Qed.

(** The lane of a cell lists the elements that collapse into it, in the
    order of the array. *)
Lemma lane_filter (mask : list bool) (sg : Shape) (c : list nat) :
  length mask = length sg -> in_bounds (kept_shape mask sg) c ->
  map (add_idx c) (indices (lane_shape mask sg))
  = filter (fun j => idx_eqb (collapse mask true j) c) (indices sg).
Proof.
  revert sg c. induction mask as [|m mask IH]; intros [|d sg] c Hlen Hc;
    try discriminate.
  - inversion Hc. reflexivity.
  - simpl in Hc. inversion Hc as [|c0 d0 c' k' Hc0 Hc']; subst.
    injection Hlen as Hlen. specialize (IH sg c' Hlen Hc').
    change (indices (d :: sg))
      with (flat_map (fun i => map (cons i) (indices sg)) (seq 0 d)).
    rewrite filter_flat_map'.
    assert (Hrow : forall i,
               filter (fun j => idx_eqb (collapse (m :: mask) true j) (c0 :: c'))
                      (map (cons i) (indices sg))
               = if (if m then 0 else i) =? c0
                 then map (cons i) (map (add_idx c') (indices (lane_shape mask sg)))
                 else []).
    { intros i. rewrite filter_map'.
      assert (E : forall j, idx_eqb (collapse (m :: mask) true (i :: j)) (c0 :: c')
                            = ((if m then 0 else i) =? c0)
                              && idx_eqb (collapse mask true j) c').
      { intros j. unfold collapse. simpl. rewrite idx_eqb_cons.
        destruct m; reflexivity. }
      rewrite (filter_ext _ _ E).
      destruct ((if m then 0 else i) =? c0); cbn [andb].
      - now rewrite <- IH.
      - clear. induction (indices sg); simpl; auto. }
    rewrite (flat_map_ext _ _ Hrow).
    destruct m; simpl in Hc0 |- *.
    + assert (c0 = 0) by lia. subst c0. simpl.
      rewrite flat_map_concat_map, concat_map, map_map.
      rewrite <- flat_map_concat_map.
      apply flat_map_ext. intros i. rewrite !map_map.
      apply map_ext. intros r. reflexivity.
    + rewrite (flat_map_single
                 (fun i => map (cons i)
                             (map (add_idx c') (indices (lane_shape mask sg))))
                 c0 0 d) by lia.
      rewrite app_nil_r, !map_map. apply map_ext. intros r. unfold add_idx.
      simpl. now rewrite Nat.add_0_r.
Qed.

(** A shape broadcasts to another when it matches a suffix of it, up to
    extents of one. *)
Lemma broadcastable_rev_split (ra r : list nat) :
  broadcastable_rev ra r = true ->
  exists rt rl, r = rt ++ rl /\ Forall2 (fun a d => a = d \/ a = 1) ra rt.
Proof.
  revert r. induction ra as [|a ra IH]; intros r Hb.
  - exists [], r. split; [reflexivity|constructor].
  - destruct r as [|d r]; [discriminate|]. simpl in Hb.
    apply andb_prop in Hb as [Hd Hb].
    destruct (IH r Hb) as (rt & rl & -> & HF).
    exists (d :: rt), rl. split; [reflexivity|]. constructor; [|exact HF].
    apply orb_prop in Hd as [Hd|Hd]; apply Nat.eqb_eq in Hd; auto.
Qed.

Lemma broadcastable_split (xs s : Shape) :
  broadcastable xs s = true ->
  exists sl st, s = sl ++ st /\ Forall2 (fun a d => a = d \/ a = 1) xs st.
Proof.
  intros Hb. destruct (broadcastable_rev_split _ _ Hb) as (rt & rl & Hr & HF).
  exists (rev rl), (rev rt). split.
  - rewrite <- rev_app_distr, <- Hr. now rewrite rev_involutive.
  - rewrite <- (rev_involutive xs). now apply Forall2_rev'.
Qed.

Lemma existsb_shifted_false (lead k a : nat) (xs : list nat) :
  k < a + lead ->
  existsb (Nat.eqb k)
          (map (fun '(i, _) => i + lead)
               (filter (fun '(_, sx) => sx =? 1)
                       (combine (seq a (length xs)) xs))) = false.
Proof.
  revert a. induction xs as [|x xs IH]; intros a Hk; [reflexivity|].
  simpl. destruct (x =? 1); simpl.
  - replace (k =? a + lead) with false by (symmetry; apply Nat.eqb_neq; lia).
    apply IH. lia.
  - apply IH. lia.
Qed.

Lemma sum_to_mask_tail (lead a : nat) (xs : list nat) :
  map (fun k => existsb (Nat.eqb k)
                  (map (fun '(i, _) => i + lead)
                       (filter (fun '(_, sx) => sx =? 1)
                               (combine (seq a (length xs)) xs))))
      (seq (a + lead) (length xs))
  = map (fun d => d =? 1) xs.
Proof.
  revert a. induction xs as [|x xs IH]; intros a; [reflexivity|].
  simpl. f_equal.
  - destruct (x =? 1); simpl.
    + now rewrite Nat.eqb_refl.
    + apply existsb_shifted_false. lia.
  - rewrite <- (IH (S a)). simpl. apply map_ext_in. intros k Hk.
    apply in_seq in Hk. destruct (x =? 1); simpl; [|reflexivity].
    replace (k =? a + lead) with false by (symmetry; apply Nat.eqb_neq; lia).
    reflexivity.
Qed.

Lemma shifted_axes_props (lead a : nat) (xs : list nat) :
  let l := map (fun '(i, _) => i + lead)
               (filter (fun '(_, sx) => sx =? 1)
                       (combine (seq a (length xs)) xs)) in
  NoDup l /\ Forall (fun k => a + lead <= k < a + lead + length xs) l.
Proof.
  revert a. induction xs as [|x xs IH]; intros a; simpl.
  - split; constructor.
  - destruct (IH (S a)) as [Hnd Hall].
    assert (Hall' : Forall (fun k => a + lead <= k < a + lead + S (length xs))
                      (map (fun '(i, _) => i + lead)
                         (filter (fun '(_, sx) => sx =? 1)
                            (combine (seq (S a) (length xs)) xs)))).
    { eapply Forall_impl; [|exact Hall]. simpl. intros k Hk. lia. }
    destruct (x =? 1); simpl; [|now split].
    split.
    + constructor; [|exact Hnd]. intros Hin.
      rewrite Forall_forall in Hall. specialize (Hall _ Hin). simpl in Hall.
      lia.
    + constructor; [lia|exact Hall'].
Qed.

Lemma map_all_true {X} (f : X -> bool) (l : list X) :
  (forall x, In x l -> f x = true) -> map f l = repeat true (length l).
Proof.
  induction l as [|x l IH]; intros Hf; simpl; [reflexivity|].
  rewrite Hf by (now left). f_equal. apply IH. intros; apply Hf. now right.
Qed.

(** The axes that [utils.sum_to] reduces over, and their mask. *)
Lemma sum_to_mask (lead : nat) (xs : list nat) :
  let axes := seq 0 lead
              ++ map (fun '(i, _) => i + lead)
                     (filter (fun '(_, sx) => sx =? 1)
                             (combine (seq 0 (length xs)) xs)) in
  reduce_mask (lead + length xs) axes
  = repeat true lead ++ map (fun d => d =? 1) xs /\
  NoDup axes /\ Forall (fun k => k < lead + length xs) axes.
Proof.
  intros axes. destruct (shifted_axes_props lead 0 xs) as [Hnd Hall].
  simpl in Hnd, Hall. split; [|split].
  - unfold reduce_mask. rewrite seq_app, map_app. f_equal.
    + rewrite map_all_true; [now rewrite length_seq|].
      intros k Hk. apply existsb_exists. exists k. split.
      * apply in_or_app. now left.
      * apply Nat.eqb_refl.
    + rewrite <- (sum_to_mask_tail lead 0 xs). simpl.
      apply map_ext_in. intros k Hk. apply in_seq in Hk.
      unfold axes. rewrite existsb_app.
      replace (existsb (Nat.eqb k) (seq 0 lead)) with false; [reflexivity|].
      symmetry. apply not_true_is_false. intros Hex.
      apply existsb_exists in Hex as (k' & Hin & Hk').
      apply Nat.eqb_eq in Hk'. subst k'. apply in_seq in Hin. lia.
  - apply NoDup_app; [apply seq_NoDup|exact Hnd|].
    intros k Hk Hin. apply in_seq in Hk.
    rewrite Forall_forall in Hall. specialize (Hall _ Hin). simpl in Hall. lia.
  - apply Forall_app. split.
    + apply Forall_forall. intros k Hk. apply in_seq in Hk. lia.
    + eapply Forall_impl; [|exact Hall]. simpl. intros k Hk. lia.
Qed.

Lemma kept_shape_sum_to (sl st xs : Shape) :
  Forall2 (fun a d => a = d \/ a = 1) xs st ->
  kept_shape (repeat true (length sl) ++ map (fun d => d =? 1) xs) (sl ++ st)
  = repeat 1 (length sl) ++ xs.
Proof.
  intros HF. unfold kept_shape. induction sl as [|d sl IH]; simpl.
  - induction HF as [|a d xs st Had HF IH]; simpl; [reflexivity|].
    f_equal; [|exact IH].
    destruct (a =? 1) eqn:E; [apply Nat.eqb_eq in E; congruence|].
    apply Nat.eqb_neq in E. destruct Had; congruence.
  - now rewrite IH.
Qed.

Lemma collapse_sum_to (sl st xs : Shape) (j : list nat) :
  length st = length xs -> in_bounds (sl ++ st) j ->
  collapse (repeat true (length sl) ++ map (fun d => d =? 1) xs) true j
  = repeat 0 (length sl) ++ bproj xs j.
Proof.
  intros Hlen Hj. unfold in_bounds in Hj.
  apply Forall2_app_inv_r in Hj as (jl & jt & Hjl & Hjt & ->).
  pose proof (Forall2_length Hjl) as Ll. pose proof (Forall2_length Hjt) as Lt.
  unfold bproj. rewrite length_app.
  replace (length jl + length jt - length xs) with (length jl) by lia.
  rewrite skipn_app, skipn_all, Nat.sub_diag. simpl.
  unfold collapse. rewrite <- Ll. clear Hjl Ll.
  induction jl as [|c jl IH]; simpl.
  - clear - Lt Hlen. assert (L : length jt = length xs) by lia. clear Lt Hlen.
    revert jt L. induction xs as [|a xs IH]; intros [|c jt] L;
      try discriminate; simpl; [reflexivity|].
    f_equal. apply IH. now injection L.
  - now rewrite IH.
Qed.

Lemma ravel_lead_ones (lead : nat) (xs i : list nat) :
  ravel (repeat 1 lead ++ xs) (repeat 0 lead ++ i) = ravel xs i.
Proof. induction lead as [|lead IH]; simpl; auto. Qed.

Lemma in_bounds_lead_ones (lead : nat) (xs i : list nat) :
  in_bounds xs i -> in_bounds (repeat 1 lead ++ xs) (repeat 0 lead ++ i).
Proof.
  intros Hi. induction lead as [|lead IH]; simpl; [exact Hi|].
  constructor; [lia|exact IH].
Qed.

Section SumToGeneral.
Context {A : Type} `{Backend A}.

(** [sum_to] to a shape that broadcasts to the shape of the array: every
    element of the result is the sum, from zero and in the order of the
    array, of the elements that a broadcast would read from it. *)
Lemma sum_to_value_general (g : ndarray A) (xs : Shape) :
  broadcastable xs (shape g) = true -> xs <> shape g ->
  exists v,
    sum_to_value g xs = Some v /\ shape v = xs /\
    forall i, in_bounds xs i ->
              get v i
              = fold_left bk_add (map (get g) (preimages xs (shape g) i))
                          bk_zero.
Proof.
  intros Hb Hne. unfold sum_to_value.
  destruct (list_eq_dec Nat.eq_dec (shape g) xs) as [E|_]; [congruence|].
  destruct (broadcastable_split xs (shape g) Hb) as (sl & st & Hs & HF).
  pose proof (Forall2_length HF) as Hlen.
  destruct (sum_to_mask (length sl) xs) as (Hmask & Hnd & Hlt).
  unfold utils_sum_to, ndim. rewrite Hs, length_app, <- Hlen.
  replace (length xs <=? length sl + length xs) with true
    by (symmetry; apply Nat.leb_le; lia).
  replace (length sl + length xs - length xs) with (length sl) by lia.
  unfold np_sum, ndim. rewrite Hs, length_app, <- Hlen. simpl axes_of.
  rewrite (omapM_norm_axis_of_nat Hlt). cbn [obind].
  rewrite (NoDup_nodupb Hnd). cbn [obind].
  rewrite Hmask. unfold reduced_shape.
  rewrite (kept_shape_sum_to sl st xs HF).
  unfold np_squeeze_lead. rewrite shape_tabulate.
  rewrite firstn_app, firstn_all2, repeat_length, Nat.sub_diag
    by (rewrite repeat_length; lia).
  simpl firstn. rewrite app_nil_r.
  replace (forallb (Nat.eqb 1) (repeat 1 (length sl))) with true
    by (clear; induction (length sl); simpl; auto).
  rewrite skipn_app, skipn_all2, repeat_length, Nat.sub_diag
    by (rewrite repeat_length; lia).
  simpl. eexists. split; [reflexivity|]. split; [reflexivity|].
  intros i Hi.
  set (mask := repeat true (length sl) ++ map (fun d => d =? 1) xs).
  set (y := tabulate (repeat 1 (length sl) ++ xs)
              (fun j => fold_left bk_add (lane g mask true j) bk_zero)).
  transitivity (get y (repeat 0 (length sl) ++ i)).
  { unfold get. simpl. now rewrite ravel_lead_ones. }
  unfold y. rewrite get_tabulate by (now apply in_bounds_lead_ones).
  f_equal. unfold lane, preimages. rewrite Hs.
  assert (Hml : length mask = length (sl ++ st)).
  { unfold mask. rewrite !length_app, repeat_length, length_map. lia. }
  rewrite <- (map_map (add_idx (repeat 0 (length sl) ++ i)) (get g)).
  rewrite (lane_filter mask (sl ++ st) (repeat 0 (length sl) ++ i) Hml).
  - f_equal. apply filter_ext_in. intros j Hj. apply in_indices in Hj.
    unfold mask. rewrite (collapse_sum_to sl st xs j (eq_sym Hlen) Hj).
    apply idx_eqb_app.
  - unfold mask. rewrite (kept_shape_sum_to sl st xs HF).
    now apply in_bounds_lead_ones.
Qed.
End SumToGeneral.

Section BroadcastSumPair.
Context {A : Type} `{Backend A}.

(** X5.  [SumTo] and [BroadcastTo] are each other's backward.  The backward of
    [sum_to] broadcasts the gradient to the shape of the input: the
    element at [j] is the element of [gy] that a broadcast reads at [j].
    The backward of [broadcast_to] sums the gradient down to the shape of
    the input: when the shapes differ, the element at [i] is the sum,
    from zero and in the order of the array, of the elements of [gy] at
    all positions that the forward broadcast filled from [x[i]]; when they
    are equal it is [gy] itself. *)
Theorem BroadcastTo_SumTo_backward_pair :
  (forall (h : Heap A) (f : Function) (gy : nat) (s xs : Shape)
          (g : ndarray A),
      f_op f = SumTo s (Some xs) ->
      var_data h gy = Some (PyFloat g) -> wf g ->
      broadcastable (shape g) xs = true ->
      exists gx h' G,
        SumTo_backward f gy h = Some ([Some gx], h') /\
        var_data h' gx = Some (PyFloat G) /\ shape G = xs /\
        forall j, in_bounds xs j -> get G j = get g (bproj (shape g) j)) /\
  (forall (h : Heap A) (f : Function) (gy : nat) (s xs : Shape)
          (g : ndarray A),
      f_op f = BroadcastTo s (Some xs) ->
      var_data h gy = Some (PyFloat g) -> shape g = s ->
      broadcastable xs s = true ->
      exists gx h' G,
        BroadcastTo_backward f gy h = Some ([Some gx], h') /\
        var_data h' gx = Some (PyFloat G) /\ shape G = xs /\
        forall i, in_bounds xs i ->
                  get G i
                  = if list_eq_dec Nat.eq_dec xs s then get g i
                    else fold_left bk_add (map (get g) (preimages xs s i))
                                   bk_zero).
Proof.
  split.
  - intros h f gy s xs g Hop Hgy Hwf Hb.
    destruct (broadcast_to_run h (AVar gy) g xs Hgy Hwf Hb)
      as (gx & h' & Hrun & _ & Hd & _).
    eexists gx, h', _. repeat split.
    + unfold SumTo_backward. rewrite Hop. now run Hrun.
    + exact Hd.
    + reflexivity.
    + intros j Hj. now rewrite get_tabulate.
  - intros h f gy s xs g Hop Hgy Hs Hb.
    assert (Hv : exists G, sum_to_value g xs = Some G /\ shape G = xs /\
                forall i, in_bounds xs i ->
                  get G i
                  = if list_eq_dec Nat.eq_dec xs s then get g i
                    else fold_left bk_add (map (get g) (preimages xs s i))
                                   bk_zero).
    { destruct (list_eq_dec Nat.eq_dec xs s) as [E|E].
      - exists g. unfold sum_to_value.
        destruct (list_eq_dec Nat.eq_dec (shape g) xs); [|congruence].
        repeat split. congruence.
      - subst s. now apply sum_to_value_general. }
    destruct Hv as (G & Hv & HsG & HG).
    destruct (sum_to_run h (AVar gy) g G xs Hgy Hv)
      as (gx & h' & Hrun & _ & Hd).
    exists gx, h', G. repeat split; try assumption.
    unfold BroadcastTo_backward. rewrite Hop. now run Hrun.
Qed.

(** X6.  [sum_to] and [broadcast_to] with the shape that the input already has
    return the input node itself and leave the store as it was: no node
    is made and no function is recorded. *)
Theorem sum_to_broadcast_to_shortcut
        (h : Heap A) (x : nat) (d : pyobj A) (s : Shape) :
  var_data h x = Some d -> obj_shape d = Some s ->
  sum_to (AVar x) s h = Some (x, h) /\
  broadcast_to (AVar x) s h = Some (x, h).
Proof.
  intros Hx Hs. unfold sum_to, broadcast_to.
  rewrite !(bind_run _ _ h h s (arg_shape_run h (AVar x) d s Hx Hs)).
  destruct (list_eq_dec Nat.eq_dec s s); [|congruence]. now split.
Qed.
End BroadcastSumPair.

Lemma BroadcastTo_SumTo_backward_pair_witness :
  (exists gx h' G,
      SumTo_backward (mk_Function (SumTo [1; 3] (Some [2; 3])) [1] [0] 0)
                     0 broadcast_store
      = Some ([Some gx], h') /\
      var_data h' gx = Some (PyFloat G) /\ shape G = [2; 3] /\
      forall j, in_bounds [2; 3] j ->
                get G j = get row_123 (bproj (shape row_123) j)) /\
  (exists gx h' G,
      BroadcastTo_backward
        (mk_Function (BroadcastTo [2; 3] (Some [1; 3])) [0] [1] 0)
        1 broadcast_store
      = Some ([Some gx], h') /\
      var_data h' gx = Some (PyFloat G) /\ shape G = [1; 3] /\
      forall i, in_bounds [1; 3] i ->
                get G i
                = if list_eq_dec Nat.eq_dec [1; 3] [2; 3]
                  then get matrix_2x3 i
                  else fold_left Rplus
                         (map (get matrix_2x3) (preimages [1; 3] [2; 3] i))
                         0%R).
Proof.
  split.
  - exact (proj1 (@BroadcastTo_SumTo_backward_pair R _)
                 broadcast_store
                 (mk_Function (SumTo [1; 3] (Some [2; 3])) [1] [0] 0)
                 0 [1; 3] [2; 3] row_123 eq_refl eq_refl eq_refl eq_refl).
  - exact (proj2 (@BroadcastTo_SumTo_backward_pair R _)
                 broadcast_store
                 (mk_Function (BroadcastTo [2; 3] (Some [1; 3])) [0] [1] 0)
                 1 [2; 3] [1; 3] matrix_2x3 eq_refl eq_refl eq_refl eq_refl).
Defined.

Lemma sum_to_broadcast_to_shortcut_witness :
  sum_to (AVar 0) [2; 3] matrix_store = Some (0, matrix_store) /\
  broadcast_to (AVar 0) [2; 3] matrix_store = Some (0, matrix_store).
Proof.
  exact (@sum_to_broadcast_to_shortcut R _ matrix_store 0 (PyFloat matrix_2x3)
                                       [2; 3] eq_refl eq_refl).
Defined.

(* ------------------------------------------------------------------ *)
(** ** GetItemGrad                                                     *)
(* ------------------------------------------------------------------ *)

Lemma NoDup_indices (s : Shape) : NoDup (indices s).
Proof.
  apply (NoDup_nth (indices s) []). rewrite length_indices. intros i j Hi Hj E.
  rewrite <- (ravel_nth_indices s [] Hi), <- (ravel_nth_indices s [] Hj).
  now rewrite E.
Qed.

Lemma filter_singleton {X} (P : X -> bool) (l : list X) (p : X) :
  NoDup l -> In p l -> (forall q, In q l -> (P q = true <-> q = p)) ->
  filter P l = [p].
Proof.
  induction l as [|x l IH]; intros Hnd Hin HP; [contradiction|].
  inversion Hnd as [|x' l' Hx Hnd']; subst. simpl.
  destruct (P x) eqn:E.
  - apply (HP x (or_introl eq_refl)) in E. subst x. f_equal.
    assert (Hnone : forall q, In q l -> P q = false).
    { intros q Hq. apply not_true_is_false. intros Hq'.
      apply (HP q (or_intror Hq)) in Hq'. congruence. }
    clear - Hnone. induction l as [|y l IH]; simpl; [reflexivity|].
    rewrite Hnone by (now left). apply IH. intros; apply Hnone. now right.
  - destruct Hin as [->|Hin].
    + assert (P p = true) by (apply HP; [now left|reflexivity]). congruence.
    + apply IH; auto. intros q Hq. apply HP. now right.
Qed.

Section GetItemGradLemmas.
Context {A : Type} `{Backend A}.

(** X7.  [GetItemGrad.backward] is [get_item] with the same selection: it reads
    the incoming gradient at the positions that the forward pass added
    to.  Reading the scattered gradient back with the selection gives, at
    every position [p], the sum of the gradients of all positions that
    select the same element as [p]; for a selection that names no element
    twice this is [0 + gy[p]]. *)
Theorem GetItemGrad_backward_reads_back :
  (forall (h : Heap A) (f : Function) (ggx : nat) (ix : Index) (s rs : Shape)
          (src : list nat -> list nat) (a : ndarray A),
      f_op f = GetItemGrad ix s ->
      var_data h ggx = Some (PyFloat a) ->
      index_plan (shape a) ix = Some (rs, src) ->
      exists r h',
        GetItemGrad_backward f ggx h = Some ([Some r], h') /\
        var_data h' r
        = Some (PyFloat (tabulate rs (fun p => get a (src p))))) /\
  (forall (ix : Index) (s rs : Shape) (src : list nat -> list nat)
          (g : ndarray A),
      index_wf ix -> index_plan s ix = Some (rs, src) ->
      wf g -> shape g = rs ->
      exists G R,
        GetItemGrad_forward ix s g = Some G /\
        GetItem_forward ix (PyFloat G) = Some (PyFloat R) /\
        shape R = rs /\
        forall p, in_bounds rs p ->
                  get R p = scattered src g (indices rs) (src p) bk_zero /\
                  ((forall p', in_bounds rs p' -> src p' = src p -> p' = p) ->
                   get R p = bk_add bk_zero (get g p))).
Proof.
  split.
  - intros h f ggx ix s rs src a Hop Hggx Hplan.
    destruct (Function_call_run h (GetItem ix) (GetItem ix) [AVar ggx]
                [PyFloat a] (PyFloat (tabulate rs (fun p => get a (src p)))))
      as (r & h' & Hrun & _ & Hd).
    { repeat constructor. exact Hggx. }
    { simpl. unfold GetItem_forward, move, np_getitem. now rewrite Hplan. }
    exists r, h'. split; [|exact Hd].
    unfold GetItemGrad_backward. rewrite Hop. unfold get_item. now run Hrun.
  - intros ix s rs src g Hixwf Hplan Hwf Hs.
    assert (Hb : np_broadcast_to g rs = Some g).
    { unfold np_broadcast_to. rewrite Hs.
      rewrite broadcastable_refl_or_one
        by (clear; induction rs; constructor; auto).
      f_equal. rewrite <- Hs. transitivity (tabulate (shape g) (get g));
        [|now apply tabulate_get].
      apply tabulate_ext. intros j Hj. now rewrite bproj_self. }
    destruct (add_at_fold src g (indices rs) (np_zeros s))
      as (HGs & HGwf & HGget).
    { apply wf_tabulate. }
    { intros p Hp. apply in_indices in Hp.
      exact (index_plan_in_bounds _ _ _ _ Hixwf Hplan p Hp). }
    set (G := fold_left
                (fun acc p => set acc (src p) (bk_add (get acc (src p)) (get g p)))
                (indices rs) (np_zeros s)) in *.
    change (shape (np_zeros s)) with s in HGs, HGget.
    exists G, (tabulate rs (fun p => get G (src p))).
    split; [|split; [|split; [reflexivity|]]].
    + unfold GetItemGrad_forward, np_add_at.
      change (shape (np_zeros s)) with s. rewrite Hplan. simpl.
      now rewrite Hb.
    + unfold GetItem_forward, move, np_getitem. rewrite HGs, Hplan.
      reflexivity.
    + intros p Hp.
      pose proof (index_plan_in_bounds _ _ _ _ Hixwf Hplan p Hp) as Hsp.
      rewrite get_tabulate, HGget, get_np_zeros by assumption.
      split; [reflexivity|]. intros Hinj. unfold scattered.
      rewrite (filter_singleton _ (indices rs) p (NoDup_indices rs)).
      * reflexivity.
      * now apply in_indices.
      * intros q Hq. apply in_indices in Hq. rewrite idx_eqb_true.
        split; [now apply Hinj|now intros ->].
Qed.
End GetItemGradLemmas.

Lemma GetItemGrad_backward_reads_back_witness :
  exists rs src,
    index_plan (shape item_x) item_ix = Some (rs, src) /\
    (exists r h',
        GetItemGrad_backward
          (mk_Function (GetItemGrad item_ix (shape item_x)) [2] [0] 0)
          0 item_store
        = Some ([Some r], h') /\
        var_data h' r
        = Some (PyFloat (tabulate rs (fun p => get item_x (src p))))) /\
    exists G R,
      GetItemGrad_forward item_ix (shape item_x) item_gy = Some G /\
      GetItem_forward item_ix (PyFloat G) = Some (PyFloat R) /\
      shape R = rs /\
      forall p, in_bounds rs p ->
                get R p = scattered src item_gy (indices rs) (src p) bk_zero /\
                ((forall p', in_bounds rs p' -> src p' = src p -> p' = p) ->
                 get R p = bk_add bk_zero (get item_gy p)).
Proof.
  eexists. eexists. split; [reflexivity|]. split.
  - apply (proj1 (@GetItemGrad_backward_reads_back R _)
             item_store
             (mk_Function (GetItemGrad item_ix (shape item_x)) [2] [0] 0)
             0 item_ix (shape item_x)); reflexivity.
  - apply (proj2 (@GetItemGrad_backward_reads_back R _)
             item_ix (shape item_x)); reflexivity.
Defined.

(* ------------------------------------------------------------------ *)
(** ** ReLU, forward                                                   *)
(* ------------------------------------------------------------------ *)

(** X8.  [relu] returns a node of the shape of the input whose elements are
    never negative: an element that is positive or zero is passed through,
    a negative one becomes zero; the output is positive exactly where the
    input is, which is where [ReLU.backward] lets the gradient through;
    and applying [relu] to its own output changes nothing.  (Exact real
    arithmetic.) *)
Theorem ReLU_forward_clamps_at_zero
        (h : Heap R) (x : nat) (a : ndarray R) :
  var_data h x = Some (PyFloat a) -> wf a ->
  exists y h',
    relu (AVar x) h = Some (y, h') /\
    var_data h' y = Some (PyFloat (ReLU_forward a)) /\
    shape (ReLU_forward a) = shape a /\
    (forall i, in_bounds (shape a) i ->
               (0 <= get (ReLU_forward a) i)%R /\
               ((0 <= get a i)%R -> get (ReLU_forward a) i = get a i) /\
               ((get a i <= 0)%R -> get (ReLU_forward a) i = 0%R) /\
               bk_gt (get (ReLU_forward a) i) 0%R = bk_gt (get a i) 0%R) /\
    ReLU_forward (ReLU_forward a) = ReLU_forward a.
Proof.
  intros Hx Hwf.
  destruct (Function_call_run h ReLU ReLU [AVar x] [PyFloat a]
              (PyFloat (ReLU_forward a))) as (y & h' & Hrun & _ & Hd).
  { repeat constructor. exact Hx. }
  { reflexivity. }
  exists y, h'. split; [exact Hrun|]. split; [exact Hd|].
  split; [reflexivity|]. split.
  - intros i Hi. unfold ReLU_forward. rewrite (get_np_map _ a i Hwf Hi).
    change (@bk_zero R _) with 0%R. change (@bk_max R _) with Rmax.
    repeat split.
    + apply Rmax_r.
    + intros Hp. now apply Rmax_left.
    + intros Hn. now apply Rmax_right.
    + simpl. unfold Rmax.
      destruct (Rle_dec (get a i) 0), (Rlt_dec 0 (get a i)),
               (Rlt_dec 0 0); try reflexivity; lra.
  - unfold ReLU_forward, np_map. simpl. f_equal. rewrite map_map.
    apply map_ext. intros v.
    change (@bk_zero R _) with 0%R. change (@bk_max R _) with Rmax.
    apply Rmax_left, Rmax_r.
Qed.

Lemma ReLU_forward_clamps_at_zero_witness :
  exists y h',
    relu (AVar 0) relu_store = Some (y, h') /\
    var_data h' y = Some (PyFloat (ReLU_forward relu_x)) /\
    shape (ReLU_forward relu_x) = shape relu_x /\
    (forall i, in_bounds (shape relu_x) i ->
               (0 <= get (ReLU_forward relu_x) i)%R /\
               ((0 <= get relu_x i)%R ->
                get (ReLU_forward relu_x) i = get relu_x i) /\
               ((get relu_x i <= 0)%R -> get (ReLU_forward relu_x) i = 0%R) /\
               bk_gt (get (ReLU_forward relu_x) i) 0%R
               = bk_gt (get relu_x i) 0%R) /\
    ReLU_forward (ReLU_forward relu_x) = ReLU_forward relu_x.
Proof.
  apply (ReLU_forward_clamps_at_zero relu_store 0 relu_x); reflexivity.
Defined.

(* ------------------------------------------------------------------ *)
(** ** Softmax, backward                                               *)
(* ------------------------------------------------------------------ *)

Lemma Rsum_map_minus_scale {X} (f g : X -> R) (d : R) (l : list X) :
  Rsum (map (fun r => f r - g r * d)%R l)
  = (Rsum (map f l) - Rsum (map g l) * d)%R.
Proof.
  induction l as [|x l IH]; simpl.
  - unfold Rsum. simpl. ring.
  - rewrite !Rsum_cons, IH. ring.
Qed.

(** X9.  [Softmax.backward] returns [y * gy - y * sum(y * gy, axis)], that is
    [y * (gy - sum(y * gy, axis))], computed from the output [y] that the
    forward pass left in the graph.  Where the values of [y] add up to one
    along the axis, as those of a softmax do, the gradient adds up to
    zero along the axis.  (Exact real arithmetic.) *)
Theorem Softmax_backward_gradient
        (h : Heap R) (f : Function) (gy y : nat) (Y g : ndarray R)
        (axis : Z) (k : nat) :
  f_op f = Softmax axis -> f_outputs f = [y] ->
  var_data h y = Some (PyFloat Y) -> var_data h gy = Some (PyFloat g) ->
  shape g = shape Y -> norm_axis (ndim Y) axis = Some k ->
  let mask := reduce_mask (ndim Y) [k] in
  exists gx h' G,
    Softmax_backward f gy h = Some ([Some gx], h') /\
    var_data h' gx = Some (PyFloat G) /\ shape G = shape Y /\
    (forall i, in_bounds (shape Y) i ->
       get G i = (get Y i * get g i
                  - get Y i * lane_dot Y g mask (collapse mask true i))%R /\
       get G i = (get Y i
                  * (get g i - lane_dot Y g mask (collapse mask true i)))%R) /\
    (forall c, in_bounds (kept_shape mask (shape Y)) c ->
       Rsum (lane Y mask true c) = 1%R -> Rsum (lane G mask true c) = 0%R).
Proof.
  intros Hop Hout Hy Hgy Hs Haxis mask.
  assert (Hm : length mask = length (shape Y)) by apply length_reduce_mask.
  set (p := tabulate (shape Y) (fun j => (get Y j * get g j)%R)).
  set (z := tabulate (kept_shape mask (shape Y))
              (fun c => fold_left Rplus (lane p mask true c) 0%R)).
  set (t := tabulate (shape Y)
              (fun j => (get Y j * get z (collapse mask true j))%R)).
  set (G := tabulate (shape Y) (fun j => (get p j - get t j)%R)).
  destruct (mul_run h (AVar y) (AVar gy) (PyFloat Y) (PyFloat g) (PyFloat p)
              Hy Hgy) as (gx1 & h1 & R1 & E1 & D1).
  { unfold arith_forward, as_float, obind.
    now rewrite (np_binop_same_shape bk_mul Y g Hs). }
  destruct (Function_call_run h1 (Sum (AxisInt axis) true None)
              (Sum (AxisInt axis) true (Some (shape p))) [AVar gx1] [PyFloat p]
              (PyFloat z)) as (sd & h2 & R2 & E2 & D2).
  { repeat constructor. exact D1. }
  { simpl. unfold Sum_forward, np_sum. change (ndim p) with (ndim Y).
    now rewrite (axes_of_int _ _ _ Haxis). }
  pose proof (extends_trans _ _ _ E1 E2) as E12.
  destruct (mul_run h2 (AVar y) (AVar sd) (PyFloat Y) (PyFloat z) (PyFloat t)
              (var_data_extends _ _ _ _ E12 Hy) D2) as (tn & h3 & R3 & E3 & D3).
  { unfold arith_forward, as_float, obind.
    now rewrite (np_binop_kept bk_mul Y z mask Hm eq_refl). }
  destruct (sub_run h3 (AVar gx1) (AVar tn) (PyFloat p) (PyFloat t) (PyFloat G)
              (var_data_extends _ _ _ _ (extends_trans _ _ _ E2 E3) D1) D3)
    as (gx & h4 & R4 & _ & D4).
  { unfold arith_forward, as_float, obind.
    now rewrite (np_binop_same_shape bk_sub p t eq_refl). }
  assert (Hz : forall c, in_bounds (kept_shape mask (shape Y)) c ->
                         get z c = lane_dot Y g mask c).
  { intros c Hc. unfold z. rewrite get_tabulate by exact Hc.
    change (fold_left Rplus (lane p mask true c) 0%R)
      with (Rsum (lane p mask true c)).
    unfold lane, lane_dot. cbn [shape p tabulate]. f_equal.
    apply map_ext_in. intros r Hr. apply in_indices in Hr.
    destruct (cell_lane_index mask (shape Y) c r Hm Hc Hr) as (Hb & _).
    unfold p. now rewrite get_tabulate. }
  assert (HG : forall i, in_bounds (shape Y) i ->
                 get G i = (get Y i * get g i
                            - get Y i * lane_dot Y g mask (collapse mask true i))%R).
  { intros i Hi. unfold G. rewrite get_tabulate by exact Hi.
    unfold p at 1. rewrite get_tabulate by exact Hi.
    unfold t. rewrite get_tabulate by exact Hi.
    now rewrite Hz by (now apply in_bounds_collapse). }
  exists gx, h4, G. split; [|split; [exact D4|split; [reflexivity|split]]].
  - unfold Softmax_backward. rewrite Hop. unfold output0. rewrite Hout.
    run (eq_refl : ret (A := R) y h = Some (y, h)).
    run R1. unfold sum. run R2. run R3. now run R4.
  - intros i Hi. split; [now apply HG|]. rewrite (HG i Hi). ring.
  - intros c Hc Hone. unfold lane in *. cbn [shape G tabulate].
    transitivity
      (Rsum (map (fun r => (get Y (add_idx c r) * get g (add_idx c r)
                            - get Y (add_idx c r) * lane_dot Y g mask c)%R)
                 (indices (lane_shape mask (shape Y))))).
    + f_equal. apply map_ext_in. intros r Hr. apply in_indices in Hr.
      destruct (cell_lane_index mask (shape Y) c r Hm Hc Hr) as (Hb & He).
      now rewrite (HG _ Hb), He.
    + rewrite (Rsum_map_minus_scale
                 (fun r => (get Y (add_idx c r) * get g (add_idx c r))%R)
                 (fun r => get Y (add_idx c r))).
      rewrite Hone. fold (lane_dot Y g mask c). ring.
Qed.

Lemma Softmax_backward_gradient_witness :
  let mask := reduce_mask (ndim rows_sum_one) [1] in
  exists gx h' G,
    Softmax_backward (mk_Function (Softmax 1) [0] [1] 0) 2 softmax_store
    = Some ([Some gx], h') /\
    var_data h' gx = Some (PyFloat G) /\ shape G = shape rows_sum_one /\
    (forall i, in_bounds (shape rows_sum_one) i ->
       get G i = (get rows_sum_one i * get matrix_2x3 i
                  - get rows_sum_one i
                    * lane_dot rows_sum_one matrix_2x3 mask
                               (collapse mask true i))%R /\
       get G i = (get rows_sum_one i
                  * (get matrix_2x3 i
                     - lane_dot rows_sum_one matrix_2x3 mask
                                (collapse mask true i)))%R) /\
    (forall c, in_bounds (kept_shape mask (shape rows_sum_one)) c ->
       Rsum (lane rows_sum_one mask true c) = 1%R ->
       Rsum (lane G mask true c) = 0%R).
Proof.
  apply (Softmax_backward_gradient
           softmax_store (mk_Function (Softmax 1) [0] [1] 0) 2 1
           rows_sum_one matrix_2x3 1 1); reflexivity.
Defined.

(* ------------------------------------------------------------------ *)
(** ** Transpose, twice                                                *)
(* ------------------------------------------------------------------ *)

Lemma permute_rev_seq (l : list nat) :
  permute (rev (seq 0 (length l))) l = rev l.
Proof.
  unfold permute. rewrite map_rev. f_equal. apply map_nth_seq.
Qed.

Section TransposeTwice.
Context {A : Type} `{Backend A}.

Lemma Transpose_forward_default (d : pyobj A) (s : Shape) :
  obj_shape d = Some s ->
  exists y, Transpose_forward None d = Some y /\ obj_shape y = Some (rev s).
Proof.
  intros Hs. unfold Transpose_forward, move.
  destruct d as [|a|a|a]; simpl in Hs; try discriminate; injection Hs as <-;
    unfold np_transpose; simpl; eexists; (split; [reflexivity|]); simpl;
    unfold ndim; now rewrite permute_rev_seq.
Qed.

(** X10.  Transposing twice with the default axes gives back the original
    array, whatever its rank: [transpose(transpose(x))] returns a node
    that holds [x], the intermediate node holding an array of the
    reversed shape.  The result is a new node all the same: each call
    makes a node and, with graph recording on, records a function. *)
Theorem transpose_twice_is_identity
        (h : Heap A) (x : nat) (d : pyobj A) (s : Shape) :
  var_data h x = Some d -> obj_wf d -> obj_shape d = Some s ->
  exists y h1 r h2,
    transpose (AVar x) None h = Some (y, h1) /\
    (exists dy, var_data h1 y = Some dy /\ obj_shape dy = Some (rev s)) /\
    transpose (AVar y) None h1 = Some (r, h2) /\
    var_data h2 r = Some d /\
    x < y /\ y < r /\
    (enable_backprop (h_config h) = true ->
     exists i1 g1 i2 g2,
       h_funcs h2 = h_funcs h ++ [mk_Function (Transpose None) i1 [y] g1;
                                  mk_Function (Transpose None) i2 [r] g2]).
Proof.
  intros Hx Hwf Hs.
  destruct (Transpose_forward_default d s Hs) as (dy & Hfwd & Hsy).
  pose proof (Transpose_forward_backward None d dy Hwf Hfwd) as Hback.
  simpl backward_axes in Hback.
  destruct (Function_call_spec h (Transpose None) (Transpose None) [AVar x]
              [d] dy) as (y & h1 & R1 & E1 & D1 & L1 & F1).
  { repeat constructor. exact Hx. }
  { now apply forward_Transpose. }
  destruct (Function_call_spec h1 (Transpose None) (Transpose None) [AVar y]
              [dy] d) as (r & h2 & R2 & E2 & D2 & L2 & F2).
  { repeat constructor. exact D1. }
  { now apply forward_Transpose. }
  assert (Hxl : x < length (h_vars h)).
  { unfold var_data in Hx. apply nth_error_Some.
    destruct (nth_error (h_vars h) x); [discriminate|discriminate Hx]. }
  assert (Hyl : y < length (h_vars h1)).
  { unfold var_data in D1. apply nth_error_Some.
    destruct (nth_error (h_vars h1) y); [discriminate|discriminate D1]. }
  exists y, h1, r, h2. split; [exact R1|]. split; [now exists dy|].
  split; [exact R2|]. split; [exact D2|]. split; [lia|]. split; [lia|].
  intros Hon. destruct E1 as (_ & _ & Hc1). rewrite Hc1, Hon in F2.
  rewrite Hon in F1.
  destruct F1 as (i1 & g1 & F1 & _), F2 as (i2 & g2 & F2 & _).
  exists i1, g1, i2, g2. rewrite F2, F1, <- app_assoc. reflexivity.
Qed.
End TransposeTwice.

Lemma transpose_twice_is_identity_witness :
  exists y h1 r h2,
    transpose (AVar 0) None matrix_store = Some (y, h1) /\
    (exists dy, var_data h1 y = Some dy /\ obj_shape dy = Some (rev [2; 3])) /\
    transpose (AVar y) None h1 = Some (r, h2) /\
    var_data h2 r = Some (PyFloat matrix_2x3) /\
    0 < y /\ y < r /\
    (enable_backprop (h_config matrix_store) = true ->
     exists i1 g1 i2 g2,
       h_funcs h2
       = h_funcs matrix_store ++ [mk_Function (Transpose None) i1 [y] g1;
                                  mk_Function (Transpose None) i2 [r] g2]).
Proof.
  exact (@transpose_twice_is_identity R _ matrix_store 0 (PyFloat matrix_2x3)
           [2; 3] eq_refl eq_refl eq_refl).
Defined.

(* ------------------------------------------------------------------ *)
(** ** linear_simple                                                   *)
(* ------------------------------------------------------------------ *)

Lemma broadcast_rev_lower (ra rb : list nat) :
  broadcastable_rev rb ra = true -> broadcast_rev ra rb = Some ra.
Proof.
  revert ra. induction rb as [|db rb IH]; intros [|d ra] Hb;
    try reflexivity; try discriminate.
  simpl in Hb. apply andb_prop in Hb as [Hd Hb]. simpl.
  rewrite (IH ra Hb).
  destruct (d =? db) eqn:E1; [reflexivity|].
  apply orb_prop in Hd as [Hd|Hd].
  - rewrite Nat.eqb_sym in E1. congruence.
  - apply Nat.eqb_eq in Hd. subst db.
    rewrite E1. reflexivity.
Qed.

Lemma broadcast_shapes_lower (s sb : Shape) :
  broadcastable sb s = true -> broadcast_shapes s sb = Some s.
Proof.
  intros Hb. unfold broadcast_shapes.
  rewrite (broadcast_rev_lower _ _ Hb). simpl. now rewrite rev_involutive.
Qed.

Lemma nth_error_list_set {X} (l : list X) (k q : nat) (v : X) :
  nth_error (list_set k v l) q
  = if (q =? k) && (k <? length l) then Some v else nth_error l q.
Proof.
  revert k q. induction l as [|x l IH]; intros k q.
  - destruct k; simpl; rewrite andb_false_r; reflexivity.
  - destruct k as [|k], q as [|q]; simpl; try reflexivity.
    rewrite IH. reflexivity.
Qed.

Section LinearSimple.
Context {A : Type} `{Backend A}.

(** An array combined with one of a shape that broadcasts to its own. *)
Lemma np_binop_broadcast_r (f : A -> A -> A) (a b : ndarray A) :
  broadcastable (shape b) (shape a) = true ->
  np_binop f a b
  = Some (tabulate (shape a)
            (fun j => f (get a j) (get b (bproj (shape b) j)))).
Proof.
  intros Hb. unfold np_binop. rewrite (broadcast_shapes_lower _ _ Hb). simpl.
  f_equal. apply tabulate_ext. intros j Hj. now rewrite bproj_self.
Qed.

Lemma add_run (h : Heap A) (x0 x1 : Arg A) (d0 d1 y : pyobj A) :
  arg_data h x0 d0 -> arg_data h x1 d1 -> arith_forward bk_add d0 d1 = Some y ->
  exists r h',
    add x0 x1 h = Some (r, h') /\ extends h h' /\ var_data h' r = Some y /\
    length (h_vars h) <= r.
Proof.
  intros H0 H1 Hf.
  destruct (Function_call_spec h Add Add [x0; x1] [d0; d1] y)
    as (r & h' & ? & ? & ? & ? & _).
  - repeat constructor; assumption.
  - simpl. now rewrite Hf.
  - now exists r, h'.
Qed.

Lemma var_data_lt (h : Heap A) (x : nat) (d : pyobj A) :
  var_data h x = Some d -> x < length (h_vars h).
Proof.
  unfold var_data. intros Hx. apply nth_error_Some.
  destruct (nth_error (h_vars h) x); [discriminate|discriminate Hx].
Qed.

(** [t.data = None] clears the data of [t] and of no other node. *)
Lemma clear_data_run (h : Heap A) (t : nat) (d : pyobj A) :
  var_data h t = Some d ->
  exists h',
    clear_data t h = Some (tt, h') /\
    var_data h' t = Some PyNone /\
    h_funcs h' = h_funcs h /\ h_config h' = h_config h /\
    forall q, q <> t -> var_data h' q = var_data h q.
Proof.
  intros Ht. pose proof (var_data_lt h t d Ht) as Hlt.
  unfold clear_data, read_var, write_var, bind. unfold var_data in Ht.
  destruct (nth_error (h_vars h) t) as [v|] eqn:E; [|discriminate].
  apply Nat.ltb_lt in Hlt. rewrite Hlt.
  eexists. split; [reflexivity|]. unfold var_data. simpl.
  split; [|split; [reflexivity|split; [reflexivity|]]].
  - now rewrite nth_error_list_set, Nat.eqb_refl, Hlt.
  - intros q Hq. rewrite nth_error_list_set.
    now apply Nat.eqb_neq in Hq as ->.
Qed.

(** X11.  [linear_simple] computes what [linear] computes.  Without bias it
    returns the node of the matrix product.  With a bias that broadcasts
    to the shape of the product it returns a node holding the product
    plus the bias, the value of [Linear.forward], and it clears the data
    of the intermediate node of the product, which then holds [None]. *)
Theorem linear_simple_matches_linear
        (h : Heap A) (x W b : nat) (a w ba : ndarray A) (n m k : nat) :
  var_data h x = Some (PyFloat a) -> var_data h W = Some (PyFloat w) ->
  shape a = [n; m] -> shape w = [m; k] ->
  var_data h b = Some (PyFloat ba) ->
  broadcastable (shape ba) [n; k] = true ->
  exists d t h1,
    np_dot a w = Some d /\ shape d = [n; k] /\
    matmul (AVar x) (AVar W) h = Some (t, h1) /\
    linear_simple (AVar x) (AVar W) (AObj PyNone) h = Some (t, h1) /\
    var_data h1 t = Some (PyFloat d) /\
    Linear_forward a w PyNone = Some d /\
    exists y h' v,
      linear_simple (AVar x) (AVar W) (AVar b) h = Some (y, h') /\
      Linear_forward a w (PyFloat ba) = Some v /\
      var_data h' y = Some (PyFloat v) /\ shape v = [n; k] /\
      (forall j, in_bounds [n; k] j ->
                 get v j = bk_add (get d j) (get ba (bproj (shape ba) j))) /\
      y <> t /\ var_data h' t = Some PyNone.
Proof.
  intros Hx HW Ha Hw Hb Hbc.
  assert (Hdot : exists d, np_dot a w = Some d /\ shape d = [n; k]).
  { unfold np_dot. rewrite Ha, Hw, Nat.eqb_refl. eexists. split; reflexivity. }
  destruct Hdot as (d & Hdot & Hds).
  destruct (Function_call_spec h MatMul MatMul [AVar x; AVar W]
              [PyFloat a; PyFloat w] (PyFloat d))
    as (t & h1 & R1 & E1 & D1 & L1 & _).
  { repeat constructor; assumption. }
  { simpl. unfold MatMul_forward. now rewrite Hdot. }
  assert (Hpre : forall X (rest : nat -> M A X),
             (x' <- as_variable (AVar x) ;; W' <- as_variable (AVar W) ;;
              t' <- matmul (AVar x') (AVar W') ;; rest t') h = rest t h1).
  { intros X rest. simpl as_variable.
    run (eq_refl : ret (A := A) x h = Some (x, h)).
    run (eq_refl : ret (A := A) W h = Some (W, h)).
    unfold matmul. now run R1. }
  exists d, t, h1. split; [exact Hdot|]. split; [exact Hds|].
  split; [exact R1|]. split; [|split; [exact D1|split]].
  - unfold linear_simple. now rewrite Hpre.
  - unfold Linear_forward. now rewrite Hdot.
  - rewrite <- Hds in Hbc.
    set (v := tabulate (shape d)
                (fun j => bk_add (get d j) (get ba (bproj (shape ba) j)))).
    assert (Hadd : np_binop bk_add d ba = Some v)
      by (now apply np_binop_broadcast_r).
    destruct (add_run h1 (AVar t) (AVar b) (PyFloat d) (PyFloat ba) (PyFloat v)
                D1 (var_data_extends _ _ _ _ E1 Hb))
      as (y & h2 & R2 & E2 & D2 & L2).
    { unfold arith_forward, as_float, obind. now rewrite Hadd. }
    pose proof (var_data_lt h1 t _ D1) as Htl.
    assert (Hyt : y <> t) by lia.
    pose proof (var_data_extends _ _ _ _ E2 D1) as Ht2.
    destruct (clear_data_run h2 t _ Ht2) as (h3 & R3 & Dt & _ & _ & Hother).
    exists y, h3, v. split; [|split; [|split; [|split; [|split; [|split]]]]].
    + unfold linear_simple. rewrite Hpre. run R2.
      unfold bind. now rewrite R3.
    + unfold Linear_forward. rewrite Hdot. cbn [obind as_float].
      unfold np_iadd. rewrite Hadd. cbn [obind]. unfold v at 1.
      cbn [shape tabulate].
      destruct (list_eq_dec Nat.eq_dec (shape d) (shape d)); [reflexivity|].
      congruence.
    + now rewrite (Hother y Hyt).
    + unfold v. simpl. exact Hds.
    + intros j Hj. unfold v. rewrite get_tabulate; [reflexivity|].
      now rewrite Hds.
    + exact Hyt.
    + exact Dt.
Qed.
End LinearSimple.

Lemma linear_simple_matches_linear_witness :
  exists d t h1,
    np_dot matrix_2x3 matrix_3x2 = Some d /\ shape d = [2; 2] /\
    matmul (AVar 0) (AVar 1) linear_store = Some (t, h1) /\
    linear_simple (AVar 0) (AVar 1) (AObj PyNone) linear_store = Some (t, h1) /\
    var_data h1 t = Some (PyFloat d) /\
    Linear_forward matrix_2x3 matrix_3x2 PyNone = Some d /\
    exists y h' v,
      linear_simple (AVar 0) (AVar 1) (AVar 2) linear_store = Some (y, h') /\
      Linear_forward matrix_2x3 matrix_3x2 (PyFloat bias_2) = Some v /\
      var_data h' y = Some (PyFloat v) /\ shape v = [2; 2] /\
      (forall j, in_bounds [2; 2] j ->
                 get v j
                 = bk_add (get d j) (get bias_2 (bproj (shape bias_2) j))) /\
      y <> t /\ var_data h' t = Some PyNone.
Proof.
  exact (@linear_simple_matches_linear R _ linear_store 0 1 2
           matrix_2x3 matrix_3x2 bias_2 2 3 2
           eq_refl eq_refl eq_refl eq_refl eq_refl eq_refl).
Defined.

(* ------------------------------------------------------------------ *)
(** ** MeanSquaredError                                                *)
(* ------------------------------------------------------------------ *)

Lemma reduce_mask_all (n : nat) : reduce_mask n (seq 0 n) = repeat true n.
Proof.
  unfold reduce_mask. rewrite map_all_true; [now rewrite length_seq|].
  intros k Hk. apply existsb_exists. exists k. split; [exact Hk|].
  apply Nat.eqb_refl.
Qed.

Lemma squeezed_shape_all (s : Shape) :
  squeezed_shape (repeat true (length s)) s = [].
Proof. unfold squeezed_shape. induction s; simpl; auto. Qed.

Lemma lane_shape_all (s : Shape) : lane_shape (repeat true (length s)) s = s.
Proof. unfold lane_shape. induction s; simpl; congruence. Qed.

Lemma expand_all (n : nat) : expand (repeat true n) [] = repeat 0 n.
Proof. induction n; simpl; congruence. Qed.

Lemma add_idx_zeros (r : list nat) : add_idx (repeat 0 (length r)) r = r.
Proof. unfold add_idx. induction r; simpl; congruence. Qed.

Section SumAll.
Context {A : Type} `{Backend A}.

(** [x.sum()] adds all elements, in the order of the array. *)
Lemma np_sum_all (x : ndarray A) :
  np_sum x AxisNone false
  = Some (scalar (fold_left bk_add (map (get x) (indices (shape x))) bk_zero)).
Proof.
  unfold np_sum, ndim. simpl axes_of. cbn [obind].
  rewrite reduce_mask_all. unfold reduced_shape.
  rewrite squeezed_shape_all. unfold tabulate, scalar. simpl. do 3 f_equal.
  unfold lane. rewrite expand_all, lane_shape_all. f_equal.
  apply map_ext_in. intros r Hr. apply in_indices in Hr.
  rewrite <- (in_bounds_length Hr). now rewrite add_idx_zeros.
Qed.
End SumAll.

Lemma Rsum_map_nonneg {X} (f : X -> R) (l : list X) :
  (forall x, In x l -> (0 <= f x)%R) -> (0 <= Rsum (map f l))%R.
Proof.
  induction l as [|x l IH]; intros Hf; simpl.
  - unfold Rsum. simpl. lra.
  - rewrite Rsum_cons.
    pose proof (Hf x (or_introl eq_refl)).
    assert (0 <= Rsum (map f l))%R by (apply IH; intros; apply Hf; now right).
    lra.
Qed.

Lemma Rsum_map_zero {X} (f : X -> R) (l : list X) :
  (forall x, In x l -> (0 <= f x)%R) -> Rsum (map f l) = 0%R ->
  forall x, In x l -> f x = 0%R.
Proof.
  induction l as [|y l IH]; intros Hf Hz x Hx; [contradiction|].
  simpl in Hz. rewrite Rsum_cons in Hz.
  pose proof (Hf y (or_introl eq_refl)) as Hy.
  assert (Hl : (0 <= Rsum (map f l))%R)
    by (apply Rsum_map_nonneg; intros; apply Hf; now right).
  destruct Hx as [->|Hx]; [lra|].
  apply IH; auto; [intros; apply Hf; now right|lra].
Qed.

Lemma Rsum_map_zeros {X} (l : list X) : Rsum (map (fun _ => 0%R) l) = 0%R.
Proof.
  induction l as [|x l IH]; simpl; [reflexivity|]. rewrite Rsum_cons, IH. ring.
Qed.

Lemma np_binop_scalars {A} `{Backend A} (f : A -> A -> A) (a b : A) :
  np_binop f (scalar a) (scalar b) = Some (scalar (f a b)).
Proof. reflexivity. Qed.

(** X12.  [MeanSquaredError.forward] on two arrays of one shape with [n > 0]
    rows: the sum of all squared differences divided by [n], the extent of
    the first axis (for arrays of more than one axis this is not the
    number of elements).  The value is never negative, does not depend on
    the order of the two arguments, and is zero exactly when the arrays
    are equal.  Arrays without axes have no length, and the call raises.
    (Exact real arithmetic.) *)
Theorem MeanSquaredError_forward_value
        (x0 x1 : ndarray R) (n : nat) (rest : Shape) :
  shape x0 = n :: rest -> shape x1 = shape x0 -> wf x0 -> wf x1 -> 0 < n ->
  (exists v,
      MeanSquaredError_forward x0 x1 = Some (scalar v) /\
      v = (squared_error_sum x0 x1 / IZR (Z.of_nat n))%R /\
      (0 <= v)%R /\
      MeanSquaredError_forward x1 x0 = Some (scalar v) /\
      (v = 0%R <-> x0 = x1)) /\
  (forall a b : R,
      MeanSquaredError_forward (scalar a) (scalar b) = None).
Proof.
  intros Hs0 Hs1 Hwf0 Hwf1 Hn.
  assert (Hfwd : forall a b : ndarray R, shape a = n :: rest ->
             shape b = shape a ->
             MeanSquaredError_forward a b
             = Some (scalar (squared_error_sum a b / IZR (Z.of_nat n))%R)).
  { intros a b Ha Hb. unfold MeanSquaredError_forward.
    rewrite (np_binop_same_shape bk_sub a b Hb). cbn [obind].
    set (diff := tabulate (shape a) (fun j => bk_sub (get a j) (get b j))).
    rewrite np_sum_all. cbn [obind]. unfold np_len.
    change (shape diff) with (shape a). rewrite Ha. cbn [obind].
    rewrite np_binop_scalars. do 3 f_equal.
    unfold squared_error_sum.
    change (shape (np_square diff)) with (shape a).
    change (fold_left bk_add ?l bk_zero) with (Rsum l).
    change (bk_div ?u (bk_of_Z ?z)) with (u / IZR z)%R. do 2 f_equal.
    apply map_ext_in. intros i Hi. apply in_indices in Hi.
    unfold np_square.
    rewrite (get_np_map (fun v => bk_mul v v) diff i)
      by (apply wf_tabulate || exact Hi).
    unfold diff. now rewrite get_tabulate. }
  assert (Hsq : forall i, (0 <= (get x0 i - get x1 i) * (get x0 i - get x1 i))%R)
    by (intros i; apply (Rle_0_sqr (get x0 i - get x1 i))).
  assert (Hpos : (0 < IZR (Z.of_nat n))%R) by (apply IZR_lt; lia).
  assert (Hsum : (0 <= squared_error_sum x0 x1)%R).
  { unfold squared_error_sum. apply Rsum_map_nonneg. intros; apply Hsq. }
  split; [|intros a b; reflexivity].
  eexists. split; [now apply Hfwd|]. split; [reflexivity|].
  split; [|split].
  - apply Rmult_le_pos; [exact Hsum|]. left. now apply Rinv_0_lt_compat.
  - rewrite (Hfwd x1 x0) by congruence. do 3 f_equal.
    unfold squared_error_sum. rewrite Hs1. f_equal. apply map_ext. intros i.
    ring.
  - split.
    + intros Hz.
      assert (Hz' : squared_error_sum x0 x1 = 0%R).
      { unfold Rdiv in Hz. apply Rmult_integral in Hz as [Hz|Hz]; [exact Hz|].
        exfalso. apply (Rinv_neq_0_compat (IZR (Z.of_nat n))); [lra|exact Hz]. }
      apply ndarray_ext; try assumption; [congruence|].
      intros i Hi.
      pose proof (Rsum_map_zero
                    (fun i => ((get x0 i - get x1 i) * (get x0 i - get x1 i))%R)
                    (indices (shape x0)) (fun i _ => Hsq i) Hz' i) as Hi0.
      specialize (Hi0 (proj2 (in_indices _ _) Hi)). simpl in Hi0.
      apply Rmult_integral in Hi0.
      destruct Hi0 as [E|E]; apply Rminus_diag_uniq; exact E.
    + intros <-. unfold squared_error_sum.
      rewrite (map_ext _ (fun _ => 0%R)) by (intros; ring).
      rewrite Rsum_map_zeros. unfold Rdiv. ring.
Qed.

Lemma MeanSquaredError_forward_value_witness :
  (exists v,
      MeanSquaredError_forward matrix_2x3 rows_sum_one = Some (scalar v) /\
      v = (squared_error_sum matrix_2x3 rows_sum_one / IZR (Z.of_nat 2))%R /\
      (0 <= v)%R /\
      MeanSquaredError_forward rows_sum_one matrix_2x3 = Some (scalar v) /\
      (v = 0%R <-> matrix_2x3 = rows_sum_one)) /\
  (forall a b : R,
      MeanSquaredError_forward (scalar a) (scalar b) = None).
Proof.
  apply (MeanSquaredError_forward_value matrix_2x3 rows_sum_one 2 [3]);
    try reflexivity. lia.
Defined.

Section NegLemmas.
Context {A : Type} `{Backend A}.

Lemma neg_run (h : Heap A) (x : Arg A) (a : ndarray A) :
  arg_data h x (PyFloat a) ->
  exists r h',
    neg x h = Some (r, h') /\ extends h h' /\
    var_data h' r = Some (PyFloat (np_map bk_neg a)).
Proof.
  intros Hx.
  apply (Function_call_run h Neg Neg [x] [PyFloat a]
                           (PyFloat (np_map bk_neg a))).
  - repeat constructor. exact Hx.
  - reflexivity.
Qed.
End NegLemmas.

(** X13.  [MeanSquaredError.backward] for inputs [x0] with [n > 0] rows and [x1]
    of a shape that broadcasts to the shape of [x0], and a scalar output
    gradient [gy]: the gradient for [x0] is [gy * (x0 - x1) * (2 / n)] and
    the gradient for [x1] is its negation.  Both have the shape of the
    difference, so the gradient for an [x1] that was broadcast has the
    shape of [x0], not that of [x1]: it is not summed back.  (Exact real
    arithmetic.) *)
Theorem MeanSquaredError_backward_gradient
        (h : Heap R) (gy x0 x1 : nat) (a0 a1 : ndarray R)
        (n : nat) (rest : Shape) (gv : R) :
  var_data h x0 = Some (PyFloat a0) -> var_data h x1 = Some (PyFloat a1) ->
  shape a0 = n :: rest -> broadcastable (shape a1) (shape a0) = true ->
  0 < n ->
  var_data h gy = Some (PyFloat (scalar gv)) ->
  exists gx0 gx1 h' G0 G1,
    MeanSquaredError_backward [x0; x1] gy h
    = Some ([Some gx0; Some gx1], h') /\
    var_data h' gx0 = Some (PyFloat G0) /\
    var_data h' gx1 = Some (PyFloat G1) /\
    shape G0 = shape a0 /\ shape G1 = shape a0 /\
    forall i, in_bounds (shape a0) i ->
              get G0 i = (gv * (get a0 i - get a1 (bproj (shape a1) i))
                          * (2 / IZR (Z.of_nat n)))%R /\
              get G1 i = (- get G0 i)%R.
Proof.
  intros H0 H1 Hs0 Hb Hn Hgy.
  set (s := shape a0) in *.
  set (diff := tabulate s (fun j => (get a0 j - get a1 (bproj (shape a1) j))%R)).
  set (gb := tabulate s (fun j => get (scalar gv) (bproj (shape (scalar gv)) j))).
  set (t := tabulate s (fun j => (get gb j * get diff j)%R)).
  set (c := (2 / IZR (Z.of_nat n))%R).
  set (G0 := tabulate s (fun j => (get t j * c)%R)).
  destruct (sub_run h (AVar x0) (AVar x1) (PyFloat a0) (PyFloat a1) (PyFloat diff)
              H0 H1) as (d & h1 & R1 & E1 & D1).
  { unfold arith_forward, as_float, obind.
    now rewrite (np_binop_broadcast_r bk_sub a0 a1 Hb). }
  destruct (broadcast_to_run h1 (AVar gy) (scalar gv) s
              (var_data_extends _ _ _ _ E1 Hgy) eq_refl)
    as (gyb & h2 & R2 & E2 & D2 & _).
  { unfold broadcastable. simpl. now destruct (rev s). }
  fold gb in D2.
  destruct (mul_run h2 (AVar gyb) (AVar d) (PyFloat gb) (PyFloat diff) (PyFloat t)
              D2 (var_data_extends _ _ _ _ E2 D1)) as (tn & h3 & R3 & E3 & D3).
  { unfold arith_forward, as_float, obind.
    now rewrite (np_binop_same_shape bk_mul gb diff eq_refl). }
  destruct (mul_run h3 (AVar tn) (AObj (PyFloat (scalar c))) (PyFloat t)
              (PyFloat (scalar c)) (PyFloat G0) D3 eq_refl)
    as (gx0 & h4 & R4 & E4 & D4).
  { unfold arith_forward, as_float, obind. now rewrite np_binop_scalar. }
  destruct (neg_run h4 (AVar gx0) G0 D4) as (gx1 & h5 & R5 & E5 & D5).
  exists gx0, gx1, h5, G0, (np_map bk_neg G0).
  split; [|split; [exact (var_data_extends _ _ _ _ E5 D4)|split; [exact D5|]]].
  - unfold MeanSquaredError_backward. run R1.
    run (arg_shape_run h1 (AVar d) (PyFloat diff) s D1 eq_refl).
    run R2. run R3. rewrite Hs0.
    replace (n =? 0) with false by (symmetry; apply Nat.eqb_neq; lia).
    fold c. run R4. now run R5.
  - split; [reflexivity|]. split; [reflexivity|]. intros i Hi.
    assert (HG0 : get G0 i
                  = (gv * (get a0 i - get a1 (bproj (shape a1) i)) * c)%R).
    { unfold G0. rewrite get_tabulate by exact Hi.
      unfold t. rewrite get_tabulate by exact Hi.
      unfold gb, diff. rewrite !get_tabulate by exact Hi. reflexivity. }
    split; [exact HG0|].
    rewrite (get_np_map bk_neg G0 i) by (apply wf_tabulate || exact Hi).
    reflexivity.
Qed.

Lemma MeanSquaredError_backward_gradient_witness :
  exists gx0 gx1 h' G0 G1,
    MeanSquaredError_backward [0; 1] 2 loss_store
    = Some ([Some gx0; Some gx1], h') /\
    var_data h' gx0 = Some (PyFloat G0) /\
    var_data h' gx1 = Some (PyFloat G1) /\
    shape G0 = shape matrix_2x3 /\ shape G1 = shape matrix_2x3 /\
    forall i, in_bounds (shape matrix_2x3) i ->
              get G0 i
              = (5 * (get matrix_2x3 i - get row_123 (bproj (shape row_123) i))
                 * (2 / IZR (Z.of_nat 2)))%R /\
              get G1 i = (- get G0 i)%R.
Proof.
  apply (MeanSquaredError_backward_gradient
           loss_store 2 0 1 matrix_2x3 row_123 2 [3] 5%R); try reflexivity.
  lia.
Defined.

(* ------------------------------------------------------------------ *)
(** ** Sigmoid                                                         *)
(* ------------------------------------------------------------------ *)

Lemma broadcast_shapes_scalar_l (s : Shape) : broadcast_shapes [] s = Some s.
Proof. unfold broadcast_shapes. simpl. now rewrite rev_involutive. Qed.

Section ScalarLeft.
Context {A : Type} `{Backend A}.

(** A 0-d array combined with an array: the scalar meets every element. *)
Lemma np_binop_scalar_l (f : A -> A -> A) (c : A) (a : ndarray A) :
  np_binop f (scalar c) a
  = Some (tabulate (shape a) (fun j => f c (get a j))).
Proof.
  unfold np_binop. simpl shape. rewrite broadcast_shapes_scalar_l. simpl.
  f_equal. apply tabulate_ext. intros j Hj.
  rewrite (bproj_self (shape a) j Hj). reflexivity.
Qed.
End ScalarLeft.

(** X14.  The forward of the sigmoid is [1 / (1 + exp(-x))] elementwise, a value
    strictly between 0 and 1.  [Sigmoid.backward] reads the output [y] of
    the forward pass and returns [gy * y * (1 - y)]; the factor
    [y * (1 - y)] that scales the gradient is positive and at most 1/4.
    (Exact real arithmetic.) *)
Theorem Sigmoid_backward_gradient
        (h : Heap R) (gy y : nat) (a g : ndarray R) :
  var_data h y = Some (PyFloat (Sigmoid_forward a)) ->
  var_data h gy = Some (PyFloat g) ->
  wf a -> shape g = shape a ->
  exists gx h' G,
    Sigmoid_backward [y] gy h = Some ([Some gx], h') /\
    var_data h' gx = Some (PyFloat G) /\ shape G = shape a /\
    forall i, in_bounds (shape a) i ->
      let s := get (Sigmoid_forward a) i in
      s = (1 / (1 + Rtrigo_def.exp (- get a i)))%R /\
      (0 < s < 1)%R /\
      get G i = (get g i * s * (1 - s))%R /\
      (0 < s * (1 - s) <= 1 / 4)%R.
Proof.
  intros Hy Hgy Hwf Hs.
  set (Y := Sigmoid_forward a) in *.
  set (t := tabulate (shape g) (fun j => (get g j * get Y j)%R)).
  set (u := tabulate (shape Y) (fun j => (1 - get Y j)%R)).
  set (G := tabulate (shape t) (fun j => (get t j * get u j)%R)).
  destruct (mul_run h (AVar gy) (AVar y) (PyFloat g) (PyFloat Y) (PyFloat t)
              Hgy Hy) as (tn & h1 & R1 & E1 & D1).
  { unfold arith_forward, as_float, obind.
    now rewrite (np_binop_same_shape bk_mul g Y (eq_sym Hs)). }
  destruct (sub_run h1 (AObj (PyInt (scalar 1%Z))) (AVar y)
              (PyInt (scalar 1%Z)) (PyFloat Y) (PyFloat u)
              eq_refl (var_data_extends _ _ _ _ E1 Hy))
    as (un & h2 & R2 & E2 & D2).
  { unfold arith_forward, as_float, obind.
    change (np_map bk_of_Z (scalar 1%Z)) with (scalar 1%R).
    now rewrite np_binop_scalar_l. }
  destruct (mul_run h2 (AVar tn) (AVar un) (PyFloat t) (PyFloat u) (PyFloat G)
              (var_data_extends _ _ _ _ E2 D1) D2) as (gx & h3 & R3 & _ & D3).
  { unfold arith_forward, as_float, obind.
    now rewrite (np_binop_same_shape bk_mul t u (eq_sym Hs)). }
  exists gx, h3, G. split; [|split; [exact D3|split; [exact Hs|]]].
  - unfold Sigmoid_backward. run R1. unfold rsub.
    change (Function_call Sub [AObj (PyInt (scalar 1%Z)); AVar y])
      with (sub (AObj (PyInt (scalar 1%Z))) (AVar y)).
    run R2. now run R3.
  - intros i Hi s.
    assert (Hsv : s = (1 / (1 + Rtrigo_def.exp (- get a i)))%R).
    { unfold s, Y, Sigmoid_forward. now rewrite get_np_map. }
    pose proof (exp_pos (- get a i)) as He.
    assert (Hrange : (0 < s < 1)%R).
    { rewrite Hsv. split.
      - apply Rdiv_lt_0_compat; lra.
      - apply (Rmult_lt_reg_r (1 + Rtrigo_def.exp (- get a i))); [lra|].
        unfold Rdiv. rewrite Rmult_assoc, Rinv_l by lra. lra. }
    split; [exact Hsv|]. split; [exact Hrange|]. split.
    + unfold G. rewrite get_tabulate by (simpl; now rewrite Hs).
      unfold t, u. rewrite !get_tabulate by (simpl; now rewrite ?Hs).
      reflexivity.
    + destruct Hrange as [H0 H1]. split.
      * apply Rmult_lt_0_compat; lra.
      * assert (0 <= (s - 1 / 2) * (s - 1 / 2))%R
          by (apply (Rle_0_sqr (s - 1 / 2))).
        lra.
Qed.

Lemma Sigmoid_backward_gradient_witness :
  exists gx h' G,
    Sigmoid_backward [1] 2 sigmoid_store = Some ([Some gx], h') /\
    var_data h' gx = Some (PyFloat G) /\ shape G = shape relu_x /\
    forall i, in_bounds (shape relu_x) i ->
      let s := get (Sigmoid_forward relu_x) i in
      s = (1 / (1 + Rtrigo_def.exp (- get relu_x i)))%R /\
      (0 < s < 1)%R /\
      get G i = (get relu_gy i * s * (1 - s))%R /\
      (0 < s * (1 - s) <= 1 / 4)%R.
Proof.
  apply (Sigmoid_backward_gradient sigmoid_store 2 1 relu_x relu_gy);
    reflexivity.
Defined.

(* ------------------------------------------------------------------ *)
(** ** Clip                                                            *)
(* ------------------------------------------------------------------ *)

(** Case analysis on the innermost comparison of two reals in the goal. *)
Ltac case_Rle_dec :=
  match goal with
  | |- context [Rle_dec ?u ?w] =>
      lazymatch u with
      | context [Rle_dec _ _] => fail
      | _ => lazymatch w with
             | context [Rle_dec _ _] => fail
             | _ => destruct (Rle_dec u w)
             end
      end
  end.

(** X15.  [Clip.forward] clamps every element into [[x_min, x_max]]: for
    [x_min <= x_max] the result lies in the interval, elements inside it
    (the two bounds included) are passed through, and clipping twice
    changes nothing.  [Clip.backward] lets the gradient through exactly
    where the input lies in the interval, bounds included, and returns
    zero elsewhere.  With [x_min > x_max] the forward gives [x_max]
    everywhere and the gradient is zero everywhere.  (Exact real
    arithmetic.) *)
Theorem Clip_passes_gradient_in_range
        (h : Heap R) (gy x : nat) (a g : ndarray R) (lo hi : R) :
  var_data h x = Some (PyFloat a) -> var_data h gy = Some (PyFloat g) ->
  wf a -> shape g = shape a ->
  exists gx h' G,
    Clip_backward lo hi [x] gy h = Some ([Some gx], h') /\
    var_data h' gx = Some (PyFloat G) /\ shape G = shape a /\
    Clip_forward lo hi (Clip_forward lo hi a) = Clip_forward lo hi a /\
    forall i, in_bounds (shape a) i ->
      let c := get (Clip_forward lo hi a) i in
      c = Rmin (Rmax (get a i) lo) hi /\
      ((lo <= hi)%R -> (lo <= c <= hi)%R) /\
      ((lo <= get a i <= hi)%R -> c = get a i /\ get G i = get g i) /\
      ((get a i < lo)%R \/ (hi < get a i)%R -> get G i = 0%R) /\
      ((hi < lo)%R -> c = hi /\ get G i = 0%R).
Proof.
  intros Hx Hgy Hwf Hs.
  set (mask := np_map (fun v : R => bk_ge v lo && bk_le v hi) a).
  set (G := tabulate (shape g)
              (fun j => bk_mul (get g j) (get (np_map bk_of_bool mask) j))).
  destruct (mul_run h (AVar gy) (AObj (PyBool mask)) (PyFloat g) (PyBool mask)
              (PyFloat G) Hgy eq_refl) as (gx & h' & Hrun & _ & Hd).
  { unfold arith_forward, as_float, obind.
    rewrite (np_binop_same_shape bk_mul g (np_map bk_of_bool mask))
      by (simpl; congruence).
    reflexivity. }
  exists gx, h', G. split; [|split; [exact Hd|split; [exact Hs|split]]].
  - unfold Clip_backward.
    run (read_data_run h x (PyFloat a) Hx).
    run (eq_refl : lift (as_float (PyFloat a)) h = Some (a, h)).
    fold mask. now run Hrun.
  - unfold Clip_forward, np_map. simpl. f_equal. rewrite map_map.
    apply map_ext. intros v.
    change (@bk_max R _) with Rmax. change (@bk_min R _) with Rmin.
    unfold Rmin, Rmax.
    repeat case_Rle_dec; lra.
  - intros i Hi c.
    assert (Hc : c = Rmin (Rmax (get a i) lo) hi).
    { unfold c, Clip_forward. now rewrite get_np_map. }
    assert (HG : get G i
                 = (get g i
                    * bk_of_bool (bk_ge (get a i) lo && bk_le (get a i) hi))%R).
    { unfold G. rewrite get_tabulate by (now rewrite Hs).
      unfold mask. rewrite !get_np_map; try assumption; try reflexivity.
      unfold wf, np_map. simpl. now rewrite length_map. }
    split; [exact Hc|]. rewrite Hc, HG. clear Hc HG. simpl.
    unfold bk_of_bool, bk_one, bk_zero. simpl. unfold Rmin, Rmax.
    repeat split; intros; repeat case_Rle_dec; simpl; lra.
Qed.

Lemma Clip_passes_gradient_in_range_witness :
  exists gx h' G,
    Clip_backward (-1)%R 1%R [0] 2 relu_store = Some ([Some gx], h') /\
    var_data h' gx = Some (PyFloat G) /\ shape G = shape relu_x /\
    Clip_forward (-1)%R 1%R (Clip_forward (-1)%R 1%R relu_x)
    = Clip_forward (-1)%R 1%R relu_x /\
    forall i, in_bounds (shape relu_x) i ->
      let c := get (Clip_forward (-1)%R 1%R relu_x) i in
      c = Rmin (Rmax (get relu_x i) (-1)) 1 /\
      ((-1 <= 1)%R -> (-1 <= c <= 1)%R) /\
      ((-1 <= get relu_x i <= 1)%R ->
       c = get relu_x i /\ get G i = get relu_gy i) /\
      ((get relu_x i < -1)%R \/ (1 < get relu_x i)%R -> get G i = 0%R) /\
      ((1 < -1)%R -> c = 1%R /\ get G i = 0%R).
Proof.
  apply (Clip_passes_gradient_in_range relu_store 2 0 relu_x relu_gy
                                       (-1)%R 1%R); reflexivity.
Defined.

(* ------------------------------------------------------------------ *)
(** ** accuracy                                                        *)
(* ------------------------------------------------------------------ *)

(** [argmax_from] continues a scan: with the greatest element of the
    prefix [p] at [bi], the first among equals, the result is the position
    of the first greatest element of the whole list. *)
Lemma argmax_from_spec (l p : list R) (bi k : nat) :
  bi < length p ->
  (forall j, j < length p -> (nth j p 0 <= nth bi p 0)%R) ->
  (forall j, j < bi -> (nth j p 0 < nth bi p 0)%R) ->
  k = argmax_from (nth bi p 0%R) bi (length p) l ->
  k < length (p ++ l) /\
  (forall j, j < length (p ++ l) ->
             (nth j (p ++ l) 0 <= nth k (p ++ l) 0)%R) /\
  (forall j, j < k -> (nth j (p ++ l) 0 < nth k (p ++ l) 0)%R).
Proof.
  revert p bi. induction l as [|v l IH]; intros p bi Hbi Hmax Hfirst Hk.
  - simpl in Hk. subst k. rewrite app_nil_r. auto.
  - assert (Hpv : nth (length p) (p ++ [v]) 0%R = v)
      by (now rewrite app_nth2, Nat.sub_diag by lia).
    assert (Hpre : forall j, j < length p ->
                             nth j (p ++ [v]) 0%R = nth j p 0%R)
      by (intros; now rewrite app_nth1).
    assert (Hlen : length (p ++ [v]) = S (length p))
      by (rewrite length_app; simpl; lia).
    replace (p ++ v :: l) with ((p ++ [v]) ++ l)
      by (now rewrite <- app_assoc).
    simpl in Hk.
    change (bk_gt v (nth bi p 0%R))
      with (if Rlt_dec (nth bi p 0%R) v then true else false) in Hk.
    destruct (Rlt_dec (nth bi p 0%R) v) as [Hlt|Hge].
    + apply (IH (p ++ [v]) (length p)).
      * lia.
      * intros j Hj. rewrite Hpv.
        destruct (Nat.eq_dec j (length p)) as [->|Hne]; [rewrite Hpv; lra|].
        rewrite Hpre by lia. specialize (Hmax j ltac:(lia)). lra.
      * intros j Hj. rewrite Hpv, Hpre by lia.
        specialize (Hmax j Hj). lra.
      * now rewrite Hpv, Hlen.
    + apply (IH (p ++ [v]) bi).
      * lia.
      * intros j Hj. rewrite (Hpre bi Hbi).
        destruct (Nat.eq_dec j (length p)) as [->|Hne]; [rewrite Hpv; lra|].
        rewrite Hpre by lia. apply Hmax. lia.
      * intros j Hj. rewrite !Hpre by lia. now apply Hfirst.
      * now rewrite (Hpre bi Hbi), Hlen.
Qed.

(** [argmax_list] is the position of the first greatest element. *)
Lemma argmax_list_spec (l : list R) :
  l <> [] ->
  argmax_list l < length l /\
  (forall j, j < length l -> (nth j l 0 <= nth (argmax_list l) l 0)%R) /\
  (forall j, j < argmax_list l -> (nth j l 0 < nth (argmax_list l) l 0)%R).
Proof.
  destruct l as [|v l]; [congruence|]. intros _.
  apply (argmax_from_spec l [v] 0).
  - simpl. lia.
  - intros j Hj. simpl in Hj. assert (j = 0) as -> by lia. simpl. lra.
  - intros j Hj. lia.
  - reflexivity.
Qed.

Lemma lane_matrix_row (ya : ndarray R) (N C i : nat) :
  shape ya = [N; C] ->
  lane ya (reduce_mask 2 [1]) false [i] = matrix_row ya C i.
Proof.
  intros Hs. unfold lane, matrix_row. rewrite Hs.
  change (reduce_mask 2 [1]) with [false; true].
  change (lane_shape [false; true] [N; C]) with [1; C].
  change (expand [false; true] [i]) with [i; 0].
  change (indices [1; C])
    with (map (cons 0) (flat_map (fun c => [[c]]) (seq 0 C)) ++ []).
  rewrite app_nil_r, map_map.
  rewrite (map_flat_map_singleton
             (fun r => get ya (add_idx [i; 0] (0 :: r))) (fun c => [c])).
  apply map_ext. intros c. unfold add_idx. simpl. now rewrite Nat.add_0_r.
Qed.

Lemma Rsum_bools {X} (f : X -> bool) (l : list X) :
  fold_left Rplus (map (@bk_of_bool R _) (map f l)) 0%R
  = IZR (Z.of_nat (length (filter f l))).
Proof.
  change (fold_left Rplus ?u 0%R) with (Rsum u).
  induction l as [|x l IH]; simpl; [reflexivity|].
  rewrite Rsum_cons, IH. destruct (f x); simpl length.
  - rewrite Nat2Z.inj_succ, succ_IZR. unfold bk_of_bool, bk_one. simpl. ring.
  - unfold bk_of_bool, bk_zero. simpl. ring.
Qed.

(** X16.  [accuracy] returns the fraction of the rows of the scores whose first
    greatest score stands at the column named by the label: a number
    between 0 and 1, which is 1 exactly when every row is a hit.  The
    result is a fresh leaf: one node is added to the store and no function
    is recorded, also with graph recording on, so no gradient flows
    through it.  (Exact real arithmetic.) *)
Theorem accuracy_is_fraction_of_hits
        (h : Heap R) (y t : nat) (ya : ndarray R) (ta : ndarray Z)
        (N C : nat) :
  var_data h y = Some (PyFloat ya) -> var_data h t = Some (PyInt ta) ->
  shape ya = [N; C] -> shape ta = [N] -> 0 < N -> 0 < C ->
  exists acc,
    accuracy (AVar y) (AVar t) h
    = Some (length (h_vars h),
            mk_Heap (h_vars h ++ [Variable_init (PyFloat (scalar acc))])
                    (h_funcs h) (h_config h)) /\
    acc = (IZR (Z.of_nat (hits ya ta N C)) / IZR (Z.of_nat N))%R /\
    (0 <= acc <= 1)%R /\
    (acc = 1%R <-> hits ya ta N C = N) /\
    forall i, i < N ->
      let k := argmax_list (matrix_row ya C i) in
      k < C /\
      (forall c, c < C -> (get ya [i; c] <= get ya [i; k])%R) /\
      (forall c, c < k -> (get ya [i; c] < get ya [i; k])%R).
Proof.
  intros Hy Ht Hsy Hst HN HC.
  set (am := tabulate [N]
               (fun j => Z.of_nat
                           (argmax_list (lane ya (reduce_mask 2 [1]) false j)))).
  assert (Ham : np_argmax ya 1 = Some am).
  { unfold np_argmax, ndim. rewrite Hsy.
    replace (norm_axis (length [N; C]) 1) with (Some 1) by reflexivity.
    cbn [obind nth length].
    replace (C =? 0) with false by (symmetry; apply Nat.eqb_neq; lia).
    reflexivity. }
  assert (Hre : np_reshape am (shape_req (shape ta)) = Some am).
  { unfold np_reshape. rewrite Hst.
    now rewrite (resolve_shape_req (size (shape am)) [N] eq_refl). }
  set (result := tabulate [N] (fun j => (get am j =? get ta j)%Z)).
  assert (Hres : np_binop Z.eqb am ta = Some result)
    by (now rewrite (np_binop_same_shape Z.eqb am ta Hst)).
  assert (Hhits : fold_left Rplus (map bk_of_bool (data result)) 0%R
                  = IZR (Z.of_nat (hits ya ta N C))).
  { unfold result, tabulate. cbn [data].
    change (indices [N]) with (flat_map (fun i => [[i]]) (seq 0 N)).
    rewrite (map_flat_map_singleton
               (fun j => (get am j =? get ta j)%Z) (fun i => [i])).
    rewrite Rsum_bools. unfold hits. do 3 f_equal.
    apply filter_ext_in. intros i Hi. apply in_seq in Hi.
    unfold am. rewrite get_tabulate by (repeat constructor; lia).
    now rewrite (lane_matrix_row ya N C i Hsy). }
  assert (Hle : hits ya ta N C <= N).
  { unfold hits.
    pose proof (filter_length_le
                  (fun i => (Z.of_nat (argmax_list (matrix_row ya C i))
                             =? get ta [i])%Z) (seq 0 N)) as Hf.
    now rewrite length_seq in Hf. }
  assert (HNr : (0 < IZR (Z.of_nat N))%R) by (apply IZR_lt; lia).
  assert (Hhr : (0 <= IZR (Z.of_nat (hits ya ta N C)) <= IZR (Z.of_nat N))%R)
    by (split; apply IZR_le; lia).
  exists (IZR (Z.of_nat (hits ya ta N C)) / IZR (Z.of_nat N))%R.
  split; [|split; [reflexivity|split; [|split]]].
  - unfold accuracy. simpl as_variable.
    run (eq_refl : ret (A := R) y h = Some (y, h)).
    run (eq_refl : ret (A := R) t h = Some (t, h)).
    run (read_data_run h y (PyFloat ya) Hy).
    run (read_data_run h t (PyInt ta) Ht).
    cbv iota. unfold lift at 1. rewrite Ham.
    unfold bind at 1. unfold lift at 1. rewrite Hre.
    unfold bind at 1. unfold lift at 1. rewrite Hres.
    unfold bind at 1. unfold new_var. do 6 f_equal.
    unfold np_mean_bool. change (shape result) with [N].
    change (bk_div ?u (bk_of_Z ?z)) with (u / IZR z)%R.
    change (fold_left bk_add ?u bk_zero) with (fold_left Rplus u 0%R).
    rewrite Hhits. simpl size. now rewrite Nat.mul_1_r.
  - split.
    + apply Rmult_le_pos; [lra|]. left. now apply Rinv_0_lt_compat.
    + apply (Rmult_le_reg_r (IZR (Z.of_nat N))); [exact HNr|].
      unfold Rdiv. rewrite Rmult_assoc, Rinv_l by lra. lra.
  - split.
    + intros Hone.
      assert (E : IZR (Z.of_nat (hits ya ta N C)) = IZR (Z.of_nat N)).
      { apply (Rmult_eq_reg_r (/ IZR (Z.of_nat N))).
        - fold (Rdiv (IZR (Z.of_nat (hits ya ta N C))) (IZR (Z.of_nat N))).
          rewrite Hone. rewrite Rinv_r by lra. reflexivity.
        - apply Rinv_neq_0_compat. lra. }
      apply eq_IZR in E. lia.
    + intros ->. unfold Rdiv. apply Rinv_r. lra.
  - intros i Hi k.
    assert (Hrow : matrix_row ya C i <> []).
    { unfold matrix_row. destruct C; [lia|]. simpl. discriminate. }
    destruct (argmax_list_spec (matrix_row ya C i) Hrow) as (Hk & Hmax & Hfirst).
    fold k in Hk, Hmax, Hfirst.
    assert (Hlen : length (matrix_row ya C i) = C)
      by (unfold matrix_row; now rewrite length_map, length_seq).
    assert (Hnth : forall c, c < C ->
                             nth c (matrix_row ya C i) 0%R = get ya [i; c]).
    { intros c Hc. unfold matrix_row.
      rewrite (nth_indep _ 0%R (get ya [i; 0]))
        by (now rewrite length_map, length_seq).
      rewrite (map_nth (fun c => get ya [i; c])). now rewrite seq_nth. }
    rewrite Hlen in Hk, Hmax. split; [exact Hk|]. split.
    + intros c Hc. rewrite <- !Hnth by lia. now apply Hmax.
    + intros c Hc. rewrite <- !Hnth by lia. now apply Hfirst.
Qed.

Lemma accuracy_is_fraction_of_hits_witness :
  exists acc,
    accuracy (AVar 0) (AVar 1) accuracy_store
    = Some (length (h_vars accuracy_store),
            mk_Heap (h_vars accuracy_store
                     ++ [Variable_init (PyFloat (scalar acc))])
                    (h_funcs accuracy_store) (h_config accuracy_store)) /\
    acc = (IZR (Z.of_nat (hits scores_2x3 labels_1_2 2 3))
           / IZR (Z.of_nat 2))%R /\
    (0 <= acc <= 1)%R /\
    (acc = 1%R <-> hits scores_2x3 labels_1_2 2 3 = 2) /\
    forall i, i < 2 ->
      let k := argmax_list (matrix_row scores_2x3 3 i) in
      k < 3 /\
      (forall c, c < 3 -> (get scores_2x3 [i; c] <= get scores_2x3 [i; k])%R) /\
      (forall c, c < k -> (get scores_2x3 [i; c] < get scores_2x3 [i; k])%R).
Proof.
  apply (accuracy_is_fraction_of_hits accuracy_store 0 1 scores_2x3 labels_1_2
                                      2 3); try reflexivity; lia.
Defined.

(* ================================================================== *)
(** * Properties of [common/util.py]                                   *)
(* ================================================================== *)

(* ------------------------------------------------------------------ *)
(** ** Dicts                                                           *)
(* ------------------------------------------------------------------ *)

Section DictLemmas.
Context {K V : Type} (eqb : K -> K -> bool).
Hypothesis eqb_spec : forall a b, eqb a b = true <-> a = b.

Lemma dict_get_In (d : Dict K V) (k : K) (v : V) :
  NoDup (map fst d) -> (dict_get eqb d k = Some v <-> In (k, v) d).
Proof.
  induction d as [|[k' v'] d IH]; intros Hnd; simpl.
  - split; [discriminate|contradiction].
  - inversion Hnd as [|? ? Hk' Hnd']; subst.
    destruct (eqb k' k) eqn:E.
    + apply eqb_spec in E. subst k'. split.
      * intros [= ->]. now left.
      * intros [[= ->]|Hin]; [reflexivity|].
        exfalso. apply Hk'. apply (in_map fst) in Hin. exact Hin.
    + rewrite (IH Hnd'). split; [now right|].
      intros [[= -> ->]|Hin]; [|exact Hin].
      assert (eqb k k = true) by (now apply eqb_spec). congruence.
Qed.

Lemma dict_get_None (d : Dict K V) (k : K) :
  dict_get eqb d k = None <-> ~ In k (map fst d).
Proof.
  induction d as [|[k' v'] d IH]; simpl.
  - split; auto.
  - destruct (eqb k' k) eqn:E.
    + apply eqb_spec in E. split; [discriminate|]. intros Hn. exfalso. auto.
    + rewrite IH. split.
      * intros Hn [->|Hin]; [|auto].
        assert (eqb k k = true) by (now apply eqb_spec). congruence.
      * intros Hn Hin. apply Hn. now right.
Qed.

Lemma dict_set_new (d : Dict K V) (k : K) (v : V) :
  dict_get eqb d k = None -> dict_set eqb d k v = d ++ [(k, v)].
Proof.
  induction d as [|[k' v'] d IH]; simpl; [reflexivity|].
  destruct (eqb k' k); [discriminate|]. intros Hn. now rewrite IH.
Qed.
End DictLemmas.

(* ------------------------------------------------------------------ *)
(** ** preprocess                                                      *)
(* ------------------------------------------------------------------ *)

Lemma split_space_nonempty (s : string) : split_space s <> [].
Proof.
  destruct s as [|c s]; simpl; [discriminate|].
  destruct (Ascii.eqb c space_char); [discriminate|].
  destruct (split_space s); discriminate.
Qed.

(** Joining the pieces with single spaces gives the text back. *)
Lemma concat_split_space (s : string) :
  String.concat (String space_char EmptyString) (split_space s) = s.
Proof.
  induction s as [|c s IH]; [reflexivity|]. simpl split_space.
  destruct (Ascii.eqb c space_char) eqn:E.
  - apply Ascii.eqb_eq in E. subst c.
    pose proof (split_space_nonempty s) as Hne.
    destruct (split_space s) as [|w ws] eqn:Es; [congruence|].
    change (String.concat (String space_char EmptyString) (EmptyString :: w :: ws))
      with (String space_char
              (String.concat (String space_char EmptyString) (w :: ws))).
    now rewrite IH.
  - pose proof (split_space_nonempty s) as Hne.
    destruct (split_space s) as [|w ws] eqn:Es; [congruence|].
    destruct ws as [|w' ws]; simpl in *; now rewrite <- IH.
Qed.

Lemma preprocess_step_inv (st : Dict string nat * Dict nat string)
      (seen : list string) (w : string) :
  preprocess_inv st seen -> preprocess_inv (preprocess_step st w) (seen ++ [w]).
Proof.
  destruct st as [w2i i2w]. unfold preprocess_inv, preprocess_step, dict_in.
  intros (Hi2w & Hids & Hnd & Hseen).
  destruct (dict_get String.eqb w2i w) as [id|] eqn:E; cbn [negb].
  - repeat split; try assumption.
    + intros Hin. apply in_app_or in Hin as [Hin|[<-|[]]];
        [now apply Hseen|].
      apply (dict_get_In String.eqb String.eqb_eq w2i w id Hnd) in E.
      apply (in_map fst) in E. exact E.
    + intros Hin. apply in_or_app. left. now apply Hseen.
  - pose proof (proj1 (dict_get_None String.eqb String.eqb_eq w2i w) E) as Hnew.
    rewrite (dict_set_new String.eqb w2i w (length w2i) E).
    assert (Ei : dict_get Nat.eqb i2w (length w2i) = None).
    { apply (dict_get_None Nat.eqb Nat.eqb_eq). rewrite Hi2w, map_map. simpl.
      change (map (fun x : string * nat => snd x) w2i) with (map snd w2i).
      rewrite Hids. intros Hin. apply in_seq in Hin. lia. }
    rewrite (dict_set_new Nat.eqb i2w (length w2i) w Ei).
    repeat split.
    + rewrite Hi2w, map_app. reflexivity.
    + rewrite map_app, length_app, Hids. simpl.
      now rewrite Nat.add_1_r, seq_S.
    + rewrite map_app. simpl. apply NoDup_app; [exact Hnd| |].
      * constructor; [intros []|constructor].
      * intros k Hk [<-|[]]. contradiction.
    + intros Hin. rewrite map_app. apply in_or_app.
      apply in_app_or in Hin as [Hin|Hin]; [left; now apply Hseen|now right].
    + intros Hin. rewrite map_app in Hin. apply in_or_app.
      apply in_app_or in Hin as [Hin|Hin]; [left; now apply Hseen|now right].
Qed.

Lemma preprocess_fold_inv (words seen : list string)
      (st : Dict string nat * Dict nat string) :
  preprocess_inv st seen ->
  preprocess_inv (fold_left preprocess_step words st) (seen ++ words).
Proof.
  revert st seen. induction words as [|w words IH]; intros st seen Hinv; simpl.
  - now rewrite app_nil_r.
  - replace (seen ++ w :: words) with ((seen ++ [w]) ++ words)
      by (now rewrite <- app_assoc).
    apply IH. now apply preprocess_step_inv.
Qed.

(** The loop only ever adds at the end of the first dict. *)
Lemma preprocess_fold_prefix (words : list string)
      (st : Dict string nat * Dict nat string) :
  exists more, fst (fold_left preprocess_step words st) = fst st ++ more.
Proof.
  revert st. induction words as [|w words IH]; intros st; simpl.
  - exists []. now rewrite app_nil_r.
  - destruct (IH (preprocess_step st w)) as (more & ->).
    destruct st as [w2i i2w]. unfold preprocess_step, dict_in.
    destruct (dict_get String.eqb w2i w) eqn:E; cbn [negb fst].
    + now exists more.
    + rewrite (dict_set_new String.eqb w2i w (length w2i) E).
      exists ((w, length w2i) :: more). now rewrite <- app_assoc.
Qed.

Lemma omapM_Forall2 {X Y} (f : X -> option Y) (l : list X) (ys : list Y) :
  omapM f l = Some ys <-> Forall2 (fun x y => f x = Some y) l ys.
Proof.
  revert ys. induction l as [|x l IH]; intros ys; simpl.
  - split; [intros [= <-]; constructor|intros Hf; now inversion Hf].
  - destruct (f x) as [y|] eqn:E; simpl.
    + destruct (omapM f l) as [ys'|]; simpl.
      * split.
        -- intros [= <-]. constructor; [exact E|now apply IH].
        -- intros Hf. inversion Hf as [|? y' ? ys'' Hy Hys]; subst.
           apply IH in Hys. congruence.
      * split; [discriminate|].
        intros Hf. inversion Hf as [|? y' ? ys'' Hy Hys]; subst.
        apply IH in Hys. discriminate.
    + split; [discriminate|].
      intros Hf. inversion Hf. congruence.
Qed.

Lemma omapM_total {X Y} (f : X -> option Y) (l : list X) :
  (forall x, In x l -> exists y, f x = Some y) ->
  exists ys, omapM f l = Some ys.
Proof.
  induction l as [|x l IH]; intros Hf; simpl; [now eexists|].
  destruct (Hf x (or_introl eq_refl)) as (y & ->).
  destruct IH as (ys & ->); [intros; apply Hf; now right|].
  simpl. now eexists.
Qed.

Lemma preprocess_run (text : string) :
  exists corpus w2i i2w,
    preprocess text = Some (corpus, w2i, i2w) /\
    preprocess_inv (w2i, i2w) (preprocess_words text) /\
    Forall2 (fun w id => dict_get String.eqb w2i w = Some id)
            (preprocess_words text) corpus /\
    exists w0 more, w2i = (w0, 0) :: more /\ hd_error (preprocess_words text) = Some w0.
Proof.
  unfold preprocess. set (words := preprocess_words text).
  pose proof (preprocess_fold_inv words [] ([], [])) as Hinv.
  simpl app in Hinv.
  destruct (fold_left preprocess_step words ([], [])) as [w2i i2w] eqn:Ef.
  assert (Hinv' : preprocess_inv (w2i, i2w) words).
  { apply Hinv. repeat split; simpl; auto; try constructor; contradiction. }
  clear Hinv. pose proof Hinv' as (Hi2w & Hids & Hnd & Hseen).
  destruct (omapM_total (dict_get String.eqb w2i) words) as (corpus & Hc).
  { intros w Hw. apply Hseen in Hw. apply in_map_iff in Hw as ([w' id] & <- & Hin).
    exists id. now apply (dict_get_In String.eqb String.eqb_eq). }
  rewrite Hc. simpl. exists corpus, w2i, i2w.
  split; [reflexivity|]. split; [exact Hinv'|].
  split; [now apply omapM_Forall2|].
  assert (Hne : words <> []) by apply split_space_nonempty.
  destruct words as [|w0 words'] eqn:Ew; [congruence|].
  change (fold_left preprocess_step (w0 :: words') ([], []))
    with (fold_left preprocess_step words' ([(w0, 0)], [(0, w0)])) in Ef.
  destruct (preprocess_fold_prefix words' ([(w0, 0)], [(0, w0)]))
    as (more & Hpre).
  rewrite Ef in Hpre. simpl in Hpre. now exists w0, more.
Qed.

(** X17.  [preprocess] never fails, and what it returns can be read back.
    Looking up the ids of the corpus in [id_to_word] gives the words of
    the text in order, and joining them with single spaces gives the
    text in lower case with a space put before every full stop.  The two
    dictionaries are inverse to each other, and the keys of [word_to_id]
    are exactly the words of the text. *)
Theorem preprocess_round_trip (text : string) :
  exists corpus word_to_id id_to_word,
    preprocess text = Some (corpus, word_to_id, id_to_word) /\
    omapM (dict_get Nat.eqb id_to_word) corpus
    = Some (preprocess_words text) /\
    String.concat (String space_char EmptyString) (preprocess_words text)
    = replace_dot (str_lower text) /\
    (forall w id, dict_get String.eqb word_to_id w = Some id <->
                  dict_get Nat.eqb id_to_word id = Some w) /\
    (forall w, dict_in String.eqb word_to_id w = true <->
               In w (preprocess_words text)).
Proof.
  destruct (preprocess_run text)
    as (corpus & w2i & i2w & Hrun & (Hi2w & Hids & Hnd & Hseen) & Hc & _).
  assert (Hnd2 : NoDup (map fst i2w)).
  { rewrite Hi2w, map_map. simpl.
    change (map (fun x : string * nat => snd x) w2i) with (map snd w2i).
    rewrite Hids. apply seq_NoDup. }
  assert (Hinv : forall w id, dict_get String.eqb w2i w = Some id <->
                              dict_get Nat.eqb i2w id = Some w).
  { intros w id.
    rewrite (dict_get_In String.eqb String.eqb_eq w2i w id Hnd).
    rewrite (dict_get_In Nat.eqb Nat.eqb_eq i2w id w Hnd2).
    rewrite Hi2w, in_map_iff. split.
    - intros Hin. now exists (w, id).
    - intros ([w' id'] & [= <- <-] & Hin). exact Hin. }
  exists corpus, w2i, i2w. split; [exact Hrun|]. split; [|split; [|split]].
  - apply omapM_Forall2. clear - Hc Hinv.
    induction Hc as [|w id ws ids Hw Hc IH]; constructor; [|exact IH].
    now apply Hinv.
  - apply concat_split_space.
  - exact Hinv.
  - intros w. unfold dict_in. rewrite Hseen. split.
    + destruct (dict_get String.eqb w2i w) as [id|] eqn:E; [|discriminate].
      intros _. apply (dict_get_In String.eqb String.eqb_eq w2i w id Hnd) in E.
      now apply (in_map fst) in E.
    + intros Hin.
      destruct (dict_get String.eqb w2i w) eqn:E; [reflexivity|].
      now apply (dict_get_None String.eqb String.eqb_eq) in E.
Qed.

(** X18.  The ids that [preprocess] hands out are dense.  With [V] words in
    [word_to_id], the ids are 0, ..., V-1 in the order in which the words
    first occur, and [id_to_word] has them as keys in that order; the
    corpus is never empty (a text without any space is one word), it
    starts with id 0, every id of it is below [V], and every id below [V]
    occurs in it. *)
Theorem preprocess_ids_are_dense (text : string) :
  exists corpus word_to_id id_to_word,
    preprocess text = Some (corpus, word_to_id, id_to_word) /\
    let V := length word_to_id in
    map snd word_to_id = seq 0 V /\ map fst id_to_word = seq 0 V /\
    NoDup (map fst word_to_id) /\
    length corpus = length (preprocess_words text) /\
    hd_error corpus = Some 0 /\
    Forall (fun id => id < V) corpus /\
    forall id, id < V -> In id corpus.
Proof.
  destruct (preprocess_run text)
    as (corpus & w2i & i2w & Hrun & (Hi2w & Hids & Hnd & Hseen) & Hc
        & (w0 & more & Hw0 & Hhd)).
  exists corpus, w2i, i2w. split; [exact Hrun|]. intros V.
  assert (Hlt : forall w id, dict_get String.eqb w2i w = Some id -> id < V).
  { intros w id E.
    apply (dict_get_In String.eqb String.eqb_eq w2i w id Hnd) in E.
    apply (in_map snd) in E. rewrite Hids in E. apply in_seq in E.
    simpl in E. lia. }
  split; [exact Hids|]. split; [|split; [exact Hnd|split; [|split; [|split]]]].
  - rewrite Hi2w, map_map. simpl.
    change (map (fun x : string * nat => snd x) w2i) with (map snd w2i).
    exact Hids.
  - symmetry. exact (Forall2_length Hc).
  - destruct Hc as [|w id ws ids Hw Hc]; [discriminate|].
    simpl in Hhd. injection Hhd as ->. rewrite Hw0 in Hw. simpl in Hw.
    rewrite String.eqb_refl in Hw. simpl. congruence.
  - clear - Hc Hlt. induction Hc as [|w id ws ids Hw Hc IH]; constructor;
      eauto.
  - intros id Hid.
    assert (Hin : In id (map snd w2i)) by (rewrite Hids; apply in_seq; lia).
    apply in_map_iff in Hin as ([w id'] & Hid' & Hin). simpl in Hid'. subst id'.
    assert (Hw : In w (preprocess_words text)).
    { apply Hseen. now apply (in_map fst) in Hin. }
    apply (dict_get_In String.eqb String.eqb_eq w2i w id Hnd) in Hin.
    clear - Hc Hw Hin. induction Hc as [|w' id' ws ids Hw' Hc IH];
      [contradiction|].
    destruct Hw as [->|Hw]; [left; congruence|right; now apply IH].
Qed.

(* ------------------------------------------------------------------ *)
(** ** create_contexts_target                                          *)
(* ------------------------------------------------------------------ *)

Lemma omapM_map_seq {X Y} (f : X -> option Y) (g : nat -> X) (hf : nat -> Y)
      (a n : nat) :
  (forall k, a <= k < a + n -> f (g k) = Some (hf k)) ->
  omapM f (map g (seq a n)) = Some (map hf (seq a n)).
Proof.
  revert a. induction n as [|n IH]; intros a Hf; simpl; [reflexivity|].
  rewrite Hf by lia. simpl. rewrite IH by (intros; apply Hf; lia).
  reflexivity.
Qed.

Lemma omapM_app {X Y} (f : X -> option Y) (l1 l2 : list X) (r1 r2 : list Y) :
  omapM f l1 = Some r1 -> omapM f l2 = Some r2 ->
  omapM f (l1 ++ l2) = Some (r1 ++ r2).
Proof.
  revert r1. induction l1 as [|x l1 IH]; intros r1; simpl.
  - now intros [= <-].
  - destruct (f x); simpl; [|discriminate].
    destruct (omapM f l1) as [r|]; simpl; [|discriminate].
    intros [= <-] H2. now rewrite (IH r eq_refl H2).
Qed.

Lemma py_index_of_nat {X} (l : list X) (p : nat) :
  p < length l -> py_index l (Z.of_nat p) = nth_error l p.
Proof.
  intros Hp. unfold py_index, norm_index.
  now rewrite (norm_axis_of_nat Hp).
Qed.

Lemma map_nth_error_seq {X} (l : list X) (a n : nat) :
  a + n <= length l ->
  omapM (fun p => nth_error l p) (seq a n) = Some (firstn n (skipn a l)).
Proof.
  revert a l. induction n as [|n IH]; intros a l Hl; simpl; [reflexivity|].
  destruct (nth_error l a) as [x|] eqn:E.
  - simpl. rewrite (IH (S a) l) by lia. simpl. f_equal.
    clear IH. revert l Hl E. induction a as [|a IHa]; intros l Hl E.
    + destruct l; simpl in *; [discriminate|]. now injection E as ->.
    + destruct l; simpl in *; [discriminate|]. apply IHa; [lia|exact E].
  - apply nth_error_None in E. lia.
Qed.

Lemma seq_from_zero (a n : nat) :
  seq a n = map (fun j => a + j) (seq 0 n).
Proof.
  revert a. induction n as [|n IH]; intros a; simpl; [reflexivity|].
  f_equal; [lia|]. rewrite (IH (S a)), (IH 1), map_map.
  apply map_ext. intros; lia.
Qed.

(** The offsets of a window: [-w, ..., -1, 1, ..., w]. *)
Lemma window_offsets (w : nat) :
  filter (fun t => negb (t =? 0)%Z) (py_range (- Z.of_nat w) (Z.of_nat w + 1))
  = map (fun j => (Z.of_nat j - Z.of_nat w)%Z) (seq 0 w)
    ++ map (fun j => (Z.of_nat j + 1)%Z) (seq 0 w).
Proof.
  unfold py_range.
  replace (Z.to_nat (Z.of_nat w + 1 - - Z.of_nat w)) with (w + S w) by lia.
  rewrite seq_app, map_app, filter_app. f_equal.
  - rewrite forallb_filter_id.
    + apply map_ext. intros; lia.
    + apply forallb_forall. intros t Ht. apply in_map_iff in Ht.
      destruct Ht as [k [<- Hk]]. apply in_seq in Hk.
      apply negb_true_iff, Z.eqb_neq. lia.
  - change (seq (0 + w) (S w)) with (w :: seq (S w) w).
    cbn [map filter].
    replace (- Z.of_nat w + Z.of_nat w =? 0)%Z with true
      by (symmetry; apply Z.eqb_eq; lia).
    cbn [negb]. rewrite forallb_filter_id.
    + rewrite (seq_from_zero (S w) w), map_map.
      apply map_ext. intros; lia.
    + apply forallb_forall. intros t Ht. apply in_map_iff in Ht.
      destruct Ht as [k [<- Hk]]. apply in_seq in Hk.
      apply negb_true_iff, Z.eqb_neq. lia.
Qed.

Lemma omapM_window {X} (f : Z -> option X) (g : nat -> Z) (l : list X)
      (a n : nat) :
  (forall j, j < n -> f (g j) = nth_error l (a + j)) ->
  a + n <= length l ->
  omapM f (map g (seq 0 n)) = Some (firstn n (skipn a l)).
Proof.
  intros Hf Hl. rewrite <- (map_nth_error_seq l a n Hl).
  rewrite (seq_from_zero a n).
  assert (Hgen : forall s, (forall j, In j s -> j < n) ->
            omapM f (map g s)
            = omapM (fun p => nth_error l p) (map (fun j => a + j) s)).
  { induction s as [|j s IH]; intros Hs; simpl; [reflexivity|].
    rewrite (Hf j) by (apply Hs; now left).
    rewrite IH by (intros; apply Hs; now right). reflexivity. }
  apply Hgen. intros j Hj. apply in_seq in Hj. lia.
Qed.

Lemma py_slice_window {X} (l : list X) (w : nat) :
  py_slice l (Z.of_nat w) (- Z.of_nat w)
  = match w with
    | 0 => []
    | S _ => firstn (length l - 2 * w) (skipn w l)
    end.
Proof.
  unfold py_slice, slice_bound. destruct w as [|w].
  - simpl. reflexivity.
  - replace (Z.of_nat (S w) <? 0)%Z with false by (symmetry; apply Z.ltb_ge; lia).
    replace (- Z.of_nat (S w) <? 0)%Z with true by (symmetry; apply Z.ltb_lt; lia).
    rewrite Nat2Z.id.
    destruct (Nat.le_gt_cases (length l) (S w)) as [Hle|Hgt].
    + rewrite Nat.min_r by lia.
      replace (Z.to_nat (Z.max (- Z.of_nat (S w) + Z.of_nat (length l)) 0)
               - length l) with 0 by lia.
      replace (length l - 2 * S w) with 0 by lia. reflexivity.
    + rewrite Nat.min_l by lia. f_equal. lia.
Qed.

(** X19.  [create_contexts_target(corpus, window_size)] never raises.  It
    gives one context for each position that has [window_size] words on
    both sides, that is [len(corpus) - 2 * window_size] contexts (none for
    a short corpus); the context of the [k]-th such position holds the
    [window_size] words before it and the [window_size] words after it, in
    corpus order, without the word itself.  For a positive window the
    target is the words at these positions, so contexts and target have
    the same length; for [window_size = 0] the slice [corpus[0:-0]] is
    empty, so the target is empty while there is one empty context per
    word. *)
Theorem create_contexts_target_windows (corpus : list Z) (window_size : nat) :
  exists contexts target,
    create_contexts_target corpus window_size = Some (contexts, target) /\
    length contexts = length corpus - 2 * window_size /\
    (forall k, k < length corpus - 2 * window_size ->
       nth k contexts []
       = firstn window_size (skipn k corpus)
         ++ firstn window_size (skipn (k + window_size + 1) corpus) /\
       length (nth k contexts []) = 2 * window_size) /\
    target = match window_size with
             | 0 => []
             | S _ => firstn (length corpus - 2 * window_size)
                             (skipn window_size corpus)
             end /\
    (length target = length contexts <-> window_size <> 0 \/ corpus = []).
Proof.
  set (w := window_size). set (n := length corpus - 2 * w).
  set (hf := fun k => firstn w (skipn k corpus)
                      ++ firstn w (skipn (k + w + 1) corpus)).
  assert (Hrun : create_contexts_target corpus w
                 = Some (map hf (seq 0 n),
                         py_slice corpus (Z.of_nat w) (- Z.of_nat w))).
  { unfold create_contexts_target. cbv zeta. unfold py_range at 2.
    replace (Z.to_nat (Z.of_nat (length corpus) - Z.of_nat w - Z.of_nat w))
      with n by (unfold n; lia).
    rewrite (omapM_map_seq _ _ hf 0 n); [reflexivity|].
    intros k Hk. rewrite window_offsets. unfold hf.
    apply omapM_app.
    - apply omapM_window; [|unfold n in Hk; lia].
      intros j Hj.
      replace (Z.of_nat w + Z.of_nat k + (Z.of_nat j - Z.of_nat w))%Z
        with (Z.of_nat (k + j)) by lia.
      apply py_index_of_nat. unfold n in Hk. lia.
    - apply omapM_window; [|unfold n in Hk; lia].
      intros j Hj.
      replace (Z.of_nat w + Z.of_nat k + (Z.of_nat j + 1))%Z
        with (Z.of_nat (k + w + 1 + j)) by lia.
      apply py_index_of_nat. unfold n in Hk. lia. }
  exists (map hf (seq 0 n)), (py_slice corpus (Z.of_nat w) (- Z.of_nat w)).
  split; [exact Hrun|].
  assert (Hlen : length (map hf (seq 0 n)) = n)
    by now rewrite length_map, length_seq.
  split; [exact Hlen|]. split; [|split].
  - intros k Hk.
    assert (Hnth : nth k (map hf (seq 0 n)) [] = hf k).
    { rewrite (nth_indep _ [] (hf 0)) by (rewrite Hlen; exact Hk).
      rewrite map_nth, seq_nth by exact Hk. reflexivity. }
    rewrite Hnth. split; [reflexivity|].
    unfold hf. rewrite length_app, !length_firstn, !length_skipn.
    unfold n in Hk. lia.
  - apply py_slice_window.
  - rewrite Hlen, py_slice_window. unfold n. destruct w as [|w'].
    + simpl. rewrite Nat.sub_0_r. split.
      * intros E. right. destruct corpus; [reflexivity|discriminate].
      * intros [E|E]; [congruence|]. now rewrite E.
    + rewrite length_firstn, length_skipn. split; [intros _; now left|].
      intros _. lia.
Qed.

(* ------------------------------------------------------------------ *)
(** ** cos_similarity                                                  *)
(* ------------------------------------------------------------------ *)

Lemma vec_sum_Rsum (v : list R) : vec_sum v = Rsum v.
Proof. reflexivity. Qed.

Lemma combine_map {X Y X' Y'} (f : X -> X') (g : Y -> Y')
      (x : list X) (y : list Y) :
  combine (map f x) (map g y)
  = map (fun p => (f (fst p), g (snd p))) (combine x y).
Proof.
  revert y. induction x as [|a x IH]; intros [|b y]; simpl; try reflexivity.
  now rewrite IH.
Qed.

Lemma map_fst_combine {X Y} (x : list X) (y : list Y) :
  length x = length y -> map fst (combine x y) = x.
Proof.
  revert y. induction x as [|a x IH]; intros [|b y] Hl; simpl in *;
    try reflexivity; try discriminate.
  now rewrite IH by lia.
Qed.

Lemma map_snd_combine {X Y} (x : list X) (y : list Y) :
  length x = length y -> map snd (combine x y) = y.
Proof.
  revert y. induction x as [|a x IH]; intros [|b y] Hl; simpl in *;
    try reflexivity; try discriminate.
  now rewrite IH by lia.
Qed.

Lemma combine_swap {X Y} (x : list X) (y : list Y) :
  combine y x = map (fun p => (snd p, fst p)) (combine x y).
Proof.
  revert y. induction x as [|a x IH]; intros [|b y]; simpl; try reflexivity.
  now rewrite IH.
Qed.

(** The inequality of Cauchy and Schwarz for the sums over a list of
    pairs. *)
Lemma Rsum_cauchy_schwarz (l : list (R * R)) :
  (0 <= Rsum (map (fun p => fst p * fst p) l) /\
   0 <= Rsum (map (fun p => snd p * snd p) l) /\
   Rsum (map (fun p => fst p * snd p) l)
   * Rsum (map (fun p => fst p * snd p) l)
   <= Rsum (map (fun p => fst p * fst p) l)
      * Rsum (map (fun p => snd p * snd p) l))%R.
Proof.
  induction l as [|[a b] l IH]; simpl.
  - unfold Rsum; simpl. lra.
  - rewrite !Rsum_cons. simpl.
    set (S := Rsum (map (fun p => fst p * snd p)%R l)) in *.
    set (X := Rsum (map (fun p => fst p * fst p)%R l)) in *.
    set (Y := Rsum (map (fun p => snd p * snd p)%R l)) in *.
    destruct IH as (HX & HY & HS). clearbody S X Y.
    assert (Haa : (0 <= a * a)%R) by (apply Rle_0_sqr).
    assert (Hbb : (0 <= b * b)%R) by (apply Rle_0_sqr).
    split; [lra|]. split; [lra|].
    assert (Hc : (2 * (a * b) * S <= a * a * Y + b * b * X)%R).
    { destruct (Rle_or_lt (2 * (a * b) * S) (a * a * Y + b * b * X))
        as [Hle|Hlt]; [exact Hle|exfalso].
      assert (H0 : (0 <= a * a * Y + b * b * X)%R) by nra.
      assert (H1 : ((a * a * Y + b * b * X) * (a * a * Y + b * b * X)
                    < (2 * (a * b) * S) * (2 * (a * b) * S))%R) by nra.
      assert (H2 : (0 <= (a * a * Y - b * b * X) * (a * a * Y - b * b * X))%R)
        by (apply Rle_0_sqr).
      assert (H3 : (0 <= (a * b) * (a * b) * (X * Y - S * S))%R).
      { apply Rmult_le_pos; [apply Rle_0_sqr|lra]. }
      nra. }
    nra.
Qed.

Lemma cos_similarity_value (x y : list R) (eps : R) :
  length x = length y ->
  cos_similarity x y eps
  = Some (Rsum (map (fun p => fst p * snd p) (combine x y))
          * (/ sqrt (vec_sum (vec_square x) + eps)
             * / sqrt (vec_sum (vec_square y) + eps)))%R.
Proof.
  intros Hl. unfold cos_similarity, vec_dot.
  rewrite !length_map, Hl, Nat.eqb_refl. f_equal.
  rewrite combine_map, map_map, vec_sum_Rsum. cbn [fst snd].
  rewrite <- Rsum_map_scale. f_equal. apply map_ext. intros [a b].
  cbn [fst snd bk_mul bk_div bk_sqrt bk_add R_backend R_backend_ord].
  unfold Rdiv. ring.
Qed.

Lemma vec_sum_square_nonneg (x : list R) : (0 <= vec_sum (vec_square x))%R.
Proof.
  rewrite vec_sum_Rsum. unfold vec_square. apply Rsum_map_nonneg.
  intros a _. apply Rle_0_sqr.
Qed.

(** X20.  [cos_similarity(x, y, eps)] with [eps > 0] on two vectors of one
    length never divides by zero: it is the inner product of [x] and [y]
    divided by [sqrt(|x|^2 + eps) * sqrt(|y|^2 + eps)].  It does not depend
    on the order of its arguments and lies strictly between -1 and 1; the
    similarity of a vector with itself is [|x|^2 / (|x|^2 + eps)], which is
    below 1, and 0 for the zero vector.  Vectors of different lengths
    raise. *)
Theorem cos_similarity_is_bounded (x y : list R) (eps : R) :
  (0 < eps)%R -> length x = length y ->
  exists c : R,
    cos_similarity x y eps = Some c /\
    cos_similarity y x eps = Some c /\
    (-1 < c < 1)%R /\
    c = (Rsum (map (fun p => fst p * snd p) (combine x y))
         / (sqrt (vec_sum (vec_square x) + eps)
            * sqrt (vec_sum (vec_square y) + eps)))%R /\
    cos_similarity x x eps
    = Some (vec_sum (vec_square x) / (vec_sum (vec_square x) + eps))%R /\
    (forall z : list R, length z <> length x -> cos_similarity x z eps = None).
Proof.
  intros Heps Hl.
  set (X := vec_sum (vec_square x)). set (Y := vec_sum (vec_square y)).
  set (S := Rsum (map (fun p => fst p * snd p)%R (combine x y))).
  pose proof (vec_sum_square_nonneg x) as HX. fold X in HX.
  pose proof (vec_sum_square_nonneg y) as HY. fold Y in HY.
  assert (Hna : (0 < sqrt (X + eps))%R) by (apply sqrt_lt_R0; lra).
  assert (Hnb : (0 < sqrt (Y + eps))%R) by (apply sqrt_lt_R0; lra).
  assert (Hna2 : (sqrt (X + eps) * sqrt (X + eps) = X + eps)%R)
    by (apply sqrt_sqrt; lra).
  assert (Hnb2 : (sqrt (Y + eps) * sqrt (Y + eps) = Y + eps)%R)
    by (apply sqrt_sqrt; lra).
  assert (HS : (S * S <= X * Y)%R).
  { destruct (Rsum_cauchy_schwarz (combine x y)) as (_ & _ & Hcs).
    fold S in Hcs.
    replace (Rsum (map (fun p => fst p * fst p)%R (combine x y))) with X in Hcs.
    replace (Rsum (map (fun p => snd p * snd p)%R (combine x y))) with Y in Hcs.
    - exact Hcs.
    - unfold Y, vec_square. rewrite vec_sum_Rsum.
      rewrite <- (map_snd_combine x y Hl) at 1. now rewrite map_map.
    - unfold X, vec_square. rewrite vec_sum_Rsum.
      rewrite <- (map_fst_combine x y Hl) at 1. now rewrite map_map. }
  set (na := sqrt (X + eps)) in *. set (nb := sqrt (Y + eps)) in *.
  exists (S / (na * nb))%R.
  split; [|split; [|split; [|split; [|split]]]].
  - rewrite (cos_similarity_value x y eps Hl). fold X Y S na nb.
    f_equal. field. split; lra.
  - rewrite (cos_similarity_value y x eps (eq_sym Hl)). fold X Y na nb.
    f_equal. rewrite (combine_swap x y), map_map. cbn [fst snd].
    replace (map (fun p : R * R => (snd p * fst p)%R) (combine x y))
      with (map (fun p : R * R => (fst p * snd p)%R) (combine x y))
      by (apply map_ext; intros; ring).
    fold S. field. split; lra.
  - assert (HP : (0 < na * nb)%R) by (apply Rmult_lt_0_compat; assumption).
    assert (HSP : (S * S < (na * nb) * (na * nb))%R).
    { replace ((na * nb) * (na * nb))%R
        with ((na * na) * (nb * nb))%R by ring.
      rewrite Hna2, Hnb2. nra. }
    assert (Hlo : (- (na * nb) < S)%R) by nra.
    assert (Hhi : (S < na * nb)%R) by nra.
    split.
    + apply (Rmult_lt_reg_r (na * nb)); [exact HP|].
      unfold Rdiv. rewrite Rmult_assoc, Rinv_l by lra. lra.
    + apply (Rmult_lt_reg_r (na * nb)); [exact HP|].
      unfold Rdiv. rewrite Rmult_assoc, Rinv_l by lra. lra.
  - reflexivity.
  - rewrite (cos_similarity_value x x eps eq_refl). fold X na.
    f_equal.
    replace (Rsum (map (fun p => fst p * snd p)%R (combine x x))) with X.
    + rewrite <- Hna2. field. lra.
    + unfold X, vec_square. rewrite vec_sum_Rsum.
      clear. induction x as [|a x IH]; [reflexivity|].
      change (combine (a :: x) (a :: x)) with ((a, a) :: combine x x).
      cbn [map fst snd]. now rewrite !Rsum_cons, IH.
  - intros z Hz. unfold cos_similarity, vec_dot. rewrite !length_map.
    destruct (Nat.eqb_spec (length x) (length z)); [congruence|reflexivity].
Qed.

Lemma cos_similarity_is_bounded_witness :
  exists c : R,
    cos_similarity [3; 4]%R [4; 3]%R (1 / 100000000)%R = Some c /\
    cos_similarity [4; 3]%R [3; 4]%R (1 / 100000000)%R = Some c /\
    (-1 < c < 1)%R /\
    c = (Rsum (map (fun p => fst p * snd p) (combine [3; 4] [4; 3]))
         / (sqrt (vec_sum (vec_square [3; 4]) + 1 / 100000000)
            * sqrt (vec_sum (vec_square [4; 3]) + 1 / 100000000)))%R /\
    cos_similarity [3; 4]%R [3; 4]%R (1 / 100000000)%R
    = Some (vec_sum (vec_square [3; 4]) 
            / (vec_sum (vec_square [3; 4]) + 1 / 100000000))%R /\
    (forall z : list R,
        length z <> length [3; 4]%R ->
        cos_similarity [3; 4]%R z (1 / 100000000)%R = None).
Proof.
  apply (cos_similarity_is_bounded [3; 4]%R [4; 3]%R (1 / 100000000)%R);
    [lra|reflexivity].
Defined.

(* ------------------------------------------------------------------ *)
(** ** clip_grads                                                      *)
(* ------------------------------------------------------------------ *)

Lemma Rsum_map_le {X} (f g : X -> R) (l : list X) :
  (forall x, In x l -> (f x <= g x)%R) ->
  (Rsum (map f l) <= Rsum (map g l))%R.
Proof.
  induction l as [|x l IH]; intros Hfg; simpl; [unfold Rsum; simpl; lra|].
  rewrite !Rsum_cons.
  pose proof (Hfg x (or_introl eq_refl)).
  assert (Rsum (map f l) <= Rsum (map g l))%R
    by (apply IH; intros; apply Hfg; now right).
  lra.
Qed.

Lemma pow_le_self (r : R) (k : nat) :
  (0 <= r <= 1)%R -> 1 <= k -> (r ^ k <= r)%R.
Proof.
  intros Hr Hk. destruct k as [|k]; [lia|]. simpl.
  assert (0 <= r ^ k <= 1)%R.
  { split; [apply pow_le; lra|].
    rewrite <- (pow1 k). apply pow_incr. lra. }
  nra.
Qed.

(** The sum of the squares of the elements of an array. *)
Lemma np_sum_square (a : ndarray R) :
  wf a ->
  np_sum (np_square a) AxisNone false
  = Some (scalar (Rsum (map (fun v => v * v)%R (data a)))).
Proof.
  intros Ha. rewrite np_sum_all. do 2 f_equal.
  assert (Hwf : wf (np_square a))
    by (unfold wf, np_square, np_map; simpl; now rewrite length_map).
  pose proof (f_equal data (tabulate_get Hwf)) as E.
  change (data (tabulate (shape (np_square a)) (get (np_square a))))
    with (map (get (np_square a)) (indices (shape (np_square a)))) in E.
  rewrite E. reflexivity.
Qed.

Lemma clip_grads_total_from (st : list (ndarray R)) (grads : list nat)
      (t0 : R) (d0 : ndarray R) :
  Forall (fun g => g < length st) grads -> Forall wf st ->
  fold_left
    (fun acc g =>
       obind acc (fun total_norm =>
       obind (nth_error st g) (fun grad =>
       obind (np_sum (np_square grad) AxisNone false) (fun s =>
       Some (bk_add total_norm (get s []))))))
    grads (Some t0)
  = Some (t0 + Rsum (map (fun g => Rsum (map (fun v => v * v)%R
                                             (data (nth g st d0)))) grads))%R.
Proof.
  intros Hv Hwf. revert t0.
  induction Hv as [|g grads Hg Hv IH]; intros t0; cbn [fold_left map].
  - unfold Rsum. simpl. f_equal. ring.
  - cbn [obind]. rewrite (nth_error_nth' st d0 Hg). cbn [obind].
    rewrite np_sum_square
      by (apply (proj1 (Forall_forall _ _) Hwf), nth_In, Hg).
    cbn [obind]. rewrite IH. f_equal. rewrite Rsum_cons.
    unfold get, scalar. simpl. ring.
Qed.

Lemma scale_in_place_run (rate : R) (grads : list nat)
      (st : list (ndarray R)) (d0 : ndarray R) :
  data d0 = [] ->
  Forall (fun g => g < length st) grads ->
  exists st',
    fold_left (scale_in_place rate) grads (Some st) = Some st' /\
    length st' = length st /\
    forall r,
      shape (nth r st' d0) = shape (nth r st d0) /\
      data (nth r st' d0)
      = map (fun v => v * rate ^ count_occ Nat.eq_dec grads r)%R
            (data (nth r st d0)).
Proof.
  intros Hd0 Hv. revert st Hv.
  induction grads as [|g grads IH]; intros st Hv.
  - exists st. split; [reflexivity|]. split; [reflexivity|].
    intros r. split; [reflexivity|]. simpl.
    rewrite <- (map_id (data (nth r st d0))) at 1.
    apply map_ext. intros; ring.
  - inversion Hv as [|? ? Hg Hv']; subst.
    cbn [fold_left]. unfold scale_in_place at 2. cbn [obind].
    rewrite (nth_error_nth' st d0 Hg). cbn [obind].
    set (st1 := list_set g (np_map (fun v => bk_mul v rate) (nth g st d0)) st).
    assert (Hl1 : length st1 = length st) by apply length_list_set.
    destruct (IH st1) as (st' & Hrun & Hlen & Hdata).
    { rewrite Hl1. exact Hv'. }
    exists st'. split; [exact Hrun|]. split; [congruence|].
    intros r. destruct (Hdata r) as [Hs Hd]. rewrite Hs, Hd. clear Hs Hd.
    unfold st1. rewrite nth_list_set.
    apply Nat.ltb_lt in Hg. rewrite Hg, andb_true_r.
    cbn [count_occ].
    destruct (Nat.eqb_spec r g) as [->|Hne].
    + destruct (Nat.eq_dec g g) as [_|]; [|congruence].
      split; [reflexivity|]. unfold np_map. cbn [data].
      rewrite map_map. apply map_ext. intros v. simpl. ring.
    + destruct (Nat.eq_dec g r) as [|_]; [congruence|].
      split; reflexivity.
Qed.

(** X21.  [clip_grads(grads, max_norm)] with [max_norm >= 0] leaves the
    gradients with a total norm of at most [max_norm].  With [total] the
    sum of the squares of all listed elements and
    [rate = max_norm / (sqrt(total) + 1e-6)], nothing changes when
    [rate >= 1]; otherwise every listed array is scaled in place, once for
    each time it is listed: an array that [grads] lists [k] times ends up
    multiplied by [rate ^ k], and an array that is not listed stays as it
    is.  Shapes are kept. *)
Theorem clip_grads_bounds_norm
        (st : list (ndarray R)) (grads : list nat) (max_norm : R) :
  (0 <= max_norm)%R ->
  Forall (fun g => g < length st) grads ->
  Forall wf st ->
  exists (total : R) (st' : list (ndarray R)) (total' : R),
    clip_grads_total st grads = Some total /\
    clip_grads grads max_norm st = Some st' /\
    clip_grads_total st' grads = Some total' /\
    (sqrt total' <= max_norm)%R /\
    length st' = length st /\
    (~ (clip_rate max_norm total < 1)%R -> st' = st) /\
    forall (r : nat) (a : ndarray R),
      nth_error st r = Some a ->
      exists a',
        nth_error st' r = Some a' /\ shape a' = shape a /\
        data a'
        = map (fun v =>
                 v * clip_rate max_norm total
                     ^ (if Rlt_dec (clip_rate max_norm total) 1
                        then count_occ Nat.eq_dec grads r else 0))%R
              (data a).
Proof.
  intros Hmax Hv Hwf.
  set (d0 := mk_ndarray [] (@nil R)).
  set (sq := fun s : list (ndarray R) => fun g : nat =>
               Rsum (map (fun v => v * v)%R (data (nth g s d0)))).
  assert (Htot : forall s, length s = length st -> Forall wf s ->
                   clip_grads_total s grads = Some (Rsum (map (sq s) grads))).
  { intros s Hls Hws. unfold clip_grads_total.
    change (@bk_zero R _) with 0%R.
    rewrite (clip_grads_total_from s grads 0 d0);
      [|now rewrite Hls|exact Hws].
    f_equal. unfold sq. ring. }
  set (total := Rsum (map (sq st) grads)).
  assert (Hsq : forall s g, (0 <= sq s g)%R).
  { intros s g. unfold sq. apply Rsum_map_nonneg. intros v _.
    apply Rle_0_sqr. }
  assert (Htotal : (0 <= total)%R).
  { unfold total. apply Rsum_map_nonneg. intros g _. apply Hsq. }
  assert (Hden : (0 < sqrt total + 1 / 1000000)%R).
  { pose proof (sqrt_pos total). lra. }
  set (rate := clip_rate max_norm total).
  assert (Hrate : (0 <= rate)%R).
  { unfold rate, clip_rate, Rdiv. apply Rle_mult_inv_pos; assumption. }
  assert (Hmn : (rate * (sqrt total + 1 / 1000000) = max_norm)%R).
  { unfold rate, clip_rate. field. lra. }
  assert (Hcall : clip_grads grads max_norm st
                  = if Rlt_dec rate 1
                    then fold_left (scale_in_place rate) grads (Some st)
                    else Some st).
  { unfold clip_grads. rewrite (Htot st eq_refl Hwf). cbn [obind].
    fold total.
    change (bk_div max_norm
              (bk_add (bk_sqrt total) (bk_div bk_one (bk_of_Z 1000000))))
      with rate.
    change (bk_gt bk_one rate) with (if Rlt_dec rate 1 then true else false).
    now destruct (Rlt_dec rate 1). }
  destruct (Rlt_dec rate 1) as [Hlt|Hge].
  - destruct (scale_in_place_run rate grads st d0 eq_refl Hv)
      as (st' & Hrun & Hlen & Hdata).
    assert (Hwf' : Forall wf st').
    { apply Forall_forall. intros a' Ha'.
      destruct (In_nth _ _ d0 Ha') as (r & Hr & <-).
      destruct (Hdata r) as [Hs Hd]. unfold wf.
      rewrite Hs, Hd, length_map.
      apply (proj1 (Forall_forall _ _) Hwf), nth_In. now rewrite <- Hlen. }
    exists total, st', (Rsum (map (sq st') grads)).
    split; [apply (Htot st eq_refl Hwf)|].
    split; [now rewrite Hcall|].
    split; [apply (Htot st' Hlen Hwf')|].
    split; [|split; [exact Hlen|split]].
    + assert (Hle : (Rsum (map (sq st') grads) <= total * (rate * rate))%R).
      { unfold total. rewrite <- Rsum_map_scale. apply Rsum_map_le.
        intros g Hg. unfold sq at 1. destruct (Hdata g) as [_ Hd].
        rewrite Hd, map_map.
        set (k := count_occ Nat.eq_dec grads g).
        assert (Hk : 1 <= k).
        { unfold k. apply (proj1 (count_occ_In Nat.eq_dec grads g)) in Hg.
          lia. }
        rewrite (map_ext _ (fun v => (v * v) * (rate ^ k * rate ^ k))%R)
          by (intros; ring).
        rewrite Rsum_map_scale. fold (sq st g).
        apply Rmult_le_compat_l; [apply Hsq|].
        pose proof (pow_le_self rate k (conj Hrate (Rlt_le _ _ Hlt)) Hk).
        pose proof (pow_le rate k Hrate).
        apply Rmult_le_compat; assumption. }
      apply Rle_trans with (sqrt (total * (rate * rate))).
      * apply sqrt_le_1_alt. exact Hle.
      * rewrite sqrt_mult by (try assumption; apply Rle_0_sqr).
        rewrite sqrt_square by assumption.
        pose proof (sqrt_pos total). nra.
    + intros Hn. contradiction.
    + intros r a Hr.
      assert (Hrl : r < length st) by (apply nth_error_Some; congruence).
      exists (nth r st' d0). split.
      * apply nth_error_nth'. now rewrite Hlen.
      * destruct (Hdata r) as [Hs Hd].
        rewrite (nth_error_nth _ _ d0 Hr) in Hs, Hd. fold rate.
        destruct (Rlt_dec rate 1); [now split|contradiction].
  - exists total, st, total.
    split; [apply (Htot st eq_refl Hwf)|].
    split; [now rewrite Hcall|].
    split; [apply (Htot st eq_refl Hwf)|].
    split; [|split; [reflexivity|split; [reflexivity|]]].
    + pose proof (sqrt_pos total).
      assert (1 <= rate)%R by lra. nra.
    + intros r a Hr. exists a. split; [exact Hr|]. split; [reflexivity|].
      fold rate. destruct (Rlt_dec rate 1); [contradiction|].
      rewrite <- (map_id (data a)) at 1. apply map_ext. intros; simpl; ring.
Qed.

Lemma clip_grads_bounds_norm_witness :
  exists (total : R) (st' : list (ndarray R)) (total' : R),
    clip_grads_total grads_store grads_refs = Some total /\
    clip_grads grads_refs 1%R grads_store = Some st' /\
    clip_grads_total st' grads_refs = Some total' /\
    (sqrt total' <= 1)%R /\
    length st' = length grads_store /\
    (~ (clip_rate 1 total < 1)%R -> st' = grads_store) /\
    forall (r : nat) (a : ndarray R),
      nth_error grads_store r = Some a ->
      exists a',
        nth_error st' r = Some a' /\ shape a' = shape a /\
        data a'
        = map (fun v =>
                 v * clip_rate 1 total
                     ^ (if Rlt_dec (clip_rate 1 total) 1
                        then count_occ Nat.eq_dec grads_refs r else 0))%R
              (data a).
Proof.
  apply (clip_grads_bounds_norm grads_store grads_refs 1%R).
  - lra.
  - repeat (constructor; [simpl; lia|]). constructor.
  - repeat (constructor; [reflexivity|]). constructor.
Defined.

(* ------------------------------------------------------------------ *)
(** ** normalize                                                       *)
(* ------------------------------------------------------------------ *)

Lemma normalize_matrix (x : ndarray R) (n m : nat) :
  wf x -> shape x = [n; m] ->
  exists r,
    normalize x = Some r /\ shape r = [n; m] /\ wf r /\
    forall i c, i < n -> c < m ->
      get r [i; c] = (get x [i; c] / sqrt (row_sum_squares x m i))%R.
Proof.
  intros Hwf Hs. unfold normalize, ndim. rewrite Hs. cbn [length].
  rewrite (np_binop_same_shape bk_mul x x eq_refl). cbn [obind].
  rewrite Hs.
  set (xx := tabulate [n; m] (fun j => bk_mul (get x j) (get x j))).
  unfold np_sum, ndim. cbn [shape xx tabulate length axes_of].
  replace (norm_axis 2 1) with (Some 1) by reflexivity. cbn [obind].
  change (reduced_shape (reduce_mask 2 [1]) false [n; m]) with [n].
  set (t := tabulate [n] (fun j =>
              fold_left bk_add (lane xx (reduce_mask 2 [1]) false j) bk_zero)).
  assert (Hst : shape (np_map bk_sqrt t) = [n]) by reflexivity.
  rewrite Hst. cbn [nth].
  unfold np_reshape. rewrite Hst.
  change [Z.of_nat n; 1%Z] with (shape_req [n; 1]).
  rewrite (resolve_shape_req (size [n]) [n; 1]) by (simpl; lia).
  cbn [obind].
  set (s' := mk_ndarray [n; 1] (data (np_map bk_sqrt t))).
  unfold np_idiv.
  rewrite (np_binop_kept bk_div x s' [false; true]);
    [|now rewrite Hs|now rewrite Hs].
  cbn [obind shape tabulate].
  destruct (list_eq_dec Nat.eq_dec (shape x) (shape x)) as [_|]; [|congruence].
  eexists. split; [reflexivity|]. rewrite Hs.
  split; [reflexivity|]. split; [apply wf_tabulate|].
  intros i c Hi Hc.
  rewrite get_tabulate by (repeat constructor; assumption).
  change (collapse [false; true] true [i; c]) with [i; 0].
  cbn [bk_div R_backend]. f_equal.
  assert (Hget : get s' [i; 0] = get (np_map bk_sqrt t) [i]).
  { unfold get, s'. cbn [shape data ravel size fold_right np_map].
    f_equal; lia. }
  rewrite Hget.
  rewrite get_np_map; [|apply wf_tabulate|repeat constructor; exact Hi].
  cbn [bk_sqrt R_backend_ord]. f_equal.
  unfold t. rewrite get_tabulate by (repeat constructor; exact Hi).
  rewrite (lane_matrix_row xx n m i eq_refl). unfold matrix_row.
  unfold row_sum_squares. change (fold_left bk_add ?l bk_zero) with (Rsum l).
  f_equal. apply map_ext_in. intros c' Hc'. apply in_seq in Hc'.
  unfold xx. rewrite get_tabulate by (repeat constructor; [exact Hi|lia]).
  reflexivity.
Qed.

Lemma normalize_vector (x : ndarray R) (m : nat) :
  wf x -> shape x = [m] ->
  exists r,
    normalize x = Some r /\ shape r = [m] /\ wf r /\
    forall c, c < m ->
      get r [c] = (get x [c] / sqrt (vector_sum_squares x m))%R.
Proof.
  intros Hwf Hs. unfold normalize, ndim. rewrite Hs. cbn [length].
  rewrite (np_binop_same_shape bk_mul x x eq_refl). cbn [obind].
  rewrite Hs.
  set (xx := tabulate [m] (fun j => bk_mul (get x j) (get x j))).
  rewrite np_sum_all. cbn [obind].
  set (v := fold_left bk_add (map (get xx) (indices (shape xx))) bk_zero).
  change (np_map bk_sqrt (scalar v)) with (scalar (bk_sqrt v)).
  unfold np_idiv. rewrite np_binop_scalar. cbn [obind shape tabulate].
  destruct (list_eq_dec Nat.eq_dec (shape x) (shape x)) as [_|]; [|congruence].
  eexists. split; [reflexivity|]. rewrite Hs.
  split; [reflexivity|]. split; [apply wf_tabulate|].
  intros c Hc. rewrite get_tabulate by (repeat constructor; assumption).
  cbn [bk_div bk_sqrt R_backend R_backend_ord]. do 2 f_equal.
  unfold v, vector_sum_squares.
  change (fold_left bk_add ?l bk_zero) with (Rsum l). f_equal.
  change (indices (shape xx)) with (flat_map (fun c => [[c]]) (seq 0 m)).
  rewrite (map_flat_map_singleton (get xx) (fun c => [c])).
  apply map_ext_in. intros c' Hc'. apply in_seq in Hc'.
  unfold xx. rewrite get_tabulate by (repeat constructor; lia).
  reflexivity.
Qed.

Lemma Rsum_map_div_square {X} (f : X -> R) (l : list X) :
  (0 < Rsum (map (fun c => f c * f c) l))%R ->
  Rsum (map (fun c =>
               f c / sqrt (Rsum (map (fun c => f c * f c) l))
               * (f c / sqrt (Rsum (map (fun c => f c * f c) l)))) l)%R
  = 1%R.
Proof.
  intros Hpos. set (q := Rsum (map (fun c => f c * f c)%R l)) in *.
  assert (Hsq : (sqrt q * sqrt q = q)%R) by (apply sqrt_sqrt; lra).
  assert (Hs : (0 < sqrt q)%R) by (apply sqrt_lt_R0; exact Hpos).
  rewrite (map_ext _ (fun c => (f c * f c) * / q)%R).
  - rewrite Rsum_map_scale. fold q. field. lra.
  - intros c.
    replace (/ q)%R with (/ sqrt q * / sqrt q)%R
      by (now rewrite <- Rinv_mult, Hsq).
    unfold Rdiv. ring.
Qed.

(** X22.  [normalize(x)] on a matrix divides every row by its Euclidean
    norm.  A row that is not all zero comes out with norm 1, and
    normalizing once more leaves it as it is.  An array that has neither
    one nor two dimensions is returned unchanged. *)
Theorem normalize_rows_to_unit_norm (x : ndarray R) (n m : nat) :
  wf x -> shape x = [n; m] ->
  exists r,
    normalize x = Some r /\ shape r = [n; m] /\
    (forall i, i < n -> (0 < row_sum_squares x m i)%R ->
       (forall c, c < m ->
          get r [i; c] = (get x [i; c] / sqrt (row_sum_squares x m i))%R) /\
       row_sum_squares r m i = 1%R /\
       exists r2,
         normalize r = Some r2 /\
         forall c, c < m -> get r2 [i; c] = get r [i; c]) /\
    (forall z : ndarray R, ndim z <> 1 -> ndim z <> 2 -> normalize z = Some z).
Proof.
  intros Hwf Hs.
  destruct (normalize_matrix x n m Hwf Hs) as (r & Hr & Hsr & Hwr & Hget).
  exists r. split; [exact Hr|]. split; [exact Hsr|]. split.
  - intros i Hi Hpos.
    assert (Hone : row_sum_squares r m i = 1%R).
    { unfold row_sum_squares at 1.
      rewrite (map_ext_in _ (fun c =>
                 get x [i; c] / sqrt (row_sum_squares x m i)
                 * (get x [i; c] / sqrt (row_sum_squares x m i)))%R).
      - apply (Rsum_map_div_square (fun c => get x [i; c])). exact Hpos.
      - intros c Hc. apply in_seq in Hc. rewrite Hget by lia. reflexivity. }
    split; [intros c Hc; now apply Hget|]. split; [exact Hone|].
    destruct (normalize_matrix r n m Hwr Hsr) as (r2 & Hr2 & _ & _ & Hget2).
    exists r2. split; [exact Hr2|]. intros c Hc.
    rewrite (Hget2 i c Hi Hc), Hone, sqrt_1. field.
  - intros z H1 H2. unfold normalize.
    destruct (ndim z) as [|[|[|k]]]; try reflexivity; congruence.
Qed.

Lemma normalize_rows_to_unit_norm_witness :
  exists r,
    normalize matrix_2x3 = Some r /\ shape r = [2; 3] /\
    (forall i, i < 2 -> (0 < row_sum_squares matrix_2x3 3 i)%R ->
       (forall c, c < 3 ->
          get r [i; c]
          = (get matrix_2x3 [i; c] / sqrt (row_sum_squares matrix_2x3 3 i))%R) /\
       row_sum_squares r 3 i = 1%R /\
       exists r2,
         normalize r = Some r2 /\
         forall c, c < 3 -> get r2 [i; c] = get r [i; c]) /\
    (forall z : ndarray R, ndim z <> 1 -> ndim z <> 2 -> normalize z = Some z).
Proof.
  apply (normalize_rows_to_unit_norm matrix_2x3 2 3); reflexivity.
Defined.

(** X23.  [normalize(x)] on a vector that is not all zero divides it by
    its Euclidean norm: the result has norm 1, and normalizing once more
    leaves it as it is. *)
Theorem normalize_vector_to_unit_norm (x : ndarray R) (m : nat) :
  wf x -> shape x = [m] -> (0 < vector_sum_squares x m)%R ->
  exists r,
    normalize x = Some r /\ shape r = [m] /\
    (forall c, c < m ->
       get r [c] = (get x [c] / sqrt (vector_sum_squares x m))%R) /\
    vector_sum_squares r m = 1%R /\
    normalize r = Some r.
Proof.
  intros Hwf Hs Hpos.
  destruct (normalize_vector x m Hwf Hs) as (r & Hr & Hsr & Hwr & Hget).
  exists r. split; [exact Hr|]. split; [exact Hsr|].
  split; [exact Hget|].
  assert (Hone : vector_sum_squares r m = 1%R).
  { unfold vector_sum_squares at 1.
    rewrite (map_ext_in _ (fun c =>
               get x [c] / sqrt (vector_sum_squares x m)
               * (get x [c] / sqrt (vector_sum_squares x m)))%R).
    - apply (Rsum_map_div_square (fun c => get x [c])). exact Hpos.
    - intros c Hc. apply in_seq in Hc. rewrite Hget by lia. reflexivity. }
  split; [exact Hone|].
  destruct (normalize_vector r m Hwr Hsr) as (r2 & Hr2 & Hs2 & Hw2 & Hget2).
  rewrite Hr2. f_equal. apply ndarray_ext; try assumption; [congruence|].
  intros idx Hb. rewrite Hs2 in Hb.
  inversion Hb as [|c d idx1 s1 Hc Hb1]; subst. inversion Hb1; subst.
  rewrite (Hget2 c Hc), Hone, sqrt_1. field.
Qed.

Lemma normalize_vector_to_unit_norm_witness :
  exists r,
    normalize relu_x = Some r /\ shape r = [3] /\
    (forall c, c < 3 ->
       get r [c] = (get relu_x [c] / sqrt (vector_sum_squares relu_x 3))%R) /\
    vector_sum_squares r 3 = 1%R /\
    normalize r = Some r.
Proof.
  apply (normalize_vector_to_unit_norm relu_x 3); try reflexivity.
  unfold vector_sum_squares, relu_x, Rsum, get. simpl. lra.
Defined.

(* ------------------------------------------------------------------ *)
(** ** convert_one_hot                                                 *)
(* ------------------------------------------------------------------ *)

Lemma fold_left_flat_map {X Y S} (f : S -> Y -> S) (g : X -> list Y)
      (l : list X) (a : S) :
  fold_left (fun acc x => fold_left f (g x) acc) l a
  = fold_left f (flat_map g l) a.
Proof.
  revert a. induction l as [|x l IH]; intros a; simpl; [reflexivity|].
  now rewrite fold_left_app, IH.
Qed.

Lemma fold_left_map' {X Y S} (f : S -> Y -> S) (g : X -> Y)
      (l : list X) (a : S) :
  fold_left (fun acc x => f acc (g x)) l a = fold_left f (map g l) a.
Proof.
  revert a. induction l as [|x l IH]; intros a; simpl; [reflexivity|].
  now rewrite IH.
Qed.

Lemma fold_left_ext' {X S} (f g : S -> X -> S) (l : list X) (a : S) :
  (forall acc x, f acc x = g acc x) -> fold_left f l a = fold_left g l a.
Proof.
  intros Hfg. revert a. induction l as [|x l IH]; intros a; simpl;
    [reflexivity|].
  now rewrite Hfg, IH.
Qed.

Lemma idx_eqb_snoc (p q : list nat) (a b : nat) :
  length p = length q ->
  idx_eqb (p ++ [a]) (q ++ [b]) = idx_eqb p q && (b =? a).
Proof.
  intros Hl. unfold idx_eqb.
  destruct (list_eq_dec Nat.eq_dec (p ++ [a]) (q ++ [b])) as [E|E].
  - apply app_inj_tail in E as [-> ->].
    destruct (list_eq_dec Nat.eq_dec q q); [|congruence].
    now rewrite Nat.eqb_refl.
  - destruct (list_eq_dec Nat.eq_dec p q) as [->|]; [|reflexivity].
    destruct (Nat.eqb_spec b a) as [->|]; [congruence|reflexivity].
Qed.

Lemma in_bounds_snoc (ps : Shape) (V : nat) (p : list nat) (j : nat) :
  in_bounds ps p -> j < V -> in_bounds (ps ++ [V]) (p ++ [j]).
Proof.
  intros Hp Hj. unfold in_bounds. apply Forall2_app; [exact Hp|].
  now repeat constructor.
Qed.

Section SetOne.
Context {X : Type} (V : nat) (pf : X -> list nat) (zf : X -> Z) (ps : Shape).

(** A loop that stores ones: the cell [p ++ [j]] holds 1 when one of the
    rounds stored there, and is as before otherwise. *)
Lemma set_one_fold (l : list X) (a : ndarray Z) :
  shape a = ps ++ [V] -> wf a ->
  (forall x, In x l ->
     in_bounds ps (pf x) /\ (- Z.of_nat V <= zf x < Z.of_nat V)%Z) ->
  exists r,
    fold_left (fun acc x => set_one V acc (pf x) (zf x)) l (Some a) = Some r /\
    shape r = ps ++ [V] /\ wf r /\
    forall p j, in_bounds ps p -> j < V ->
      get r (p ++ [j])
      = if existsb (fun x => idx_eqb (pf x) p
                             && (Z.of_nat j =? zf x mod Z.of_nat V)%Z) l
        then 1%Z else get a (p ++ [j]).
Proof.
  revert a. induction l as [|x l IH]; intros a Hs Hwf Hl.
  - exists a. repeat split; auto.
  - destruct (Hl x (or_introl eq_refl)) as [Hp Hz].
    cbn [fold_left]. unfold set_one at 2. cbn [obind].
    destruct (norm_index V (zf x)) as [w|] eqn:Ew.
    2:{ unfold norm_index, norm_axis in Ew.
        replace ((- Z.of_nat V <=? zf x)%Z && (zf x <? Z.of_nat V)%Z)
          with true in Ew; [discriminate|].
        symmetry. apply andb_true_iff. split; [apply Z.leb_le|apply Z.ltb_lt];
          lia. }
    apply norm_axis_some in Ew as [Hw Hwz]. cbn [obind].
    set (a1 := set a (pf x ++ [w]) 1%Z).
    destruct (IH a1) as (r & Hrun & Hsr & Hwr & Hget).
    { unfold a1, set. simpl. exact Hs. }
    { apply wf_set. exact Hwf. }
    { intros y Hy. apply Hl. now right. }
    exists r. split; [exact Hrun|]. split; [exact Hsr|]. split; [exact Hwr|].
    intros p j Hpb Hj. rewrite (Hget p j Hpb Hj). cbn [existsb].
    unfold a1. rewrite get_set;
      [|exact Hwf|rewrite Hs; now apply in_bounds_snoc
       |rewrite Hs; now apply in_bounds_snoc].
    rewrite idx_eqb_snoc
      by (rewrite (in_bounds_length Hp), (in_bounds_length Hpb); reflexivity).
    replace (Z.of_nat j =? zf x mod Z.of_nat V)%Z with (j =? w).
    + destruct (existsb _ l); [now rewrite orb_true_r|].
      rewrite orb_false_r. reflexivity.
    + rewrite <- Hwz. destruct (Nat.eqb_spec j w) as [->|Hne].
      * symmetry. apply Z.eqb_refl.
      * symmetry. apply Z.eqb_neq. lia.
Qed.

Lemma set_one_fold_none (l : list X) :
  fold_left (fun acc x => set_one V acc (pf x) (zf x)) l None = None.
Proof. induction l as [|x l IH]; simpl; auto. Qed.

Lemma set_one_fold_raises (l : list X) (acc : option (ndarray Z)) :
  (exists x, In x l /\ norm_index V (zf x) = None) ->
  fold_left (fun acc x => set_one V acc (pf x) (zf x)) l acc = None.
Proof.
  revert acc. induction l as [|x l IH]; intros acc (y & Hy & Hn).
  - contradiction.
  - cbn [fold_left]. destruct Hy as [->|Hy].
    + replace (set_one V acc (pf y) (zf y)) with (@None (ndarray Z)).
      * apply set_one_fold_none.
      * unfold set_one. destruct acc; simpl; [now rewrite Hn|reflexivity].
    + apply IH. now exists y.
Qed.
End SetOne.

Lemma existsb_at {X} (pf : X -> list nat) (g : X -> bool) (l : list X)
      (x0 : X) :
  In x0 l -> (forall x, In x l -> pf x = pf x0 -> x = x0) ->
  existsb (fun x => idx_eqb (pf x) (pf x0) && g x) l = g x0.
Proof.
  intros Hin Hinj. apply eq_true_iff_eq. rewrite existsb_exists. split.
  - intros (x & Hx & Hb). apply andb_true_iff in Hb as [Hp Hg].
    apply idx_eqb_true in Hp. now rewrite <- (Hinj x Hx Hp).
  - intros Hg. exists x0. split; [exact Hin|].
    apply andb_true_iff. split; [now apply idx_eqb_true|exact Hg].
Qed.

(** X24.  [convert_one_hot] on a one-dimensional corpus of [N] word ids,
    each within [-vocab_size, vocab_size), gives an [N] by [vocab_size]
    array of zeros and ones with exactly one 1 in each row: row [i] has
    its 1 in the column of the word id of position [i], a negative id
    counting from the end. *)
Theorem convert_one_hot_target (corpus : ndarray Z) (vocab_size N : nat) :
  wf corpus -> shape corpus = [N] ->
  (forall i, i < N ->
     (- Z.of_nat vocab_size <= get corpus [i] < Z.of_nat vocab_size)%Z) ->
  exists one_hot,
    convert_one_hot corpus vocab_size = Some one_hot /\
    shape one_hot = [N; vocab_size] /\ wf one_hot /\
    forall i j, i < N -> j < vocab_size ->
      get one_hot [i; j]
      = if (Z.of_nat j =? get corpus [i] mod Z.of_nat vocab_size)%Z
        then 1%Z else 0%Z.
Proof.
  intros Hwf Hs Hv. unfold convert_one_hot. rewrite Hs.
  destruct (set_one_fold vocab_size (fun idx => [idx])
              (fun idx => get corpus [idx]) [N] (seq 0 N)
              (full [N; vocab_size] 0%Z) eq_refl (wf_tabulate _ _))
    as (r & Hrun & Hsr & Hwr & Hget).
  { intros idx Hidx. apply in_seq in Hidx. split.
    - repeat constructor. lia.
    - apply Hv. lia. }
  exists r. split; [exact Hrun|]. split; [exact Hsr|]. split; [exact Hwr|].
  intros i j Hi Hj.
  change [i; j] with ([i] ++ [j]).
  rewrite (Hget [i] j) by (try (repeat constructor); assumption).
  rewrite (existsb_at (fun idx => [idx])
             (fun idx => (Z.of_nat j
                          =? get corpus [idx] mod Z.of_nat vocab_size)%Z)
             (seq 0 N) i).
  - destruct (_ =? _)%Z; [reflexivity|].
    unfold full. apply get_tabulate. repeat constructor; assumption.
  - apply in_seq. lia.
  - intros x _ E. now injection E.
Qed.

(** X25.  [convert_one_hot] on a two-dimensional array of [N] contexts of
    [C] word ids, each within [-vocab_size, vocab_size), gives an [N] by
    [C] by [vocab_size] array whose vector at [i, k] is the one-hot vector
    of the word id at [i, k]. *)
Theorem convert_one_hot_contexts (corpus : ndarray Z) (vocab_size N C : nat) :
  wf corpus -> shape corpus = [N; C] ->
  (forall i k, i < N -> k < C ->
     (- Z.of_nat vocab_size <= get corpus [i; k] < Z.of_nat vocab_size)%Z) ->
  exists one_hot,
    convert_one_hot corpus vocab_size = Some one_hot /\
    shape one_hot = [N; C; vocab_size] /\ wf one_hot /\
    forall i k j, i < N -> k < C -> j < vocab_size ->
      get one_hot [i; k; j]
      = if (Z.of_nat j =? get corpus [i; k] mod Z.of_nat vocab_size)%Z
        then 1%Z else 0%Z.
Proof.
  intros Hwf Hs Hv. unfold convert_one_hot. rewrite Hs.
  set (cells := flat_map (fun i0 => map (pair i0) (seq 0 C)) (seq 0 N)).
  assert (Hcells : forall x, In x cells <-> fst x < N /\ snd x < C).
  { intros [i0 i1]. unfold cells. rewrite in_flat_map. split.
    - intros (i & Hi & Hx). apply in_seq in Hi. apply in_map_iff in Hx.
      destruct Hx as (k & E & Hk). apply in_seq in Hk.
      injection E as <- <-. simpl. lia.
    - simpl. intros [Hi Hk]. exists i0. split; [apply in_seq; lia|].
      apply in_map. apply in_seq. lia. }
  destruct (set_one_fold vocab_size (fun x => [fst x; snd x])
              (fun x => get corpus [fst x; snd x]) [N; C] cells
              (full [N; C; vocab_size] 0%Z) eq_refl (wf_tabulate _ _))
    as (r & Hrun & Hsr & Hwr & Hget).
  { intros x Hx. apply Hcells in Hx as [Hi Hk]. split.
    - repeat constructor; assumption.
    - now apply Hv. }
  exists r. split.
  - rewrite <- Hrun. unfold cells.
    rewrite <- (fold_left_flat_map
                  (fun acc x => set_one vocab_size acc [fst x; snd x]
                                        (get corpus [fst x; snd x]))).
    apply fold_left_ext'. intros acc i0.
    now rewrite <- fold_left_map'.
  - split; [exact Hsr|]. split; [exact Hwr|].
    intros i k j Hi Hk Hj.
    change [i; k; j] with ([i; k] ++ [j]).
    rewrite (Hget [i; k] j) by (try (repeat constructor); assumption).
    rewrite (existsb_at (fun x => [fst x; snd x])
               (fun x => (Z.of_nat j
                          =? get corpus [fst x; snd x] mod Z.of_nat vocab_size)%Z)
               cells (i, k)).
    + cbn [fst snd]. destruct (_ =? _)%Z; [reflexivity|].
      unfold full. apply get_tabulate. repeat constructor; assumption.
    + apply Hcells. simpl. lia.
    + intros [x0 x1] _ E. simpl in E. now injection E as -> ->.
Qed.

Lemma convert_one_hot_target_witness :
  exists one_hot,
    convert_one_hot corpus_ids 3 = Some one_hot /\
    shape one_hot = [3; 3] /\ wf one_hot /\
    forall i j, i < 3 -> j < 3 ->
      get one_hot [i; j]
      = if (Z.of_nat j =? get corpus_ids [i] mod Z.of_nat 3)%Z
        then 1%Z else 0%Z.
Proof.
  apply (convert_one_hot_target corpus_ids 3 3); [reflexivity|reflexivity|].
  intros i Hi.
  destruct i as [|[|[|i]]]; try lia;
    (vm_compute; split; [discriminate|reflexivity]).
Defined.

Lemma convert_one_hot_contexts_witness :
  exists one_hot,
    convert_one_hot contexts_ids 3 = Some one_hot /\
    shape one_hot = [2; 2; 3] /\ wf one_hot /\
    forall i k j, i < 2 -> k < 2 -> j < 3 ->
      get one_hot [i; k; j]
      = if (Z.of_nat j =? get contexts_ids [i; k] mod Z.of_nat 3)%Z
        then 1%Z else 0%Z.
Proof.
  apply (convert_one_hot_contexts contexts_ids 3 2 2);
    [reflexivity|reflexivity|].
  intros i k Hi Hk.
  destruct i as [|[|i]]; destruct k as [|[|k]]; try lia;
    (vm_compute; split; [discriminate|reflexivity]).
Defined.

Lemma norm_index_outside (V : nat) (z : Z) :
  (z < - Z.of_nat V \/ Z.of_nat V <= z)%Z -> norm_index V z = None.
Proof.
  intros Hz. unfold norm_index, norm_axis.
  destruct ((- Z.of_nat V <=? z)%Z && (z <? Z.of_nat V)%Z) eqn:E;
    [|reflexivity].
  apply andb_true_iff in E as [E1 E2].
  apply Z.leb_le in E1. apply Z.ltb_lt in E2. lia.
Qed.

(** X26.  [convert_one_hot] raises when the corpus holds a word id outside
    [-vocab_size, vocab_size), whether the corpus has one or two
    dimensions, and it raises for every corpus that has neither one nor
    two dimensions. *)
Theorem convert_one_hot_rejects
        (corpus : ndarray Z) (vocab_size : nat) (p : list nat) :
  ndim corpus = 1 \/ ndim corpus = 2 ->
  in_bounds (shape corpus) p ->
  (get corpus p < - Z.of_nat vocab_size
   \/ Z.of_nat vocab_size <= get corpus p)%Z ->
  convert_one_hot corpus vocab_size = None /\
  (forall z : ndarray Z,
      ndim z <> 1 -> ndim z <> 2 -> convert_one_hot z vocab_size = None).
Proof.
  intros Hd Hp Hz. split.
  - unfold convert_one_hot. unfold ndim in Hd.
    destruct (shape corpus) as [|N [|C [|D s]]] eqn:Hs; simpl in Hd;
      try (destruct Hd; discriminate).
    + inversion Hp as [|i d p1 s1 Hi Hp1]; subst. inversion Hp1; subst.
      apply (set_one_fold_raises vocab_size (fun idx => [idx])
               (fun idx => get corpus [idx])).
      exists i. split; [apply in_seq; lia|].
      now apply norm_index_outside.
    + inversion Hp as [|i d p1 s1 Hi Hp1]; subst.
      inversion Hp1 as [|k d p2 s2 Hk Hp2]; subst. inversion Hp2; subst.
      rewrite (fold_left_ext' _
                 (fun acc i0 =>
                    fold_left
                      (fun acc x => set_one vocab_size acc [fst x; snd x]
                                            (get corpus [fst x; snd x]))
                      (map (pair i0) (seq 0 C)) acc))
        by (intros acc i0; now rewrite <- fold_left_map').
      rewrite fold_left_flat_map.
      apply (set_one_fold_raises vocab_size (fun x => [fst x; snd x])
               (fun x => get corpus [fst x; snd x])).
      exists (i, k). split; [|now apply norm_index_outside].
      apply in_flat_map. exists i. split; [apply in_seq; lia|].
      apply in_map, in_seq. lia.
  - intros z H1 H2. unfold convert_one_hot. unfold ndim in H1, H2.
    destruct (shape z) as [|N [|C [|D s]]]; simpl in *;
      try reflexivity; congruence.
Qed.

Lemma convert_one_hot_rejects_witness :
  convert_one_hot corpus_ids 2 = None /\
  (forall z : ndarray Z,
      ndim z <> 1 -> ndim z <> 2 -> convert_one_hot z 2 = None).
Proof.
  apply (convert_one_hot_rejects corpus_ids 2 [1]).
  - left. reflexivity.
  - repeat constructor.
  - right. vm_compute. discriminate.
Defined.

(* ------------------------------------------------------------------ *)
(** ** create_co_matrix                                                *)
(* ------------------------------------------------------------------ *)

Lemma enumerate_as_map {X} (l : list X) (d : X) :
  enumerate l = map (fun p => (Z.of_nat p, nth p l d)) (seq 0 (length l)).
Proof.
  unfold enumerate.
  assert (G : forall s,
             combine (map Z.of_nat (seq s (length l))) l
             = map (fun p => (Z.of_nat p, nth (p - s) l d))
                   (seq s (length l))).
  { induction l as [|x l IH]; intros s; simpl; [reflexivity|].
    rewrite Nat.sub_diag. f_equal. rewrite IH. apply map_ext_in.
    intros p Hp. apply in_seq in Hp.
    replace (p - s) with (S (p - S s)) by lia. reflexivity. }
  rewrite G. apply map_ext. intros p. now rewrite Nat.sub_0_r.
Qed.

Lemma fold_left_ext_in {X S} (f g : S -> X -> S) (l : list X) (a : S) :
  (forall acc x, In x l -> f acc x = g acc x) ->
  fold_left f l a = fold_left g l a.
Proof.
  revert a. induction l as [|x l IH]; intros a Hfg; simpl; [reflexivity|].
  rewrite Hfg by now left. apply IH. intros; apply Hfg; now right.
Qed.

Lemma wrap_int32_succ (z : Z) :
  wrap_int32 (wrap_int32 z + 1) = wrap_int32 (z + 1).
Proof.
  unfold wrap_int32. f_equal.
  replace ((z + 2 ^ 31) mod 2 ^ 32 - 2 ^ 31 + 1 + 2 ^ 31)%Z
    with ((z + 2 ^ 31) mod 2 ^ 32 + 1)%Z by ring.
  rewrite Z.add_mod_idemp_l by (apply Z.pow_nonzero; lia).
  f_equal. ring.
Qed.

Lemma iter_increment (k : nat) :
  Nat.iter k (fun v => wrap_int32 (v + 1)) 0%Z = wrap_int32 (Z.of_nat k).
Proof.
  induction k as [|k IH]; [reflexivity|].
  rewrite Nat.iter_succ, IH, wrap_int32_succ. f_equal. lia.
Qed.

Section CoMatrix.
Variables (corpus : list Z) (vocab_size : nat).
Let n := length corpus.
Let c (p : nat) : Z := nth p corpus 0%Z.
Let incp (co : option (ndarray Z)) (pq : nat * nat) : option (ndarray Z) :=
  co_increment vocab_size co (c (fst pq)) (c (snd pq)).

(** The two loops of [create_co_matrix] as one loop over the pairs of
    positions. *)
Lemma create_co_matrix_flat (window_size : nat) :
  create_co_matrix corpus vocab_size window_size
  = fold_left incp (window_pairs n window_size)
              (Some (full [vocab_size; vocab_size] 0%Z)).
Proof.
  unfold create_co_matrix. rewrite (enumerate_as_map corpus 0%Z).
  rewrite <- fold_left_map'. unfold window_pairs.
  rewrite <- fold_left_flat_map. apply fold_left_ext_in.
  intros acc p Hp. apply in_seq in Hp. fold n in Hp. fold (c p).
  unfold py_range.
  replace (Z.to_nat (Z.of_nat window_size + 1 - 1)) with window_size by lia.
  rewrite <- fold_left_map'. rewrite <- fold_left_flat_map.
  rewrite <- seq_shift, <- fold_left_map'.
  apply fold_left_ext'. intros co k.
  rewrite fold_left_app.
  replace (Z.of_nat p - (1 + Z.of_nat k) >=? 0)%Z with (S k <=? p).
  2:{ destruct (Nat.leb_spec (S k) p); symmetry;
        [apply Z.geb_le|rewrite Z.geb_leb; apply Z.leb_gt]; lia. }
  replace (Z.of_nat p + (1 + Z.of_nat k) <? Z.of_nat (length corpus))%Z
    with (p + S k <? n).
  2:{ unfold n. destruct (Nat.ltb_spec (p + S k) (length corpus)); symmetry;
        [apply Z.ltb_lt|apply Z.ltb_ge]; lia. }
  assert (Hleft : S k <= p ->
            py_index corpus (Z.of_nat p - (1 + Z.of_nat k))
            = Some (c (p - S k))).
  { intros Hk.
    replace (Z.of_nat p - (1 + Z.of_nat k))%Z with (Z.of_nat (p - S k))
      by lia.
    rewrite py_index_of_nat by lia. apply nth_error_nth'. lia. }
  assert (Hright : p + S k < n ->
            py_index corpus (Z.of_nat p + (1 + Z.of_nat k))
            = Some (c (p + S k))).
  { intros Hk.
    replace (Z.of_nat p + (1 + Z.of_nat k))%Z with (Z.of_nat (p + S k))
      by lia.
    rewrite py_index_of_nat by exact Hk. apply nth_error_nth'. exact Hk. }
  destruct (Nat.leb_spec (S k) p) as [Hl|Hl];
    destruct (Nat.ltb_spec (p + S k) n) as [Hr|Hr];
    try rewrite (Hleft Hl); try rewrite (Hright Hr); reflexivity.
Qed.

(** After the loop every cell has been incremented once for each pair
    that names it. *)
Lemma co_increment_fold (l : list (nat * nat)) (C0 : ndarray Z) :
  shape C0 = [vocab_size; vocab_size] -> wf C0 ->
  (forall pq, In pq l ->
     (- Z.of_nat vocab_size <= c (fst pq) < Z.of_nat vocab_size)%Z /\
     (- Z.of_nat vocab_size <= c (snd pq) < Z.of_nat vocab_size)%Z) ->
  exists C,
    fold_left incp l (Some C0) = Some C /\
    shape C = [vocab_size; vocab_size] /\ wf C /\
    forall a b, a < vocab_size -> b < vocab_size ->
      get C [a; b]
      = Nat.iter
          (length (filter (fun pq =>
                             (word_at corpus vocab_size (fst pq) =? a)
                             && (word_at corpus vocab_size (snd pq) =? b)) l))
          (fun v => wrap_int32 (v + 1)) (get C0 [a; b]).
Proof.
  revert C0. induction l as [|[p q] l IH]; intros C0 Hs Hwf Hv.
  - exists C0. repeat split; auto.
  - destruct (Hv (p, q) (or_introl eq_refl)) as [Hp Hq]. cbn [fst snd] in *.
    cbn [fold_left]. unfold incp at 2, co_increment. cbn [obind fst snd].
    assert (Hnorm : forall z,
              (- Z.of_nat vocab_size <= z < Z.of_nat vocab_size)%Z ->
              norm_index vocab_size z
              = Some (Z.to_nat (z mod Z.of_nat vocab_size)) /\
              Z.to_nat (z mod Z.of_nat vocab_size) < vocab_size).
    { intros z Hz. unfold norm_index, norm_axis.
      replace ((- Z.of_nat vocab_size <=? z)%Z && (z <? Z.of_nat vocab_size)%Z)
        with true
        by (symmetry; apply andb_true_iff;
            split; [apply Z.leb_le|apply Z.ltb_lt]; lia).
      split; [reflexivity|].
      pose proof (Z.mod_pos_bound z (Z.of_nat vocab_size)). lia. }
    destruct (Hnorm _ Hp) as [-> Ha]. destruct (Hnorm _ Hq) as [-> Hb].
    cbn [obind]. fold (word_at corpus vocab_size p).
    fold (word_at corpus vocab_size q).
    fold (word_at corpus vocab_size p) in Ha.
    fold (word_at corpus vocab_size q) in Hb.
    set (ap := word_at corpus vocab_size p) in *.
    set (bq := word_at corpus vocab_size q) in *.
    set (C1 := set C0 [ap; bq] (wrap_int32 (get C0 [ap; bq] + 1))).
    destruct (IH C1) as (C & Hrun & HsC & HwC & Hget).
    { exact Hs. }
    { apply wf_set. exact Hwf. }
    { intros pq Hpq. apply Hv. now right. }
    exists C. split; [exact Hrun|]. split; [exact HsC|]. split; [exact HwC|].
    intros a b Hab Hbb. rewrite (Hget a b Hab Hbb). cbn [filter fst snd].
    fold ap bq. unfold C1.
    rewrite get_set;
      [|exact Hwf|rewrite Hs; repeat constructor; assumption
       |rewrite Hs; repeat constructor; assumption].
    unfold idx_eqb.
    destruct (list_eq_dec Nat.eq_dec [ap; bq] [a; b]) as [E|E].
    + injection E as -> ->. rewrite !Nat.eqb_refl. cbn [andb length].
      now rewrite Nat.iter_succ_r.
    + replace ((ap =? a) && (bq =? b)) with false; [reflexivity|].
      symmetry. apply andb_false_iff.
      destruct (Nat.eqb_spec ap a) as [->|]; [|now left].
      destruct (Nat.eqb_spec bq b) as [->|]; [congruence|now right].
Qed.
End CoMatrix.

Lemma Permutation_filter' {X} (P : X -> bool) (l l' : list X) :
  Permutation l l' -> Permutation (filter P l) (filter P l').
Proof.
  induction 1 as [|x l l' _ IH|x y l|l l' l'' _ IH1 _ IH2]; simpl.
  - constructor.
  - destruct (P x); [now constructor|exact IH].
  - destruct (P x), (P y); try reflexivity. constructor.
  - now transitivity (filter P l').
Qed.

Lemma Permutation_flat_map_pointwise {X Y} (f g : X -> list Y) (l : list X) :
  (forall x, In x l -> Permutation (f x) (g x)) ->
  Permutation (flat_map f l) (flat_map g l).
Proof.
  induction l as [|x l IH]; intros Hfg; simpl; [constructor|].
  apply Permutation_app; [apply Hfg; now left|].
  apply IH. intros; apply Hfg; now right.
Qed.

Lemma NoDup_flat_map_disjoint {X Y} (f : X -> list Y) (l : list X) :
  NoDup l -> (forall x, In x l -> NoDup (f x)) ->
  (forall x x' y, In x l -> In x' l -> In y (f x) -> In y (f x') -> x = x') ->
  NoDup (flat_map f l).
Proof.
  induction 1 as [|x l Hx Hnd IH]; intros Hf Hdis; simpl; [constructor|].
  apply NoDup_app.
  - apply Hf. now left.
  - apply IH; [intros; apply Hf; now right|].
    intros x1 x2 y H1 H2. apply Hdis; now right.
  - intros y Hy Hy'. apply in_flat_map in Hy' as (x' & Hx' & Hy').
    assert (x = x') by (apply (Hdis x x' y); auto; [now left|now right]).
    subst. contradiction.
Qed.

Lemma filter_filter' {X} (P Q : X -> bool) (l : list X) :
  filter P (filter Q l) = filter (fun x => Q x && P x) l.
Proof.
  induction l as [|x l IH]; simpl; [reflexivity|].
  destruct (Q x); simpl; [destruct (P x)|]; now rewrite IH.
Qed.

Lemma near_spec (w p q : nat) :
  near w p q = true <-> p <> q /\ p - q <= w /\ q - p <= w.
Proof.
  unfold near. rewrite !andb_true_iff, negb_true_iff, Nat.eqb_neq,
    !Nat.leb_le. tauto.
Qed.

Lemma list_prod_flat_map {X Y} (l : list X) (l' : list Y) :
  list_prod l l' = flat_map (fun x => map (pair x) l') l.
Proof.
  induction l as [|x l IH]; simpl; [reflexivity|]. now rewrite IH.
Qed.

Lemma NoDup_list_prod' {X Y} (l : list X) (l' : list Y) :
  NoDup l -> NoDup l' -> NoDup (list_prod l l').
Proof.
  intros Hl Hl'. induction Hl as [|x l Hx _ IH]; simpl; [constructor|].
  apply NoDup_app.
  - apply Injective_map_NoDup; [intros a b E; now injection E|exact Hl'].
  - exact IH.
  - intros [a b] Ha Hb. apply in_map_iff in Ha as (y & E & _).
    injection E as <- <-. apply in_prod_iff in Hb as [Hb _]. contradiction.
Qed.

(** The loops visit every pair of positions near each other once. *)
Lemma window_pairs_near (n w : nat) :
  Permutation
    (window_pairs n w)
    (filter (fun pq => near w (fst pq) (snd pq))
            (list_prod (seq 0 n) (seq 0 n))).
Proof.
  unfold window_pairs.
  rewrite list_prod_flat_map.
  rewrite filter_flat_map'.
  apply Permutation_flat_map_pointwise. intros p Hp. apply in_seq in Hp.
  apply NoDup_Permutation.
  - apply NoDup_flat_map_disjoint.
    + apply seq_NoDup.
    + intros i Hi. apply in_seq in Hi.
      destruct (i <=? p) eqn:E1; destruct (p + i <? n) eqn:E2; simpl;
        repeat constructor; simpl; try tauto.
      intros [E|[]]. apply Nat.leb_le in E1. injection E as E. lia.
    + intros i j y Hi Hj Hyi Hyj. apply in_seq in Hi. apply in_seq in Hj.
      destruct (Nat.leb_spec i p); destruct (Nat.ltb_spec (p + i) n);
        destruct (Nat.leb_spec j p); destruct (Nat.ltb_spec (p + j) n);
        simpl in Hyi, Hyj;
        repeat match goal with
               | H : _ \/ _ |- _ => destruct H
               | H : False |- _ => contradiction
               end; subst;
        match goal with
        | H : (_, _) = (_, _) |- _ => injection H as H; lia
        end.
  - apply NoDup_filter. apply Injective_map_NoDup; [|apply seq_NoDup].
    intros a b E. now injection E.
  - intros [p' q]. rewrite in_flat_map, filter_In, in_map_iff. cbn [fst snd].
    rewrite near_spec. split.
    + intros (i & Hi & Hy). apply in_seq in Hi.
      destruct (Nat.leb_spec i p); destruct (Nat.ltb_spec (p + i) n);
        simpl in Hy;
        repeat match goal with
               | H : _ \/ _ |- _ => destruct H
               | H : False |- _ => contradiction
               end;
        match goal with
        | H : (_, _) = (_, _) |- _ => injection H as <- <-
        end;
        (split; [eexists; split; [reflexivity|apply in_seq; lia]|lia]).
    + intros [(q0 & E & Hq) (Hne & H1 & H2)]. injection E as <- ->.
      apply in_seq in Hq.
      destruct (Nat.lt_ge_cases q p) as [Hlt|Hge].
      * exists (p - q). split; [apply in_seq; lia|].
        apply in_or_app. left.
        replace (p - q <=? p) with true by (symmetry; apply Nat.leb_le; lia).
        left. f_equal. lia.
      * exists (q - p). split; [apply in_seq; lia|].
        apply in_or_app. right.
        replace (p + (q - p) <? n) with true
          by (symmetry; apply Nat.ltb_lt; lia).
        left. f_equal. lia.
Qed.

Lemma list_prod_swap (l : list nat) :
  NoDup l ->
  Permutation (list_prod l l) (map (fun pq => (snd pq, fst pq)) (list_prod l l)).
Proof.
  intros Hnd.
  assert (Hprod : NoDup (list_prod l l)) by now apply NoDup_list_prod'.
  apply NoDup_Permutation.
  - exact Hprod.
  - apply Injective_map_NoDup; [|exact Hprod].
    intros [a b] [a' b'] E. simpl in E. now injection E as -> ->.
  - intros [a b]. rewrite in_map_iff, in_prod_iff. split.
    + intros [Ha Hb]. exists (b, a). split; [reflexivity|].
      now apply in_prod_iff.
    + intros ([a' b'] & E & Hin). simpl in E. injection E as <- <-.
      apply in_prod_iff in Hin. tauto.
Qed.

Lemma near_sym (w p q : nat) : near w p q = near w q p.
Proof.
  unfold near. rewrite (Nat.eqb_sym p q). f_equal. apply andb_comm.
Qed.

Lemma cooccurrences_sym (corpus : list Z) (V w a b : nat) :
  cooccurrences corpus V w a b = cooccurrences corpus V w b a.
Proof.
  unfold cooccurrences.
  set (LP := list_prod (seq 0 (length corpus)) (seq 0 (length corpus))).
  rewrite (Permutation_length
             (Permutation_filter' _ _ _
                (list_prod_swap (seq 0 (length corpus)) (seq_NoDup _ _)))).
  fold LP. rewrite filter_map', length_map. f_equal.
  apply filter_ext. intros [p q]. cbn [fst snd].
  rewrite (near_sym w q p).
  destruct (near w p q), (word_at corpus V q =? a),
    (word_at corpus V p =? b); reflexivity.
Qed.

Lemma cooccurrences_le (corpus : list Z) (V w a b : nat) :
  cooccurrences corpus V w a b <= length corpus * length corpus.
Proof.
  unfold cooccurrences.
  etransitivity; [apply filter_length_le|].
  now rewrite length_prod, length_seq.
Qed.

(** X27.  [create_co_matrix(corpus, vocab_size, window_size)] on a corpus
    whose word ids lie within [-vocab_size, vocab_size) gives a
    [vocab_size] by [vocab_size] matrix whose entry [a, b] is the number
    of ordered pairs of different positions at most [window_size] apart
    that hold the words [a] and [b], as an [int32]: the count wraps around
    at [2^31], which a corpus of fewer than [2^31] position pairs cannot
    reach.  The matrix is symmetric. *)
Theorem create_co_matrix_counts_pairs
        (corpus : list Z) (vocab_size window_size : nat) :
  Forall (fun z => (- Z.of_nat vocab_size <= z < Z.of_nat vocab_size)%Z)
         corpus ->
  exists co_matrix,
    create_co_matrix corpus vocab_size window_size = Some co_matrix /\
    shape co_matrix = [vocab_size; vocab_size] /\ wf co_matrix /\
    forall a b, a < vocab_size -> b < vocab_size ->
      get co_matrix [a; b]
      = wrap_int32
          (Z.of_nat (cooccurrences corpus vocab_size window_size a b)) /\
      get co_matrix [a; b] = get co_matrix [b; a] /\
      ((Z.of_nat (length corpus) * Z.of_nat (length corpus) < 2 ^ 31)%Z ->
       get co_matrix [a; b]
       = Z.of_nat (cooccurrences corpus vocab_size window_size a b)).
Proof.
  intros Hv. rewrite create_co_matrix_flat.
  destruct (co_increment_fold corpus vocab_size
              (window_pairs (length corpus) window_size)
              (full [vocab_size; vocab_size] 0%Z) eq_refl (wf_tabulate _ _))
    as (C & Hrun & Hs & Hwf & Hget).
  { intros [p q] Hpq.
    apply (Permutation_in _ (window_pairs_near _ _)) in Hpq.
    apply filter_In in Hpq as [Hpq _]. apply in_prod_iff in Hpq as [Hp Hq].
    apply in_seq in Hp. apply in_seq in Hq. cbn [fst snd].
    split; apply (proj1 (Forall_forall _ _) Hv), nth_In; lia. }
  exists C. split; [exact Hrun|]. split; [exact Hs|]. split; [exact Hwf|].
  assert (Hval : forall a b, a < vocab_size -> b < vocab_size ->
            get C [a; b]
            = wrap_int32
                (Z.of_nat (cooccurrences corpus vocab_size window_size a b))).
  { intros a b Ha Hb. rewrite (Hget a b Ha Hb).
    unfold full. rewrite get_tabulate by (repeat constructor; assumption).
    rewrite iter_increment. do 2 f_equal.
    rewrite (Permutation_length
               (Permutation_filter' _ _ _ (window_pairs_near _ _))).
    rewrite filter_filter'. unfold cooccurrences. f_equal.
    apply filter_ext. intros pq. now rewrite andb_assoc. }
  intros a b Ha Hb. split; [now apply Hval|]. split.
  - rewrite (Hval a b Ha Hb), (Hval b a Hb Ha).
    now rewrite cooccurrences_sym.
  - intros Hsmall. rewrite (Hval a b Ha Hb).
    pose proof (cooccurrences_le corpus vocab_size window_size a b) as Hle.
    unfold wrap_int32. rewrite Z.mod_small; [ring|].
    split; [lia|].
    assert (Z.of_nat (cooccurrences corpus vocab_size window_size a b)
            <= Z.of_nat (length corpus) * Z.of_nat (length corpus))%Z
      by (rewrite <- Nat2Z.inj_mul; lia).
    lia.
Qed.

Lemma create_co_matrix_counts_pairs_witness :
  exists co_matrix,
    create_co_matrix [0; 1; 2; 1]%Z 3 1 = Some co_matrix /\
    shape co_matrix = [3; 3] /\ wf co_matrix /\
    forall a b, a < 3 -> b < 3 ->
      get co_matrix [a; b]
      = wrap_int32 (Z.of_nat (cooccurrences [0; 1; 2; 1]%Z 3 1 a b)) /\
      get co_matrix [a; b] = get co_matrix [b; a] /\
      ((Z.of_nat (length [0; 1; 2; 1]%Z) * Z.of_nat (length [0; 1; 2; 1]%Z)
        < 2 ^ 31)%Z ->
       get co_matrix [a; b]
       = Z.of_nat (cooccurrences [0; 1; 2; 1]%Z 3 1 a b)).
Proof.
  apply (create_co_matrix_counts_pairs [0; 1; 2; 1]%Z 3 1).
  repeat (constructor; [simpl; lia|]). constructor.
Defined.
